(** * STAP-liver: region-graph matching by constrained local search

    A shallow embedding of the label-assignment engine of the repository:
    - [src/spine_liver_functions.py]: [compute_attributes], [build_graph],
      [normalize_graph], the three cost functions, [anisotropic_seeds] and
      [dice_coefficient];
    - [src/calibration.py]: the initial solution and the improvement loop;
    - [src/explorations/2d_full_process.py]: the contiguity guarantee (component
      detection and the [while -1 in solution] repair loop) and its variant of
      the improvement loop;
    - [src/hack_dice_optimal.py]: the solution read off the ground truth.

    numpy arrays of float64 are lists (vectors) and lists of rows (matrices)
    over a numeric interface [Num] with two instances: binary64 machine
    floats (the kernel's primitive floats, on which every definition
    evaluates) and exact extended reals (no rounding, same special values),
    used for the algebraic facts that only hold without rounding. *)

From Stdlib Require Import String.
From Stdlib Require Import List ZArith Lia Bool Arith PeanoNat Sorted Permutation.
From Stdlib Require Import Floats Uint63.
From Stdlib Require Import Reals Lra.
Import ListNotations.

Set Implicit Arguments.

(* ------------------------------------------------------------------ *)
(** * Numbers *)

(** What the code asks of a float64: arithmetic, square root, absolute
    value, comparisons, conversion from integers, and +infinity. *)
Class Num (F : Type) : Type := {
  f0 : F;
  f1 : F;
  finf : F;
  fadd : F -> F -> F;
  fsub : F -> F -> F;
  fmul : F -> F -> F;
  fdiv : F -> F -> F;
  fsqrt : F -> F;
  fabs : F -> F;
  feqb : F -> F -> bool;
  fltb : F -> F -> bool;
  fleb : F -> F -> bool;
  of_Z : Z -> F
}.

(** [x != x], numpy's [isnan]. *)
Definition fis_nan {F} `{Num F} (x : F) : bool := negb (feqb x x).

(** A Python int converted to float64 (exact below 2^53). *)
Definition float_of_Z (z : Z) : float :=
  match z with
  | Z0 => PrimFloat.zero
  | Zpos _ => PrimFloat.of_uint63 (Uint63.of_Z z)
  | Zneg p => PrimFloat.opp (PrimFloat.of_uint63 (Uint63.of_Z (Zpos p)))
  end.

#[export] Instance float_Num : Num float := {
  f0 := PrimFloat.zero;
  f1 := PrimFloat.one;
  finf := PrimFloat.infinity;
  fadd := PrimFloat.add;
  fsub := PrimFloat.sub;
  fmul := PrimFloat.mul;
  fdiv := PrimFloat.div;
  fsqrt := PrimFloat.sqrt;
  fabs := PrimFloat.abs;
  feqb := PrimFloat.eqb;
  fltb := PrimFloat.ltb;
  fleb := PrimFloat.leb;
  of_Z := float_of_Z
}.

(* ------------------------------------------------------------------ *)
(** * numpy arrays *)

Section Arrays.
Context {F : Type} `{Num F}.

Local Abbreviation vec := (list F).
Local Abbreviation matrix := (list (list F)).

(** An elementwise operation of two arrays of one shape. On operands of
    different lengths numpy broadcasts an operand of length 1 and raises
    [ValueError] otherwise, where [map2] stops at the shorter one; the
    theorems that compare the cost functions with the formula of the
    specification take the shapes as hypotheses. *)
Fixpoint map2 {A B C} (f : A -> B -> C) (l : list A) (l' : list B) : list C :=
    match l, l' with
    | a :: t, b :: t' => f a b :: map2 f t t'
    | _, _ => []
    end.

Definition of_nat (n : nat) : F := of_Z (Z.of_nat n).

(** [np.sum] / [add.reduce] of a vector, left to right. This is numpy's
      order for a vector of fewer than 8 entries (the rows of 5 attributes
      and the weight tuples) and for a reduction along axis 0; a longer
      contiguous vector is added by numpy in blocks, which can change the
      last bits of a float64 result. *)
Definition np_sum (v : vec) : F := fold_left fadd v f0.

(** [np.mean] of a vector. *)
Definition np_mean (v : vec) : F := fdiv (np_sum v) (of_nat (length v)).

(** [M.shape[1]]. *)
Definition ncols (M : matrix) : nat :=
    match M with [] => 0 | r :: _ => length r end.

(** [np.ones(n)]. *)
Definition np_ones (n : nat) : vec := repeat f1 n.

(** Elementwise operations of two vectors and of two matrices of one shape;
      a vector against a matrix is broadcast over the rows. *)
Definition vadd : vec -> vec -> vec := map2 fadd.
Definition vsub : vec -> vec -> vec := map2 fsub.
Definition vmul : vec -> vec -> vec := map2 fmul.
Definition vdiv : vec -> vec -> vec := map2 fdiv.
Definition msub : matrix -> matrix -> matrix := map2 vsub.
Definition msub_row (M : matrix) (v : vec) : matrix := map (fun r => vsub r v) M.
Definition mdiv_row (M : matrix) (v : vec) : matrix := map (fun r => vdiv r v) M.
Definition mmul_row (v : vec) (M : matrix) : matrix := map (fun r => vmul v r) M.

(** [np.linalg.norm(M, axis=-1)]: [sqrt(add.reduce(x * x))] on every row. *)
Definition norm_row (r : vec) : F := fsqrt (np_sum (map (fun x => fmul x x) r)).
Definition linalg_norm (M : matrix) : vec := map norm_row M.

(** [M.sum(axis=0)], [M.mean(axis=0)] and [M.std(axis=0)]: the rows are
      added up elementwise; the standard deviation is
      [sqrt(mean(abs(M - mean)**2))]. *)
Definition sum_axis0 (M : matrix) : vec :=
    fold_left vadd M (repeat f0 (ncols M)).
Definition mean_axis0 (M : matrix) : vec :=
    map (fun s => fdiv s (of_nat (length M))) (sum_axis0 M).
Definition std_axis0 (M : matrix) : vec :=
    let d := msub_row M (mean_axis0 M) in
    map fsqrt (mean_axis0 (map (map (fun x => fmul x x)) d)).

(** [M[:, :-1]]: every row without its last entry. *)
Definition drop_last_col (M : matrix) : matrix := map (@removelast F) M.

(** [a[a == 0] = 1] on a vector. *)
Definition zeros_to_one (v : vec) : vec :=
    map (fun x => if feqb x f0 then f1 else x) v.

(* ---------------------------------------------------------------- *)
(** * Cost model ([spine_liver_functions.py], lines 111-135) *)

(** [weights = np.array(weights)/sum(weights)]. *)
Definition renormalize (weights : vec) : vec :=
    map (fun w => fdiv w (np_sum weights)) weights.

Definition compute_initial_vertex_cost
      (vertices1 vertices2 : matrix) (weights : option vec) : vec :=
    let weights :=
      match weights with
      | None => np_ones (ncols vertices1 - 1)
      | Some w => w
      end in
    let weights := renormalize weights in
    linalg_norm
      (mmul_row weights (msub (drop_last_col vertices1) (drop_last_col vertices2))).

Definition compute_vertex_cost
      (vertices1 vertices2 : matrix) (weights : option vec) : vec :=
    let weights :=
      match weights with
      | None => np_ones (ncols vertices1)
      | Some w => w
      end in
    let weights := renormalize weights in
    linalg_norm (mmul_row weights (msub vertices1 vertices2)).

Definition compute_edge_cost
      (edges1 edges2 : matrix) (weights : option vec) : vec :=
    let weights :=
      match weights with
      | None => np_ones (ncols edges1)
      | Some w => w
      end in
    let weights := renormalize weights in
    linalg_norm (mmul_row weights (msub edges1 edges2)).

(** The formula of the specification for one pair of attribute vectors,
      [|| w (.) (a - b) ||_2] with [w] renormalized to sum 1, written out on
      the arithmetic alone and on none of the definitions above: every
      weight is divided by the sum of the weights and multiplied into the
      difference, and the squares are added up under the root. *)
Definition weighted_distance (w a b : vec) : F :=
    let total := fold_left fadd w f0 in
    let unit_w := map (fun x => fdiv x total) w in
    fsqrt (fold_left fadd
             (map (fun t => fmul t t) (map2 fmul unit_w (map2 fsub a b))) f0).

(** The textbook weighted Euclidean distance, with the weight inside the
      squared term: [sqrt(sum_i w_i (a_i - b_i)^2)]. *)
Definition textbook_distance (w a b : vec) : F :=
    let total := fold_left fadd w f0 in
    let unit_w := map (fun x => fdiv x total) w in
    fsqrt (fold_left fadd
             (map2 fmul unit_w (map (fun t => fmul t t) (map2 fsub a b))) f0).

End Arrays.

(* ------------------------------------------------------------------ *)
(** * Labelmaps and [np.unique] *)

(** A 3D integer array: its shape and its entries in C order. The volume
    it annotates is used flattened ([volume.flatten()]). *)
Record LabelMap : Type := {
  lm_shape : nat * nat * nat;
  lm_data : list Z
}.

(** A voxel is its grid index; [all_voxels] lists the grid in C order, the
    order of the flattened array. *)
Definition voxel : Type := (nat * nat * nat)%type.

Definition all_voxels (sh : nat * nat * nat) : list voxel :=
  let '(nx, ny, nz) := sh in
  flat_map (fun x => flat_map (fun y => map (fun z => (x, y, z)) (seq 0 nz)) (seq 0 ny))
           (seq 0 nx).

(** The coordinate of a voxel along axis [dir]. *)
Definition coord (dir : nat) (c : voxel) : Z :=
  let '(x, y, z) := c in
  match dir with
  | 0 => Z.of_nat x
  | 1 => Z.of_nat y
  | _ => Z.of_nat z
  end.

Fixpoint insert_unique (x : Z) (l : list Z) : list Z :=
  match l with
  | [] => [x]
  | y :: t =>
      if (x <? y)%Z then x :: l
      else if (x =? y)%Z then l
      else y :: insert_unique x t
  end.

(** [np.unique(a)]: the sorted distinct values. *)
Definition np_unique (a : list Z) : list Z := fold_right insert_unique [] a.

(** Position of [x] in [l] ([length l] when absent). *)
Fixpoint index_of (x : Z) (l : list Z) : nat :=
  match l with
  | [] => 0
  | y :: t => if (x =? y)%Z then 0 else S (index_of x t)
  end.

(** [np.unique(a, return_inverse=True)[1]]. *)
Definition unique_inverse (a : list Z) : list nat :=
  map (fun x => index_of x (np_unique a)) a.

(** [np.unique(a, return_counts=True)[1]]. *)
Definition unique_counts (a : list Z) : list Z :=
  map (fun l => Z.of_nat (length (filter (Z.eqb l) a))) (np_unique a).

(** [x in a] for an integer and an integer array. *)
Definition mem_Z (x : Z) (a : list Z) : bool := existsb (Z.eqb x) a.

(** [a[mask]] for a boolean mask. *)
Fixpoint mask_select {A} (a : list A) (mask : list bool) : list A :=
  match a, mask with
  | x :: t, b :: m => if b then x :: mask_select t m else mask_select t m
  | _, _ => []
  end.

(** [np.where(a == x)[0]] on a flat array. *)
Definition positions_of (x : Z) (a : list Z) : list nat :=
  mask_select (seq 0 (length a)) (map (Z.eqb x) a).

(** [np.repeat(a, k, axis=0)] and [np.vstack([a]*k)] / [np.hstack([a]*k)]. *)
Definition np_repeat {A} (a : list A) (k : nat) : list A :=
  flat_map (fun x => repeat x k) a.
Definition np_tile {A} (a : list A) (k : nat) : list A := concat (repeat a k).

(* ------------------------------------------------------------------ *)
(** * Graph builder ([spine_liver_functions.py], lines 26-81) *)

Section GraphBuilder.
Context {F : Type} `{Num F}.
Local Abbreviation vec := (list F).
Local Abbreviation matrix := (list (list F)).

(** The class [SRG] (module [srg], not among the sources): a plain record
    of the four constructor arguments. *)
Record SRG : Type := {
  vertices : matrix;
  edges : matrix;
  vertex_attributes : list String.string;
  edge_attributes : list String.string
}.

(** [scipy.ndimage.center_of_mass(np.ones_like(labelmap), labels=labelmap,
    index=labels)]: per label and per axis, the sum of the grid coordinates
    of its voxels over their number. *)
Definition measure_center_of_mass (labelmap : LabelMap) (index : list Z) : matrix :=
  map (fun label =>
         let voxels := mask_select (all_voxels (lm_shape labelmap))
                                   (map (Z.eqb label) (lm_data labelmap)) in
         map (fun dir =>
                fdiv (np_sum (map (fun c => of_Z (coord dir c)) voxels))
                     (of_nat (length voxels)))
             [0; 1; 2])
      index.

Inductive attributes : Type :=
| Centroids (c : matrix)
| Intensities (v : vec)
| Sizes (s : list Z).

(** [None] stands for the exception raised on an unsupported attribute. *)
Definition compute_attributes (volume : vec) (labelmap : LabelMap)
    (attribute : String.string) : option attributes :=
  if String.eqb attribute "centroid" then
    let labels := np_unique (lm_data labelmap) in
    Some (Centroids (measure_center_of_mass labelmap labels))
  else if String.eqb attribute "intensity" then
    let labels := np_unique (lm_data labelmap) in
    let indexes := unique_inverse (lm_data labelmap) in
    Some (Intensities
            (map (fun i => np_mean (mask_select volume (map (Nat.eqb i) indexes)))
                 (seq 0 (length labels))))
  else if String.eqb attribute "size" then
    Some (Sizes (unique_counts (lm_data labelmap)))
  else None.

(** [np.column_stack([M, a, b])]. *)
Definition column_stack (M : matrix) (a b : vec) : matrix :=
  map2 (fun r ab => r ++ [fst ab; snd ab]) M (combine a b).

(** The loop of lines 60-65: the rows of [vertices] for the labels
    [label, label+1, ...], with the running [actual_index]. *)
Fixpoint target_rows (actual_labels : list Z) (centroids : matrix)
    (intensities : vec) (sizes : list Z) (labels : list nat) (actual_index : nat)
    : matrix :=
  match labels with
  | [] => []
  | label :: rest =>
      if mem_Z (Z.of_nat label) actual_labels then
        (nth actual_index centroids []
           ++ [nth actual_index intensities f0; of_Z (nth actual_index sizes 0%Z)])
          :: target_rows actual_labels centroids intensities sizes rest (S actual_index)
      else
        repeat finf 5
          :: target_rows actual_labels centroids intensities sizes rest actual_index
  end.

Definition vertex_names : list String.string :=
  ["centroid_x"; "centroid_y"; "centroid_z"; "intensity"; "size"]%string.
Definition edge_names : list String.string :=
  ["position_x"; "position_y"; "position_z"; "contrast"; "ratio"]%string.

(** Lines 71-78: the relational attributes of all ordered pairs of
    vertices, pair (i, j) at row [i * n + j]. *)
Definition relational_edges (vertices : matrix) : matrix :=
  let centroids := map (firstn 3) vertices in
  let intensities := map (fun r => nth 3 r f0) vertices in
  let sizes := map (fun r => nth 4 r f0) vertices in
  let n := length vertices in
  let positions := msub (np_repeat centroids n) (np_tile centroids n) in
  let contrasts := map fabs (vsub (np_repeat intensities n) (np_tile intensities n)) in
  let ratios := vdiv (np_repeat sizes n) (np_tile sizes n) in
  column_stack positions contrasts ratios.

Definition build_graph (volume : vec) (labelmap : LabelMap) (add_edges : bool)
    (target_vertices : option nat) : SRG :=
  let centroids :=
    match compute_attributes volume labelmap "centroid" with
    | Some (Centroids c) => c | _ => [] end in
  let intensities :=
    match compute_attributes volume labelmap "intensity" with
    | Some (Intensities v) => v | _ => [] end in
  let sizes :=
    match compute_attributes volume labelmap "size" with
    | Some (Sizes s) => s | _ => [] end in
  let vertices :=
    match target_vertices with
    | None => column_stack centroids intensities (map of_Z sizes)
    | Some target_vertices =>
        let actual_labels := np_unique (lm_data labelmap) in
        target_rows actual_labels centroids intensities sizes (seq 0 target_vertices) 0
    end in
  if negb add_edges then
    {| vertices := vertices; edges := [];
       vertex_attributes := vertex_names; edge_attributes := [] |}
  else
    {| vertices := vertices; edges := relational_edges vertices;
       vertex_attributes := vertex_names; edge_attributes := edge_names |}.

End GraphBuilder.

(* ------------------------------------------------------------------ *)
(** * Normalizer ([spine_liver_functions.py], lines 83-109) *)

Section Normalizer.
Context {F : Type} `{Num F}.
Local Abbreviation vec := (list F).
Local Abbreviation matrix := (list (list F)).

(** [(M - mean) / std], row by row. *)
Definition standardize (M : matrix) (mean std : vec) : matrix :=
  mdiv_row (msub_row M mean) std.

(** What a call leaves behind: the graph, the four statistics as the local
    variables hold them at the [return], and whether they are returned
    with the graph ([return_values]). *)
Record Normalized : Type := {
  n_graph : SRG (F:=F);
  n_mean_vertex : option vec;
  n_std_vertex : option vec;
  n_mean_edge : option vec;
  n_std_edge : option vec;
  n_return_values : bool
}.

Definition is_None {A} (o : option A) : bool :=
  match o with None => true | Some _ => false end.

Definition or_else {A} (o : option A) (d : A) : A :=
  match o with None => d | Some a => a end.

(** The value-level reading of [normalize_graph]; the in-place effects on
    the argument objects are in [normalize_graph_heap] below. *)
Definition normalize_graph (graph : SRG)
    (mean_vertex std_vertex mean_edge std_edge : option vec) : Normalized :=
  let return_values :=
    is_None mean_vertex || is_None std_vertex || is_None mean_edge || is_None std_edge in
  let vertices0 := vertices graph in
  let mean_vertex := or_else mean_vertex (mean_axis0 vertices0) in
  let std_vertex := or_else std_vertex (std_axis0 vertices0) in
  let std_vertex := zeros_to_one std_vertex in
  let vertices1 := standardize vertices0 mean_vertex std_vertex in
  if (0 <? length (edges graph))%nat then
    let edges0 := edges graph in
    let mean_edge := or_else mean_edge (mean_axis0 edges0) in
    let std_edge := or_else std_edge (std_axis0 edges0) in
    let std_edge := zeros_to_one std_edge in
    let edges1 := standardize edges0 mean_edge std_edge in
    {| n_graph := {| vertices := vertices1; edges := edges1;
                     vertex_attributes := vertex_attributes graph;
                     edge_attributes := edge_attributes graph |};
       n_mean_vertex := Some mean_vertex; n_std_vertex := Some std_vertex;
       n_mean_edge := Some mean_edge; n_std_edge := Some std_edge;
       n_return_values := return_values |}
  else
    {| n_graph := {| vertices := vertices1; edges := edges graph;
                     vertex_attributes := vertex_attributes graph;
                     edge_attributes := edge_attributes graph |};
       n_mean_vertex := Some mean_vertex; n_std_vertex := Some std_vertex;
       n_mean_edge := mean_edge; n_std_edge := std_edge;
       n_return_values := return_values |}.

End Normalizer.

(* ------------------------------------------------------------------ *)
(** * numpy reductions with their NaN rules, and Python's [sorted] *)

Section Reductions.
Context {F : Type} `{Num F}.
Local Abbreviation vec := (list F).

(** The scan of [np.argmin] on float64: the running minimum [mp] at
    [min_ind] is replaced by the entry [x] at [i] when [not (x >= mp)], and
    the scan stops at the first NaN. Returns the index and the value. *)
Fixpoint argmin_scan (mp : F) (min_ind i : nat) (a : vec) : nat * F :=
  match a with
  | [] => (min_ind, mp)
  | x :: t =>
      if negb (fleb mp x) then
        if fis_nan x then (i, x) else argmin_scan x i (S i) t
      else argmin_scan mp min_ind (S i) t
  end.

Definition min_scan (a : vec) : option (nat * F) :=
  match a with
  | [] => None
  | x :: t => if fis_nan x then Some (0, x) else Some (argmin_scan x 0 1 t)
  end.

(** [np.argmin(a)] and [np.min(a)]; [None] is the [ValueError] on an empty
    array. *)
Definition np_argmin (a : vec) : option nat := option_map fst (min_scan a).
Definition np_min (a : vec) : option F := option_map snd (min_scan a).

(** [np.argmax], the same scan with [not (x <= mp)]. *)
Fixpoint argmax_scan (mp : F) (max_ind i : nat) (a : vec) : nat :=
  match a with
  | [] => max_ind
  | x :: t =>
      if negb (fleb x mp) then
        if fis_nan x then i else argmax_scan x i (S i) t
      else argmax_scan mp max_ind (S i) t
  end.

Definition np_argmax (a : vec) : option nat :=
  match a with
  | [] => None
  | x :: t => if fis_nan x then Some 0 else Some (argmax_scan x 0 1 t)
  end.

(** [enumerate(a)]. *)
Definition enumerate {A} (a : list A) : list (nat * A) :=
  combine (seq 0 (length a)) a.

(** [sorted(l, key=lambda x: x[1], reverse=True)]: stable, descending; an
    entry goes before the first one whose key is strictly smaller. With a
    NaN among the keys the comparisons are not an order, and the place
    Python's sort gives an entry can differ from this one. *)
Fixpoint insert_desc (x : nat * F) (l : list (nat * F)) : list (nat * F) :=
  match l with
  | [] => [x]
  | y :: t => if fltb (snd y) (snd x) then x :: l else y :: insert_desc x t
  end.

Definition sorted_desc (l : list (nat * F)) : list (nat * F) :=
  fold_left (fun acc x => insert_desc x acc) l [].

End Reductions.

(** [a[i] = v] on a list; out of range the list is unchanged (the code
    never writes out of range). *)
Fixpoint set_nth {A} (i : nat) (v : A) (l : list A) : list A :=
  match l, i with
  | [], _ => []
  | _ :: t, O => v :: t
  | x :: t, S j => x :: set_nth j v t
  end.

(* ------------------------------------------------------------------ *)
(** * Spatial adjacency: [scipy.ndimage.label] and the region adjacency graph

    Both library functions are used with their default connectivity, the
    face neighbourhood of a voxel. *)

Definition voxel_eqb (a b : voxel) : bool :=
  let '(x, y, z) := a in
  let '(x', y', z') := b in
  (x =? x') && (y =? y') && (z =? z').

Definition mem_voxel (c : voxel) (l : list voxel) : bool := existsb (voxel_eqb c) l.

(** The face neighbours of a voxel inside a grid of shape [sh]. *)
Definition face_neighbours (sh : nat * nat * nat) (c : voxel) : list voxel :=
  let '(nx, ny, nz) := sh in
  let '(x, y, z) := c in
  (if 0 <? x then [(x - 1, y, z)] else [])
    ++ (if S x <? nx then [(S x, y, z)] else [])
    ++ (if 0 <? y then [(x, y - 1, z)] else [])
    ++ (if S y <? ny then [(x, S y, z)] else [])
    ++ (if 0 <? z then [(x, y, z - 1)] else [])
    ++ (if S z <? nz then [(x, y, S z)] else []).

(** [a[c]] for a flattened array [a] of shape [sh]; [d] outside the grid. *)
Fixpoint assoc_voxel {A} (c : voxel) (l : list (voxel * A)) (d : A) : A :=
  match l with
  | [] => d
  | (c', v) :: t => if voxel_eqb c c' then v else assoc_voxel c t d
  end.

Definition grid_get {A} (sh : nat * nat * nat) (a : list A) (c : voxel) (d : A) : A :=
  assoc_voxel c (combine (all_voxels sh) a) d.

Section Components.
Variable sh : nat * nat * nat.
Variable mask : voxel -> bool.

(** One round of flood fill: the voxels of [S] and their neighbours inside
    the mask. *)
Definition add_new (acc : list voxel) (w : voxel) : list voxel :=
  if mem_voxel w acc then acc else acc ++ [w].

Definition expand (S : list voxel) : list voxel :=
  fold_left add_new (flat_map (fun c => filter mask (face_neighbours sh c)) S) S.

(** The connected component of [seed]: as many rounds as the grid has
    voxels. *)
Definition flood (seed : voxel) : list voxel :=
  Nat.iter (length (all_voxels sh)) expand [seed].

(** The components in the order in which a C-order scan meets their first
    voxel. *)
Definition add_component (comps : list (list voxel)) (c : voxel) : list (list voxel) :=
  if mask c && negb (existsb (mem_voxel c) comps) then comps ++ [flood c] else comps.

Definition components : list (list voxel) :=
  fold_left add_component (all_voxels sh) [].

(** The number (from 1) of the first component holding [c]; 0 for the
    background. *)
Fixpoint component_id (comps : list (list voxel)) (c : voxel) : nat :=
  match comps with
  | [] => 0
  | comp :: rest =>
      if mem_voxel c comp then 1
      else match component_id rest c with 0 => 0 | S k => S (S k) end
  end.

End Components.

(** [scipy.ndimage.label(input)] on a boolean array: the labelled array and
    the number of components. *)
Definition ndi_label (sh : nat * nat * nat) (input : list bool) : LabelMap * nat :=
  let mask := fun c => grid_get sh input c false in
  let comps := components sh mask in
  ({| lm_shape := sh;
      lm_data := map (fun c => Z.of_nat (component_id comps c)) (all_voxels sh) |},
   length comps).

(** [skimage.future.graph.RAG(labelmap).adj[r].keys()]: the ids found on
    the face neighbours of the voxels of region [r], other than [r]. For an
    id without any neighbour (a single super-region, or an id that no voxel
    carries) the list is empty, where [adj[r]] raises [KeyError]. *)
Definition RAG (labelmap : LabelMap) (r : nat) : list nat :=
  let sh := lm_shape labelmap in
  let id_at := fun c => grid_get sh (lm_data labelmap) c (-1)%Z in
  nodup Nat.eq_dec
    (flat_map
       (fun c =>
          if (id_at c =? Z.of_nat r)%Z then
            map (fun c' => Z.to_nat (id_at c'))
                (filter (fun c' => negb (id_at c' =? Z.of_nat r)%Z) (face_neighbours sh c))
          else [])
       (all_voxels sh)).

(* ------------------------------------------------------------------ *)
(** * Assignment solver ([calibration.py], [explorations/2d_full_process.py]) *)

Section Solver.
Context {F : Type} `{Num F}.
Local Abbreviation vec := (list F).
Local Abbreviation matrix := (list (list F)).

(** The observation volume (flattened) and its over-segmentation. *)
Variable observation : vec.
Variable observed_labelmap : LabelMap.
(** The normalized model graph and the statistics fitted on it (step 2). *)
Variable model_graph : SRG (F:=F).
Variables mean_vertex std_vertex mean_edge std_edge : vec.
(** The weight tuples at the top of the scripts. *)
Variables initial_weights vertex_weights edge_weights : vec.
Variable graph_weights : F * F.

(** [model_graph.vertices.shape[0]]. *)
Definition n_model : nat := length (vertices model_graph).

(** [normalize_graph(g, mean_vertex, std_vertex, mean_edge, std_edge)]. *)
Definition normalized (g : SRG) : SRG :=
  n_graph (normalize_graph g (Some mean_vertex) (Some std_vertex)
                           (Some mean_edge) (Some std_edge)).

(** Step 4. *)
Definition super_graph : SRG :=
  normalized (build_graph observation observed_labelmap false None).
Definition super_adjacency : nat -> list nat := RAG observed_labelmap.

(** Step 5: the arg-min label of every super-vertex and its cost; [None]
    when [np.argmin] raises. *)
Definition initial_match (super_vertex : vec) : option (nat * F) :=
  let super_vertex_matrix := repeat super_vertex n_model in
  let costs := compute_initial_vertex_cost super_vertex_matrix (vertices model_graph)
                                           (Some initial_weights) in
  min_scan costs.

Fixpoint initial_solution_of (super_vertices : matrix) : option (list Z * vec) :=
  match super_vertices with
  | [] => Some ([], [])
  | super_vertex :: rest =>
      match initial_match super_vertex, initial_solution_of rest with
      | Some (l, c), Some (solution, solution_costs) =>
          Some (Z.of_nat l :: solution, c :: solution_costs)
      | _, _ => None
      end
  end.

Definition initial_solution : option (list Z * vec) :=
  initial_solution_of (vertices super_graph).

(** [np.zeros_like(observed_labelmap)]. *)
Definition zeros_like_observed : list Z :=
  repeat 0%Z (length (lm_data observed_labelmap)).

(** [a[observed_labelmap == element] = value]. *)
Definition assign_region (a : list Z) (element : nat) (value : Z) : list Z :=
  map2 (fun d o => if (o =? Z.of_nat element)%Z then value else d)
       a (lm_data observed_labelmap).

(** The joined labelmap of [calibration.py], one assignment per
    super-region. *)
Definition join_by_element (solution : list Z) : LabelMap :=
  {| lm_shape := lm_shape observed_labelmap;
     lm_data := fold_left (fun a ep => assign_region a (fst ep) (snd ep))
                          (enumerate solution) zeros_like_observed |}.

(** The joined labelmap of the contiguity code, one assignment per model
    label: [a[np.isin(observed, np.where(solution == label))] = label]. *)
Definition assign_label (solution : list Z) (a : list Z) (label : nat) : list Z :=
  let label_regions := positions_of (Z.of_nat label) solution in
  map2 (fun d o => if existsb (fun r => (Z.of_nat r =? o)%Z) label_regions
                   then Z.of_nat label else d)
       a (lm_data observed_labelmap).

Definition join_by_label (solution : list Z) : LabelMap :=
  {| lm_shape := lm_shape observed_labelmap;
     lm_data := fold_left (assign_label solution) (seq 0 n_model) zeros_like_observed |}.

(** The graph of a candidate labelmap, aligned with the model labels and
    standardized with the model statistics. *)
Definition graph_of (labelmap : LabelMap) : SRG :=
  normalized (build_graph observation labelmap true (Some n_model)).

(** [graph_weights[0]*np.mean(vertex costs) + graph_weights[1]*np.mean(edge
    costs)], the edge costs under the weights [edge_w] ([None]: the
    default). *)
Definition global_cost (g : SRG) (edge_w : option vec) : F :=
  fadd (fmul (fst graph_weights)
             (np_mean (compute_vertex_cost (vertices g) (vertices model_graph)
                                           (Some vertex_weights))))
       (fmul (snd graph_weights)
             (np_mean (compute_edge_cost (edges g) (edges model_graph) edge_w))).

(** The working labelmap: the joined one with one super-region relabelled. *)
Definition working_labelmap (joined_labelmap : LabelMap) (super_vertex_index : nat)
    (potential_prediction_index : Z) : LabelMap :=
  {| lm_shape := lm_shape joined_labelmap;
     lm_data := assign_region (lm_data joined_labelmap) super_vertex_index
                              potential_prediction_index |}.

(** The cost the code computes for a replacement (lines 124-134 of
    [calibration.py]): the edge costs are taken with the default weights. *)
Definition potential_cost (joined_labelmap : LabelMap) (super_vertex_index : nat)
    (potential_prediction_index : Z) : F :=
  global_cost (graph_of (working_labelmap joined_labelmap super_vertex_index
                                          potential_prediction_index)) None.

(** The labels held by the spatial neighbours (a Python [set]; the order of
    its iteration, which follows the hashes, is fixed here to that of
    [nodup], so that among candidates of equal cost the loops can settle on
    another label than the script does). *)
Definition potential_predictions (solution : list Z) (super_vertex_index : nat) : list Z :=
  nodup Z.eq_dec (map (fun neighbour => nth neighbour solution 0%Z)
                      (super_adjacency super_vertex_index)).

(** The state of the scripts between two epochs. *)
Record State : Type := {
  solution : list Z;
  solution_costs : vec;
  joined_labelmap : LabelMap;
  observation_graph : SRG (F:=F)
}.

(** One turn of the loop over [potential_predictions]: the pair is
    [(current_prediction_index, current_cost)]. *)
Definition try_prediction (joined : LabelMap) (super_vertex_index : nat)
    (current : Z * F) (potential_prediction_index : Z) : Z * F :=
  if (potential_prediction_index =? fst current)%Z then current
  else
    let cost := potential_cost joined super_vertex_index potential_prediction_index in
    if fltb cost (snd current) then (potential_prediction_index, cost) else current.

(** The cost of the state as the loop reads it before the candidates. *)
Definition current_cost (st : State) : F :=
  global_cost (observation_graph st) (Some edge_weights).

(** The body of the loop for one selected super-vertex, up to the two
    writes that end it. *)
Definition improve_vertex (st : State) (super_vertex_index : nat) : Z * F :=
  fold_left (try_prediction (joined_labelmap st) super_vertex_index)
            (potential_predictions (solution st) super_vertex_index)
            (nth super_vertex_index (solution st) 0%Z, current_cost st).

Definition improve_step (st : State) (super_vertex_index : nat) : State :=
  let current_prediction_index := fst (improve_vertex st super_vertex_index) in
  {| solution := set_nth super_vertex_index current_prediction_index (solution st);
     solution_costs := set_nth super_vertex_index f0 (solution_costs st);
     joined_labelmap := joined_labelmap st;
     observation_graph := observation_graph st |}.

(** End of an epoch: the joined labelmap and its graph are rebuilt from the
    solution. *)
Definition rebuild (st : State) : State :=
  let joined := join_by_element (solution st) in
  {| solution := solution st;
     solution_costs := solution_costs st;
     joined_labelmap := joined;
     observation_graph := graph_of joined |}.

(** The super-vertices an epoch of [calibration.py] attempts: the
    [improvement_cutoff] most expensive ones. *)
Definition selected (improvement_cutoff : nat) (st : State) : list nat :=
  map fst (firstn improvement_cutoff (sorted_desc (enumerate (solution_costs st)))).

Definition improvement_epoch (improvement_cutoff : nat) (st : State) : State :=
  rebuild (fold_left improve_step (selected improvement_cutoff st) st).

Definition improvement (total_epochs improvement_cutoff : nat) (st : State) : State :=
  Nat.iter total_epochs (improvement_epoch improvement_cutoff) st.

(** The epoch of [2d_full_process.py]: the single super-vertex
    [np.argmax(solution_costs)]. *)
Definition improvement_epoch_2d (st : State) : option State :=
  match np_argmax (solution_costs st) with
  | None => None
  | Some super_vertex_index => Some (rebuild (improve_step st super_vertex_index))
  end.

(** The state after step 6 (region joining). *)
Definition joined_state (solution : list Z) (solution_costs : vec) : State :=
  rebuild {| solution := solution; solution_costs := solution_costs;
             joined_labelmap := join_by_element solution;
             observation_graph := graph_of (join_by_element solution) |}.

(** ** Contiguity guarantee ([2d_full_process.py], lines 97-167) *)

(** [solution[regions] = value]. *)
Definition assign_all (regions : list nat) (value : Z) (solution : list Z) : list Z :=
  fold_left (fun s r => set_nth r value s) regions solution.

(** [np.isin(observed_labelmap_data, np.where(solution==label))]. *)
Definition solution_map (solution : list Z) (label : nat) : list bool :=
  let label_regions := positions_of (Z.of_nat label) solution in
  map (fun o => existsb (fun r => (Z.of_nat r =? o)%Z) label_regions)
      (lm_data observed_labelmap).

(** [ndi.label(solution_map)]: the connected components of the label. *)
Definition potential_regions (solution : list Z) (label : nat) : LabelMap * nat :=
  ndi_label (lm_shape observed_labelmap) (solution_map solution label).

(** The array [costs] of the detection: one entry per value of
    [potential_region_map], the background first when there is one. *)
Definition component_costs (solution : list Z) (label : nat) (model_vertex : vec) : vec :=
  let potential_region_map := fst (potential_regions solution label) in
  let potential_region_super_graph :=
    normalized (build_graph observation potential_region_map false None) in
  let model_label_vertex_matrix :=
    repeat model_vertex (length (vertices potential_region_super_graph)) in
  compute_initial_vertex_cost (vertices potential_region_super_graph)
                              model_label_vertex_matrix (Some initial_weights).

(** The body of the detection loop for one label; [None] when
    [np.argmin] raises on an empty array. *)
Definition detect_label (solution : list Z) (label : nat) (model_vertex : vec)
    : option (list Z) :=
  let label_regions := positions_of (Z.of_nat label) solution in
  let '(potential_region_map, potential_region_count) :=
    potential_regions solution label in
  if potential_region_count =? 1 then Some solution
  else
    match np_argmin (tl (component_costs solution label model_vertex)) with
    | None => None
    | Some a =>
        let actual_region := Z.of_nat (a + 1) in
        let correct_vertexes :=
          np_unique (mask_select (lm_data observed_labelmap)
                                 (map (Z.eqb actual_region) (lm_data potential_region_map))) in
        Some (assign_all (map Z.to_nat correct_vertexes) (Z.of_nat label)
                         (assign_all label_regions (-1)%Z solution))
    end.

Fixpoint detect_from (label : nat) (model_vertices : matrix) (solution : list Z)
    : option (list Z) :=
  match model_vertices with
  | [] => Some solution
  | model_vertex :: rest =>
      match detect_label solution label model_vertex with
      | None => None
      | Some solution' => detect_from (S label) rest solution'
      end
  end.

Definition contiguity_detect (solution : list Z) : option (list Z) :=
  detect_from 0 (vertices model_graph) solution.

(** One turn of the candidate loop of the repair: as [try_prediction], and
    [-1] is skipped. *)
Definition try_repair (joined : LabelMap) (super_vertex_index : nat)
    (current : Z * F) (potential_prediction_index : Z) : Z * F :=
  if (potential_prediction_index =? fst current)%Z then current
  else if (potential_prediction_index =? -1)%Z then current
  else
    let cost := potential_cost joined super_vertex_index potential_prediction_index in
    if fltb cost (snd current) then (potential_prediction_index, cost) else current.

Definition repair_vertex (joined : LabelMap) (solution : list Z)
    (super_vertex_index : nat) : list Z :=
  if (-1 <? nth super_vertex_index solution 0)%Z then solution
  else
    let current :=
      fold_left (try_repair joined super_vertex_index)
                (potential_predictions solution super_vertex_index)
                (nth super_vertex_index solution 0%Z, finf) in
    set_nth super_vertex_index (fst current) solution.

(** One pass of the body of [while -1 in solution]. *)
Definition repair_pass (solution_costs : vec) (solution : list Z) : list Z :=
  let joined := join_by_label solution in
  fold_left (repair_vertex joined)
            (map fst (sorted_desc (enumerate solution_costs)))
            solution.

(** The loop [while -1 in solution]; [None] when [fuel] passes do not
    suffice. *)
Fixpoint contiguity_repair (fuel : nat) (solution_costs : vec) (solution : list Z)
    : option (list Z) :=
  if mem_Z (-1) solution then
    match fuel with
    | O => None
    | S fuel' => contiguity_repair fuel' solution_costs (repair_pass solution_costs solution)
    end
  else Some solution.

(** Steps 5 and 6 of [2d_full_process.py]: the initial solution, the
    contiguity guarantee and the region joining; [fuel] bounds the passes
    of the repair loop. *)
Definition contiguous_solution (fuel : nat) : option State :=
  match initial_solution with
  | None => None
  | Some (solution, solution_costs) =>
      match contiguity_detect solution with
      | None => None
      | Some solution =>
          match contiguity_repair fuel solution_costs solution with
          | None => None
          | Some solution => Some (joined_state solution solution_costs)
          end
      end
  end.

(** Step 7 of [2d_full_process.py]: [total_epochs] epochs. *)
Fixpoint improvement_2d (total_epochs : nat) (st : State) : option State :=
  match total_epochs with
  | O => Some st
  | S k =>
      match improvement_epoch_2d st with
      | None => None
      | Some st' => improvement_2d k st'
      end
  end.

End Solver.

(** Step 2 of the scripts: the model graph and the statistics fitted on it. *)
Definition fit_model {F} `{Num F} (model_volume : list F) (model_labelmap : LabelMap)
    : Normalized (F:=F) :=
  normalize_graph (build_graph model_volume model_labelmap true None) None None None None.

(* ------------------------------------------------------------------ *)
(** * Exact arithmetic: extended reals

    The second instance of [Num]: real numbers with the special values of
    a float64 and no rounding. Zero has no sign here, so a nonzero finite
    number over zero takes the sign of the numerator. *)

Inductive xreal : Type :=
| XFin (r : R)
| XPInf
| XNInf
| XNaN.

Definition Rltb (a b : R) : bool := if Rlt_dec a b then true else false.
Definition Reqb (a b : R) : bool := if Req_dec_T a b then true else false.

(** An infinity of the sign of [r] ([r] is not zero). *)
Definition xinf_of_sign (r : R) : xreal := if Rltb r 0 then XNInf else XPInf.

Definition xopp (a : xreal) : xreal :=
  match a with
  | XFin r => XFin (- r)
  | XPInf => XNInf
  | XNInf => XPInf
  | XNaN => XNaN
  end.

Definition xadd (a b : xreal) : xreal :=
  match a, b with
  | XNaN, _ | _, XNaN => XNaN
  | XFin r, XFin s => XFin (r + s)
  | XPInf, XNInf | XNInf, XPInf => XNaN
  | XPInf, _ | _, XPInf => XPInf
  | XNInf, _ | _, XNInf => XNInf
  end.

Definition xsub (a b : xreal) : xreal := xadd a (xopp b).

Definition xmul (a b : xreal) : xreal :=
  match a, b with
  | XNaN, _ | _, XNaN => XNaN
  | XFin r, XFin s => XFin (r * s)
  | XFin r, XPInf | XPInf, XFin r => if Reqb r 0 then XNaN else xinf_of_sign r
  | XFin r, XNInf | XNInf, XFin r => if Reqb r 0 then XNaN else xopp (xinf_of_sign r)
  | XPInf, XPInf | XNInf, XNInf => XPInf
  | XPInf, XNInf | XNInf, XPInf => XNInf
  end.

Definition xdiv (a b : xreal) : xreal :=
  match a, b with
  | XNaN, _ | _, XNaN => XNaN
  | XFin r, XFin s =>
      if Reqb s 0 then (if Reqb r 0 then XNaN else xinf_of_sign r) else XFin (r / s)
  | XFin _, _ => XFin 0
  | XPInf, XFin s => if Rltb s 0 then XNInf else XPInf
  | XNInf, XFin s => if Rltb s 0 then XPInf else XNInf
  | _, _ => XNaN
  end.

Definition xsqrt (a : xreal) : xreal :=
  match a with
  | XFin r => if Rltb r 0 then XNaN else XFin (sqrt r)
  | XPInf => XPInf
  | _ => XNaN
  end.

Definition xabs (a : xreal) : xreal :=
  match a with
  | XFin r => XFin (Rabs r)
  | XPInf | XNInf => XPInf
  | XNaN => XNaN
  end.

Definition xeqb (a b : xreal) : bool :=
  match a, b with
  | XFin r, XFin s => Reqb r s
  | XPInf, XPInf | XNInf, XNInf => true
  | _, _ => false
  end.

Definition xltb (a b : xreal) : bool :=
  match a, b with
  | XNaN, _ | _, XNaN => false
  | XFin r, XFin s => Rltb r s
  | XNInf, XNInf | XPInf, _ => false
  | XNInf, _ | _, XPInf => true
  | _, XNInf => false
  end.

Definition xleb (a b : xreal) : bool := xltb a b || xeqb a b.

#[export] Instance xreal_Num : Num xreal := {
  f0 := XFin 0;
  f1 := XFin 1;
  finf := XPInf;
  fadd := xadd;
  fsub := xsub;
  fmul := xmul;
  fdiv := xdiv;
  fsqrt := xsqrt;
  fabs := xabs;
  feqb := xeqb;
  fltb := xltb;
  fleb := xleb;
  of_Z := fun z => XFin (IZR z)
}.

(* ------------------------------------------------------------------ *)
(** * Notions of the specification *)

(** Sum of a list of reals. *)
Definition Rsum (l : list R) : R := fold_right Rplus 0%R l.

(** A small integer as a float64. *)
Definition fl (z : Z) : float := float_of_Z z.

(** The formula of the specification on real numbers:
    [sqrt(sum_i ((w_i / sum(w)) (a_i - b_i))^2)]. *)
Definition Rweighted_distance (w a b : list R) : R :=
  sqrt (Rsum (map (fun t => (t * t)%R)
                  (map2 Rmult (map (fun x => (x / Rsum w)%R) w) (map2 Rminus a b)))).

(** [k] rows of [n] entries each. *)
Definition has_shape {A} (k n : nat) (M : list (list A)) : Prop :=
  length M = k /\ Forall (fun r => length r = n) M.

(** The number of entries of [l] below [s]. *)
Definition below (s : Z) (l : list Z) : nat := length (filter (fun u => (u <? s)%Z) l).

Section RegionVertex.
Context {F : Type} `{Num F}.

Definition region_mask (labelmap : LabelMap) (label : Z) : list bool :=
  map (Z.eqb label) (lm_data labelmap).

(** The vertex of a label as the specification words it: the centroid (mean
    voxel coordinate), the mean intensity and the voxel count of the
    label. *)
Definition region_centroid (labelmap : LabelMap) (label : Z) : list F :=
  let voxels := mask_select (all_voxels (lm_shape labelmap)) (region_mask labelmap label) in
  map (fun dir => fdiv (np_sum (map (fun c => of_Z (coord dir c)) voxels))
                       (of_nat (length voxels)))
      [0; 1; 2].
Definition region_mean_intensity (volume : list F) (labelmap : LabelMap) (label : Z) : F :=
  np_mean (mask_select volume (region_mask labelmap label)).
Definition region_size (labelmap : LabelMap) (label : Z) : Z :=
  Z.of_nat (length (filter (Z.eqb label) (lm_data labelmap))).
Definition region_vertex (volume : list F) (labelmap : LabelMap) (label : Z) : list F :=
  region_centroid labelmap label
    ++ [region_mean_intensity volume labelmap label; of_Z (region_size labelmap label)].

(** The intensities [compute_attributes] returns, in the order of
    [np.unique]. *)
Definition region_intensities (volume : list F) (labelmap : LabelMap) : list F :=
  map (fun i => np_mean (mask_select volume (map (Nat.eqb i) (unique_inverse (lm_data labelmap)))))
      (seq 0 (length (np_unique (lm_data labelmap)))).

End RegionVertex.

(* ------------------------------------------------------------------ *)
(** * A small scenario

    Scenario A of the specification in miniature: a row of four voxels
    split into two halves by intensity (10 and 200), annotated with the two
    labels 0 and 1, and over-segmented into one super-region per voxel. The
    weight tuples are those of [2d_full_process.py]. *)

Definition half_model_volume : list float := [fl 10; fl 10; fl 200; fl 200].
Definition half_model_labelmap : LabelMap :=
  {| lm_shape := (4, 1, 1); lm_data := [0; 0; 1; 1]%Z |}.
Definition half_fit : Normalized (F:=float) := fit_model half_model_volume half_model_labelmap.
Definition half_model_graph : SRG (F:=float) := n_graph half_fit.
Definition half_mean_vertex : list float := or_else (n_mean_vertex half_fit) [].
Definition half_std_vertex : list float := or_else (n_std_vertex half_fit) [].
Definition half_mean_edge : list float := or_else (n_mean_edge half_fit) [].
Definition half_std_edge : list float := or_else (n_std_edge half_fit) [].
Definition half_observed_labelmap : LabelMap :=
  {| lm_shape := (4, 1, 1); lm_data := [0; 1; 2; 3]%Z |}.
Definition initial_weights_2d : list float := [fl 1; fl 1; fl 0; fl 1].
Definition vertex_weights_2d : list float := [fl 1; fl 1; fl 0; fl 1; fl 10].
Definition edge_weights_2d : list float := [fl 1; fl 1; fl 0; fl 1; fl 1].
Definition graph_weights_2d : float * float := (fl 1, fl 1).

(** A labelmap that leaves label 1 empty. *)
Definition all_zero_labelmap : LabelMap :=
  {| lm_shape := (4, 1, 1); lm_data := [0; 0; 0; 0]%Z |}.

(** A graph of three vertices with one attribute, the float64 nearest to
    0.1 in each: a constant column whose mean is rounded. *)
Definition tenth : float := PrimFloat.div (fl 1) (fl 10).
Definition tenths_graph : SRG (F:=float) :=
  {| vertices := [[tenth]; [tenth]; [tenth]]; edges := [];
     vertex_attributes := []; edge_attributes := [] |}.

(** NaN, as the specification of binary64 has it. *)
Definition is_NaN (x : float) : Prop := Prim2SF x = S754_nan.

(** A list all of whose entries are NaN. *)
Definition all_NaN (v : list float) : Prop := Forall is_NaN v.

Definition is_PInf (x : float) : Prop := Prim2SF x = S754_infinity false.

Definition is_Inf (x : float) : Prop := exists s, Prim2SF x = S754_infinity s.

(** The claim for one super-vertex: when the arg-min of its initial costs
    is a sentinel row, no other row has a cost below +infinity. *)
Definition sentinel_safe (model_vertices : list (list float))
    (initial_weights super_vertex : list float) : Prop :=
  let costs :=
    compute_initial_vertex_cost (repeat super_vertex (length model_vertices))
                                model_vertices (Some initial_weights) in
  forall j, np_argmin costs = Some j ->
            nth j model_vertices [] = repeat finf 5 ->
  forall i, i < length model_vertices ->
            nth i model_vertices [] <> repeat finf 5 ->
            fltb (nth i costs f0) finf = false.

(** The vertices of a graph in which label 1 is empty. *)
Definition vertices_with_sentinel : list (list float) :=
  vertices (build_graph half_model_volume all_zero_labelmap false (Some 2)).

(** A real matrix as a matrix of extended reals. *)
Definition lift (M : list (list R)) : list (list xreal) := map (map XFin) M.

(** The statistics of a real matrix, column by column. *)
Definition Rsum_axis0 (M : list (list R)) : list R :=
  fold_left (map2 Rplus) M (repeat 0%R (ncols M)).

Definition Rmean_axis0 (M : list (list R)) : list R :=
  map (fun s => (s / INR (length M))%R) (Rsum_axis0 M).

Definition Rsquares (M : list (list R)) : list (list R) := map (map (fun x => (x * x)%R)) M.

Definition Rstd_axis0 (M : list (list R)) : list R :=
  map sqrt (Rmean_axis0 (Rsquares (map (fun r => map2 Rminus r (Rmean_axis0 M)) M))).

Definition Rzeros_to_one (s : list R) : list R :=
  map (fun x => if Reqb x 0 then 1%R else x) s.

Definition Rstandardize (M : list (list R)) (mean std : list R) : list (list R) :=
  map (fun r => map2 Rdiv (map2 Rminus r mean) std) M.

(** A matrix standardized with the statistics fitted on itself. *)
Definition fit_apply {F} `{Num F} (M : list (list F)) : list (list F) :=
  standardize M (mean_axis0 M) (zeros_to_one (std_axis0 M)).

(** A real matrix standardized with its own statistics. *)
Definition Rfit_apply (M : list (list R)) : list (list R) :=
  Rstandardize M (Rmean_axis0 M) (Rzeros_to_one (Rstd_axis0 M)).

(** Column [j] of a real matrix. *)
Definition col (j : nat) (M : list (list R)) : list R := map (fun r => nth j r 0%R) M.

(** All rows have [d] entries. *)
Definition rect (d : nat) (M : list (list R)) : Prop := Forall (fun r => length r = d) M.

Definition Rmean (c : list R) : R := (Rsum c / INR (length c))%R.

Definition Rstd (c : list R) : R :=
  sqrt (Rsum (map (fun x => (x * x)%R) (map (fun x => (x - Rmean c)%R) c)) / INR (length c)).

(** The statistics of a matrix are those the claim promises. *)
Definition unit_statistics {F} `{Num F} (M : list (list F)) : Prop :=
  mean_axis0 M = repeat f0 (ncols M) /\ std_axis0 M = repeat f1 (ncols M).

(* ------------------------------------------------------------------ *)
(** * [normalize_graph] on the heap

    The same function with the objects it touches: the graph is a
    reference to an [SRG] object whose fields are references to arrays, and
    the statistics are references to arrays or [None]. An assignment to a
    field or a variable rebinds a reference; [std[std == 0] = 1] writes
    into the array itself. *)

Section Heap.
Context {F : Type} `{Num F}.

Definition ref : Type := nat.

Inductive ndarray : Type :=
| Vec (v : list F)
| Mat (m : list (list F)).

(** An [SRG] object: its two array fields. *)
Record SRGobj : Type := {
  o_vertices : ref;
  o_edges : ref
}.

(** Arrays and objects by address; [next] is the first address no array
    uses yet. *)
Record Heap : Type := {
  arr : ref -> option ndarray;
  next : ref;
  obj : ref -> option SRGobj
}.

(** Computations on the heap that may fail (a dangling reference, an array
    of the wrong rank). *)
Definition HeapM (A : Type) : Type := Heap -> option (A * Heap).

Definition ret {A} (a : A) : HeapM A := fun h => Some (a, h).

Definition bind {A B} (m : HeapM A) (k : A -> HeapM B) : HeapM B :=
  fun h => match m h with
           | Some (a, h') => k a h'
           | None => None
           end.

Definition read_vec (r : ref) : HeapM (list F) :=
  fun h => match arr h r with Some (Vec v) => Some (v, h) | _ => None end.

Definition read_mat (r : ref) : HeapM (list (list F)) :=
  fun h => match arr h r with Some (Mat m) => Some (m, h) | _ => None end.

(** [len(a)]. *)
Definition read_len (r : ref) : HeapM nat :=
  fun h => match arr h r with
           | Some (Vec v) => Some (length v, h)
           | Some (Mat m) => Some (length m, h)
           | None => None
           end.

(** A new array. *)
Definition alloc (a : ndarray) : HeapM ref :=
  fun h => Some (next h,
                 {| arr := fun r => if r =? next h then Some a else arr h r;
                    next := S (next h);
                    obj := obj h |}).

(** Overwriting an array in place. *)
Definition write (r : ref) (a : ndarray) : HeapM unit :=
  fun h => match arr h r with
           | Some _ => Some (tt, {| arr := fun r' => if r' =? r then Some a else arr h r';
                                    next := next h;
                                    obj := obj h |})
           | None => None
           end.

Definition get_graph (g : ref) : HeapM SRGobj :=
  fun h => match obj h g with Some o => Some (o, h) | None => None end.

Definition set_graph (g : ref) (o : SRGobj) : HeapM unit :=
  fun h => match obj h g with
           | Some _ => Some (tt, {| arr := arr h; next := next h;
                                    obj := fun g' => if g' =? g then Some o else obj h g' |})
           | None => None
           end.

(** [if x is None: x = <a new array>]. *)
Definition or_new (x : option ref) (a : ndarray) : HeapM ref :=
  match x with
  | None => alloc a
  | Some r => ret r
  end.

(** Lines 91-95 and 99-103: one array standardized with the given or the
    computed statistics. Returns the new array and the two statistics. *)
Definition normalize_array (a : ref) (mean std : option ref) : HeapM (ref * ref * ref) :=
  bind (read_mat a) (fun A =>
  bind (or_new mean (Vec (mean_axis0 A))) (fun mean =>
  bind (or_new std (Vec (std_axis0 A))) (fun std =>
  bind (read_vec std) (fun s =>
  bind (write std (Vec (zeros_to_one s))) (fun _ =>
  bind (read_mat a) (fun A =>
  bind (read_vec mean) (fun m =>
  bind (read_vec std) (fun s =>
  bind (alloc (Mat (standardize A m s))) (fun a' =>
  ret (a', mean, std)))))))))).

(** What the call returns: the graph alone, or the graph and the four
    statistics. *)
Record Returned : Type := {
  r_graph : ref;
  r_stats : option (ref * ref * option ref * option ref)
}.

Definition normalize_graph_heap (graph : ref)
    (mean_vertex std_vertex mean_edge std_edge : option ref) : HeapM Returned :=
  let return_values :=
    is_None mean_vertex || is_None std_vertex || is_None mean_edge || is_None std_edge in
  bind (get_graph graph) (fun o =>
  bind (normalize_array (o_vertices o) mean_vertex std_vertex) (fun vms =>
  let '(vertices, mean_vertex, std_vertex) := vms in
  bind (set_graph graph {| o_vertices := vertices; o_edges := o_edges o |}) (fun _ =>
  bind (read_len (o_edges o)) (fun n =>
  if 0 <? n then
    bind (normalize_array (o_edges o) mean_edge std_edge) (fun ems =>
    let '(edges, mean_edge, std_edge) := ems in
    bind (set_graph graph {| o_vertices := vertices; o_edges := edges |}) (fun _ =>
    ret {| r_graph := graph;
           r_stats := if return_values
                      then Some (mean_vertex, std_vertex, Some mean_edge, Some std_edge)
                      else None |}))
  else
    ret {| r_graph := graph;
           r_stats := if return_values
                      then Some (mean_vertex, std_vertex, mean_edge, std_edge)
                      else None |})))).

End Heap.

(** ** Well-formed heaps and arguments *)

Section HeapNotions.
Context {F : Type} `{Num F}.

(** No array lives at or above [next]. *)
Definition heap_ok (h : Heap (F:=F)) : Prop := forall r, next h <= r -> arr h r = None.

(** The vector a statistic holds: the supplied array, or the computed one. *)
Definition vec_at (h : Heap (F:=F)) (x : option ref) (computed : list F) : list F :=
  match x with
  | Some r => match arr h r with Some (Vec v) => v | _ => computed end
  | None => computed
  end.

(** A supplied reference is to a vector other than the array [a]. *)
Definition supplied (h : Heap (F:=F)) (a : ref) (x : option ref) : Prop :=
  forall r, x = Some r -> r <> a /\ exists v, arr h r = Some (Vec v).

(** The array an optional argument holds, if any. *)
Definition deref (h : Heap (F:=F)) (x : option ref) : option (list F) :=
  match x with
  | Some r => match arr h r with Some (Vec v) => Some v | _ => None end
  | None => None
  end.

(** The references present among the arguments are pairwise distinct. *)
Definition pairwise_distinct (args : list (option ref)) : Prop :=
  forall i j x y,
    nth_error args i = Some (Some x) -> nth_error args j = Some (Some y) ->
    i <> j -> x <> y.

End HeapNotions.

(** A heap with one graph (object 0: vertices at 0, edges at 1) and four
    statistics at 2..5; the std of the vertices has a zero entry. *)
Definition demo_heap : Heap (F:=float) :=
  {| arr := nth_error [Mat [[fl 1; fl 5]; [fl 3; fl 5]]; Mat [[fl 2; fl 4]];
                       Vec [fl 2; fl 5]; Vec [fl 1; fl 0];
                       Vec [fl 0; fl 0]; Vec [fl 1; fl 1]];
     next := 6;
     obj := nth_error [{| o_vertices := 0; o_edges := 1 |}] |}.

(** ** A labelmap with a gap: label 1 of 0..2 is absent *)

Definition demo_labelmap : LabelMap :=
  {| lm_shape := (4, 1, 1); lm_data := [0; 0; 2; 2]%Z |}.
Definition demo_volume : list float := [fl 10; fl 20; fl 30; fl 50].

(** ** The order of binary64 *)

(** A key under which the numbers that are not NaN compare
    lexicographically: class, exponent, mantissa. *)
Definition SFkey (f : spec_float) : Z * Z * Z :=
  match f with
  | S754_infinity true => (-2, 0, 0)%Z
  | S754_finite true m e => (-1, - e, Zneg m)%Z
  | S754_zero _ => (0, 0, 0)%Z
  | S754_finite false m e => (1, e, Zpos m)%Z
  | S754_infinity false => (2, 0, 0)%Z
  | S754_nan => (3, 0, 0)%Z
  end.

Definition lex3 (a b : Z * Z * Z) : comparison :=
  let '(a1, a2, a3) := a in
  let '(b1, b2, b3) := b in
  match (a1 ?= b1)%Z with
  | Eq => match (a2 ?= b2)%Z with
          | Eq => (a3 ?= b3)%Z
          | c => c
          end
  | c => c
  end.

Definition lex3_lt (a b : Z * Z * Z) : Prop :=
  let '(a1, a2, a3) := a in
  let '(b1, b2, b3) := b in
  (a1 < b1 \/ (a1 = b1 /\ (a2 < b2 \/ (a2 = b2 /\ a3 < b3))))%Z.

Definition lex3_le (a b : Z * Z * Z) : Prop :=
  let '(a1, a2, a3) := a in
  let '(b1, b2, b3) := b in
  (a1 < b1 \/ (a1 = b1 /\ (a2 < b2 \/ (a2 = b2 /\ a3 <= b3))))%Z.

Definition not_nan (x : float) : Prop := fis_nan x = false.

(** ** A strip of eight voxels for the scripts' improvement loop

    Three tissues of intensities 10, 100 and 200 along one axis; the
    observation is the model volume itself, over-segmented into seven
    super-regions (the second one holds the last voxel of the first tissue
    and the first voxel of the second). *)
Definition strip_volume : list float :=
  [fl 10; fl 10; fl 10; fl 100; fl 100; fl 100; fl 200; fl 200].

Definition strip_model_labelmap : LabelMap :=
  {| lm_shape := (8, 1, 1); lm_data := [0; 0; 0; 1; 1; 1; 2; 2]%Z |}.

Definition strip_observed_labelmap : LabelMap :=
  {| lm_shape := (8, 1, 1); lm_data := [0; 1; 2; 2; 3; 4; 5; 6]%Z |}.

Definition strip_fit : Normalized (F:=float) := fit_model strip_volume strip_model_labelmap.

Definition strip_model_graph : SRG (F:=float) := n_graph strip_fit.

Definition strip_mean_vertex : list float := or_else (n_mean_vertex strip_fit) [].

Definition strip_std_vertex : list float := or_else (n_std_vertex strip_fit) [].

Definition strip_mean_edge : list float := or_else (n_mean_edge strip_fit) [].

Definition strip_std_edge : list float := or_else (n_std_edge strip_fit) [].

(** [2d_full_process.py] on the strip, with the weights of the script, up
    to the end of epoch [epochs] of step 7. *)
Definition strip_run (epochs : nat) : option (State (F:=float)) :=
  match contiguous_solution strip_volume strip_observed_labelmap strip_model_graph
          strip_mean_vertex strip_std_vertex strip_mean_edge strip_std_edge
          initial_weights_2d vertex_weights_2d graph_weights_2d 7 with
  | None => None
  | Some st =>
      improvement_2d strip_volume strip_observed_labelmap strip_model_graph
        strip_mean_vertex strip_std_vertex strip_mean_edge strip_std_edge
        vertex_weights_2d edge_weights_2d graph_weights_2d epochs st
  end.

(** The global cost of a state of the strip, as the script computes it at
    the head of the loop body. *)
Definition strip_cost (st : State (F:=float)) : float :=
  current_cost strip_model_graph vertex_weights_2d edge_weights_2d graph_weights_2d st.

(** The replacement the loop body settles on for a super-vertex of the
    strip, with the cost the loop holds for it. *)
Definition strip_improve_vertex (st : State (F:=float)) (super_vertex_index : nat) : Z * float :=
  improve_vertex strip_volume strip_observed_labelmap strip_model_graph
    strip_mean_vertex strip_std_vertex strip_mean_edge strip_std_edge
    vertex_weights_2d edge_weights_2d graph_weights_2d st super_vertex_index.

(** ** The strip under the weights of [calibration.py] *)
Definition initial_weights_cal : list float := [fl 1; fl 1; fl 1; fl 7].

Definition vertex_weights_cal : list float := [fl 1; fl 1; fl 1; fl 7; fl 1].

Definition edge_weights_cal : list float := [fl 1; fl 1; fl 1; fl 1; fl 1].

Definition graph_weights_cal : float * float := (fl 1, fl 1).

(** [calibration.py] on the strip: steps 4 to 6, then [epochs] epochs of
    step 7 with [improvement_cutoff = 1]. *)
Definition strip_calibration (epochs : nat) : option (State (F:=float)) :=
  match initial_solution strip_volume strip_observed_labelmap strip_model_graph
          strip_mean_vertex strip_std_vertex strip_mean_edge strip_std_edge
          initial_weights_cal with
  | None => None
  | Some (solution, solution_costs) =>
      Some (improvement strip_volume strip_observed_labelmap strip_model_graph
              strip_mean_vertex strip_std_vertex strip_mean_edge strip_std_edge
              vertex_weights_cal edge_weights_cal graph_weights_cal epochs 1
              (joined_state strip_volume strip_observed_labelmap strip_model_graph
                 strip_mean_vertex strip_std_vertex strip_mean_edge strip_std_edge
                 solution solution_costs))
  end.

(** ** Notions for the repair loop *)

(** The number of super-regions a solution leaves at [-1]. *)
Definition unassigned (solution : list Z) : nat := count_occ Z.eq_dec solution (-1)%Z.

(** A solution as the detection leaves it: every entry is [-1] or one of
    the [K] model labels, and every model label is held. *)
Definition repairable (K : nat) (solution : list Z) : Prop :=
  Forall (fun l => (-1 <= l < Z.of_nat K)%Z) solution /\
  forall label, label < K -> In (Z.of_nat label) solution.

(** The adjacency of [n] regions is connected: no set of regions and its
    complement, both inhabited, are without an edge from the one to the
    other. *)
Definition connected (n : nat) (adj : nat -> list nat) : Prop :=
  forall S : nat -> bool,
    (exists a, a < n /\ S a = true) -> (exists b, b < n /\ S b = false) ->
    exists a b, a < n /\ b < n /\ S a = true /\ S b = false /\ In b (adj a).

(** [later] keeps the labels [earlier] has assigned. *)
Definition keeps_assigned (earlier later : list Z) : Prop :=
  length later = length earlier /\
  forall i, nth i earlier 0%Z <> (-1)%Z -> nth i later 0%Z = nth i earlier 0%Z.

(** The pair the candidate loop of the repair holds: the start, or a model
    label. *)
Definition held_ok {F} `{Num F} (K : nat) (current : Z * F) : Prop :=
  current = ((-1)%Z, finf) \/ (0 <= fst current < Z.of_nat K)%Z.

(** ** Two runs of the repair on four super-regions in a row *)

(** All the solutions of length [n] over [-1 .. K-1]. *)
Fixpoint all_solutions (K n : nat) : list (list Z) :=
  match n with
  | O => [[]]
  | S m => flat_map (fun l => map (cons l) (all_solutions K m))
                    (map (fun k => (Z.of_nat k - 1)%Z) (seq 0 (S K)))
  end.

(** Every one of the [K] labels is held. *)
Definition holds_all (K : nat) (s : list Z) : bool :=
  forallb (fun label => mem_Z (Z.of_nat label) s) (seq 0 K).

(** The costs of all the replacements of the repair, over all the solutions
    of [n] super-regions, are below [+inf]. *)
Definition candidates_below_inf {F} `{Num F} (observation : list F)
    (observed_labelmap : LabelMap) (model_graph : SRG (F:=F))
    (mean_vertex std_vertex mean_edge std_edge vertex_weights : list F)
    (graph_weights : F * F) (n : nat) : bool :=
  let K := n_model model_graph in
  forallb
    (fun s =>
       implb (holds_all K s)
         (forallb
            (fun i =>
               implb (nth i s 0 =? -1)%Z
                 (forallb
                    (fun p =>
                       fltb (potential_cost observation observed_labelmap model_graph
                               mean_vertex std_vertex mean_edge std_edge vertex_weights
                               graph_weights (join_by_label observed_labelmap model_graph s)
                               i (Z.of_nat p))
                            finf)
                    (seq 0 K)))
            (seq 0 n)))
    (all_solutions K n).

(** The observation [10, 200, 10, 200] against the two-label model: the
    initial solution alternates, and the detection unassigns the two
    middle super-regions. *)
Definition alternating_volume : list float := [fl 10; fl 200; fl 10; fl 200].

Definition alternating_costs : list float :=
  match initial_solution alternating_volume half_observed_labelmap half_model_graph
          half_mean_vertex half_std_vertex half_mean_edge half_std_edge
          initial_weights_2d with
  | Some (_, solution_costs) => solution_costs
  | None => []
  end.

Definition alternating_detected : list Z :=
  match initial_solution alternating_volume half_observed_labelmap half_model_graph
          half_mean_vertex half_std_vertex half_mean_edge half_std_edge
          initial_weights_2d with
  | Some (solution, _) =>
      or_else (contiguity_detect alternating_volume half_observed_labelmap half_model_graph
                 half_mean_vertex half_std_vertex half_mean_edge half_std_edge
                 initial_weights_2d solution) []
  | None => []
  end.

(** The observation [10, 200, 10, 2^664]: every voxel is finite, and the
    squares in the norm of the last super-region overflow. *)
Definition overflow_volume : list float := [fl 10; fl 200; fl 10; 0x1p+664%float].

Definition overflow_solution : list Z * list float :=
  or_else (initial_solution overflow_volume half_observed_labelmap half_model_graph
             half_mean_vertex half_std_vertex half_mean_edge half_std_edge
             initial_weights_2d) ([], []).

Definition overflow_detected : list Z :=
  or_else (contiguity_detect overflow_volume half_observed_labelmap half_model_graph
             half_mean_vertex half_std_vertex half_mean_edge half_std_edge
             initial_weights_2d (fst overflow_solution)) [].

(** A row of eight voxels in which the reference label 0 (five voxels)
    holds a bright spot, and its over-segmentation into four super-regions
    of constant intensity. The observation is the model volume, as in
    [2d_full_process.py]. *)
Definition spot_volume : list float :=
  [fl 10; fl 10; fl 200; fl 10; fl 10; fl 10; fl 200; fl 200].
Definition spot_model_labelmap : LabelMap :=
  {| lm_shape := (8, 1, 1); lm_data := [0; 0; 0; 0; 0; 1; 1; 1]%Z |}.
Definition spot_observed_labelmap : LabelMap :=
  {| lm_shape := (8, 1, 1); lm_data := [0; 0; 1; 2; 2; 2; 3; 3]%Z |}.
Definition spot_fit : Normalized (F:=float) := fit_model spot_volume spot_model_labelmap.
Definition spot_model_graph : SRG (F:=float) := n_graph spot_fit.
Definition spot_mean_vertex : list float := or_else (n_mean_vertex spot_fit) [].
Definition spot_std_vertex : list float := or_else (n_std_vertex spot_fit) [].
Definition spot_mean_edge : list float := or_else (n_mean_edge spot_fit) [].
Definition spot_std_edge : list float := or_else (n_std_edge spot_fit) [].

(** Step 5 on the row. *)
Definition spot_solution : list Z :=
  fst (or_else (initial_solution spot_volume spot_observed_labelmap spot_model_graph
                  spot_mean_vertex spot_std_vertex spot_mean_edge spot_std_edge
                  initial_weights_2d) ([], [])).

(** The graph of the components of label 0 in that solution
    ([potential_region_super_graph]) and the reference vertex of label 0,
    once for each of its rows ([model_label_vertex_matrix]). *)
Definition spot_components : SRG (F:=float) :=
  normalized spot_mean_vertex spot_std_vertex spot_mean_edge spot_std_edge
    (build_graph spot_volume
       (fst (potential_regions spot_observed_labelmap spot_solution 0)) false None).
Definition spot_reference : list (list float) :=
  repeat (nth 0 (vertices spot_model_graph) []) (length (vertices spot_components)).


(** ** Spatial connectivity *)

(** [v] is reached from [u] through face neighbours, all of them in [P]. *)
Inductive reach (sh : nat * nat * nat) (P : voxel -> Prop) : voxel -> voxel -> Prop :=
| reach_refl : forall u, P u -> reach sh P u u
| reach_step : forall u v w,
    reach sh P u v -> In w (face_neighbours sh v) -> P w -> reach sh P u w.

(** The voxels of [P] are one spatially connected component, or none. *)
Definition one_component (sh : nat * nat * nat) (P : voxel -> Prop) : Prop :=
  forall u v, P u -> P v -> reach sh P u v.

(** The voxels of the grid that carry [l] in a labelmap. *)
Definition carries (labelmap : LabelMap) (l : Z) (c : voxel) : Prop :=
  In c (all_voxels (lm_shape labelmap)) /\
  grid_get (lm_shape labelmap) (lm_data labelmap) c (-1)%Z = l.

(** The id of the super-region at a voxel. *)
Definition region_at (observed : LabelMap) (c : voxel) : Z :=
  grid_get (lm_shape observed) (lm_data observed) c (-1)%Z.

(** The voxels of the super-regions to which a solution gives [l]. *)
Definition assigned_voxels (observed : LabelMap) (solution : list Z) (l : Z) (c : voxel)
    : Prop :=
  In c (all_voxels (lm_shape observed)) /\
  nth (Z.to_nat (region_at observed c)) solution 0%Z = l.

(** An over-segmentation into the super-regions [0 .. n-1]. *)
Definition segmentation_ok (observed : LabelMap) (n : nat) : Prop :=
  length (lm_data observed) = length (all_voxels (lm_shape observed)) /\
  Forall (fun o => (0 <= o < Z.of_nat n)%Z) (lm_data observed).

(** Every super-region is spatially connected. *)
Definition regions_connected (observed : LabelMap) (n : nat) : Prop :=
  forall r, r < n -> one_component (lm_shape observed) (carries observed (Z.of_nat r)).

(** The run on the observation [10, 200, 10, 200]. *)
Definition alternating_solution : list Z :=
  match initial_solution alternating_volume half_observed_labelmap half_model_graph
          half_mean_vertex half_std_vertex half_mean_edge half_std_edge
          initial_weights_2d with
  | Some (solution, _) => solution
  | None => []
  end.

Definition alternating_repaired : list Z :=
  or_else (contiguity_repair alternating_volume half_observed_labelmap half_model_graph
             half_mean_vertex half_std_vertex half_mean_edge half_std_edge
             vertex_weights_2d graph_weights_2d 2 alternating_costs alternating_detected) [].


(** ** States of the improvement loop *)

(** A state as an epoch leaves it: the joined labelmap and the observation
    graph are those of the solution. *)
Definition rebuilt_state {F} `{Num F} (observation : list F) (observed_labelmap : LabelMap)
    (model_graph : SRG (F:=F)) (mean_vertex std_vertex mean_edge std_edge : list F)
    (st : State (F:=F)) : Prop :=
  joined_labelmap st = join_by_element observed_labelmap (solution st) /\
  observation_graph st
  = graph_of observation model_graph mean_vertex std_vertex mean_edge std_edge
             (joined_labelmap st).

(** A state of the strip in which super-vertex 3, the fifth voxel, of
    intensity 100, is given label 0. *)
Definition strip_detour : State (F:=float) :=
  joined_state strip_volume strip_observed_labelmap strip_model_graph strip_mean_vertex
               strip_std_vertex strip_mean_edge strip_std_edge
               [0; 0; 0; 0; 1; 2; 2]%Z (repeat f0 7).

(* ------------------------------------------------------------------ *)
(** * Overlap score and seed grid ([spine_liver_functions.py], lines 138-149) *)

Section Overlap.
Context {F : Type} `{Num F}.

(** [np.logical_and(dist1, dist2)] on two boolean arrays of one shape,
    flattened (the scripts pass masks such as [joined_labelmap == 6]). *)
Definition logical_and (dist1 dist2 : list bool) : list bool := map2 andb dist1 dist2.

(** [a.sum()] of a boolean array: the integer number of [True] entries. *)
Definition bool_sum (a : list bool) : Z := Z.of_nat (length (filter (fun b => b) a)).

(** [2. * a] for a boolean array [a]: the float64 array of [2. * 1.] and
    [2. * 0.]. *)
Definition twice (a : list bool) : list F :=
  map (fun b : bool => fmul (of_Z 2) (if b then f1 else f0)) a.

(** The float64 sum of the doubled intersection over the integer sum of
    the two counts. (numpy adds the entries in pairs; the entries are 0 and
    2, whose partial sums are exact below 2^53 in any order.) *)
Definition dice_coefficient (dist1 dist2 : list bool) : F :=
  fdiv (np_sum (twice (logical_and dist1 dist2)))
       (of_Z (bool_sum dist1 + bool_sum dist2)).

(** The exceptions of [anisotropic_seeds]: a failed [assert], the floor
    division [axis//amount] by zero, and numpy's "slice step cannot be
    zero". *)
Inductive seeds_error : Type :=
| AssertionError
| ZeroDivisionError
| ValueError.

(** The indices the slice [start::step] selects on an axis of length
    [stop], for a positive [step]: [start, start + step, ...] below
    [stop]. *)
Definition slice_indices (start step stop : nat) : list nat :=
  let slicelength := if start <? stop then (stop - start - 1) / step + 1 else 0 in
  map (fun k => start + k * step) (seq 0 slicelength).

(** [shape] and [amounts] are sequences of non-negative integers. The
    list [steps] of the source is computed and not used; it raises when an
    amount is zero. The result is the array flattened in C order. *)
Definition anisotropic_seeds (shape amounts : list nat) : seeds_error + list F :=
  match shape, amounts with
  | [n0; n1; n2], [a0; a1; a2] =>
      if (a0 =? 0) || (a1 =? 0) || (a2 =? 0) then inl ZeroDivisionError
      else if (n0 / a0 =? 0) || (n1 / a1 =? 0) || (n2 / a2 =? 0) then inl ValueError
      else
        let xs := slice_indices (n0 / (2 * a0)) (n0 / a0) n0 in
        let ys := slice_indices (n1 / (2 * a1)) (n1 / a1) n1 in
        let zs := slice_indices (n2 / (2 * a2)) (n2 / a2) n2 in
        inr (map (fun c : voxel =>
                    let '(x, y, z) := c in
                    if existsb (Nat.eqb x) xs && existsb (Nat.eqb y) ys
                       && existsb (Nat.eqb z) zs
                    then f1 else f0)
                 (all_voxels (n0, n1, n2)))
  | _, _ => inl AssertionError
  end.

End Overlap.

(** The number of seeds along an axis of length [n] asked for [a] seeds. *)
Definition seeds_along (n a : nat) : nat := length (slice_indices (n / (2 * a)) (n / a) n).

(** ** Finite numbers and zeros in binary64 *)

(** A float64 that is neither NaN nor an infinity. *)
Definition is_finite (x : float) : Prop :=
  match Prim2SF x with
  | S754_zero _ | S754_finite _ _ _ => True
  | _ => False
  end.

(** A float64 zero of either sign. *)
Definition is_zero (x : float) : Prop := exists s, Prim2SF x = S754_zero s.

(* ------------------------------------------------------------------ *)
(** * The solution read off the ground truth ([hack_dice_optimal.py], lines 76-96) *)

(** [np.argmax] of an integer array: the first index of the largest entry;
    [None] is the [ValueError] on an empty array. *)
Fixpoint argmax_from (best : Z) (best_ind i : nat) (a : list Z) : nat :=
  match a with
  | [] => best_ind
  | x :: t =>
      if (best <? x)%Z then argmax_from x i (S i) t
      else argmax_from best best_ind (S i) t
  end.

Definition argmax_Z (a : list Z) : option nat :=
  match a with
  | [] => None
  | x :: t => Some (argmax_from x 0 1 t)
  end.

(** [model_labelmap.data[np.where(observed_labelmap_data == i)]]: the model
    labels of the voxels of super-region [i]. *)
Definition model_labels_in (model_data observed_data : list Z) (i : nat) : list Z :=
  mask_select model_data (map (Z.eqb (Z.of_nat i)) observed_data).

(** Lines 81-82: [labels[np.argmax(counts)]], the model label most
    frequent in super-region [i]. *)
Definition majority_label (model_data observed_data : list Z) (i : nat) : option Z :=
  let inside := model_labels_in model_data observed_data i in
  let labels := np_unique inside in
  let counts := unique_counts inside in
  match argmax_Z counts with
  | None => None
  | Some k => Some (nth k labels 0%Z)
  end.

(** The loop of lines 79-82, over the rows of [super_graph.vertices]. *)
Fixpoint optimal_labels (model_data observed_data : list Z) (regions : list nat)
    : option (list Z) :=
  match regions with
  | [] => Some []
  | i :: rest =>
      match majority_label model_data observed_data i,
            optimal_labels model_data observed_data rest with
      | Some l, Some solution => Some (l :: solution)
      | _, _ => None
      end
  end.

Definition optimal_solution (model_labelmap observed_labelmap : LabelMap)
    : option (list Z) :=
  optimal_labels (lm_data model_labelmap) (lm_data observed_labelmap)
                 (seq 0 (length (np_unique (lm_data observed_labelmap)))).

(** The number of voxels of super-region [i] that carry the model label
    [l]. *)
Definition votes (model_data observed_data : list Z) (i : nat) (l : Z) : nat :=
  length (filter (Z.eqb l) (model_labels_in model_data observed_data i)).

(** The over-segmentation refines the model: the voxels of one
    super-region carry one model label. *)
Definition refines (model_data observed_data : list Z) : Prop :=
  forall p q, p < length observed_data -> q < length observed_data ->
    nth p observed_data 0%Z = nth q observed_data 0%Z ->
    nth p model_data 0%Z = nth q model_data 0%Z.

(* ================================================================== *)
(** * Properties *)

(* ------------------------------------------------------------------ *)
(** * The cost model *)


Section CostModelFacts.
Context {F : Type} `{Num F}.

Lemma linalg_norm_rows (w : list F) (M1 M2 : list (list F)) :
  linalg_norm (mmul_row w (msub M1 M2))
  = map2 (fun a b => norm_row (vmul w (vsub a b))) M1 M2.
Proof.
  revert M2; induction M1 as [|a M1 IH]; intros [|b M2]; simpl; try reflexivity.
  f_equal. apply IH.
Qed.

Lemma map2_map_both {A B C} (f : B -> B -> C) (g : A -> B) (l l' : list A) :
  map2 f (map g l) (map g l') = map2 (fun a b => f (g a) (g b)) l l'.
Proof.
  revert l'; induction l as [|a l IH]; intros [|b l']; simpl; try reflexivity.
  f_equal. apply IH.
Qed.

(** On one pair of rows the code computes the formula of the
    specification: [renormalize] divides by the sum, and the norm of the
    product is the root of the sum of the squares. *)
Lemma weighted_distance_rows (w a b : list F) :
  norm_row (vmul (renormalize w) (vsub a b)) = weighted_distance w a b.
Proof. reflexivity. Qed.

End CostModelFacts.

Lemma fold_left_Rplus (l : list R) (a : R) : fold_left Rplus l a = (a + Rsum l)%R.
Proof.
  revert a; induction l as [|x l IH]; intros a; simpl.
  - lra.
  - rewrite IH. lra.
Qed.

Lemma np_sum_XFin (l : list R) : np_sum (map XFin l) = XFin (Rsum l).
Proof.
  unfold np_sum. simpl.
  assert (G : forall a, fold_left xadd (map XFin l) (XFin a) = XFin (fold_left Rplus l a)).
  { induction l as [|x l IH]; intros a; simpl; [reflexivity|apply IH]. }
  rewrite G, fold_left_Rplus. f_equal. lra.
Qed.

Lemma Reqb_false (a b : R) : a <> b -> Reqb a b = false.
Proof. intros Hne. unfold Reqb. destruct (Req_dec_T a b); [contradiction|reflexivity]. Qed.

Lemma Reqb_true (a : R) : Reqb a a = true.
Proof. unfold Reqb. destruct (Req_dec_T a a); [reflexivity|contradiction]. Qed.

Lemma Rsum_scale (l : list R) (s : R) : Rsum (map (fun w => w / s)%R l) = (Rsum l / s)%R.
Proof.
  induction l as [|x l IH]; simpl.
  - unfold Rdiv. lra.
  - rewrite IH. unfold Rdiv. lra.
Qed.

Lemma renormalize_XFin (ws : list R) :
  Rsum ws <> 0%R ->
  renormalize (map XFin ws) = map XFin (map (fun w => w / Rsum ws)%R ws).
Proof.
  intros Hs. unfold renormalize. rewrite np_sum_XFin, !map_map.
  apply map_ext. intros w. simpl. rewrite Reqb_false by assumption. reflexivity.
Qed.

Lemma renormalize_sums_to_one (ws : list R) :
  Rsum ws <> 0%R -> np_sum (renormalize (map XFin ws)) = XFin 1.
Proof.
  intros Hs. rewrite renormalize_XFin by assumption.
  rewrite np_sum_XFin, Rsum_scale. f_equal. field. assumption.
Qed.


(* ------------------------------------------------------------------ *)
(** * The graph builder *)

(** ** np.unique *)

Lemma insert_unique_In (x y : Z) (l : list Z) :
  In y (insert_unique x l) <-> y = x \/ In y l.
Proof.
  induction l as [|z l IH]; simpl.
  - intuition.
  - destruct (x <? z)%Z eqn:E1; [simpl; intuition|].
    destruct (x =? z)%Z eqn:E2.
    + apply Z.eqb_eq in E2. subst. simpl. intuition.
    + simpl. rewrite IH. intuition.
Qed.

Lemma np_unique_In (a : list Z) (y : Z) : In y (np_unique a) <-> In y a.
Proof.
  induction a as [|x a IH]; simpl; [tauto|].
  rewrite insert_unique_In, IH. intuition.
Qed.

Lemma insert_unique_sorted (x : Z) (l : list Z) :
  StronglySorted Z.lt l -> StronglySorted Z.lt (insert_unique x l).
Proof.
  induction 1 as [|z l Hs IH Hall]; simpl.
  - repeat constructor.
  - destruct (x <? z)%Z eqn:E1.
    + apply Z.ltb_lt in E1. constructor; [constructor; assumption|].
      constructor; [assumption|].
      eapply Forall_impl; [|exact Hall]. intros; lia.
    + destruct (x =? z)%Z eqn:E2; [constructor; assumption|].
      apply Z.ltb_ge in E1. apply Z.eqb_neq in E2.
      constructor; [assumption|].
      apply Forall_forall. intros y Hy. apply insert_unique_In in Hy.
      destruct Hy as [->|Hy]; [lia|].
      rewrite Forall_forall in Hall. auto.
Qed.

Lemma np_unique_sorted (a : list Z) : StronglySorted Z.lt (np_unique a).
Proof.
  induction a as [|x a IH]; simpl; [constructor|].
  apply insert_unique_sorted, IH.
Qed.

(** In a strictly sorted list the position of a member is the number of
    smaller entries. *)

Lemma below_all_greater (s : Z) (l : list Z) :
  Forall (Z.lt s) l -> below s l = 0 /\ below (s + 1) l = 0.
Proof.
  unfold below. induction 1 as [|y l Hy _ IH]; simpl; [auto|].
  destruct (Z.ltb_spec y s); [lia|]. destruct (Z.ltb_spec y (s + 1)); [lia|]. exact IH.
Qed.

Lemma index_of_sorted (x : Z) (l : list Z) :
  StronglySorted Z.lt l -> In x l -> index_of x l = below x l.
Proof.
  unfold below. induction 1 as [|y l Hs IH Hall]; simpl; [tauto|].
  intros [->|Hin].
  - rewrite Z.eqb_refl, Z.ltb_irrefl.
    symmetry. apply (proj1 (below_all_greater Hall)).
  - rewrite Forall_forall in Hall. pose proof (Hall _ Hin) as Hlt.
    destruct (Z.eqb_spec x y); [lia|].
    destruct (Z.ltb_spec y x); [|lia]. simpl. f_equal. auto.
Qed.

Lemma below_succ (s : Z) (l : list Z) :
  StronglySorted Z.lt l ->
  below (s + 1) l = below s l + (if mem_Z s l then 1 else 0).
Proof.
  unfold below, mem_Z. induction 1 as [|y l Hs IH Hall]; simpl; [reflexivity|].
  destruct (Z.ltb_spec y s) as [H1|H1].
  - destruct (Z.ltb_spec y (s + 1)); [|lia].
    destruct (Z.eqb_spec s y); [lia|]. simpl. rewrite IH. reflexivity.
  - destruct (Z.eqb_spec s y) as [->|Hne].
    + destruct (Z.ltb_spec y (y + 1)); [|lia]. simpl.
      destruct (below_all_greater Hall) as [G1 G2]. unfold below in G1, G2.
      rewrite G1, G2. reflexivity.
    + destruct (Z.ltb_spec y (s + 1)); [lia|]. simpl. exact IH.
Qed.

Lemma below_nonneg (l : list Z) : (forall x, In x l -> (0 <= x)%Z) -> below 0 l = 0.
Proof.
  unfold below. induction l as [|y l IH]; simpl; intros Hl; [reflexivity|].
  destruct (Z.ltb_spec y 0); [specialize (Hl y (or_introl eq_refl)); lia|].
  apply IH. intros; apply Hl; auto.
Qed.

Lemma mem_Z_In (x : Z) (l : list Z) : mem_Z x l = true <-> In x l.
Proof.
  unfold mem_Z. rewrite existsb_exists. split.
  - intros [y [Hy E]]. apply Z.eqb_eq in E. subst. assumption.
  - intros Hx. exists x. split; [assumption|apply Z.eqb_refl].
Qed.

Lemma index_of_lt (x : Z) (l : list Z) : In x l -> index_of x l < length l.
Proof.
  induction l as [|y l IH]; simpl; [tauto|].
  intros Hin. destruct (Z.eqb_spec x y); [lia|].
  destruct Hin as [->|Hin]; [congruence|]. specialize (IH Hin). lia.
Qed.

Lemma nth_index_of (x d : Z) (l : list Z) : In x l -> nth (index_of x l) l d = x.
Proof.
  induction l as [|y l IH]; simpl; [tauto|].
  intros Hin. destruct (Z.eqb_spec x y); [congruence|].
  destruct Hin as [->|Hin]; [congruence|]. auto.
Qed.

Lemma index_of_inj (x y : Z) (l : list Z) :
  In x l -> In y l -> index_of x l = index_of y l -> x = y.
Proof.
  intros Hx Hy E. rewrite <- (@nth_index_of x 0%Z l Hx), <- (@nth_index_of y 0%Z l Hy), E.
  reflexivity.
Qed.

Lemma nth_map_lt {A B} (f : A -> B) (l : list A) (i : nat) (d : B) (d' : A) :
  i < length l -> nth i (map f l) d = f (nth i l d').
Proof.
  intros Hi. rewrite (nth_indep _ d (f d')) by (rewrite length_map; assumption).
  apply map_nth.
Qed.

Section BuilderFacts.
Context {F : Type} `{Num F}.

Lemma inverse_mask (a : list Z) (label : Z) :
  In label a ->
  map (Nat.eqb (index_of label (np_unique a))) (unique_inverse a) = map (Z.eqb label) a.
Proof.
  intros Hl. unfold unique_inverse. rewrite map_map. apply map_ext_in.
  intros x Hx.
  destruct (Z.eqb_spec label x) as [->|Hne].
  - apply Nat.eqb_refl.
  - apply Nat.eqb_neq. intros E. apply Hne.
    apply (@index_of_inj label x (np_unique a)); [apply np_unique_In; assumption | apply np_unique_In; assumption | assumption].
Qed.

(** The row the loop writes for a label that occurs, read at its position
    in [np.unique]. *)
Lemma attributes_at_index (volume : list F) (labelmap : LabelMap) (label : Z) :
  In label (lm_data labelmap) ->
  let i := index_of label (np_unique (lm_data labelmap)) in
  nth i (measure_center_of_mass labelmap (np_unique (lm_data labelmap))) []
    ++ [nth i (region_intensities volume labelmap) f0;
        of_Z (nth i (unique_counts (lm_data labelmap)) 0%Z)]
  = region_vertex volume labelmap label.
Proof.
  intros Hl i.
  assert (Hu : In label (np_unique (lm_data labelmap))) by (apply np_unique_In; assumption).
  pose proof (@index_of_lt _ _ Hu) as Hi. fold i in Hi.
  pose proof (@nth_index_of _ 0%Z _ Hu) as Hn. fold i in Hn.
  unfold region_vertex, measure_center_of_mass, region_intensities, unique_counts.
  rewrite (@nth_map_lt _ _ _ _ _ [] 0%Z Hi), Hn.
  rewrite (@nth_map_lt _ _ _ _ _ f0 0) by (rewrite length_seq; assumption).
  rewrite seq_nth by assumption. simpl Nat.add.
  rewrite (@nth_map_lt _ _ _ _ _ 0%Z 0%Z Hi), Hn.
  unfold region_centroid, region_mean_intensity, region_size, region_mask.
  unfold i. rewrite inverse_mask by assumption. reflexivity.
Qed.

Lemma target_rows_length U c i s labels ai :
  length (target_rows (F:=F) U c i s labels ai) = length labels.
Proof.
  revert ai; induction labels as [|l labels IH]; intros ai; simpl; [reflexivity|].
  destruct (mem_Z (Z.of_nat l) U); simpl; rewrite IH; reflexivity.
Qed.

Lemma target_rows_nth (U : list Z) c i sz :
  StronglySorted Z.lt U ->
  forall n s k,
    k < n ->
    nth k (target_rows (F:=F) U c i sz (seq s n) (below (Z.of_nat s) U)) []
    = if mem_Z (Z.of_nat (s + k)) U
      then nth (index_of (Z.of_nat (s + k)) U) c []
             ++ [nth (index_of (Z.of_nat (s + k)) U) i f0;
                 of_Z (nth (index_of (Z.of_nat (s + k)) U) sz 0%Z)]
      else repeat finf 5.
Proof.
  intros HU. induction n as [|n IH]; intros s k Hk; [lia|].
  simpl seq. simpl target_rows.
  pose proof (below_succ (Z.of_nat s) HU) as Hb.
  replace (Z.of_nat s + 1)%Z with (Z.of_nat (S s)) in Hb by lia.
  destruct (mem_Z (Z.of_nat s) U) eqn:Hm.
  - destruct k as [|k].
    + rewrite Nat.add_0_r, Hm. simpl.
      rewrite (@index_of_sorted _ _ HU) by (apply mem_Z_In; assumption). reflexivity.
    + simpl nth. replace (S (below (Z.of_nat s) U)) with (below (Z.of_nat (S s)) U) by lia.
      rewrite IH by lia. replace (S s + k) with (s + S k) by lia. reflexivity.
  - destruct k as [|k].
    + rewrite Nat.add_0_r, Hm. reflexivity.
    + simpl nth. replace (below (Z.of_nat s) U) with (below (Z.of_nat (S s)) U) by lia.
      rewrite IH by lia. replace (S s + k) with (s + S k) by lia. reflexivity.
Qed.

Lemma build_graph_vertices_target (volume : list F) labelmap add_edges K :
  vertices (build_graph volume labelmap add_edges (Some K))
  = target_rows (np_unique (lm_data labelmap))
      (measure_center_of_mass labelmap (np_unique (lm_data labelmap)))
      (region_intensities volume labelmap)
      (unique_counts (lm_data labelmap)) (seq 0 K) 0.
Proof.
  unfold build_graph. destruct add_edges; reflexivity.
Qed.


End BuilderFacts.

(* ------------------------------------------------------------------ *)
(** * NaN in binary64, and the cost of an empty label *)

(** ** NaN in binary64 *)

Lemma SFeqb_refl_false (s : spec_float) : SFeqb s s = false <-> s = S754_nan.
Proof.
  unfold SFeqb. destruct s as [b|b| |b m e]; simpl.
  - split; discriminate.
  - destruct b; split; discriminate.
  - split; reflexivity.
  - rewrite Z.compare_refl.
    assert (E : Pos.compare_cont Eq m m = Eq) by apply Pos.compare_refl.
    rewrite E. destruct b; simpl; split; discriminate.
Qed.

Lemma fis_nan_spec (x : float) : fis_nan x = true <-> is_NaN x.
Proof.
  unfold fis_nan, is_NaN. simpl. rewrite FloatAxioms.eqb_spec, negb_true_iff.
  apply SFeqb_refl_false.
Qed.

Lemma NaN_add_l x y : is_NaN x -> is_NaN (x + y)%float.
Proof. unfold is_NaN. intros E. rewrite FloatAxioms.add_spec, E. reflexivity. Qed.
Lemma NaN_add_r x y : is_NaN y -> is_NaN (x + y)%float.
Proof. unfold is_NaN. intros E. rewrite FloatAxioms.add_spec, E. destruct (Prim2SF x); reflexivity. Qed.
Lemma NaN_sub_l x y : is_NaN x -> is_NaN (x - y)%float.
Proof. unfold is_NaN. intros E. rewrite FloatAxioms.sub_spec, E. reflexivity. Qed.
Lemma NaN_mul_l x y : is_NaN x -> is_NaN (x * y)%float.
Proof. unfold is_NaN. intros E. rewrite FloatAxioms.mul_spec, E. reflexivity. Qed.
Lemma NaN_mul_r x y : is_NaN y -> is_NaN (x * y)%float.
Proof. unfold is_NaN. intros E. rewrite FloatAxioms.mul_spec, E. destruct (Prim2SF x); reflexivity. Qed.
Lemma NaN_div_l x y : is_NaN x -> is_NaN (x / y)%float.
Proof. unfold is_NaN. intros E. rewrite FloatAxioms.div_spec, E. reflexivity. Qed.
Lemma NaN_sqrt x : is_NaN x -> is_NaN (PrimFloat.sqrt x).
Proof. unfold is_NaN. intros E. rewrite FloatAxioms.sqrt_spec, E. reflexivity. Qed.
Lemma NaN_ltb_l x y : is_NaN x -> (x <? y)%float = false.
Proof. unfold is_NaN. intros E. rewrite FloatAxioms.ltb_spec, E. reflexivity. Qed.
Lemma NaN_ltb_r x y : is_NaN y -> (x <? y)%float = false.
Proof.
  unfold is_NaN. intros E. rewrite FloatAxioms.ltb_spec, E. unfold SFltb.
  destruct (Prim2SF x); reflexivity.
Qed.
Lemma NaN_nan : is_NaN nan.
Proof. reflexivity. Qed.

Lemma np_sum_NaN_acc (v : list float) (a : float) :
  is_NaN a -> is_NaN (fold_left PrimFloat.add v a).
Proof.
  revert a; induction v as [|x v IH]; intros a Ha; simpl; [assumption|].
  apply IH, NaN_add_l, Ha.
Qed.

Lemma np_sum_has_NaN (v : list float) (a : float) :
  Exists is_NaN v -> is_NaN (fold_left PrimFloat.add v a).
Proof.
  intros Hex. revert a. induction Hex as [x v Hx|x v _ IH]; intros a; simpl.
  - apply np_sum_NaN_acc, NaN_add_r, Hx.
  - apply IH.
Qed.

Lemma np_mean_has_NaN (v : list float) : Exists is_NaN v -> is_NaN (np_mean v).
Proof. intros Hex. unfold np_mean. apply NaN_div_l, np_sum_has_NaN, Hex. Qed.

Lemma norm_row_NaN (r : list float) : r <> [] -> all_NaN r -> is_NaN (norm_row r).
Proof.
  intros Hne Hall. unfold norm_row. apply NaN_sqrt.
  apply np_sum_has_NaN. destruct Hall as [|x r Hx _]; [congruence|].
  simpl. left. apply NaN_mul_l, Hx.
Qed.

(** Positions in [map2], [np.repeat] and [np.tile]. *)
Lemma map2_length {A B C} (f : A -> B -> C) (l : list A) (l' : list B) :
  length (map2 f l l') = Nat.min (length l) (length l').
Proof.
  revert l'; induction l as [|a l IH]; intros [|b l']; simpl; try reflexivity.
  rewrite IH. reflexivity.
Qed.

Lemma map2_nth {A B C} (f : A -> B -> C) (l : list A) (l' : list B) i d da db :
  i < length l -> i < length l' ->
  nth i (map2 f l l') d = f (nth i l da) (nth i l' db).
Proof.
  revert l' i; induction l as [|a l IH]; intros [|b l'] i Hl Hl'; simpl in *; try lia.
  destruct i as [|i]; [reflexivity|]. apply IH; lia.
Qed.

Lemma np_repeat_length {A} (a : list A) k : length (np_repeat a k) = length a * k.
Proof.
  unfold np_repeat. induction a as [|x a IH]; simpl; [reflexivity|].
  rewrite length_app, repeat_length, IH. reflexivity.
Qed.

Lemma np_repeat_nth {A} (a : list A) k i j d :
  j < k -> nth (i * k + j) (np_repeat a k) d = nth i a d.
Proof.
  unfold np_repeat. revert i; induction a as [|x a IH]; intros i Hj; simpl.
  - destruct (i * k + j), i; reflexivity.
  - destruct i as [|i].
    + simpl. rewrite app_nth1 by (rewrite repeat_length; assumption).
      apply nth_repeat_lt. assumption.
    + rewrite app_nth2 by (rewrite repeat_length; simpl; lia).
      rewrite repeat_length. replace (S i * k + j - k) with (i * k + j) by (simpl; lia).
      apply IH. assumption.
Qed.

Lemma np_tile_length {A} (a : list A) k : length (np_tile a k) = k * length a.
Proof.
  unfold np_tile. induction k as [|k IH]; simpl; [reflexivity|].
  rewrite length_app, IH. reflexivity.
Qed.

Lemma np_tile_nth {A} (a : list A) k i j d :
  i < k -> j < length a -> nth (i * length a + j) (np_tile a k) d = nth j a d.
Proof.
  unfold np_tile. revert i; induction k as [|k IH]; intros i Hi Hj; [lia|].
  simpl. destruct i as [|i].
  - simpl. apply app_nth1. assumption.
  - rewrite app_nth2 by (simpl; lia).
    replace (S i * length a + j - length a) with (i * length a + j) by (simpl; lia).
    apply IH; lia.
Qed.

Lemma combine_nth_lt {A B} (a : list A) (b : list B) (da : A) (db : B) i :
  i < length a -> i < length b ->
  nth i (combine a b) (da, db) = (nth i a da, nth i b db).
Proof.
  revert b i; induction a as [|x a IH]; intros [|y b] i Ha Hb; simpl in *; try lia.
  destruct i as [|i]; [reflexivity|]. apply IH; lia.
Qed.

Section EdgeRows.
Context {F : Type} `{Num F}.

Lemma column_stack_length (M : list (list F)) (a b : list F) :
  length (column_stack M a b) = Nat.min (length M) (Nat.min (length a) (length b)).
Proof. unfold column_stack. rewrite map2_length, length_combine. reflexivity. Qed.

Lemma column_stack_nth (M : list (list F)) (a b : list F) i :
  i < length M -> i < length a -> i < length b ->
  nth i (column_stack M a b) [] = nth i M [] ++ [nth i a f0; nth i b f0].
Proof.
  intros HM Ha Hb. unfold column_stack.
  rewrite (@map2_nth _ _ _ _ M (combine a b) i [] [] (f0, f0))
    by (try rewrite length_combine; lia).
  rewrite (combine_nth_lt a b f0 f0) by assumption. reflexivity.
Qed.

Lemma relational_edges_length (V : list (list F)) :
  length (relational_edges V) = length V * length V.
Proof.
  unfold relational_edges, msub, vsub, vdiv.
  rewrite column_stack_length, length_map, !map2_length.
  rewrite !np_repeat_length, !np_tile_length, !length_map. lia.
Qed.

(** The edge of the ordered pair (i, j): relative position, contrast and
    size ratio. *)
Lemma relational_edges_nth (V : list (list F)) (i j : nat) :
  i < length V -> j < length V ->
  nth (i * length V + j) (relational_edges V) []
  = vsub (firstn 3 (nth i V [])) (firstn 3 (nth j V []))
      ++ [fabs (fsub (nth 3 (nth i V []) f0) (nth 3 (nth j V []) f0));
          fdiv (nth 4 (nth i V []) f0) (nth 4 (nth j V []) f0)].
Proof.
  intros Hi Hj. unfold relational_edges.
  set (n := length V).
  assert (Hij : i * n + j < n * n) by nia.
  rewrite column_stack_nth.
  2:{ unfold msub. rewrite map2_length, np_repeat_length, np_tile_length, length_map.
      fold n. lia. }
  2:{ unfold vsub. rewrite length_map, map2_length, np_repeat_length, np_tile_length, length_map.
      fold n. lia. }
  2:{ unfold vdiv. rewrite map2_length, np_repeat_length, np_tile_length, length_map.
      fold n. lia. }
  assert (Hrep : forall A (a : list A) d, length a = n ->
                   nth (i * n + j) (np_repeat a n) d = nth i a d).
  { intros A a d _. apply np_repeat_nth. assumption. }
  assert (Htile : forall A (a : list A) d, length a = n ->
                   nth (i * n + j) (np_tile a n) d = nth j a d).
  { intros A a d Ha. rewrite <- Ha at 1. apply np_tile_nth; lia. }
  f_equal; [|f_equal; [|f_equal]].
  - unfold msub.
    rewrite (@map2_nth _ _ _ _ _ _ _ [] [] []) 
      by (rewrite ?np_repeat_length, ?np_tile_length, length_map; fold n; lia).
    rewrite Hrep, Htile by apply length_map.
    rewrite !(@nth_map_lt _ _ _ _ _ [] []) by assumption. reflexivity.
  - rewrite (@nth_map_lt _ _ _ _ _ f0 f0)
      by (unfold vsub; rewrite map2_length, np_repeat_length, np_tile_length, length_map;
          fold n; lia).
    unfold vsub.
    rewrite (@map2_nth _ _ _ _ _ _ _ f0 f0 f0)
      by (rewrite ?np_repeat_length, ?np_tile_length, length_map; fold n; lia).
    rewrite Hrep, Htile by apply length_map.
    rewrite !(@nth_map_lt _ _ _ _ _ f0 []) by assumption. reflexivity.
  - unfold vdiv.
    rewrite (@map2_nth _ _ _ _ _ _ _ f0 f0 f0)
      by (rewrite ?np_repeat_length, ?np_tile_length, length_map; fold n; lia).
    rewrite Hrep, Htile by apply length_map.
    rewrite !(@nth_map_lt _ _ _ _ _ f0 []) by assumption. reflexivity.
Qed.

Lemma target_rows_absent (U : list Z) c i sz (labels : list nat) (ai k : nat) :
  k < length labels ->
  mem_Z (Z.of_nat (nth k labels 0)) U = false ->
  nth k (target_rows (F:=F) U c i sz labels ai) [] = repeat finf 5.
Proof.
  revert ai k; induction labels as [|l labels IH]; intros ai k Hk Hm; simpl in *; [lia|].
  destruct k as [|k].
  - rewrite Hm. reflexivity.
  - destruct (mem_Z (Z.of_nat l) U); simpl; apply IH; (lia || assumption).
Qed.

Lemma build_graph_absent_row (volume : list F) labelmap add_edges K l :
  l < K -> mem_Z (Z.of_nat l) (lm_data labelmap) = false ->
  nth l (vertices (build_graph volume labelmap add_edges (Some K))) [] = repeat finf 5.
Proof.
  intros Hl Hm. rewrite build_graph_vertices_target.
  apply target_rows_absent; [rewrite length_seq; assumption|].
  rewrite seq_nth by assumption. simpl.
  destruct (mem_Z (Z.of_nat l) (np_unique (lm_data labelmap))) eqn:E; [|reflexivity].
  apply (proj1 (mem_Z_In _ _)), (proj1 (np_unique_In _ _)), (proj2 (mem_Z_In _ _)) in E.
  congruence.
Qed.

Lemma build_graph_vertices_length (volume : list F) labelmap add_edges K :
  length (vertices (build_graph volume labelmap add_edges (Some K))) = K.
Proof. rewrite build_graph_vertices_target, target_rows_length. apply length_seq. Qed.

Lemma build_graph_edges (volume : list F) labelmap tv :
  edges (build_graph volume labelmap true tv)
  = relational_edges (vertices (build_graph volume labelmap true tv)).
Proof. reflexivity. Qed.

End EdgeRows.

(** ** An empty label and the global cost *)

Lemma all_NaN_map2_l (op : float -> float -> float) (a b : list float) :
  (forall x y, is_NaN x -> is_NaN (op x y)) ->
  all_NaN a -> all_NaN (map2 op a b).
Proof.
  intros Hop Ha. revert b. induction Ha as [|x a Hx _ IH]; intros [|y b]; simpl;
    try apply Forall_nil.
  apply Forall_cons; [apply Hop, Hx|apply IH].
Qed.

Lemma all_NaN_map2_r (op : float -> float -> float) (a b : list float) :
  (forall x y, is_NaN y -> is_NaN (op x y)) ->
  all_NaN b -> all_NaN (map2 op a b).
Proof.
  intros Hop Hb. revert a. induction Hb as [|y b Hy _ IH]; intros [|x a]; simpl;
    try apply Forall_nil.
  apply Forall_cons; [apply Hop, Hy|apply IH].
Qed.

Lemma standardize_nth {F} `{Num F} (M : list (list F)) (mean std : list F) i :
  i < length M ->
  nth i (standardize M mean std) [] = vdiv (vsub (nth i M []) mean) std.
Proof.
  intros Hi. unfold standardize, mdiv_row, msub_row.
  rewrite (@nth_map_lt _ _ _ _ _ [] []) by (rewrite length_map; assumption).
  rewrite (@nth_map_lt _ _ _ _ _ [] []) by assumption. reflexivity.
Qed.

Lemma standardize_length {F} `{Num F} (M : list (list F)) (mean std : list F) :
  length (standardize M mean std) = length M.
Proof. unfold standardize, mdiv_row, msub_row. rewrite !length_map. reflexivity. Qed.

Lemma zeros_to_one_length {F} `{Num F} (v : list F) : length (zeros_to_one v) = length v.
Proof. apply length_map. Qed.

Lemma renormalize_length {F} `{Num F} (v : list F) : length (renormalize v) = length v.
Proof. apply length_map. Qed.

Lemma ncols_nth {F} (M : list (list F)) : ncols M = length (nth 0 M []).
Proof. destruct M; reflexivity. Qed.

Lemma Exists_nth_NaN (v : list float) i : i < length v -> is_NaN (nth i v 0%float) -> Exists is_NaN v.
Proof.
  intros Hi Hn. apply Exists_exists. exists (nth i v 0%float). split; [|assumption].
  apply nth_In. assumption.
Qed.

Section EmptyLabel.
Variable observation : list float.
Variable model_graph : SRG (F:=float).
Variables mean_vertex std_vertex mean_edge std_edge : list float.
Variable vertex_weights : list float.
Variable graph_weights : float * float.

Lemma absent_edge_row (labelmap : LabelMap) (K l : nat) :
  l < K -> mem_Z (Z.of_nat l) (lm_data labelmap) = false ->
  nth (l * K + l) (edges (build_graph observation labelmap true (Some K))) []
  = [nan; nan; nan; nan; nan].
Proof.
  intros Hl Hm. rewrite build_graph_edges.
  pose proof (build_graph_vertices_length observation labelmap true K) as HK.
  pose proof (@relational_edges_nth float _
                (vertices (build_graph observation labelmap true (Some K))) l l) as Hn.
  rewrite HK in Hn. rewrite Hn by assumption.
  rewrite (build_graph_absent_row observation labelmap true Hl Hm).
  reflexivity.
Qed.

Lemma edge_row_length (V : list (list float)) i j :
  i < length V -> j < length V ->
  2 <= length (nth (i * length V + j) (relational_edges V) []).
Proof.
  intros Hi Hj. rewrite relational_edges_nth by assumption.
  rewrite length_app. simpl. lia.
Qed.

(** C9. When a label l < K is absent from the labelmap, the edge row of the
    pair (l, l) built with [target_vertices = K] is NaN in all of its five
    dimensions (infinity - infinity for the relative position and the
    contrast, infinity / infinity for the size ratio); the mean edge cost
    and the global cost of that labelmap are then NaN, and the strict
    comparison of the acceptance test is false on both sides of such a
    cost. *)
Theorem empty_label_cost_is_nan (labelmap : LabelMap) (l : nat) (edge_w : option (list float)) :
  let K := n_model model_graph in
  let raw := build_graph observation labelmap true (Some K) in
  let g := graph_of observation model_graph mean_vertex std_vertex mean_edge std_edge
                    labelmap in
  let cost := global_cost model_graph vertex_weights graph_weights g edge_w in
  l < K ->
  mem_Z (Z.of_nat l) (lm_data labelmap) = false ->
  length mean_edge = 5 -> length std_edge = 5 ->
  length (edges model_graph) = K * K ->
  (forall r, In r (edges model_graph) -> length r = 5) ->
  (forall w, edge_w = Some w -> w <> []) ->
  nth (l * K + l) (edges raw) [] = [nan; nan; nan; nan; nan]
  /\ fis_nan (np_mean (compute_edge_cost (edges g) (edges model_graph) edge_w)) = true
  /\ fis_nan cost = true
  /\ forall c, fltb c cost = false /\ fltb cost c = false.
Proof.
  intros K raw g cost Hl Hm Hme Hse HE Hrows Hw.
  pose proof (absent_edge_row labelmap Hl Hm) as Hrow. fold raw in Hrow.
  assert (HrawV : length (vertices raw) = K) by apply build_graph_vertices_length.
  assert (HrawE : length (edges raw) = K * K).
  { unfold raw. rewrite build_graph_edges, relational_edges_length.
    fold raw. rewrite HrawV. reflexivity. }
  assert (Hidx : l * K + l < K * K) by nia.
  (* the edges of the standardized graph *)
  assert (Hg : edges g = standardize (edges raw) mean_edge (zeros_to_one std_edge)).
  { unfold g, graph_of, normalized, normalize_graph. fold K. fold raw.
    destruct (0 <? length (edges raw)) eqn:E; [reflexivity|].
    apply Nat.ltb_ge in E. lia. }
  set (i := l * K + l) in *.
  assert (Hgi : all_NaN (nth i (edges g) []) /\ length (nth i (edges g) []) = 5).
  { rewrite Hg, standardize_nth by lia. rewrite Hrow. split.
    - apply all_NaN_map2_l; [apply NaN_div_l|].
      apply all_NaN_map2_l; [apply NaN_sub_l|].
      repeat constructor.
    - unfold vdiv, vsub. rewrite !map2_length, zeros_to_one_length, Hme, Hse. reflexivity. }
  destruct Hgi as [Hnan Hlen].
  (* the weights in use are not empty *)
  set (w := match edge_w with None => np_ones (ncols (edges g)) | Some w => w end).
  assert (Hwne : length (renormalize w) <> 0).
  { rewrite renormalize_length. unfold w. destruct edge_w as [w0|].
    - specialize (Hw w0 eq_refl). destruct w0; [congruence|simpl; lia].
    - unfold np_ones. rewrite repeat_length, ncols_nth, Hg, standardize_nth by lia.
      pose proof (@edge_row_length (vertices raw) 0 0) as H2.
      rewrite HrawV in H2. change (0 * K + 0) with 0 in H2.
      specialize (H2 ltac:(lia) ltac:(lia)).
      replace (edges raw) with (relational_edges (vertices raw)) by reflexivity.
      unfold vdiv, vsub. rewrite !map2_length, zeros_to_one_length, Hme, Hse.
      lia. }
  (* the cost of the pair (l, l) is NaN *)
  assert (Hcost : Exists is_NaN (compute_edge_cost (edges g) (edges model_graph) edge_w)).
  { unfold compute_edge_cost. fold w. rewrite linalg_norm_rows.
    apply (@Exists_nth_NaN _ i).
    - rewrite map2_length, Hg, standardize_length, HrawE, HE. lia.
    - rewrite (@map2_nth _ _ _ _ _ _ _ 0%float [] [])
        by (rewrite ?Hg, ?standardize_length, ?HrawE, ?HE; lia).
      assert (Hm5 : length (nth i (edges model_graph) []) = 5).
      { apply Hrows, nth_In. lia. }
      apply norm_row_NaN.
      + intros E. apply (f_equal (@length float)) in E.
        unfold vmul, vsub in E. rewrite !map2_length, Hlen, Hm5 in E. simpl in E. lia.
      + apply all_NaN_map2_r; [apply NaN_mul_r|].
        apply all_NaN_map2_l; [apply NaN_sub_l|]. assumption. }
  assert (Hmean : is_NaN (np_mean (compute_edge_cost (edges g) (edges model_graph) edge_w)))
    by (apply np_mean_has_NaN; assumption).
  assert (Hc : is_NaN cost).
  { unfold cost, global_cost. apply NaN_add_r, NaN_mul_r. assumption. }
  split; [assumption|]. split; [apply fis_nan_spec; assumption|].
  split; [apply fis_nan_spec; assumption|].
  intros c. split; [apply NaN_ltb_r|apply NaN_ltb_l]; assumption.
Qed.

End EmptyLabel.

Lemma empty_label_cost_is_nan_witness :
  fis_nan (global_cost half_model_graph vertex_weights_2d graph_weights_2d
             (graph_of half_model_volume half_model_graph half_mean_vertex half_std_vertex
                       half_mean_edge half_std_edge all_zero_labelmap) None) = true.
Proof.
  refine (proj1 (proj2 (proj2
    (@empty_label_cost_is_nan half_model_volume half_model_graph half_mean_vertex
       half_std_vertex half_mean_edge half_std_edge vertex_weights_2d graph_weights_2d
       all_zero_labelmap 1 None _ _ _ _ _ _ _)))).
  - vm_compute. lia.
  - reflexivity.
  - reflexivity.
  - reflexivity.
  - reflexivity.
  - intros r Hr. vm_compute in Hr.
    repeat (destruct Hr as [Hr|Hr]; [subst r; reflexivity|]). contradiction.
  - intros w Hw. discriminate.
Defined.

(* ------------------------------------------------------------------ *)
(** * Sentinel safety of the initial match *)

(** ** +infinity in binary64 *)

Lemma is_PInf_eq (x : float) : is_PInf x <-> x = infinity.
Proof.
  unfold is_PInf. split.
  - intros E. apply Prim2SF_inj. rewrite E. reflexivity.
  - intros ->. reflexivity.
Qed.

(** A number that is not NaN is below +infinity or is +infinity. *)
Lemma below_or_PInf (x : float) :
  fis_nan x = false -> fltb x finf = true \/ is_PInf x.
Proof.
  intros Hn. assert (Hx : Prim2SF x <> S754_nan).
  { intros E. apply fis_nan_spec in E. congruence. }
  unfold is_PInf. simpl. rewrite FloatAxioms.ltb_spec.
  change (Prim2SF infinity) with (S754_infinity false).
  unfold SFltb. destruct (Prim2SF x) as [b|[|]| |[|] m e]; simpl; auto; congruence.
Qed.

Lemma below_inf_not_nan (x : float) : fltb x finf = true -> fis_nan x = false.
Proof.
  intros Hlt. destruct (fis_nan x) eqn:E; [|reflexivity].
  apply fis_nan_spec in E. rewrite (NaN_ltb_l _ E) in Hlt. discriminate.
Qed.

Lemma below_inf_not_PInf (x : float) : fltb x finf = true -> ~ is_PInf x.
Proof.
  simpl. rewrite FloatAxioms.ltb_spec. unfold is_PInf. intros Hlt E.
  rewrite E in Hlt. discriminate.
Qed.

Lemma leb_PInf (x : float) : fis_nan x = false -> fleb x finf = true.
Proof.
  intros Hn. assert (Hx : Prim2SF x <> S754_nan).
  { intros E. apply fis_nan_spec in E. congruence. }
  simpl. rewrite FloatAxioms.leb_spec.
  change (Prim2SF infinity) with (S754_infinity false).
  unfold SFleb. destruct (Prim2SF x) as [b|[|]| |[|] m e]; simpl; auto; congruence.
Qed.

Lemma PInf_leb (x : float) : fleb finf x = true -> is_PInf x.
Proof.
  simpl. rewrite FloatAxioms.leb_spec.
  change (Prim2SF infinity) with (S754_infinity false).
  unfold SFleb, is_PInf. destruct (Prim2SF x) as [b|[|]| |[|] m e]; simpl;
    solve [discriminate | auto].
Qed.

Lemma leb_not_nan_l (x y : float) : fleb x y = true -> fis_nan x = false.
Proof.
  simpl. rewrite FloatAxioms.leb_spec. intros Hle.
  destruct (fis_nan x) eqn:E; [|reflexivity].
  apply fis_nan_spec in E. unfold is_NaN in E. rewrite E in Hle. discriminate.
Qed.

(** Arithmetic that ends in +infinity. *)
Lemma sub_PInf (x y : float) : fltb x finf = true -> is_PInf y -> Prim2SF (x - y) = S754_infinity true.
Proof.
  simpl. rewrite FloatAxioms.ltb_spec, FloatAxioms.sub_spec. unfold is_PInf.
  change (Prim2SF infinity) with (S754_infinity false).
  intros Hlt ->. unfold SFltb in Hlt.
  destruct (Prim2SF x) as [b|[|]| |[|] m e]; simpl in *; solve [discriminate | reflexivity].
Qed.

Lemma mul_Inf (w x : float) :
  feqb w f0 = false -> fis_nan w = false -> is_Inf x -> is_Inf (w * x).
Proof.
  intros Hz Hn [s Hx]. assert (Hw : Prim2SF w <> S754_nan).
  { intros E. apply fis_nan_spec in E. congruence. }
  simpl in Hz. rewrite FloatAxioms.eqb_spec in Hz.
  change (Prim2SF 0) with (S754_zero false) in Hz.
  unfold is_Inf. rewrite FloatAxioms.mul_spec, Hx.
  destruct (Prim2SF w) as [b|b| |b m e]; simpl in *;
    solve [discriminate | congruence | eexists; reflexivity].
Qed.

Lemma square_Inf (x : float) : is_Inf x -> is_PInf (x * x).
Proof.
  intros [s Hx]. unfold is_PInf. rewrite FloatAxioms.mul_spec, Hx.
  destruct s; reflexivity.
Qed.

Lemma add_PInf (a x : float) : a = 0%float \/ is_PInf a -> is_PInf x -> is_PInf (a + x).
Proof.
  unfold is_PInf. intros Ha Hx. rewrite FloatAxioms.add_spec, Hx.
  destruct Ha as [E | E]; rewrite E; reflexivity.
Qed.

Lemma sqrt_PInf (x : float) : is_PInf x -> is_PInf (PrimFloat.sqrt x).
Proof. unfold is_PInf. intros Hx. rewrite FloatAxioms.sqrt_spec, Hx. reflexivity. Qed.

Lemma np_sum_PInf (v : list float) :
  v <> [] -> Forall is_PInf v -> is_PInf (np_sum v).
Proof.
  intros Hne Hall. unfold np_sum. simpl.
  assert (G : forall a, a = 0%float \/ is_PInf a -> v <> [] ->
                        is_PInf (fold_left PrimFloat.add v a)).
  { clear Hne. induction Hall as [|x v Hx Hv IH]; intros a Ha Hne; [congruence|].
    simpl. destruct v as [|y v].
    - simpl. apply add_PInf; assumption.
    - apply IH; [right; apply add_PInf; assumption|discriminate]. }
  apply G; auto.
Qed.

(** ** The scan of [np.argmin] *)

Lemma argmin_scan_value (a : list float) (mp : float) (mi i : nat) :
  let r := argmin_scan mp mi i a in
  (fst r = mi /\ snd r = mp)
  \/ (i <= fst r < i + length a /\ snd r = nth (fst r - i) a 0%float).
Proof.
  revert mp mi i. induction a as [|x a IH]; intros mp mi i; cbn [argmin_scan]; [auto|].
  assert (Hshift : forall k, S i <= k -> nth (k - i) (x :: a) 0%float = nth (k - S i) a 0%float).
  { intros k Hk. replace (k - i) with (S (k - S i)) by lia. reflexivity. }
  destruct (negb (fleb mp x)).
  - destruct (fis_nan x).
    + right. cbn [fst snd length]. rewrite Nat.sub_diag. split; [lia|reflexivity].
    + specialize (IH x i (S i)). cbv zeta in IH |- *.
      destruct IH as [[E1 E2]|[E1 E2]].
      * right. rewrite E1, E2, Nat.sub_diag. cbn [length]. split; [lia|reflexivity].
      * right. cbn [length]. split; [lia|]. rewrite E2. symmetry. apply Hshift. lia.
  - specialize (IH mp mi (S i)). cbv zeta in IH |- *.
    destruct IH as [[E1 E2]|[E1 E2]].
    + left. auto.
    + right. cbn [length]. split; [lia|]. rewrite E2. symmetry. apply Hshift. lia.
Qed.

Lemma min_scan_value (a : list float) (j : nat) (m : float) :
  min_scan a = Some (j, m) -> j < length a /\ m = nth j a 0%float.
Proof.
  destruct a as [|x a]; simpl; [discriminate|].
  destruct (fis_nan x).
  - intros E. inversion E. subst. split; [lia|reflexivity].
  - pose proof (argmin_scan_value a x 0 1) as Hv. simpl in Hv.
    intros E. inversion E as [E']. rewrite E' in Hv. simpl in Hv.
    destruct Hv as [[E1 E2] | [Hj E2]]; subst; [split; [lia|reflexivity]|].
    split; [lia|]. destruct j as [|j]; [lia|]. simpl. rewrite Nat.sub_0_r. reflexivity.
Qed.

(** Once an entry below +infinity has been seen, the running minimum is
    below +infinity or NaN. *)
Lemma argmin_scan_below (a : list float) (mp : float) (mi i : nat) :
  fis_nan mp = false ->
  fltb mp finf = true \/ Exists (fun x => fltb x finf = true) a ->
  let m := snd (argmin_scan mp mi i a) in
  fltb m finf = true \/ fis_nan m = true.
Proof.
  revert mp mi i. induction a as [|x a IH]; intros mp mi i Hmp Hex; cbn [argmin_scan].
  - destruct Hex as [Hlt|Hex]; [auto|inversion Hex].
  - destruct (fleb mp x) eqn:Hle; cbn [negb].
    + apply IH; [assumption|].
      destruct Hex as [Hlt|Hex]; [auto|].
      inversion Hex as [? ? Hx|? ? Hx]; subst; [|auto].
      left. destruct (below_or_PInf mp Hmp) as [Hlt|Hinf]; [assumption|].
      apply is_PInf_eq in Hinf. subst mp. apply PInf_leb in Hle.
      exfalso. exact (@below_inf_not_PInf _ Hx Hle).
    + destruct (fis_nan x) eqn:Hx; [cbn [snd]; auto|].
      apply IH; [assumption|]. left.
      destruct (below_or_PInf x Hx) as [Hlt|Hinf]; [assumption|].
      apply is_PInf_eq in Hinf. subst x.
      pose proof (leb_PInf mp Hmp) as Hc. change (fleb mp infinity = true) in Hc.
      congruence.
Qed.

Lemma min_scan_below (a : list float) (j : nat) (m : float) :
  min_scan a = Some (j, m) ->
  Exists (fun x => fltb x finf = true) a ->
  fltb m finf = true \/ fis_nan m = true.
Proof.
  destruct a as [|x a]; simpl; [discriminate|].
  destruct (fis_nan x) eqn:Hx.
  - intros E _. inversion E. subst. auto.
  - intros E Hex. inversion E as [E'].
    pose proof (@argmin_scan_below a x 0 1 Hx) as Hb. simpl in Hb.
    rewrite E' in Hb. simpl in Hb. apply Hb.
    inversion Hex; subst; auto.
Qed.

(** ** Sentinel safety *)

Lemma Forall_map2 {A B C} (P : A -> Prop) (Q : B -> Prop) (R : C -> Prop)
    (op : A -> B -> C) (a : list A) (b : list B) :
  (forall x y, P x -> Q y -> R (op x y)) ->
  Forall P a -> Forall Q b -> Forall R (map2 op a b).
Proof.
  intros Hop Ha. revert b. induction Ha as [|x a Hx _ IH]; intros b Hb; simpl;
    [apply Forall_nil|].
  destruct Hb as [|y b Hy Hb]; [apply Forall_nil|].
  apply Forall_cons; [apply Hop; assumption|apply IH; assumption].
Qed.

Lemma removelast_length {A} (l : list A) : length (removelast l) = length l - 1.
Proof.
  induction l as [|x l IH]; [reflexivity|].
  destruct l as [|y l]; [reflexivity|].
  change (length (removelast (x :: y :: l))) with (S (length (removelast (y :: l)))).
  rewrite IH. simpl. lia.
Qed.

Lemma sentinel_cost (w sv : list float) :
  w <> [] -> 2 <= length sv ->
  Forall (fun x => feqb x f0 = false /\ fis_nan x = false) (renormalize w) ->
  Forall (fun x => fltb x finf = true) (removelast sv) ->
  weighted_distance w (removelast sv) (removelast (repeat finf 5)) = infinity.
Proof.
  intros Hw Hsv Hwn Hfin. apply is_PInf_eq.
  rewrite <- weighted_distance_rows. unfold norm_row. apply sqrt_PInf, np_sum_PInf.
  - intros E. apply (f_equal (@length float)) in E.
    rewrite length_map in E. unfold vmul, vsub in E.
    rewrite !map2_length, renormalize_length, !removelast_length, repeat_length in E.
    assert (Hlw : length w <> 0) by (destruct w; [congruence|discriminate]).
    cbn [length] in E. lia.
  - apply Forall_map.
    eapply Forall_impl; [intros x Hx; apply square_Inf; exact Hx|].
    apply (@Forall_map2 _ _ _ (fun x => feqb x f0 = false /\ fis_nan x = false)
                         is_Inf is_Inf).
    + intros x y [Hz Hn] Hy. apply mul_Inf; assumption.
    + assumption.
    + apply (@Forall_map2 _ _ _ (fun x => fltb x finf = true) is_PInf is_Inf).
      * intros x y Hx Hy. exists true. apply sub_PInf; assumption.
      * assumption.
      * repeat constructor.
Qed.

(** C6, amended. When no renormalized weight is zero or NaN and the
    attributes of the super-vertex that enter the initial cost are below
    +infinity, a sentinel row costs exactly +infinity, and the arg-min
    returns a sentinel index only if no row has a cost below +infinity. *)
Theorem sentinel_safe_nonzero_weights
    (model_vertices : list (list float)) (initial_weights super_vertex : list float) :
  initial_weights <> [] ->
  2 <= length super_vertex ->
  Forall (fun x => feqb x f0 = false /\ fis_nan x = false) (renormalize initial_weights) ->
  Forall (fun x => fltb x finf = true) (removelast super_vertex) ->
  sentinel_safe model_vertices initial_weights super_vertex.
Proof.
  intros Hw Hsv Hwn Hfin. unfold sentinel_safe.
  set (K := length model_vertices).
  set (costs := compute_initial_vertex_cost (repeat super_vertex K) model_vertices
                                            (Some initial_weights)).
  cbv zeta. intros j Hj Hs i Hi _.
  assert (Hcosts : costs = map2 (fun a b => weighted_distance initial_weights
                                              (removelast a) (removelast b))
                                (repeat super_vertex K) model_vertices).
  { unfold costs, compute_initial_vertex_cost, drop_last_col.
    rewrite linalg_norm_rows, map2_map_both. reflexivity. }
  assert (Hlen : length costs = K).
  { rewrite Hcosts, map2_length, repeat_length. fold K. lia. }
  unfold np_argmin in Hj. destruct (min_scan costs) as [[j' m]|] eqn:Hmin; [|discriminate].
  simpl in Hj. inversion Hj. subst j'. clear Hj.
  destruct (@min_scan_value _ _ _ Hmin) as [Hjlt Hm].
  assert (Hmj : m = infinity).
  { rewrite Hm, Hcosts.
    rewrite (@map2_nth _ _ _ _ _ _ _ 0%float [] [])
      by (rewrite ?repeat_length; fold K; lia).
    rewrite nth_repeat_lt by lia. rewrite Hs.
    apply sentinel_cost; assumption. }
  destruct (fltb (nth i costs f0) finf) eqn:Hci; [|reflexivity].
  exfalso.
  assert (Hex : Exists (fun x => fltb x finf = true) costs).
  { apply Exists_exists. exists (nth i costs f0). split; [|assumption].
    apply nth_In. lia. }
  destruct (@min_scan_below _ _ _ Hmin Hex) as [Hb|Hb]; rewrite Hmj in Hb;
    vm_compute in Hb; discriminate.
Qed.

(** C6 as stated fails for a weight vector with a zero entry, such as the
    initial weights (1, 1, 0, 1) of [2d_full_process.py]: 0 * infinity is
    NaN, the sentinel costs NaN, and [np.argmin] returns the first NaN
    although the real row costs 0. *)
Lemma sentinel_selected_under_zero_weight :
  ~ sentinel_safe vertices_with_sentinel initial_weights_2d (nth 0 vertices_with_sentinel []).
Proof.
  intros Hsafe.
  specialize (Hsafe 1 eq_refl eq_refl 0).
  assert (H0 : 0 < length vertices_with_sentinel) by (vm_compute; lia).
  specialize (Hsafe H0). vm_compute in Hsafe.
  assert (Hd : true = false); [|discriminate].
  apply Hsafe. intros E. discriminate.
Qed.

Lemma sentinel_safe_nonzero_weights_witness :
  sentinel_safe vertices_with_sentinel [fl 1; fl 1; fl 1; fl 7]
                (nth 0 vertices_with_sentinel []).
Proof.
  apply sentinel_safe_nonzero_weights.
  - discriminate.
  - vm_compute. lia.
  - vm_compute. repeat constructor.
  - vm_compute. repeat constructor.
Defined.

(* ------------------------------------------------------------------ *)
(** * Normalization in exact arithmetic *)

(** ** Lifting *)

Lemma map2_XFin (op : R -> R -> R) (xop : xreal -> xreal -> xreal) (a b : list R) :
  (forall x y, In y b -> xop (XFin x) (XFin y) = XFin (op x y)) ->
  map2 xop (map XFin a) (map XFin b) = map XFin (map2 op a b).
Proof.
  revert b; induction a as [|x a IH]; intros [|y b] Hop; simpl; try reflexivity.
  rewrite Hop by (left; reflexivity). f_equal. apply IH.
  intros; apply Hop; right; assumption.
Qed.

Lemma fold_vadd_lift (M : list (list R)) (a : list R) :
  fold_left vadd (lift M) (map XFin a) = map XFin (fold_left (map2 Rplus) M a).
Proof.
  revert a; induction M as [|r M IH]; intros a; simpl; [reflexivity|].
  unfold vadd at 2. rewrite (@map2_XFin Rplus) by reflexivity. apply IH.
Qed.

Lemma ncols_lift (M : list (list R)) : ncols (lift M) = ncols M.
Proof. destruct M; simpl; [reflexivity|apply length_map]. Qed.

Lemma sum_axis0_lift (M : list (list R)) : sum_axis0 (lift M) = map XFin (Rsum_axis0 M).
Proof.
  unfold sum_axis0, Rsum_axis0. rewrite ncols_lift.
  replace (repeat f0 (ncols M)) with (map XFin (repeat 0%R (ncols M)))
    by (rewrite map_repeat; reflexivity).
  apply fold_vadd_lift.
Qed.

Lemma INR_length_neq {A} (M : list A) : M <> [] -> INR (length M) <> 0%R.
Proof.
  intros Hne. apply not_0_INR. destruct M; [congruence|discriminate].
Qed.

Lemma mean_axis0_lift (M : list (list R)) :
  M <> [] -> mean_axis0 (lift M) = map XFin (Rmean_axis0 M).
Proof.
  intros Hne. unfold mean_axis0, Rmean_axis0. rewrite sum_axis0_lift, !map_map.
  apply map_ext. intros s. unfold lift. rewrite length_map.
  unfold of_nat. simpl. rewrite <- INR_IZR_INZ.
  rewrite Reqb_false by (apply INR_length_neq; assumption). reflexivity.
Qed.

Lemma msub_row_lift (M : list (list R)) (m : list R) :
  msub_row (lift M) (map XFin m) = lift (map (fun r => map2 Rminus r m) M).
Proof.
  unfold msub_row, lift. rewrite !map_map. apply map_ext. intros r.
  apply (@map2_XFin Rminus). reflexivity.
Qed.

Lemma mdiv_row_lift (M : list (list R)) (s : list R) :
  (forall y, In y s -> y <> 0%R) ->
  mdiv_row (lift M) (map XFin s) = lift (map (fun r => map2 Rdiv r s) M).
Proof.
  intros Hs. unfold mdiv_row, lift. rewrite !map_map. apply map_ext. intros r.
  apply (@map2_XFin Rdiv). intros x y Hy. simpl.
  rewrite Reqb_false by (apply Hs; assumption). reflexivity.
Qed.

Lemma squares_lift (M : list (list R)) :
  map (map (fun x => fmul x x)) (lift M) = lift (Rsquares M).
Proof.
  unfold lift, Rsquares. rewrite !map_map. apply map_ext. intros r.
  rewrite !map_map. reflexivity.
Qed.

Lemma Rltb_false (a b : R) : (b <= a)%R -> Rltb a b = false.
Proof. intros Hle. unfold Rltb. destruct (Rlt_dec a b); [lra|reflexivity]. Qed.

Lemma sqrt_lift (v : list R) :
  (forall x, In x v -> (0 <= x)%R) -> map fsqrt (map XFin v) = map XFin (map sqrt v).
Proof.
  intros Hv. rewrite !map_map. apply map_ext_in. intros x Hx. simpl.
  rewrite Rltb_false by (apply Hv; assumption). reflexivity.
Qed.

Lemma zeros_to_one_lift (s : list R) :
  zeros_to_one (map XFin s) = map XFin (Rzeros_to_one s).
Proof.
  unfold zeros_to_one, Rzeros_to_one. rewrite !map_map. apply map_ext. intros x.
  simpl. destruct (Reqb x 0); reflexivity.
Qed.

(* ------------------------------------------------------------------ *)
(** * The cost functions against the formula of the specification *)

Lemma removelast_map {A B} (f : A -> B) (l : list A) :
  removelast (map f l) = map f (removelast l).
Proof.
  induction l as [|x [|y l] IH]; try reflexivity.
  change (f x :: removelast (map f (y :: l)) = f x :: map f (removelast (y :: l))).
  rewrite IH. reflexivity.
Qed.

Lemma map2_map_out {A B C D} (f : A -> B -> C) (g : C -> D) (l : list A) (l' : list B) :
  map2 (fun a b => g (f a b)) l l' = map g (map2 f l l').
Proof.
  revert l'; induction l as [|a l IH]; intros [|b l']; simpl; try reflexivity.
  f_equal. apply IH.
Qed.

Lemma map2_ext {A B C} (f g : A -> B -> C) (l : list A) (l' : list B) :
  (forall a b, f a b = g a b) -> map2 f l l' = map2 g l l'.
Proof.
  intros E. revert l'; induction l as [|a l IH]; intros [|b l']; simpl; try reflexivity.
  rewrite E, IH. reflexivity.
Qed.

Lemma Rsum_squares_nonneg (l : list R) : (0 <= Rsum (map (fun t => t * t) l))%R.
Proof.
  induction l as [|x l IH]; simpl; [lra|].
  pose proof (Rle_0_sqr x) as Hx. unfold Rsqr in Hx. lra.
Qed.

(** One row in exact arithmetic: finite weights and finite attributes give
    the real root of the real sum of squares. *)
Lemma norm_row_XFin (u a b : list R) :
  norm_row (vmul (map XFin u) (vsub (map XFin a) (map XFin b)))
  = XFin (sqrt (Rsum (map (fun t => (t * t)%R) (map2 Rmult u (map2 Rminus a b))))).
Proof.
  unfold norm_row, vmul, vsub.
  rewrite (@map2_XFin Rminus) by reflexivity.
  rewrite (@map2_XFin Rmult) by reflexivity.
  rewrite map_map.
  change (map (fun x : R => fmul (XFin x) (XFin x)))
    with (map (fun x : R => XFin (x * x))).
  rewrite <- (map_map (fun t => (t * t)%R) XFin), np_sum_XFin.
  simpl. rewrite Rltb_false by apply Rsum_squares_nonneg. reflexivity.
Qed.

Lemma exact_cost_rows (ws : list R) (M1 M2 : list (list R)) :
  Rsum ws <> 0%R ->
  linalg_norm (mmul_row (renormalize (map XFin ws)) (msub (lift M1) (lift M2)))
  = map XFin (map2 (Rweighted_distance ws) M1 M2).
Proof.
  intros Hs. rewrite linalg_norm_rows, renormalize_XFin by assumption.
  unfold lift. rewrite map2_map_both, <- map2_map_out.
  apply map2_ext. intros a b. apply norm_row_XFin.
Qed.

(** A sum that meets nothing but NaN and infinities is not finite. *)
Lemma np_sum_not_finite (v : list xreal) (acc : xreal) :
  Forall (fun x => forall r, x <> XFin r) v ->
  (v <> [] \/ forall r, acc <> XFin r) ->
  forall r, fold_left fadd v acc <> XFin r.
Proof.
  revert acc. induction v as [|x v IH]; intros acc Hv Hacc; cbn [fold_left].
  - destruct Hacc as [Hne|Hacc]; [congruence|exact Hacc].
  - inversion Hv as [|? ? Hx Hv']. subst. apply IH; [exact Hv'|].
    right. intros r. simpl.
    destruct x as [q| | |]; [exfalso; exact (Hx q eq_refl)| | |];
      destruct acc; cbn; discriminate.
Qed.

Lemma renormalize_zero_sum (ws : list R) :
  Rsum ws = 0%R ->
  Forall (fun x => forall r, x <> XFin r) (renormalize (map XFin ws)).
Proof.
  intros Hs. unfold renormalize. rewrite np_sum_XFin, Hs.
  apply Forall_map, Forall_map, Forall_forall. intros w _ r. simpl.
  rewrite Reqb_true. destruct (Reqb w 0); [discriminate|].
  unfold xinf_of_sign. destruct (Rltb w 0); discriminate.
Qed.

Lemma renormalized_sum (ws : list R) :
  np_sum (renormalize (map XFin ws)) = XFin 1 <-> Rsum ws <> 0%R.
Proof.
  split.
  - intros E Hs. destruct ws as [|w ws].
    + vm_compute in E. injection E as E. lra.
    + revert E. apply np_sum_not_finite.
      * apply renormalize_zero_sum. exact Hs.
      * left. discriminate.
  - apply renormalize_sums_to_one.
Qed.

Lemma ncols_shape {A} (k n : nat) (M : list (list A)) :
  has_shape k n M -> M = [] \/ ncols M = n.
Proof.
  intros [_ HM]. destruct M as [|r M]; [left; reflexivity|right].
  inversion HM. assumption.
Qed.

(** C4, amended. For two matrices of one shape and a weight vector as long
    as the rows compared (ones by default; at least one column for
    [compute_initial_vertex_cost]), each of the three cost
    functions returns, row by row, the formula of the specification
    [|| w' (.) (a - b) ||_2] with [w' = w / sum(w)], the weight applied to
    the difference before the norm: [compute_vertex_cost] and
    [compute_edge_cost] over all the columns, [compute_initial_vertex_cost]
    over all but the last. On every arithmetic (float64 included) the code
    performs the operations of [weighted_distance]; in exact arithmetic,
    when [sum(w)] is not 0, the result is the real number
    [Rweighted_distance] and every [w'_i] is [w_i / sum(w)]. The divided
    weights sum to 1 in exact arithmetic exactly when [sum(w)] is not 0.
    The formula is not the textbook one, which has the weight inside the
    squared term: they differ on weights (1, 3) and difference (1, 1). *)
Theorem cost_functions_weighted_norm :
  (forall (F : Type) (N : Num F) (weights : option (list F)) (M1 M2 : list (list F))
          (k n : nat),
      has_shape k n M1 -> has_shape k n M2 ->
      ((forall w, weights = Some w -> length w = n) ->
       compute_vertex_cost M1 M2 weights
       = map2 (weighted_distance (or_else weights (np_ones n))) M1 M2
       /\ compute_edge_cost M1 M2 weights
          = map2 (weighted_distance (or_else weights (np_ones n))) M1 M2)
      /\ (1 <= n -> (forall w, weights = Some w -> length w = n - 1) ->
          compute_initial_vertex_cost M1 M2 weights
          = map2 (fun a b => weighted_distance (or_else weights (np_ones (n - 1)))
                                               (removelast a) (removelast b)) M1 M2))
  /\ (forall (ws : list R) (M1 M2 : list (list R)) (k n : nat),
        has_shape k n M1 -> has_shape k n M2 -> Rsum ws <> 0%R ->
        renormalize (map XFin ws) = map XFin (map (fun w => (w / Rsum ws)%R) ws)
        /\ (length ws = n ->
            compute_vertex_cost (lift M1) (lift M2) (Some (map XFin ws))
            = map XFin (map2 (Rweighted_distance ws) M1 M2)
            /\ compute_edge_cost (lift M1) (lift M2) (Some (map XFin ws))
               = map XFin (map2 (Rweighted_distance ws) M1 M2))
        /\ (length ws = n - 1 ->
            compute_initial_vertex_cost (lift M1) (lift M2) (Some (map XFin ws))
            = map XFin (map2 (fun a b => Rweighted_distance ws (removelast a) (removelast b))
                             M1 M2)))
  /\ (forall ws : list R,
        np_sum (renormalize (map XFin ws)) = XFin 1 <-> Rsum ws <> 0%R)
  /\ PrimFloat.eqb (weighted_distance [fl 1; fl 3] [fl 1; fl 1] [fl 0; fl 0])
                   (textbook_distance [fl 1; fl 3] [fl 1; fl 1] [fl 0; fl 0]) = false.
Proof.
  split; [|split; [|split]].
  - intros F N weights M1 M2 k n H1 H2.
    unfold compute_vertex_cost, compute_edge_cost, compute_initial_vertex_cost,
      drop_last_col.
    rewrite !linalg_norm_rows, map2_map_both.
    destruct weights as [w|]; cbn [or_else].
    + repeat split; intros; reflexivity.
    + destruct (ncols_shape H1) as [->| ->]; repeat split; intros; reflexivity.
  - intros ws M1 M2 k n _ _ Hs. split; [apply renormalize_XFin; exact Hs|]. split.
    + intros _. unfold compute_vertex_cost, compute_edge_cost.
      split; apply exact_cost_rows; exact Hs.
    + intros _.
      assert (E : forall M, map (@removelast xreal) (lift M)
                            = lift (map (@removelast R) M)).
      { intros M. unfold lift. rewrite !map_map. apply map_ext. intros r.
        apply removelast_map. }
      unfold compute_initial_vertex_cost, drop_last_col. cbv zeta. rewrite !E.
      rewrite (@exact_cost_rows ws _ _ Hs), map2_map_both. reflexivity.
  - apply renormalized_sum.
  - vm_compute. reflexivity.
Qed.

Lemma cost_functions_weighted_norm_witness :
  compute_initial_vertex_cost (lift [[3; 4; 0; 2; 9]]%R) (lift [[0; 0; 0; 2; 5]]%R)
                              (Some (map XFin [1; 1; 1; 7]%R))
  = map XFin (map2 (fun a b => Rweighted_distance [1; 1; 1; 7]%R
                                                  (removelast a) (removelast b))
                   [[3; 4; 0; 2; 9]]%R [[0; 0; 0; 2; 5]]%R).
Proof.
  refine (proj2 (proj2 (proj1 (proj2 cost_functions_weighted_norm)
                          [1; 1; 1; 7]%R [[3; 4; 0; 2; 9]]%R [[0; 0; 0; 2; 5]]%R 1 5
                          _ _ _)) _).
  - split; [reflexivity|repeat constructor].
  - split; [reflexivity|repeat constructor].
  - simpl. lra.
  - reflexivity.
Defined.

(** C4 as stated fails where the weights sum to 0: on float64 the weights
    (0, 0) are divided into (NaN, NaN), which do not sum to 1, and the cost
    of any pair of rows is NaN. Nor is the sum exactly 1 on float64 for all
    other weights: (1, 1, 3, 1, 1) divided by 7 add up to
    0.9999999999999998. *)
Lemma zero_sum_weights_are_not_renormalized :
  renormalize [fl 0; fl 0] = [PrimFloat.nan; PrimFloat.nan]
  /\ PrimFloat.eqb (np_sum (renormalize [fl 0; fl 0])) (fl 1) = false
  /\ compute_vertex_cost [[fl 1; fl 2]] [[fl 3; fl 4]] (Some [fl 0; fl 0])
     = [PrimFloat.nan]
  /\ PrimFloat.eqb (np_sum (renormalize [fl 1; fl 1; fl 3; fl 1; fl 1])) (fl 1) = false.
Proof. vm_compute. repeat split; reflexivity. Qed.

Lemma Rzeros_to_one_nonzero (s : list R) y : In y (Rzeros_to_one s) -> y <> 0%R.
Proof.
  unfold Rzeros_to_one. rewrite in_map_iff. intros [x [<- _]].
  unfold Reqb. destruct (Req_dec_T x 0); [lra|assumption].
Qed.

(** ** Columns *)

Lemma fold_Rvadd_length (d : nat) (M : list (list R)) (a : list R) :
  rect d M -> length a = d -> length (fold_left (map2 Rplus) M a) = d.
Proof.
  intros HM. revert a. induction HM as [|r M Hr _ IH]; intros a Ha; simpl; [assumption|].
  apply IH. rewrite map2_length. lia.
Qed.

Lemma fold_Rvadd_nth (d : nat) (M : list (list R)) (a : list R) (j : nat) :
  rect d M -> length a = d -> j < d ->
  nth j (fold_left (map2 Rplus) M a) 0%R = (nth j a 0 + Rsum (col j M))%R.
Proof.
  intros HM. revert a. induction HM as [|r M Hr _ IH]; intros a Ha Hj; simpl.
  - lra.
  - rewrite IH by (rewrite ?map2_length; lia).
    rewrite (@map2_nth _ _ _ _ _ _ _ 0%R 0%R 0%R) by lia. lra.
Qed.

Lemma rect_ncols (d : nat) (M : list (list R)) : rect d M -> M <> [] -> ncols M = d.
Proof. intros HM Hne. destruct HM; [congruence|assumption]. Qed.

Lemma Rmean_axis0_length (d : nat) (M : list (list R)) :
  rect d M -> M <> [] -> length (Rmean_axis0 M) = d.
Proof.
  intros HM Hne. unfold Rmean_axis0, Rsum_axis0. rewrite length_map.
  apply fold_Rvadd_length; [assumption|].
  rewrite repeat_length. apply rect_ncols; assumption.
Qed.

Lemma Rmean_axis0_nth (d : nat) (M : list (list R)) (j : nat) :
  rect d M -> M <> [] -> j < d ->
  nth j (Rmean_axis0 M) 0%R = (Rsum (col j M) / INR (length M))%R.
Proof.
  intros HM Hne Hj. unfold Rmean_axis0.
  assert (Hlen : length (Rsum_axis0 M) = d).
  { unfold Rsum_axis0. apply fold_Rvadd_length; [assumption|].
    rewrite repeat_length. apply rect_ncols; assumption. }
  rewrite (@nth_map_lt _ _ _ _ _ 0%R 0%R) by lia.
  unfold Rsum_axis0. rewrite (@fold_Rvadd_nth d) by
    (try assumption; rewrite repeat_length; apply rect_ncols; assumption).
  rewrite nth_repeat_lt by (rewrite (rect_ncols HM Hne); assumption).
  f_equal. lra.
Qed.

Lemma col_map_rows (f : list R -> list R) (g : R -> R) (j : nat) (M : list (list R)) :
  (forall r, In r M -> nth j (f r) 0%R = g (nth j r 0%R)) ->
  col j (map f M) = map g (col j M).
Proof.
  intros Hf. unfold col. rewrite !map_map. apply map_ext_in. assumption.
Qed.

Lemma rect_map (d : nat) (f : list R -> list R) (M : list (list R)) :
  (forall r, length r = d -> length (f r) = d) -> rect d M -> rect d (map f M).
Proof.
  intros Hf HM. unfold rect in *. rewrite Forall_map.
  eapply Forall_impl; [|exact HM]. assumption.
Qed.

(** ** One column *)

Lemma Rsum_shift (c : list R) (m : R) :
  Rsum (map (fun x => (x - m)%R) c) = (Rsum c - INR (length c) * m)%R.
Proof.
  induction c as [|x c IH]; [simpl; lra|].
  change (length (x :: c)) with (S (length c)). rewrite S_INR.
  simpl. rewrite IH. lra.
Qed.

Lemma Rsum_squares_scale (c : list R) (k : R) :
  Rsum (map (fun x => x * x) (map (fun x => x / k) c))%R
  = (Rsum (map (fun x => x * x) c) / (k * k))%R.
Proof.
  destruct (Req_dec_T k 0) as [->|Hk].
  - induction c as [|x c IH]; simpl.
    + unfold Rdiv. lra.
    + rewrite IH. unfold Rdiv. rewrite Rmult_0_l, Rinv_0. lra.
  - induction c as [|x c IH]; simpl.
    + unfold Rdiv. lra.
    + rewrite IH. field. assumption.
Qed.

Section OneColumn.
Variable c : list R.
Hypothesis c_nonempty : c <> [].

Let n : R := INR (length c).
Let s' : R := if Reqb (Rstd c) 0 then 1%R else Rstd c.
Let y : list R := map (fun x => ((x - Rmean c) / s')%R) c.

Lemma n_nonzero : n <> 0%R.
Proof. apply INR_length_neq. assumption. Qed.

Lemma s'_nonzero : s' <> 0%R.
Proof. unfold s', Reqb. destruct (Req_dec_T (Rstd c) 0); [lra|assumption]. Qed.

Lemma deviations_sum_zero : Rsum (map (fun x => (x - Rmean c)%R) c) = 0%R.
Proof.
  rewrite Rsum_shift. unfold Rmean. pose proof n_nonzero as Hn. unfold n in Hn.
  field. assumption.
Qed.

Lemma y_as_scaled : y = map (fun x => (x / s')%R) (map (fun x => (x - Rmean c)%R) c).
Proof. unfold y. rewrite map_map. reflexivity. Qed.

Lemma standardized_mean : Rmean y = 0%R.
Proof.
  unfold Rmean. rewrite y_as_scaled at 1. rewrite Rsum_scale, deviations_sum_zero.
  unfold Rdiv. lra.
Qed.

Lemma standardized_std : Rstd y = if Reqb (Rstd c) 0 then 0%R else 1%R.
Proof.
  unfold Rstd at 1. rewrite standardized_mean.
  assert (E : map (fun x => (x - 0)%R) y = y).
  { rewrite <- (map_id y) at 2. apply map_ext. intros; lra. }
  rewrite E, y_as_scaled, Rsum_squares_scale.
  unfold y. rewrite !length_map. fold n.
  set (q := Rsum (map (fun x => (x * x)%R) (map (fun x => (x - Rmean c)%R) c))).
  assert (Hq : (0 <= q)%R) by apply Rsum_squares_nonneg.
  pose proof n_nonzero as Hn.
  assert (Hn0 : (0 < n)%R).
  { unfold n. apply lt_0_INR. destruct c; [congruence|simpl; lia]. }
  assert (Hv : (0 <= q / n)%R).
  { apply Rmult_le_pos; [assumption|]. apply Rlt_le, Rinv_0_lt_compat. assumption. }
  assert (Hs : Rstd c = sqrt (q / n)) by reflexivity.
  unfold s'. unfold Reqb. destruct (Req_dec_T (Rstd c) 0) as [H0|H0].
  - rewrite Hs in H0. apply sqrt_eq_0 in H0; [|assumption].
    assert (Hq0 : q = 0%R).
    { apply (Rmult_eq_reg_r (/ n)); [|apply Rinv_neq_0_compat; assumption].
      unfold Rdiv in H0. lra. }
    rewrite Hq0. replace (0 / (1 * 1) / n)%R with 0%R by (field; assumption).
    apply sqrt_0.
  - replace (q / (Rstd c * Rstd c) / n)%R with 1%R; [apply sqrt_1|].
    rewrite Hs, sqrt_sqrt by assumption. field. split; [assumption|].
    intros Hq0. apply H0. rewrite Hs, Hq0. unfold Rdiv. rewrite Rmult_0_l. apply sqrt_0.
Qed.

End OneColumn.

(** ** The whole matrix *)

Section WholeMatrix.
Variable d : nat.
Variable M : list (list R).
Hypothesis M_rect : rect d M.
Hypothesis M_nonempty : M <> [].

Lemma col_length (j : nat) : length (col j M) = length M.
Proof. apply length_map. Qed.

Lemma col_nonempty (j : nat) : col j M <> [].
Proof. unfold col. destruct M; [congruence|discriminate]. Qed.

Lemma Rmean_axis0_col (j : nat) : j < d -> nth j (Rmean_axis0 M) 0%R = Rmean (col j M).
Proof.
  intros Hj. rewrite (Rmean_axis0_nth M_rect M_nonempty Hj).
  unfold Rmean. rewrite col_length. reflexivity.
Qed.

Lemma deviations_rect : rect d (map (fun r => map2 Rminus r (Rmean_axis0 M)) M).
Proof.
  apply rect_map; [|assumption]. intros r Hr.
  rewrite map2_length, (Rmean_axis0_length M_rect M_nonempty). lia.
Qed.

Lemma Rstd_axis0_length : length (Rstd_axis0 M) = d.
Proof.
  unfold Rstd_axis0. rewrite length_map. apply Rmean_axis0_length.
  - unfold Rsquares. apply rect_map; [|apply deviations_rect].
    intros r Hr. rewrite length_map. assumption.
  - unfold Rsquares. destruct M; [congruence|discriminate].
Qed.

Lemma Rstd_axis0_col (j : nat) : j < d -> nth j (Rstd_axis0 M) 0%R = Rstd (col j M).
Proof.
  intros Hj. unfold Rstd_axis0.
  set (D := map (fun r => map2 Rminus r (Rmean_axis0 M)) M).
  assert (HD : rect d D) by apply deviations_rect.
  assert (HS : rect d (Rsquares D)).
  { unfold Rsquares. apply rect_map; [|assumption].
    intros r Hr. rewrite length_map. assumption. }
  assert (HSne : Rsquares D <> []).
  { unfold Rsquares, D. destruct M; [congruence|discriminate]. }
  rewrite (@nth_map_lt _ _ _ _ _ 0%R 0%R)
    by (rewrite (Rmean_axis0_length HS HSne); assumption).
  rewrite (Rmean_axis0_nth HS HSne Hj).
  unfold Rstd. f_equal. f_equal.
  - f_equal. unfold Rsquares.
    rewrite (@col_map_rows (map (fun x => (x * x)%R)) (fun x => (x * x)%R)).
    2:{ intros r Hr. unfold D in Hr. apply in_map_iff in Hr. destruct Hr as [r0 [<- Hr0]].
        rewrite (@nth_map_lt _ _ _ _ _ 0%R 0%R); [reflexivity|].
        rewrite map2_length, (Rmean_axis0_length M_rect M_nonempty).
        unfold rect in M_rect. rewrite Forall_forall in M_rect.
        rewrite (M_rect _ Hr0). lia. }
    f_equal. unfold D.
    apply col_map_rows. intros r Hr.
    unfold rect in M_rect. rewrite Forall_forall in M_rect.
    rewrite (@map2_nth _ _ _ _ _ _ _ 0%R 0%R 0%R)
      by (rewrite ?(Rmean_axis0_length (proj2 (Forall_forall _ _) M_rect) M_nonempty),
                  ?(M_rect _ Hr); assumption).
    rewrite (@Rmean_axis0_nth d M j) by
      (try assumption; apply Forall_forall; assumption).
    unfold Rmean. rewrite col_length. reflexivity.
  - unfold Rsquares, D. rewrite !length_map, col_length. reflexivity.
Qed.

Lemma Rfit_apply_rect : rect d (Rfit_apply M).
Proof.
  unfold Rfit_apply, Rstandardize. apply rect_map; [|assumption].
  intros r Hr. rewrite !map2_length, (Rmean_axis0_length M_rect M_nonempty).
  unfold Rzeros_to_one. rewrite length_map, Rstd_axis0_length. lia.
Qed.

Lemma Rfit_apply_nonempty : Rfit_apply M <> [].
Proof. unfold Rfit_apply, Rstandardize. destruct M; [congruence|discriminate]. Qed.

Lemma Rfit_apply_col (j : nat) :
  j < d ->
  col j (Rfit_apply M)
  = map (fun x => ((x - Rmean (col j M))
                   / (if Reqb (Rstd (col j M)) 0 then 1 else Rstd (col j M)))%R)
        (col j M).
Proof.
  intros Hj. unfold Rfit_apply, Rstandardize.
  apply col_map_rows. intros r Hr.
  assert (Hlen : length r = d).
  { unfold rect in M_rect. rewrite Forall_forall in M_rect. auto. }
  rewrite (@map2_nth _ _ _ _ _ _ _ 0%R 0%R 0%R).
  2:{ rewrite map2_length, (Rmean_axis0_length M_rect M_nonempty). lia. }
  2:{ unfold Rzeros_to_one. rewrite length_map, Rstd_axis0_length. assumption. }
  rewrite (@map2_nth _ _ _ _ _ _ _ 0%R 0%R 0%R)
    by (rewrite ?(Rmean_axis0_length M_rect M_nonempty); lia).
  rewrite Rmean_axis0_col by assumption.
  unfold Rzeros_to_one.
  rewrite (@nth_map_lt _ _ _ _ _ 0%R 0%R) by (rewrite Rstd_axis0_length; assumption).
  rewrite Rstd_axis0_col by assumption. reflexivity.
Qed.

End WholeMatrix.

Lemma Rfit_apply_statistics (d : nat) (M : list (list R)) :
  rect d M -> M <> [] ->
  Rmean_axis0 (Rfit_apply M) = repeat 0%R d
  /\ Rstd_axis0 (Rfit_apply M)
     = map (fun s => if Reqb s 0 then 0%R else 1%R) (Rstd_axis0 M).
Proof.
  intros HM Hne.
  pose proof (Rfit_apply_rect HM Hne) as HW.
  pose proof (Rfit_apply_nonempty HM Hne) as HWne.
  split.
  - apply (nth_ext _ _ 0%R 0%R).
    + rewrite (Rmean_axis0_length HW HWne), repeat_length. reflexivity.
    + rewrite (Rmean_axis0_length HW HWne). intros j Hj.
      rewrite (Rmean_axis0_col HW HWne Hj), nth_repeat_lt by assumption.
      rewrite (Rfit_apply_col HM Hne Hj).
      apply standardized_mean. apply (col_nonempty HM Hne).
  - apply (nth_ext _ _ 0%R 0%R).
    + rewrite length_map, (Rstd_axis0_length HW HWne), (Rstd_axis0_length HM Hne).
      reflexivity.
    + rewrite (Rstd_axis0_length HW HWne). intros j Hj.
      rewrite (Rstd_axis0_col HW HWne Hj).
      rewrite (@nth_map_lt _ _ _ _ _ 0%R 0%R) by (rewrite (Rstd_axis0_length HM Hne); assumption).
      rewrite (Rstd_axis0_col HM Hne Hj).
      rewrite (Rfit_apply_col HM Hne Hj).
      apply standardized_std. apply (col_nonempty HM Hne).
Qed.

(** ** The normalizer on real graphs *)

Lemma Rmean_axis0_nonneg (M : list (list R)) :
  (forall r, In r M -> Forall (Rle 0) r) -> Forall (Rle 0) (Rmean_axis0 M).
Proof.
  intros HM. unfold Rmean_axis0, Rsum_axis0. apply Forall_map.
  assert (G : forall a, Forall (Rle 0) a ->
                        (forall r, In r M -> Forall (Rle 0) r) ->
                        Forall (Rle 0) (fold_left (map2 Rplus) M a)).
  { clear HM. induction M as [|r M IH]; intros a Ha HM; simpl; [assumption|].
    apply IH.
    - apply (@Forall_map2 _ _ _ (Rle 0) (Rle 0)); [intros; lra|assumption|].
      apply HM. left. reflexivity.
    - intros r' Hr'. apply HM. right. assumption. }
  eapply Forall_impl; [|apply G; [|assumption]].
  - intros x Hx. apply Rmult_le_pos; [assumption|].
    destruct (length M) as [|k]; [simpl; rewrite Rinv_0; lra|].
    apply Rlt_le, Rinv_0_lt_compat, lt_0_INR. lia.
  - apply Forall_forall. intros x Hx. apply repeat_spec in Hx. lra.
Qed.

Lemma std_axis0_lift (M : list (list R)) :
  M <> [] -> std_axis0 (lift M) = map XFin (Rstd_axis0 M).
Proof.
  intros Hne. unfold std_axis0, Rstd_axis0.
  rewrite mean_axis0_lift, msub_row_lift, squares_lift by assumption.
  rewrite mean_axis0_lift by (unfold Rsquares; destruct M; [congruence|discriminate]).
  apply sqrt_lift. intros x Hx.
  pose proof (@Rmean_axis0_nonneg
                (Rsquares (map (fun r => map2 Rminus r (Rmean_axis0 M)) M))) as Hnn.
  rewrite Forall_forall in Hnn. apply Hnn; [|assumption].
  intros r Hr. unfold Rsquares in Hr. apply in_map_iff in Hr. destruct Hr as [r0 [<- _]].
  apply Forall_map, Forall_forall. intros t _.
  pose proof (Rle_0_sqr t) as Ht. unfold Rsqr in Ht. assumption.
Qed.

Lemma fit_apply_lift (M : list (list R)) :
  M <> [] -> fit_apply (lift M) = lift (Rfit_apply M).
Proof.
  intros Hne. unfold fit_apply, Rfit_apply, standardize, Rstandardize.
  rewrite mean_axis0_lift, std_axis0_lift, zeros_to_one_lift by assumption.
  rewrite msub_row_lift, mdiv_row_lift by apply Rzeros_to_one_nonzero.
  rewrite map_map. reflexivity.
Qed.

Lemma normalize_graph_fits {F} `{Num F} (g : SRG (F:=F)) :
  vertices (n_graph (normalize_graph g None None None None)) = fit_apply (vertices g)
  /\ (edges g <> [] ->
      edges (n_graph (normalize_graph g None None None None)) = fit_apply (edges g)).
Proof.
  unfold normalize_graph, fit_apply. simpl.
  destruct (edges g) as [|e E] eqn:HE; simpl; split; try reflexivity; congruence.
Qed.

Lemma fit_apply_statistics (d : nat) (M : list (list R)) :
  rect d M -> M <> [] ->
  mean_axis0 (fit_apply (lift M)) = repeat (XFin 0) d
  /\ std_axis0 (fit_apply (lift M))
     = map (fun s => if Reqb s 0 then XFin 0 else XFin 1) (Rstd_axis0 M).
Proof.
  intros HM Hne. rewrite fit_apply_lift by assumption.
  pose proof (Rfit_apply_nonempty HM Hne) as HWne.
  rewrite mean_axis0_lift, std_axis0_lift by assumption.
  destruct (Rfit_apply_statistics HM Hne) as [-> ->]. split.
  - apply map_repeat.
  - rewrite map_map. apply map_ext. intros s. destruct (Reqb s 0); reflexivity.
Qed.




(* ------------------------------------------------------------------ *)
(** * The effects of [normalize_graph] *)

Section HeapFacts.
Context {F : Type} `{Num F}.

Lemma allocated_below (h : Heap (F:=F)) (r : ref) (x : ndarray) :
  heap_ok h -> arr h r = Some x -> r < next h.
Proof.
  intros Hok Hr. destruct (Nat.lt_ge_cases r (next h)) as [Hlt|Hge]; [assumption|].
  rewrite (Hok r Hge) in Hr. discriminate.
Qed.

Ltac pick :=
  simpl;
  first [ reflexivity
        | f_equal; assumption
        | match goal with Hc : _ = Some _ |- _ => rewrite Hc; reflexivity end ].

Ltac contra :=
  exfalso;
  solve [ lia | congruence
        | subst; match goal with Hne : ?x <> ?y |- _ => exact (Hne eq_refl) end ].

Ltac heap_simp :=
  repeat first
    [ progress cbn beta iota zeta delta [arr next obj fst snd] in *
    | match goal with
      | Hr : arr ?h ?r = _ |- context [arr ?h ?r] => rewrite Hr
      | |- context [?a =? ?a] => rewrite (Nat.eqb_refl a)
      | |- context [?a =? ?b] =>
          let E := fresh "E" in
          destruct (Nat.eqb_spec a b) as [E|E]; [contra|]
      end ].

Lemma normalize_array_spec (h : Heap (F:=F)) (a : ref) (A : list (list F))
    (mean std : option ref) :
  heap_ok h ->
  arr h a = Some (Mat A) ->
  supplied h a mean -> supplied h a std ->
  (forall rm rs, mean = Some rm -> std = Some rs -> rm <> rs) ->
  let m := vec_at h mean (mean_axis0 A) in
  let s := zeros_to_one (vec_at h std (std_axis0 A)) in
  exists a' rm rs h',
    normalize_array a mean std h = Some ((a', rm, rs), h')
    /\ heap_ok h' /\ next h <= a' < next h' /\ obj h' = obj h
    /\ (forall r, mean = Some r -> rm = r)
    /\ (forall r, std = Some r -> rs = r)
    /\ arr h' a' = Some (Mat (standardize A m s))
    /\ arr h' rm = Some (Vec m)
    /\ arr h' rs = Some (Vec s)
    /\ rm <> a' /\ rs <> a' /\ rm <> rs
    /\ (forall r, r < next h -> std <> Some r -> arr h' r = arr h r).
Proof.
  intros Hok Ha Hm Hs Hms m s.
  pose proof (allocated_below a Hok Ha) as Halt.
  assert (Hfresh : forall r, next h <= r -> arr h r = None) by exact Hok.
  unfold normalize_array, bind, read_mat, or_new, alloc, ret, read_vec, write.
  destruct mean as [rm|]; destruct std as [rs|].
  - destruct (Hm rm eq_refl) as [Hma [m0 Hm0]].
    destruct (Hs rs eq_refl) as [Hsa [s0 Hs0]].
    pose proof (Hms rm rs eq_refl eq_refl) as Hne.
    pose proof (allocated_below rm Hok Hm0) as Hmlt.
    pose proof (allocated_below rs Hok Hs0) as Hslt.
    unfold m, s, vec_at. heap_simp.
    eexists _, _, _, _. split; [reflexivity|].
    repeat split; try (intros r0 Hr0; unfold heap_ok in *); intros; heap_simp;
      solve [reflexivity | congruence | lia | apply Hfresh; lia].
  - destruct (Hm rm eq_refl) as [Hma [m0 Hm0]].
    pose proof (allocated_below rm Hok Hm0) as Hmlt.
    unfold m, s, vec_at. heap_simp.
    eexists _, _, _, _. split; [reflexivity|].
    repeat split; try (intros r0 Hr0; unfold heap_ok in *); intros; heap_simp;
      solve [reflexivity | congruence | lia | apply Hfresh; lia].
  - destruct (Hs rs eq_refl) as [Hsa [s0 Hs0]].
    pose proof (allocated_below rs Hok Hs0) as Hslt.
    unfold m, s, vec_at. heap_simp.
    eexists _, _, _, _. split; [reflexivity|].
    repeat split; try (intros r0 Hr0; unfold heap_ok in *); intros; heap_simp;
      solve [reflexivity | congruence | lia | apply Hfresh; lia].
  - unfold m, s, vec_at. heap_simp.
    eexists _, _, _, _. split; [reflexivity|].
    repeat split; try (intros r0 Hr0; unfold heap_ok in *); intros; heap_simp;
      solve [reflexivity | congruence | lia | apply Hfresh; lia].
Qed.

Lemma vec_at_deref (h : Heap (F:=F)) (x : option ref) (d : list F) :
  (forall r, x = Some r -> exists v, arr h r = Some (Vec v)) ->
  vec_at h x d = or_else (deref h x) d.
Proof.
  intros Hx. unfold vec_at, deref. destruct x as [r|]; [|reflexivity].
  destruct (Hx r eq_refl) as [v Hv]. rewrite Hv. reflexivity.
Qed.

(** C10. [normalize_graph] works in place. On a heap where the graph object
    and the supplied statistics are distinct arrays, the call returns the
    reference it was given; the [vertices] field of that object (and its
    [edges] field when the edge array is not empty) is rebound to a new
    array that holds the standardized values, so the object no longer
    leads to the un-normalized arrays, which are themselves left as they
    were; and a supplied std array is overwritten in place with its zeros
    replaced by 1. *)
Theorem normalize_graph_in_place (h : Heap (F:=F)) (graph : ref) (o : SRGobj)
    (V E : list (list F)) (va ea : list String.string)
    (mean_vertex std_vertex mean_edge std_edge : option ref) :
  heap_ok h ->
  obj h graph = Some o ->
  arr h (o_vertices o) = Some (Mat V) ->
  arr h (o_edges o) = Some (Mat E) ->
  (forall x r, In x [mean_vertex; std_vertex; mean_edge; std_edge] -> x = Some r ->
               exists v, arr h r = Some (Vec v)) ->
  pairwise_distinct [Some (o_vertices o); Some (o_edges o);
                     mean_vertex; std_vertex; mean_edge; std_edge] ->
  let pure :=
    normalize_graph {| vertices := V; edges := E;
                       vertex_attributes := va; edge_attributes := ea |}
                    (deref h mean_vertex) (deref h std_vertex)
                    (deref h mean_edge) (deref h std_edge) in
  exists ret h' o',
    normalize_graph_heap graph mean_vertex std_vertex mean_edge std_edge h = Some (ret, h')
    /\ r_graph ret = graph
    /\ obj h' graph = Some o'
    /\ next h <= o_vertices o'
    /\ arr h' (o_vertices o') = Some (Mat (vertices (n_graph pure)))
    /\ arr h' (o_vertices o) = Some (Mat V)
    /\ (E <> [] -> next h <= o_edges o'
                   /\ arr h' (o_edges o') = Some (Mat (edges (n_graph pure))))
    /\ (E = [] -> o_edges o' = o_edges o)
    /\ (forall r s, std_vertex = Some r -> arr h r = Some (Vec s) ->
                    arr h' r = Some (Vec (zeros_to_one s)))
    /\ (forall r s, std_edge = Some r -> E <> [] -> arr h r = Some (Vec s) ->
                    arr h' r = Some (Vec (zeros_to_one s))).
Proof.
  intros Hok Hobj HV HE Hvec Hdist pure.
  assert (Hve : o_vertices o <> o_edges o).
  { apply (Hdist 0 1); [reflexivity|reflexivity|lia]. }
  (* the vertex block *)
  assert (Hs1 : supplied h (o_vertices o) mean_vertex).
  { intros r Hr. subst. split.
    - apply (Hdist 2 0); [reflexivity|reflexivity|lia].
    - apply (Hvec (Some r)); [simpl; auto|reflexivity]. }
  assert (Hs2 : supplied h (o_vertices o) std_vertex).
  { intros r Hr. subst. split.
    - apply (Hdist 3 0); [reflexivity|reflexivity|lia].
    - apply (Hvec (Some r)); [simpl; auto|reflexivity]. }
  assert (Hs12 : forall rm rs, mean_vertex = Some rm -> std_vertex = Some rs -> rm <> rs).
  { intros rm rs Hm Hs. subst. apply (Hdist 2 3); [reflexivity|reflexivity|lia]. }
  destruct (normalize_array_spec Hok HV Hs1 Hs2 Hs12)
    as (a1 & rm1 & rs1 & h1 & Hrun1 & Hok1 & Ha1 & Hobj1 & Hrm1 & Hrs1 & Harr1 & Hm1 & Hsd1
        & _ & _ & _ & Hframe1).
  pose proof (allocated_below (o_vertices o) Hok HV) as HVlt.
  pose proof (allocated_below (o_edges o) Hok HE) as HElt.
  assert (HE1 : arr h1 (o_edges o) = Some (Mat E)).
  { rewrite Hframe1; [assumption|assumption|].
    intros Hc. apply (Hdist 3 1 (o_edges o) (o_edges o)); [pick|pick|lia|reflexivity]. }
  assert (HV1 : arr h1 (o_vertices o) = Some (Mat V)).
  { rewrite Hframe1; [assumption|assumption|].
    intros Hc. apply (Hdist 3 0 (o_vertices o) (o_vertices o));
      [pick|pick|lia|reflexivity]. }
  assert (Hpv : vertices (n_graph pure)
                = standardize V (vec_at h mean_vertex (mean_axis0 V))
                              (zeros_to_one (vec_at h std_vertex (std_axis0 V)))).
  { rewrite !vec_at_deref
      by (intros r Hr; eapply Hvec; [|eassumption]; simpl; auto).
    unfold pure, normalize_graph. simpl.
    destruct (0 <? length E); reflexivity. }
  unfold normalize_graph_heap, bind at 1, get_graph. rewrite Hobj.
  unfold bind at 1. rewrite Hrun1.
  unfold bind at 1, set_graph at 1. rewrite Hobj1, Hobj.
  unfold bind at 1, read_len. cbn [arr]. rewrite HE1.
  destruct E as [|e E'].
  - (* no edges *)
    cbn [length Nat.ltb Nat.leb ret].
    eexists _, _, {| o_vertices := a1; o_edges := o_edges o |}.
    split; [reflexivity|]. cbn [r_graph obj arr o_vertices o_edges next].
    rewrite Nat.eqb_refl.
    repeat split; try congruence; try lia.
    intros r s Hr Hs. rewrite (Hrs1 r Hr) in Hsd1. rewrite Hsd1.
    unfold vec_at. rewrite Hr, Hs. reflexivity.
  - (* the edge block, on the heap with the field reassigned *)
    set (E := e :: E') in *.
    set (h2 := {| arr := arr h1; next := next h1;
                  obj := fun g' => if g' =? graph
                                   then Some {| o_vertices := a1; o_edges := o_edges o |}
                                   else obj h g' |}).
    assert (Hok2 : heap_ok h2) by exact Hok1.
    assert (Hkeep : forall x r, In x [mean_edge; std_edge] -> x = Some r ->
                      exists v, arr h r = Some (Vec v) /\ arr h2 r = Some (Vec v)).
    { intros x r Hx Hr.
      destruct (Hvec x r) as [v Hv]; [simpl in *; tauto|assumption|].
      exists v. split; [assumption|]. cbn [h2 arr].
      rewrite Hframe1; [assumption|exact (allocated_below r Hok Hv)|].
      intros Hc. subst x.
      destruct Hx as [Hx|[Hx|[]]].
      - apply (Hdist 3 4 r r); [pick|pick|lia|reflexivity].
      - apply (Hdist 3 5 r r); [pick|pick|lia|reflexivity]. }
    assert (Hs3 : supplied h2 (o_edges o) mean_edge).
    { intros r Hr. subst. split.
      - apply (Hdist 4 1); [reflexivity|reflexivity|lia].
      - destruct (Hkeep (Some r) r) as [v [_ Hv]]; [simpl; auto|reflexivity|].
        exists v. assumption. }
    assert (Hs4 : supplied h2 (o_edges o) std_edge).
    { intros r Hr. subst. split.
      - apply (Hdist 5 1); [reflexivity|reflexivity|lia].
      - destruct (Hkeep (Some r) r) as [v [_ Hv]]; [simpl; auto|reflexivity|].
        exists v. assumption. }
    assert (Hs34 : forall rm rs, mean_edge = Some rm -> std_edge = Some rs -> rm <> rs).
    { intros rm rs Hm Hs. subst. apply (Hdist 4 5); [reflexivity|reflexivity|lia]. }
    assert (HE2 : arr h2 (o_edges o) = Some (Mat E)) by exact HE1.
    destruct (normalize_array_spec Hok2 HE2 Hs3 Hs4 Hs34)
      as (a3 & rm3 & rs3 & h3 & Hrun3 & Hok3 & Ha3 & Hobj3 & Hrm3 & Hrs3 & Harr3 & Hm3 & Hsd3
          & _ & _ & _ & Hframe3).
    assert (Hsame : forall x d, In x [mean_edge; std_edge] -> vec_at h2 x d = vec_at h x d).
    { intros x d Hx. unfold vec_at. destruct x as [r|]; [|reflexivity].
      destruct (Hkeep (Some r) r Hx eq_refl) as [v [Hv Hv2]]. rewrite Hv, Hv2. reflexivity. }
    rewrite (Hsame mean_edge), (Hsame std_edge) in Harr3 by (simpl; auto).
    rewrite (Hsame std_edge) in Hsd3 by (simpl; auto).
    assert (Hpe : edges (n_graph pure)
                  = standardize E (vec_at h mean_edge (mean_axis0 E))
                                (zeros_to_one (vec_at h std_edge (std_axis0 E)))).
    { rewrite !vec_at_deref
        by (intros r Hr; eapply Hvec; [|eassumption]; simpl; auto).
      unfold pure, normalize_graph. reflexivity. }
    change (0 <? length E) with true. cbv iota.
    fold h2. unfold bind at 1. rewrite Hrun3.
    unfold bind at 1, set_graph. rewrite Hobj3. cbn [h2 obj]. rewrite Nat.eqb_refl.
    unfold ret.
    eexists _, _, {| o_vertices := a1; o_edges := a3 |}.
    split; [reflexivity|]. cbn [r_graph obj arr o_vertices o_edges next].
    rewrite Nat.eqb_refl.
    assert (Hn12 : next h <= next h2) by (cbn [h2 next]; lia).
    repeat split; try congruence; try lia.
    + rewrite Hframe3.
      * cbn [h2 arr]. rewrite Harr1, Hpv. reflexivity.
      * cbn [h2 next]. lia.
      * intros Hc. destruct (Hkeep std_edge a1) as [v [Hv _]]; [simpl; auto|assumption|].
        pose proof (allocated_below a1 Hok Hv). lia.
    + rewrite Hframe3.
      * exact HV1.
      * cbn [h2 next]. lia.
      * intros Hc. apply (Hdist 5 0 (o_vertices o) (o_vertices o));
          [pick|pick|lia|reflexivity].
    + discriminate.
    + intros r s Hr Hs. rewrite Hframe3.
      * cbn [h2 arr]. rewrite (Hrs1 r Hr) in Hsd1. rewrite Hsd1.
        unfold vec_at. rewrite Hr, Hs. reflexivity.
      * pose proof (allocated_below r Hok Hs). cbn [h2 next]. lia.
      * intros Hc. subst std_vertex.
        apply (Hdist 3 5 r r); [pick|pick|lia|reflexivity].
    + intros r s Hr _ Hs. rewrite (Hrs3 r Hr) in Hsd3. rewrite Hsd3.
      unfold vec_at. rewrite Hr, Hs. reflexivity.
Qed.

End HeapFacts.

Lemma pairwise_distinct_all (l : list ref) :
  NoDup l -> pairwise_distinct (map Some l).
Proof.
  intros Hnd i j x y Hi Hj Hij E. subst y.
  rewrite nth_error_map in Hi, Hj.
  destruct (nth_error l i) as [x'|] eqn:Ei; [|discriminate].
  destruct (nth_error l j) as [y'|] eqn:Ej; [|discriminate].
  simpl in Hi, Hj. inversion Hi. inversion Hj. subst.
  apply Hij. apply (proj1 (NoDup_nth_error l) Hnd).
  - apply nth_error_Some. congruence.
  - congruence.
Qed.

Lemma normalize_graph_in_place_witness :
  exists ret h' o',
    normalize_graph_heap 0 (Some 2) (Some 3) (Some 4) (Some 5) demo_heap = Some (ret, h')
    /\ r_graph ret = 0
    /\ obj h' 0 = Some o'
    /\ 6 <= o_vertices o'
    /\ arr h' 3 = Some (Vec [fl 1; fl 1]).
Proof.
  destruct (@normalize_graph_in_place float _ demo_heap 0 {| o_vertices := 0; o_edges := 1 |}
              [[fl 1; fl 5]; [fl 3; fl 5]] [[fl 2; fl 4]] [] []
              (Some 2) (Some 3) (Some 4) (Some 5))
    as (ret & h' & o' & Hrun & Hret & Hobj & Hnew & _ & _ & _ & _ & Hstd & _).
  - intros r Hr. apply nth_error_None. simpl. exact Hr.
  - reflexivity.
  - reflexivity.
  - reflexivity.
  - intros x r Hx Hr. simpl in Hx.
    destruct Hx as [Hx|[Hx|[Hx|[Hx|[]]]]]; subst x; inversion Hr; subst r;
      eexists; reflexivity.
  - apply (pairwise_distinct_all (l:=[0; 1; 2; 3; 4; 5])).
    repeat (constructor; [simpl; intuition discriminate|]). constructor.
  - exists ret, h', o'. repeat split; try assumption.
    apply (Hstd 3 [fl 1; fl 0]); reflexivity.
Defined.

(* ------------------------------------------------------------------ *)
(** * The order of binary64 *)

Lemma lex3_Lt (a b : Z * Z * Z) : lex3 a b = Lt <-> lex3_lt a b.
Proof.
  destruct a as [[a1 a2] a3], b as [[b1 b2] b3]. unfold lex3, lex3_lt.
  destruct (Z.compare_spec a1 b1); [destruct (Z.compare_spec a2 b2);
    [destruct (Z.compare_spec a3 b3)|..]|..];
    split; intros Hc; try discriminate; try reflexivity; lia.
Qed.

Lemma lex3_not_Gt (a b : Z * Z * Z) : lex3 a b <> Gt <-> lex3_le a b.
Proof.
  destruct a as [[a1 a2] a3], b as [[b1 b2] b3]. unfold lex3, lex3_le.
  destruct (Z.compare_spec a1 b1); [destruct (Z.compare_spec a2 b2);
    [destruct (Z.compare_spec a3 b3)|..]|..];
    split; intros Hc; try discriminate; try congruence; lia.
Qed.

Lemma SFcompare_key (f1 f2 : spec_float) :
  f1 <> S754_nan -> f2 <> S754_nan ->
  SFcompare f1 f2 = Some (lex3 (SFkey f1) (SFkey f2)).
Proof.
  intros H1 H2.
  destruct f1 as [s1|s1| |s1 m1 e1]; destruct f2 as [s2|s2| |s2 m2 e2];
    try congruence; try (destruct s1); try (destruct s2); try reflexivity.
  simpl. rewrite Z.compare_opp, (Z.compare_antisym e1 e2).
  destruct (e1 ?= e2)%Z; reflexivity.
Qed.

Lemma not_nan_spec (x : float) : not_nan x <-> Prim2SF x <> S754_nan.
Proof.
  unfold not_nan. split.
  - intros Hn E. apply fis_nan_spec in E. congruence.
  - intros Hx. destruct (fis_nan x) eqn:E; [|reflexivity].
    apply fis_nan_spec in E. contradiction.
Qed.

Lemma fleb_key (x y : float) :
  fleb x y = true <-> not_nan x /\ not_nan y /\ lex3_le (SFkey (Prim2SF x)) (SFkey (Prim2SF y)).
Proof.
  simpl. rewrite FloatAxioms.leb_spec, !not_nan_spec. unfold SFleb.
  destruct (Prim2SF x) as [s1|s1| |s1 m1 e1] eqn:Ex.
  all: destruct (Prim2SF y) as [s2|s2| |s2 m2 e2] eqn:Ey.
  all: try (split; [discriminate|intros [H1 [H2 _]]; congruence]).
  all: rewrite SFcompare_key by discriminate; rewrite <- lex3_not_Gt.
  all: destruct (lex3 _ _); split;
       try discriminate; try (intros [_ [_ Hc]]; congruence);
       intros _; repeat split; discriminate.
Qed.

Lemma fltb_key (x y : float) :
  fltb x y = true <-> not_nan x /\ not_nan y /\ lex3_lt (SFkey (Prim2SF x)) (SFkey (Prim2SF y)).
Proof.
  simpl. rewrite FloatAxioms.ltb_spec, !not_nan_spec. unfold SFltb.
  destruct (Prim2SF x) as [s1|s1| |s1 m1 e1] eqn:Ex.
  all: destruct (Prim2SF y) as [s2|s2| |s2 m2 e2] eqn:Ey.
  all: try (split; [discriminate|intros [H1 [H2 _]]; congruence]).
  all: rewrite SFcompare_key by discriminate; rewrite <- lex3_Lt.
  all: destruct (lex3 _ _); split;
       try discriminate; try (intros [_ [_ Hc]]; congruence);
       intros _; repeat split; discriminate.
Qed.

Lemma lex3_le_refl a : lex3_le a a.
Proof. destruct a as [[a1 a2] a3]. unfold lex3_le. lia. Qed.

Lemma lex3_le_trans a b c : lex3_le a b -> lex3_le b c -> lex3_le a c.
Proof.
  destruct a as [[a1 a2] a3], b as [[b1 b2] b3], c as [[c1 c2] c3].
  unfold lex3_le. lia.
Qed.

Lemma lex3_lt_trans a b c : lex3_lt a b -> lex3_lt b c -> lex3_lt a c.
Proof.
  destruct a as [[a1 a2] a3], b as [[b1 b2] b3], c as [[c1 c2] c3].
  unfold lex3_lt. lia.
Qed.

Lemma lex3_lt_le a b : lex3_lt a b -> lex3_le a b.
Proof.
  destruct a as [[a1 a2] a3], b as [[b1 b2] b3]. unfold lex3_lt, lex3_le. lia.
Qed.

Lemma lex3_total a b : lex3_le a b \/ lex3_lt b a.
Proof.
  destruct a as [[a1 a2] a3], b as [[b1 b2] b3]. unfold lex3_lt, lex3_le. lia.
Qed.

Lemma fleb_refl (x : float) : not_nan x -> fleb x x = true.
Proof. intros Hx. apply fleb_key. repeat split; try assumption. apply lex3_le_refl. Qed.

Lemma fleb_trans (x y z : float) : fleb x y = true -> fleb y z = true -> fleb x z = true.
Proof.
  rewrite !fleb_key. intros [Hx [Hy Hxy]] [_ [Hz Hyz]].
  repeat split; try assumption. eapply lex3_le_trans; eassumption.
Qed.

Lemma fltb_trans (x y z : float) : fltb x y = true -> fltb y z = true -> fltb x z = true.
Proof.
  rewrite !fltb_key. intros [Hx [Hy Hxy]] [_ [Hz Hyz]].
  repeat split; try assumption. eapply lex3_lt_trans; eassumption.
Qed.

Lemma fltb_fleb (x y : float) : fltb x y = true -> fleb x y = true.
Proof.
  rewrite fltb_key, fleb_key. intros [Hx [Hy Hxy]].
  repeat split; try assumption. apply lex3_lt_le. assumption.
Qed.

Lemma not_fleb_fltb (x y : float) :
  not_nan x -> not_nan y -> fleb x y = false -> fltb y x = true.
Proof.
  intros Hx Hy Hle. apply fltb_key. repeat split; try assumption.
  destruct (lex3_total (SFkey (Prim2SF x)) (SFkey (Prim2SF y))) as [Hc|Hc]; [|assumption].
  assert (Ht : fleb x y = true) by (apply fleb_key; repeat split; assumption).
  congruence.
Qed.

Lemma fltb_irrefl_le (x y : float) : fltb x y = true -> fleb y x = false.
Proof.
  rewrite fltb_key. intros [Hx [Hy Hxy]].
  destruct (fleb y x) eqn:E; [|reflexivity].
  apply fleb_key in E. destruct E as [_ [_ Hyx]].
  destruct (SFkey (Prim2SF x)) as [[a1 a2] a3], (SFkey (Prim2SF y)) as [[b1 b2] b3].
  unfold lex3_lt, lex3_le in *. lia.
Qed.

(* ------------------------------------------------------------------ *)
(** * The improvement loop *)

(** C1 (the code departs from it in [2d_full_process.py]): the candidate's
    edge costs are computed with the default weights (line 241, no
    [weights=edge_weights]) and compared with a current cost computed with
    [edge_weights] (line 220).  On the strip, the third epoch selects
    super-vertex 4, whose label is 1; the candidate label 2 is given the
    cost 1.3721..., strictly below the current 1.3901..., and is accepted;
    the cost of the new assignment, computed at the head of the next loop
    body as the current one was, is 1.4394...: the accepted step has raised
    the global cost. *)
Theorem improvement_2d_accepted_step_raises_cost :
  match strip_run 2, strip_run 3 with
  | Some before, Some after =>
      solution before = [0; 0; 1; 1; 1; 2; 2]%Z /\
      np_argmax (solution_costs before) = Some 4 /\
      fst (strip_improve_vertex before 4) = 2%Z /\
      fltb (snd (strip_improve_vertex before 4)) (strip_cost before) = true /\
      solution after = [0; 0; 1; 1; 2; 2; 2]%Z /\
      fltb (strip_cost before) (strip_cost after) = true
  | _, _ => False
  end.
Proof. vm_compute. repeat split. Qed.

(** ** The acceptance test of the improvement loop *)

Section Acceptance.
Variable observation : list float.
Variable observed_labelmap : LabelMap.
Variable model_graph : SRG (F:=float).
Variables mean_vertex std_vertex mean_edge std_edge : list float.
Variables vertex_weights edge_weights : list float.
Variable graph_weights : float * float.

Local Abbreviation candidate_cost :=
  (potential_cost observation observed_labelmap model_graph mean_vertex std_vertex
                  mean_edge std_edge vertex_weights graph_weights).

(** One turn of the candidate loop keeps the pair it holds, or replaces it
    by a candidate whose computed cost is strictly below the held one. *)
Lemma try_prediction_strict (joined : LabelMap) (i : nat) (current : Z * float) (p : Z) :
  let next := try_prediction observation observed_labelmap model_graph mean_vertex
                std_vertex mean_edge std_edge vertex_weights graph_weights joined i current p in
  next = current \/
  (next = (p, candidate_cost joined i p) /\ fltb (snd next) (snd current) = true).
Proof.
  unfold try_prediction. cbv zeta.
  destruct (p =? fst current)%Z; [left; reflexivity|].
  destruct (fltb (candidate_cost joined i p) (snd current)) eqn:E.
  - right. split; [reflexivity|exact E].
  - left. reflexivity.
Qed.

(** The loop body for one super-vertex: the label is kept with the cost
    read at the head of the body, or the result is one of the neighbours'
    labels and its computed cost is strictly below that cost. *)
Lemma improve_vertex_strict (st : State (F:=float)) (i : nat) :
  let result := improve_vertex observation observed_labelmap model_graph mean_vertex
                  std_vertex mean_edge std_edge vertex_weights edge_weights graph_weights st i in
  let held := current_cost model_graph vertex_weights edge_weights graph_weights st in
  result = (nth i (solution st) 0%Z, held) \/
  (In (fst result) (potential_predictions observed_labelmap (solution st) i) /\
   snd result = candidate_cost (joined_labelmap st) i (fst result) /\
   fltb (snd result) held = true).
Proof.
  cbv zeta. unfold improve_vertex.
  set (start := (nth i (solution st) 0%Z,
                 current_cost model_graph vertex_weights edge_weights graph_weights st)).
  set (candidates := potential_predictions observed_labelmap (solution st) i).
  assert (Hgen : forall l current,
    (forall p, In p l -> In p candidates) ->
    (current = start \/
     (In (fst current) candidates /\
      snd current = candidate_cost (joined_labelmap st) i (fst current) /\
      fltb (snd current) (snd start) = true)) ->
    let r := fold_left (try_prediction observation observed_labelmap model_graph mean_vertex
                          std_vertex mean_edge std_edge vertex_weights graph_weights
                          (joined_labelmap st) i) l current in
    r = start \/
    (In (fst r) candidates /\
     snd r = candidate_cost (joined_labelmap st) i (fst r) /\
     fltb (snd r) (snd start) = true)).
  { induction l as [|p l IH]; intros current Hin Hcur; [exact Hcur|].
    cbn [fold_left]. apply IH; [intros q Hq; apply Hin; right; exact Hq|].
    destruct (try_prediction_strict (joined_labelmap st) i current p) as [E | [E Hlt]].
    - rewrite E. exact Hcur.
    - right. rewrite E in *. cbn [fst snd] in *. split; [apply Hin; left; reflexivity|].
      split; [reflexivity|].
      destruct Hcur as [Hc | [_ [_ Hc]]].
      + rewrite Hc in Hlt. exact Hlt.
      + exact (@fltb_trans _ _ _ Hlt Hc). }
  apply (Hgen candidates start); [auto|left; reflexivity].
Qed.

End Acceptance.

(* ------------------------------------------------------------------ *)
(** * The priorities of the improvement loop *)

(** ** Writes by index *)

Lemma set_nth_length {A} (i : nat) (v : A) (l : list A) : length (set_nth i v l) = length l.
Proof.
  revert i. induction l as [|x t IH]; intros [|j]; cbn [set_nth length]; try reflexivity.
  rewrite IH. reflexivity.
Qed.

Lemma nth_error_set_nth_same {A} (i : nat) (v : A) (l : list A) :
  i < length l -> nth_error (set_nth i v l) i = Some v.
Proof.
  revert i. induction l as [|x t IH]; intros [|j] Hi; cbn [length] in Hi;
    cbn [set_nth nth_error]; try lia; try reflexivity.
  apply IH. lia.
Qed.

Lemma nth_error_set_nth_other {A} (i j : nat) (v : A) (l : list A) :
  i <> j -> nth_error (set_nth i v l) j = nth_error l j.
Proof.
  revert i j. induction l as [|x t IH]; intros [|i] [|j] Hij;
    cbn [set_nth nth_error]; try reflexivity; try congruence.
  apply IH. congruence.
Qed.

Lemma nth_error_set_nth_kept {A} (i j : nat) (v : A) (l : list A) :
  nth_error l j = Some v -> nth_error (set_nth i v l) j = Some v.
Proof.
  intros Hj. destruct (Nat.eq_dec i j) as [E|E].
  - subst j. apply nth_error_set_nth_same. apply nth_error_Some. congruence.
  - rewrite nth_error_set_nth_other by exact E. exact Hj.
Qed.

(** ** The worst-first order *)

Section Selection.
Context {F : Type} `{Num F}.

Lemma insert_desc_perm (x : nat * F) (l : list (nat * F)) :
  Permutation (insert_desc x l) (x :: l).
Proof.
  induction l as [|y t IH]; cbn [insert_desc]; [reflexivity|].
  destruct (fltb (snd y) (snd x)); [reflexivity|].
  rewrite IH. apply perm_swap.
Qed.

Lemma sorted_desc_perm (l : list (nat * F)) : Permutation (sorted_desc l) l.
Proof.
  unfold sorted_desc.
  assert (Hgen : forall l acc,
    Permutation (fold_left (fun acc x => insert_desc x acc) l acc) (l ++ acc)).
  { clear l. induction l as [|x t IH]; intros acc; cbn [fold_left app]; [reflexivity|].
    rewrite IH, insert_desc_perm. symmetry. apply Permutation_middle. }
  rewrite Hgen, app_nil_r. reflexivity.
Qed.

Lemma enumerate_indices {A} (a : list A) : map fst (enumerate a) = seq 0 (length a).
Proof.
  unfold enumerate. generalize 0.
  induction a as [|x t IH]; intros n; cbn [length seq combine map fst]; [reflexivity|].
  rewrite IH. reflexivity.
Qed.

Lemma NoDup_firstn {A} (k : nat) (l : list A) : NoDup l -> NoDup (firstn k l).
Proof.
  intros Hl. rewrite <- (firstn_skipn k l) in Hl.
  exact (NoDup_app_remove_r _ _ Hl).
Qed.

End Selection.

(** ** The priorities across the epochs of the improvement *)

Section Priorities.
Context {F : Type} `{Num F}.
Variable observation : list F.
Variable observed_labelmap : LabelMap.
Variable model_graph : SRG (F:=F).
Variables mean_vertex std_vertex mean_edge std_edge : list F.
Variables vertex_weights edge_weights : list F.
Variable graph_weights : F * F.

Local Abbreviation step :=
  (improve_step observation observed_labelmap model_graph mean_vertex std_vertex
                mean_edge std_edge vertex_weights edge_weights graph_weights).
Local Abbreviation rebuilt :=
  (rebuild observation observed_labelmap model_graph mean_vertex std_vertex
           mean_edge std_edge).
Local Abbreviation epoch :=
  (improvement_epoch observation observed_labelmap model_graph mean_vertex std_vertex
                     mean_edge std_edge vertex_weights edge_weights graph_weights).
Local Abbreviation epochs :=
  (improvement observation observed_labelmap model_graph mean_vertex std_vertex
               mean_edge std_edge vertex_weights edge_weights graph_weights).

Lemma selected_NoDup (cutoff : nat) (st : State) : NoDup (selected cutoff st).
Proof.
  unfold selected. rewrite <- firstn_map. apply NoDup_firstn.
  apply (Permutation_NoDup (l := map fst (enumerate (solution_costs st)))).
  - apply Permutation_map. symmetry. apply sorted_desc_perm.
  - rewrite enumerate_indices. apply seq_NoDup.
Qed.

Lemma selected_in_range (cutoff : nat) (st : State) (i : nat) :
  In i (selected cutoff st) -> i < length (solution_costs st).
Proof.
  unfold selected. rewrite <- firstn_map. intros Hi.
  assert (Hi' : In i (map fst (sorted_desc (enumerate (solution_costs st))))).
  { rewrite <- (firstn_skipn cutoff (map fst _)). apply in_or_app. left. exact Hi. }
  apply (Permutation_in (l' := map fst (enumerate (solution_costs st)))) in Hi'.
  - rewrite enumerate_indices in Hi'. apply in_seq in Hi'. lia.
  - apply Permutation_map. apply sorted_desc_perm.
Qed.

Lemma solution_costs_steps (l : list nat) (st : State) :
  solution_costs (fold_left step l st)
  = fold_left (fun costs i => set_nth i f0 costs) l (solution_costs st).
Proof.
  revert st. induction l as [|i l IH]; intros st; cbn [fold_left]; [reflexivity|].
  rewrite IH. reflexivity.
Qed.

Lemma zeroed_length (l : list nat) (costs : list F) :
  length (fold_left (fun costs i => set_nth i f0 costs) l costs) = length costs.
Proof.
  revert costs. induction l as [|i l IH]; intros costs; cbn [fold_left]; [reflexivity|].
  rewrite IH. apply set_nth_length.
Qed.

Lemma zeroed_kept (l : list nat) (costs : list F) (j : nat) :
  nth_error costs j = Some f0 ->
  nth_error (fold_left (fun costs i => set_nth i f0 costs) l costs) j = Some f0.
Proof.
  revert costs. induction l as [|i l IH]; intros costs Hj; cbn [fold_left]; [exact Hj|].
  apply IH. apply nth_error_set_nth_kept. exact Hj.
Qed.

Lemma zeroed_attempted (l : list nat) (costs : list F) (j : nat) :
  In j l -> j < length costs ->
  nth_error (fold_left (fun costs i => set_nth i f0 costs) l costs) j = Some f0.
Proof.
  revert costs. induction l as [|i l IH]; intros costs Hin Hj; [destruct Hin|].
  cbn [fold_left]. destruct (Nat.eq_dec i j) as [E|E].
  - subst i. apply zeroed_kept. apply nth_error_set_nth_same. exact Hj.
  - destruct Hin as [Hin|Hin]; [contradiction|].
    apply IH; [exact Hin|]. rewrite set_nth_length. exact Hj.
Qed.

Lemma zeroed_others (l : list nat) (costs : list F) (j : nat) :
  ~ In j l ->
  nth_error (fold_left (fun costs i => set_nth i f0 costs) l costs) j = nth_error costs j.
Proof.
  revert costs. induction l as [|i l IH]; intros costs Hin; cbn [fold_left]; [reflexivity|].
  rewrite IH by (intros Hc; apply Hin; right; exact Hc).
  apply nth_error_set_nth_other. intros E. apply Hin. left. exact E.
Qed.

Lemma epoch_solution_costs (cutoff : nat) (st : State) :
  solution_costs (epoch cutoff st)
  = fold_left (fun costs i => set_nth i f0 costs) (selected cutoff st) (solution_costs st).
Proof.
  unfold improvement_epoch. cbn [rebuild solution_costs]. apply solution_costs_steps.
Qed.

(** C8, amended. Within an epoch no super-vertex is attempted
    twice, the priority of every attempted super-vertex, accepted or not,
    is set to [0], and the others are left as they were; the rebuild at the
    epoch boundary does not touch the priorities, so that a priority that
    is [0] stays [0] through all the later epochs. *)
Theorem epoch_zeroes_attempted_priorities (cutoff : nat) (st : State) :
  NoDup (selected cutoff st) /\
  (forall i, In i (selected cutoff st) ->
     nth_error (solution_costs (epoch cutoff st)) i = Some f0) /\
  (forall i, ~ In i (selected cutoff st) ->
     nth_error (solution_costs (epoch cutoff st)) i = nth_error (solution_costs st) i) /\
  solution_costs (rebuilt st) = solution_costs st /\
  (forall total_epochs i, nth_error (solution_costs st) i = Some f0 ->
     nth_error (solution_costs (epochs total_epochs cutoff st)) i = Some f0).
Proof.
  split; [apply selected_NoDup|].
  split; [|split; [|split; [reflexivity|]]].
  - intros i Hi. rewrite epoch_solution_costs.
    apply zeroed_attempted; [exact Hi|]. exact (selected_in_range _ _ _ Hi).
  - intros i Hi. rewrite epoch_solution_costs. apply zeroed_others. exact Hi.
  - intros total_epochs i Hi. unfold improvement.
    induction total_epochs as [|k IH]; [exact Hi|]. rewrite Nat.iter_succ.
    rewrite epoch_solution_costs. apply zeroed_kept. exact IH.
Qed.

End Priorities.

(** C8 as stated fails on the strip: the first epoch of [calibration.py]
    attempts super-vertex 2, the one of highest priority, and accepts no
    replacement: the solution, the joined labelmap and the observation
    graph after the epoch boundary are those before it.  Yet the priority
    of super-vertex 2 is [0] after the boundary, nothing has recomputed
    it, and the second epoch selects super-vertex 0. *)
Lemma epoch_boundary_restores_no_priority :
  match strip_calibration 0, strip_calibration 1 with
  | Some st, Some st' =>
      selected 1 st = [2] /\
      feqb (nth 2 (solution_costs st) f0) f0 = false /\
      solution st' = solution st /\
      joined_labelmap st' = joined_labelmap st /\
      observation_graph st' = observation_graph st /\
      nth 2 (solution_costs st') f1 = f0 /\
      selected 1 st' = [0]
  | _, _ => False
  end.
Proof. vm_compute. repeat split. Qed.

(* ------------------------------------------------------------------ *)
(** * The repair loop *)

(** ** Counting the unassigned *)

Lemma nth_set_nth_same {A} (i : nat) (v d : A) (l : list A) :
  i < length l -> nth i (set_nth i v l) d = v.
Proof.
  revert i. induction l as [|x t IH]; intros [|j] Hi; cbn [length] in Hi;
    cbn [set_nth nth]; try lia; try reflexivity.
  apply IH. lia.
Qed.

Lemma nth_set_nth_other {A} (i j : nat) (v d : A) (l : list A) :
  i <> j -> nth j (set_nth i v l) d = nth j l d.
Proof.
  revert i j. induction l as [|x t IH]; intros [|i] [|j] Hij;
    cbn [set_nth nth]; try reflexivity; try congruence.
  apply IH. congruence.
Qed.

Lemma unassigned_In (s : list Z) : In (-1)%Z s <-> 0 < unassigned s.
Proof. unfold unassigned. apply count_occ_In. Qed.

Lemma keeps_assigned_refl (s : list Z) : keeps_assigned s s.
Proof. split; [reflexivity|intros; reflexivity]. Qed.

Lemma keeps_assigned_trans (a b c : list Z) :
  keeps_assigned a b -> keeps_assigned b c -> keeps_assigned a c.
Proof.
  intros [L1 K1] [L2 K2]. split; [congruence|].
  intros i Hi. rewrite K2; rewrite K1; auto.
Qed.

Lemma keeps_assigned_le (s s' : list Z) :
  keeps_assigned s s' -> unassigned s' <= unassigned s.
Proof.
  unfold keeps_assigned, unassigned. revert s'.
  induction s as [|x t IH]; intros [|y t'] [L Hk]; cbn [length] in L; try discriminate;
    [apply Nat.le_refl|].
  assert (Ht : count_occ Z.eq_dec t' (-1)%Z <= count_occ Z.eq_dec t (-1)%Z).
  { apply IH. split; [lia|]. intros i Hi. exact (Hk (S i) Hi). }
  cbn [count_occ]. destruct (Z.eq_dec y (-1)) as [Ey|Ey]; destruct (Z.eq_dec x (-1)) as [Ex|Ex];
    try lia.
  exfalso. specialize (Hk 0 Ex). cbn [nth] in Hk. congruence.
Qed.

Lemma keeps_assigned_lt (s s' : list Z) (r : nat) :
  keeps_assigned s s' -> r < length s ->
  nth r s 0%Z = (-1)%Z -> nth r s' 0%Z <> (-1)%Z ->
  unassigned s' < unassigned s.
Proof.
  unfold unassigned. revert s' r.
  induction s as [|x t IH]; intros [|y t'] r [L Hk] Hr H1 H2; cbn [length] in L, Hr;
    try discriminate; try lia.
  assert (Hkt : keeps_assigned t t').
  { split; [lia|]. intros i Hi. exact (Hk (S i) Hi). }
  destruct r as [|r]; cbn [nth] in H1, H2.
  - subst x. pose proof (keeps_assigned_le Hkt) as Hle. unfold unassigned in Hle.
    cbn [count_occ]. destruct (Z.eq_dec (-1) (-1)) as [_|E]; [|congruence].
    destruct (Z.eq_dec y (-1)) as [Ey|Ey]; [contradiction|]. lia.
  - assert (Hlt := IH t' r Hkt ltac:(lia) H1 H2).
    cbn [count_occ]. destruct (Z.eq_dec y (-1)) as [Ey|Ey];
      destruct (Z.eq_dec x (-1)) as [Ex|Ex]; try lia.
    exfalso. specialize (Hk 0 Ex). cbn [nth] in Hk. congruence.
Qed.

Lemma repairable_nth (K : nat) (s : list Z) (i : nat) :
  0 < K -> repairable K s -> (-1 <= nth i s 0 < Z.of_nat K)%Z.
Proof.
  intros HK [Hall _]. destruct (Nat.lt_ge_cases i (length s)) as [Hi|Hi].
  - rewrite Forall_forall in Hall. apply Hall. apply nth_In. exact Hi.
  - rewrite nth_overflow by exact Hi. lia.
Qed.

Lemma Forall_set_nth {A} (P : A -> Prop) (i : nat) (v : A) (l : list A) :
  P v -> Forall P l -> Forall P (set_nth i v l).
Proof.
  intros Hv Hl. revert i. induction Hl as [|x t Hx Ht IH]; intros [|j]; cbn [set_nth];
    constructor; auto.
Qed.

Lemma keeps_assigned_In (s s' : list Z) (l : Z) :
  keeps_assigned s s' -> l <> (-1)%Z -> In l s -> In l s'.
Proof.
  intros [L Hk] Hl Hin. destruct (In_nth s l 0%Z Hin) as [i [Hi E]].
  rewrite <- E. rewrite <- Hk by congruence. apply nth_In. lia.
Qed.

Lemma keeps_assigned_repairable (K : nat) (s s' : list Z) :
  keeps_assigned s s' -> repairable K s ->
  Forall (fun l => (-1 <= l < Z.of_nat K)%Z) s' -> repairable K s'.
Proof.
  intros Hk [_ Hheld] Hall. split; [exact Hall|].
  intros label Hl. apply (keeps_assigned_In Hk); [lia|]. apply Hheld. exact Hl.
Qed.

(** ** Termination of the repair loop *)

Section RepairFacts.
Context {F : Type} `{Num F}.
Variable observation : list F.
Variable observed_labelmap : LabelMap.
Variable model_graph : SRG (F:=F).
Variables mean_vertex std_vertex mean_edge std_edge : list F.
Variable vertex_weights : list F.
Variable graph_weights : F * F.

Local Abbreviation K := (n_model model_graph).
Local Abbreviation adj := (super_adjacency observed_labelmap).
Local Abbreviation joined := (join_by_label observed_labelmap model_graph).
Local Abbreviation cost :=
  (potential_cost observation observed_labelmap model_graph mean_vertex std_vertex
                  mean_edge std_edge vertex_weights graph_weights).
Local Abbreviation attempt :=
  (try_repair observation observed_labelmap model_graph mean_vertex std_vertex
              mean_edge std_edge vertex_weights graph_weights).
Local Abbreviation vertex :=
  (repair_vertex observation observed_labelmap model_graph mean_vertex std_vertex
                 mean_edge std_edge vertex_weights graph_weights).
Local Abbreviation pass :=
  (repair_pass observation observed_labelmap model_graph mean_vertex std_vertex
               mean_edge std_edge vertex_weights graph_weights).
Local Abbreviation repair :=
  (contiguity_repair observation observed_labelmap model_graph mean_vertex std_vertex
                     mean_edge std_edge vertex_weights graph_weights).

(** The number of super-regions. *)
Variable n : nat.
Hypothesis HK : 0 < K.
Hypothesis Hconn : connected n adj.
(** Every replacement the loop can evaluate costs less than [+inf]. *)
Hypothesis Hcost : forall s i p,
  length s = n -> repairable K s -> i < n -> nth i s 0%Z = (-1)%Z ->
  (0 <= p < Z.of_nat K)%Z ->
  fltb (cost (joined s) i p) finf = true.

Lemma candidates_in_range (s : list Z) (i : nat) (p : Z) :
  repairable K s -> In p (potential_predictions observed_labelmap s i) ->
  (-1 <= p < Z.of_nat K)%Z.
Proof.
  intros Hs Hp. unfold potential_predictions in Hp. apply nodup_In in Hp.
  apply in_map_iff in Hp. destruct Hp as [m [E _]]. subst p.
  apply repairable_nth; assumption.
Qed.

Lemma attempt_spec (joined0 : LabelMap) (i : nat) (current : Z * F) (p : Z) :
  (forall q, (0 <= q < Z.of_nat K)%Z -> fltb (cost joined0 i q) finf = true) ->
  held_ok K current -> (-1 <= p < Z.of_nat K)%Z ->
  held_ok K (attempt joined0 i current p) /\
  (fst current <> (-1)%Z \/ p <> (-1)%Z -> fst (attempt joined0 i current p) <> (-1)%Z).
Proof.
  intros Hc Hcur Hp. unfold try_repair.
  destruct (p =? fst current)%Z eqn:E1.
  { apply Z.eqb_eq in E1. split; [exact Hcur|]. intros [Hn|Hn]; congruence. }
  destruct (p =? -1)%Z eqn:E2.
  { apply Z.eqb_eq in E2. split; [exact Hcur|]. intros [Hn|Hn]; congruence. }
  apply Z.eqb_neq in E2. cbv zeta.
  destruct (fltb (cost joined0 i p) (snd current)) eqn:E3.
  - split; [right; cbn [fst]; lia|]. intros _. cbn [fst]. exact E2.
  - split; [exact Hcur|]. intros [Hn|Hn]; [exact Hn|].
    destruct Hcur as [Hcur|Hcur]; [|lia].
    rewrite Hcur in E3. cbn [snd] in E3. rewrite Hc in E3 by lia. discriminate.
Qed.

Lemma attempts_spec (joined0 : LabelMap) (i : nat) (candidates : list Z) (current : Z * F) :
  (forall q, (0 <= q < Z.of_nat K)%Z -> fltb (cost joined0 i q) finf = true) ->
  held_ok K current -> (forall p, In p candidates -> (-1 <= p < Z.of_nat K)%Z) ->
  held_ok K (fold_left (attempt joined0 i) candidates current) /\
  (fst current <> (-1)%Z \/ (exists p, In p candidates /\ p <> (-1)%Z) ->
   fst (fold_left (attempt joined0 i) candidates current) <> (-1)%Z).
Proof.
  intros Hc. revert current.
  induction candidates as [|p t IH]; intros current Hcur Hin; cbn [fold_left].
  - split; [exact Hcur|]. intros [Hn|[p [[] _]]]. exact Hn.
  - assert (Hp : (-1 <= p < Z.of_nat K)%Z) by (apply Hin; left; reflexivity).
    destruct (@attempt_spec joined0 i current p Hc Hcur Hp) as [Hok Hprog].
    destruct (IH _ Hok (fun q Hq => Hin q (or_intror Hq))) as [Hok' Hprog'].
    split; [exact Hok'|]. intros [Hn|[q [[Hq|Hq] Hq1]]].
    + apply Hprog'. left. apply Hprog. left. exact Hn.
    + subst q. apply Hprog'. left. apply Hprog. right. exact Hq1.
    + apply Hprog'. right. exists q. split; assumption.
Qed.

Lemma held_ok_range (current : Z * F) : held_ok K current -> (-1 <= fst current < Z.of_nat K)%Z.
Proof. intros [E|E]; [rewrite E; cbn [fst]; lia|lia]. Qed.

(** The body of the repair for one super-vertex. *)
Lemma repair_vertex_spec (s0 s : list Z) (i : nat) :
  length s0 = n -> repairable K s0 -> keeps_assigned s0 s -> repairable K s ->
  keeps_assigned s (vertex (joined s0) s i) /\
  repairable K (vertex (joined s0) s i) /\
  ((exists m, In m (adj i) /\ nth m s 0%Z <> (-1)%Z) ->
   nth i (vertex (joined s0) s i) 0%Z <> (-1)%Z).
Proof.
  intros Hlen Hs0 Hkeep Hs. unfold repair_vertex.
  destruct (-1 <? nth i s 0)%Z eqn:E.
  { split; [apply keeps_assigned_refl|]. split; [exact Hs|].
    intros _. apply Z.ltb_lt in E. lia. }
  apply Z.ltb_ge in E. cbv zeta.
  pose proof (@repairable_nth _ s i HK Hs) as Hri.
  assert (Ei : nth i s 0%Z = (-1)%Z) by lia.
  assert (Hi : i < length s).
  { destruct (Nat.lt_ge_cases i (length s)) as [Hlt|Hge]; [exact Hlt|].
    rewrite nth_overflow in Ei by exact Hge. discriminate. }
  destruct Hkeep as [Hl Hk].
  assert (Ei0 : nth i s0 0%Z = (-1)%Z).
  { destruct (Z.eq_dec (nth i s0 0%Z) (-1)) as [E0|E0]; [exact E0|].
    rewrite <- (Hk i E0). exact Ei. }
  assert (Hc : forall q, (0 <= q < Z.of_nat K)%Z -> fltb (cost (joined s0) i q) finf = true).
  { intros q Hq. apply Hcost; try assumption. lia. }
  destruct (@attempts_spec (joined s0) i (potential_predictions observed_labelmap s i)
              (nth i s 0%Z, finf) Hc) as [Hok Hprog].
  { left. rewrite Ei. reflexivity. }
  { intros p Hp. exact (@candidates_in_range s i p Hs Hp). }
  set (result := fold_left (attempt (joined s0) i)
                           (potential_predictions observed_labelmap s i)
                           (nth i s 0%Z, finf)) in *.
  assert (Hkeep' : keeps_assigned s (set_nth i (fst result) s)).
  { split; [apply set_nth_length|]. intros j Hj.
    apply nth_set_nth_other. intros Eij. subst j. contradiction. }
  split; [exact Hkeep'|]. split.
  - apply (keeps_assigned_repairable Hkeep' Hs).
    apply Forall_set_nth; [apply held_ok_range; exact Hok|apply Hs].
  - intros [m [Hm Hmv]]. rewrite nth_set_nth_same by exact Hi.
    apply Hprog. right. exists (nth m s 0%Z). split; [|exact Hmv].
    unfold potential_predictions. apply nodup_In. apply in_map_iff.
    exists m. split; [reflexivity|exact Hm].
Qed.

(** The loop over the super-vertices of one pass, in any order. *)
Lemma repair_fold_spec (s0 : list Z) (order : list nat) :
  length s0 = n -> repairable K s0 ->
  forall s, keeps_assigned s0 s -> repairable K s ->
  keeps_assigned s (fold_left (vertex (joined s0)) order s) /\
  repairable K (fold_left (vertex (joined s0)) order s) /\
  (forall r, In r order -> (exists m, In m (adj r) /\ nth m s 0%Z <> (-1)%Z) ->
     nth r (fold_left (vertex (joined s0)) order s) 0%Z <> (-1)%Z).
Proof.
  intros Hlen Hs0. induction order as [|i rest IH]; intros s Hkeep Hs; cbn [fold_left].
  - split; [apply keeps_assigned_refl|]. split; [exact Hs|]. intros r [].
  - destruct (@repair_vertex_spec s0 s i Hlen Hs0 Hkeep Hs) as [Hk1 [Hs1 Hp1]].
    destruct (IH _ (keeps_assigned_trans Hkeep Hk1) Hs1) as [Hk2 [Hs2 Hp2]].
    split; [exact (keeps_assigned_trans Hk1 Hk2)|]. split; [exact Hs2|].
    intros r [Hr|Hr] [m [Hm Hmv]].
    + subst r. rewrite (proj2 Hk2); apply Hp1; exists m; split; assumption.
    + apply Hp2; [exact Hr|]. exists m. split; [exact Hm|].
      rewrite (proj2 Hk1) by exact Hmv. exact Hmv.
Qed.

Lemma sorted_order_complete (costs : list F) (r : nat) :
  r < length costs -> In r (map fst (sorted_desc (enumerate costs))).
Proof.
  intros Hr. apply (Permutation_in (l := map fst (enumerate costs))).
  - apply Permutation_map. symmetry. apply sorted_desc_perm.
  - rewrite enumerate_indices. apply in_seq. lia.
Qed.

(** One pass keeps what is assigned and, while a super-vertex is
    unassigned, assigns at least one. *)
Lemma repair_pass_spec (costs : list F) (s : list Z) :
  length s = n -> length costs = n -> repairable K s ->
  keeps_assigned s (pass costs s) /\ repairable K (pass costs s) /\
  (In (-1)%Z s -> unassigned (pass costs s) < unassigned s).
Proof.
  intros Hlen Hcosts Hs. unfold repair_pass. cbv zeta.
  destruct (@repair_fold_spec s (map fst (sorted_desc (enumerate costs))) Hlen Hs s
              (keeps_assigned_refl s) Hs) as [Hk [Hs' Hp]].
  split; [exact Hk|]. split; [exact Hs'|]. intros Hin.
  destruct (In_nth s (-1)%Z 0%Z Hin) as [a [Ha Ea]].
  assert (H0 : In (Z.of_nat 0) s) by (apply Hs; exact HK).
  destruct (In_nth s _ 0%Z H0) as [b [Hb Eb]].
  destruct (Hconn (fun r => (nth r s 0 =? -1)%Z)) as [a' [b' [Ha' [Hb' [Sa [Sb Hadj]]]]]].
  { exists a. split; [lia|]. rewrite Ea. reflexivity. }
  { exists b. split; [lia|]. rewrite Eb. reflexivity. }
  apply Z.eqb_eq in Sa. apply Z.eqb_neq in Sb.
  apply (@keeps_assigned_lt s _ a' Hk); [lia|exact Sa|].
  apply Hp; [apply sorted_order_complete; lia|].
  exists b'. split; assumption.
Qed.


End RepairFacts.

(** ** Two runs of the repair on four super-regions in a row *)

Lemma all_solutions_complete (K : nat) (s : list Z) :
  Forall (fun l => (-1 <= l < Z.of_nat K)%Z) s -> In s (all_solutions K (length s)).
Proof.
  induction 1 as [|x t Hx Ht IH]; cbn [length all_solutions]; [left; reflexivity|].
  apply in_flat_map. exists x. split.
  - apply in_map_iff. exists (Z.to_nat (x + 1)). split; [lia|]. apply in_seq. lia.
  - apply in_map. exact IH.
Qed.

Lemma holds_all_spec (K : nat) (s : list Z) :
  (forall label, label < K -> In (Z.of_nat label) s) -> holds_all K s = true.
Proof.
  intros Hheld. unfold holds_all. apply forallb_forall. intros label Hl.
  apply in_seq in Hl. apply mem_Z_In. apply Hheld. lia.
Qed.

Lemma candidates_below_inf_spec {F} `{Num F} (observation : list F)
    (observed_labelmap : LabelMap) (model_graph : SRG (F:=F))
    (mean_vertex std_vertex mean_edge std_edge vertex_weights : list F)
    (graph_weights : F * F) (n : nat) :
  candidates_below_inf observation observed_labelmap model_graph mean_vertex std_vertex
                       mean_edge std_edge vertex_weights graph_weights n = true ->
  forall s i p,
    length s = n -> repairable (n_model model_graph) s -> i < n ->
    nth i s 0%Z = (-1)%Z -> (0 <= p < Z.of_nat (n_model model_graph))%Z ->
    fltb (potential_cost observation observed_labelmap model_graph mean_vertex std_vertex
            mean_edge std_edge vertex_weights graph_weights
            (join_by_label observed_labelmap model_graph s) i p) finf = true.
Proof.
  intros Hall s i p Hlen [Hrange Hheld] Hi Hnth Hp.
  unfold candidates_below_inf in Hall. cbv zeta in Hall.
  rewrite forallb_forall in Hall.
  specialize (Hall s). rewrite <- Hlen in Hall at 1.
  specialize (Hall (@all_solutions_complete _ _ Hrange)).
  rewrite (@holds_all_spec _ _ Hheld) in Hall. cbn [implb] in Hall.
  rewrite forallb_forall in Hall.
  specialize (Hall i ltac:(apply in_seq; lia)).
  rewrite Hnth in Hall. cbn [Z.eqb Pos.eqb implb] in Hall.
  rewrite forallb_forall in Hall.
  specialize (Hall (Z.to_nat p) ltac:(apply in_seq; lia)).
  rewrite Z2Nat.id in Hall by lia. exact Hall.
Qed.

Lemma half_adjacency_connected : connected 4 (super_adjacency half_observed_labelmap).
Proof.
  intros S [a [Ha Sa]] [b [Hb Sb]].
  destruct (S 0) eqn:E0, (S 1) eqn:E1, (S 2) eqn:E2, (S 3) eqn:E3.
  all: try (exfalso; destruct b as [|[|[|[|b]]]]; [congruence..|lia]).
  all: try (exfalso; destruct a as [|[|[|[|a]]]]; [congruence..|lia]).
  all: first
    [ exists 0, 1; repeat split; [lia|lia|assumption|assumption|vm_compute; auto]
    | exists 1, 0; repeat split; [lia|lia|assumption|assumption|vm_compute; auto]
    | exists 1, 2; repeat split; [lia|lia|assumption|assumption|vm_compute; auto]
    | exists 2, 1; repeat split; [lia|lia|assumption|assumption|vm_compute; auto]
    | exists 2, 3; repeat split; [lia|lia|assumption|assumption|vm_compute; auto]
    | exists 3, 2; repeat split; [lia|lia|assumption|assumption|vm_compute; auto] ].
Qed.

Lemma alternating_detected_repairable :
  repairable (n_model half_model_graph) alternating_detected.
Proof.
  split.
  - vm_compute. repeat constructor; discriminate.
  - intros label Hl. change (n_model half_model_graph) with 2 in Hl.
    destruct label as [|[|label]]; [vm_compute; auto|vm_compute; auto|lia].
Qed.


(** While the solution holds [-1] and a pass leaves it as it is, no
    number of passes suffices. *)
Lemma repair_stuck {F} `{Num F} (observation : list F)
    (observed_labelmap : LabelMap) (model_graph : SRG (F:=F))
    (mean_vertex std_vertex mean_edge std_edge vertex_weights : list F)
    (graph_weights : F * F) (costs : list F) (s : list Z) :
  mem_Z (-1) s = true ->
  repair_pass observation observed_labelmap model_graph mean_vertex std_vertex
              mean_edge std_edge vertex_weights graph_weights costs s = s ->
  forall fuel,
    contiguity_repair observation observed_labelmap model_graph mean_vertex std_vertex
                      mean_edge std_edge vertex_weights graph_weights fuel costs s = None.
Proof.
  intros Hmem Hpass. induction fuel as [|fuel IH]; cbn [contiguity_repair]; rewrite Hmem.
  - reflexivity.
  - rewrite Hpass. exact IH.
Qed.


(* ------------------------------------------------------------------ *)
(** * The contiguity guarantee *)

(** ** The grid *)

Lemma voxel_eqb_eq (a b : voxel) : voxel_eqb a b = true <-> a = b.
Proof.
  destruct a as [[x y] z], b as [[x' y'] z']. unfold voxel_eqb.
  rewrite !andb_true_iff, !Nat.eqb_eq. split.
  - intros [[-> ->] ->]. reflexivity.
  - intros E. inversion E. auto.
Qed.

Lemma mem_voxel_In (c : voxel) (l : list voxel) : mem_voxel c l = true <-> In c l.
Proof.
  unfold mem_voxel. rewrite existsb_exists. split.
  - intros [w [Hw E]]. apply voxel_eqb_eq in E. subst. exact Hw.
  - intros Hc. exists c. split; [exact Hc|]. apply voxel_eqb_eq. reflexivity.
Qed.

Lemma all_voxels_In (nx ny nz x y z : nat) :
  In (x, y, z) (all_voxels (nx, ny, nz)) <-> x < nx /\ y < ny /\ z < nz.
Proof.
  unfold all_voxels. rewrite in_flat_map. split.
  - intros [x' [Hx Hin]]. apply in_flat_map in Hin. destruct Hin as [y' [Hy Hin]].
    apply in_map_iff in Hin. destruct Hin as [z' [E Hz]]. inversion E. subst.
    apply in_seq in Hx, Hy, Hz. lia.
  - intros [Hx [Hy Hz]]. exists x. split; [apply in_seq; lia|].
    apply in_flat_map. exists y. split; [apply in_seq; lia|].
    apply in_map. apply in_seq. lia.
Qed.

Lemma In_if_singleton {A} (b : bool) (w v : A) :
  In v (if b then [w] else []) <-> b = true /\ w = v.
Proof. destruct b; cbn [In]; intuition discriminate. Qed.

Lemma face_neighbours_In (nx ny nz x y z : nat) (v : voxel) :
  In v (face_neighbours (nx, ny, nz) (x, y, z)) <->
  ((0 <? x) = true /\ (x - 1, y, z) = v) \/
  ((S x <? nx) = true /\ (S x, y, z) = v) \/
  ((0 <? y) = true /\ (x, y - 1, z) = v) \/
  ((S y <? ny) = true /\ (x, S y, z) = v) \/
  ((0 <? z) = true /\ (x, y, z - 1) = v) \/
  ((S z <? nz) = true /\ (x, y, S z) = v).
Proof. unfold face_neighbours. rewrite !in_app_iff, !In_if_singleton. reflexivity. Qed.

Lemma face_neighbours_grid (sh : nat * nat * nat) (u v : voxel) :
  In u (all_voxels sh) -> In v (face_neighbours sh u) ->
  In v (all_voxels sh) /\ In u (face_neighbours sh v).
Proof.
  destruct sh as [[nx ny] nz], u as [[x y] z]. intros Hu Hv.
  apply all_voxels_In in Hu. apply face_neighbours_In in Hv.
  destruct Hv as [[E Hv]|[[E Hv]|[[E Hv]|[[E Hv]|[[E Hv]|[E Hv]]]]]];
    apply Nat.ltb_lt in E; subst v;
    (split; [apply all_voxels_In; lia|]); apply face_neighbours_In.
  - right; left. split; [apply Nat.ltb_lt; lia|]. f_equal. f_equal. lia.
  - left. split; [apply Nat.ltb_lt; lia|]. f_equal. f_equal. lia.
  - do 3 right; left. split; [apply Nat.ltb_lt; lia|]. f_equal. f_equal. lia.
  - do 2 right; left. split; [apply Nat.ltb_lt; lia|]. f_equal. f_equal. lia.
  - do 5 right. split; [apply Nat.ltb_lt; lia|]. f_equal. lia.
  - do 4 right; left. split; [apply Nat.ltb_lt; lia|]. f_equal. lia.
Qed.

(** ** Paths *)

Section Paths.
Variable sh : nat * nat * nat.

Lemma reach_end (P : voxel -> Prop) (u v : voxel) : reach sh P u v -> P u /\ P v.
Proof. induction 1 as [u Hu|u v w Huv IH Hw Pw]; [auto|]. split; [apply IH|exact Pw]. Qed.

Lemma reach_trans (P : voxel -> Prop) (u v w : voxel) :
  reach sh P u v -> reach sh P v w -> reach sh P u w.
Proof.
  intros Huv Hvw. induction Hvw as [v Hv|v x w Hvx IH Hw Pw]; [exact Huv|].
  exact (@reach_step sh P _ _ _ (IH Huv) Hw Pw).
Qed.

Lemma reach_sym (P : voxel -> Prop) (u v : voxel) :
  (forall c, P c -> In c (all_voxels sh)) ->
  reach sh P u v -> reach sh P v u.
Proof.
  intros Hgrid. induction 1 as [u Hu|u v w Huv IH Hw Pw]; [apply reach_refl; exact Hu|].
  apply (@reach_trans P w v u); [|exact IH].
  destruct (reach_end Huv) as [_ Pv].
  apply (@reach_step sh P w w v); [apply reach_refl; exact Pw| |exact Pv].
  apply (@face_neighbours_grid sh v w); [apply Hgrid; exact Pv|exact Hw].
Qed.

Lemma reach_mono (P Q : voxel -> Prop) (u v : voxel) :
  (forall c, P c -> Q c) -> reach sh P u v -> reach sh Q u v.
Proof.
  intros HPQ. induction 1 as [u Hu|u v w Huv IH Hw Pw].
  - apply reach_refl. apply HPQ. exact Hu.
  - apply (@reach_step sh Q _ _ _ IH Hw). apply HPQ. exact Pw.
Qed.

(** A path all of whose points are in [Q] is a path in [Q]. *)
Lemma reach_within (P Q : voxel -> Prop) (u v : voxel) :
  (forall x, reach sh P u x -> Q x) -> reach sh P u v -> reach sh Q u v.
Proof.
  intros HQ. induction 1 as [u Hu|u v w Huv IH Hw Pw].
  - apply reach_refl. apply HQ. apply reach_refl. exact Hu.
  - assert (HQ' : forall x, reach sh P u x -> Q x) by exact HQ.
    apply (@reach_step sh Q _ _ _ (IH HQ') Hw). apply HQ. exact (@reach_step sh P _ _ _ Huv Hw Pw).
Qed.

End Paths.

(** ** Flood fill and the components of a mask *)

Section FloodFacts.
Variable sh : nat * nat * nat.
Variable mask : voxel -> bool.
Hypothesis mask_grid : forall c, mask c = true -> In c (all_voxels sh).

Local Abbreviation masked := (fun c => mask c = true).
Local Abbreviation closed S :=
  (forall c w, In c S -> In w (face_neighbours sh c) -> mask w = true -> In w S).

Lemma fold_add_new_In (l acc : list voxel) (w : voxel) :
  In w (fold_left add_new l acc) <-> In w acc \/ In w l.
Proof.
  revert acc. induction l as [|x t IH]; intros acc; cbn [fold_left In]; [tauto|].
  rewrite IH. unfold add_new. destruct (mem_voxel x acc) eqn:E.
  - apply mem_voxel_In in E. split; [tauto|]. intros [Hw|[Hw|Hw]]; subst; tauto.
  - rewrite in_app_iff. cbn [In]. tauto.
Qed.

Lemma fold_add_new_NoDup (l acc : list voxel) :
  NoDup acc -> NoDup (fold_left add_new l acc).
Proof.
  revert acc. induction l as [|x t IH]; intros acc Hacc; cbn [fold_left]; [exact Hacc|].
  apply IH. unfold add_new. destruct (mem_voxel x acc) eqn:E; [exact Hacc|].
  apply NoDup_app; [exact Hacc|repeat constructor; intros []|].
  intros a Ha [Hx|[]]. subst a.
  apply mem_voxel_In in Ha. congruence.
Qed.

Lemma fold_add_new_length (l acc : list voxel) :
  length acc <= length (fold_left add_new l acc).
Proof.
  revert acc. induction l as [|x t IH]; intros acc; cbn [fold_left]; [lia|].
  eapply Nat.le_trans; [|apply IH]. unfold add_new.
  destruct (mem_voxel x acc); [lia|]. rewrite length_app. lia.
Qed.

Lemma fold_add_new_same (l acc : list voxel) :
  (forall w, In w l -> In w acc) -> fold_left add_new l acc = acc.
Proof.
  induction l as [|x t IH]; intros Hin; cbn [fold_left]; [reflexivity|].
  unfold add_new at 2.
  rewrite (proj2 (mem_voxel_In x acc)) by (apply Hin; left; reflexivity).
  apply IH. intros w Hw. apply Hin. right. exact Hw.
Qed.

Lemma fold_add_new_grows (l acc : list voxel) (w : voxel) :
  In w l -> ~ In w acc -> length acc < length (fold_left add_new l acc).
Proof.
  revert acc. induction l as [|x t IH]; intros acc Hin Hnot; [destruct Hin|].
  cbn [fold_left]. unfold add_new at 2. destruct (mem_voxel x acc) eqn:E.
  - destruct Hin as [Hx|Hin]; [subst x; apply mem_voxel_In in E; contradiction|].
    apply IH; assumption.
  - eapply Nat.lt_le_trans; [|apply fold_add_new_length]. rewrite length_app.
    cbn [length]. lia.
Qed.

Lemma expand_candidates (S : list voxel) (w : voxel) :
  In w (flat_map (fun c => filter mask (face_neighbours sh c)) S) <->
  exists c, In c S /\ In w (face_neighbours sh c) /\ mask w = true.
Proof.
  rewrite in_flat_map. split; intros [c [Hc Hw]]; exists c.
  - apply filter_In in Hw. tauto.
  - split; [tauto|]. apply filter_In. tauto.
Qed.

Lemma expand_cases (S : list voxel) :
  (closed S /\ expand sh mask S = S) \/ length S < length (expand sh mask S).
Proof.
  unfold expand.
  set (cands := flat_map (fun c => filter mask (face_neighbours sh c)) S).
  destruct (forallb (fun w => mem_voxel w S) cands) eqn:E.
  - left. rewrite forallb_forall in E.
    assert (Hin : forall w, In w cands -> In w S).
    { intros w Hw. apply mem_voxel_In. apply E. exact Hw. }
    split; [|apply fold_add_new_same; exact Hin].
    intros c w Hc Hw Hm. apply Hin. apply expand_candidates. exists c. tauto.
  - right. assert (Hex : exists w, In w cands /\ mem_voxel w S = false).
    { clear -E. induction cands as [|x t IH]; cbn [forallb] in E; [discriminate|].
      apply andb_false_iff in E. destruct E as [E|E].
      - exists x. split; [left; reflexivity|exact E].
      - destruct (IH E) as [w [Hw Hm]]. exists w. split; [right; exact Hw|exact Hm]. }
    destruct Hex as [w [Hw Hm]]. apply (fold_add_new_grows _ _ w Hw).
    intros Hin. apply mem_voxel_In in Hin. congruence.
Qed.

Lemma expand_In (S : list voxel) (w : voxel) :
  In w (expand sh mask S) <->
  In w S \/ exists c, In c S /\ In w (face_neighbours sh c) /\ mask w = true.
Proof. unfold expand. rewrite fold_add_new_In, expand_candidates. reflexivity. Qed.

(** What the rounds of the flood fill keep. *)
Lemma rounds_spec (seed : voxel) (k : nat) :
  mask seed = true ->
  NoDup (Nat.iter k (expand sh mask) [seed]) /\
  In seed (Nat.iter k (expand sh mask) [seed]) /\
  forall w, In w (Nat.iter k (expand sh mask) [seed]) -> reach sh masked seed w.
Proof.
  intros Hseed. induction k as [|k [Hnd [Hin Hreach]]].
  - cbn [Nat.iter nat_rect]. split; [repeat constructor; intros []|].
    split; [left; reflexivity|]. intros w [E|[]]. subst w. apply reach_refl. exact Hseed.
  - rewrite Nat.iter_succ. split; [apply fold_add_new_NoDup; exact Hnd|].
    split; [apply expand_In; left; exact Hin|].
    intros w Hw. apply expand_In in Hw. destruct Hw as [Hw|[c [Hc [Hw Hm]]]].
    + apply Hreach. exact Hw.
    + exact (@reach_step sh masked _ _ _ (Hreach c Hc) Hw Hm).
Qed.

Lemma rounds_closed_or_long (seed : voxel) (k : nat) :
  closed (Nat.iter k (expand sh mask) [seed]) \/
  k + 1 <= length (Nat.iter k (expand sh mask) [seed]).
Proof.
  induction k as [|k IH].
  - right. cbn [Nat.iter nat_rect length]. lia.
  - rewrite Nat.iter_succ.
    destruct (expand_cases (Nat.iter k (expand sh mask) [seed])) as [[Hc E]|Hlt].
    + left. rewrite E. exact Hc.
    + destruct IH as [Hc|Hlen]; [|right; lia].
      destruct (expand_cases (Nat.iter k (expand sh mask) [seed])) as [[_ E]|_].
      * left. rewrite E. exact Hc.
      * exfalso. clear -Hc Hlt.
        set (S := Nat.iter k (expand sh mask) [seed]) in *.
        assert (E : expand sh mask S = S).
        { unfold expand. apply fold_add_new_same. intros w Hw.
          apply expand_candidates in Hw. destruct Hw as [c [Hcs [Hw Hm]]].
          exact (Hc c w Hcs Hw Hm). }
        rewrite E in Hlt. lia.
Qed.

(** The flood fill of a seed of the mask is the set of the voxels reached
    from it inside the mask. *)
Lemma flood_spec (seed : voxel) :
  mask seed = true ->
  In seed (flood sh mask seed) /\
  (forall w, In w (flood sh mask seed) -> reach sh masked seed w) /\
  closed (flood sh mask seed).
Proof.
  intros Hseed. unfold flood.
  destruct (rounds_spec (length (all_voxels sh)) Hseed) as [Hnd [Hin Hreach]].
  split; [exact Hin|]. split; [exact Hreach|].
  destruct (rounds_closed_or_long seed (length (all_voxels sh))) as [Hc|Hlen]; [exact Hc|].
  exfalso.
  assert (Hle : length (Nat.iter (length (all_voxels sh)) (expand sh mask) [seed])
                <= length (all_voxels sh)).
  { apply NoDup_incl_length; [exact Hnd|]. intros w Hw. apply mask_grid.
    exact (proj2 (reach_end (Hreach w Hw))). }
  lia.
Qed.

Lemma masked_grid (c : voxel) : masked c -> In c (all_voxels sh).
Proof. exact (@mask_grid c). Qed.

(** Two voxels joined inside the mask are in the same flood fills. *)
Lemma flood_same (seed u v : voxel) :
  mask seed = true -> reach sh masked u v ->
  (In u (flood sh mask seed) <-> In v (flood sh mask seed)).
Proof.
  intros Hseed Huv. destruct (flood_spec Hseed) as [_ [_ Hclosed]].
  induction Huv as [u Hu|u v w Huv IH Hw Hm]; [tauto|].
  rewrite IH. destruct (reach_end Huv) as [_ Hv]. split.
  - intros Hin. exact (Hclosed v w Hin Hw Hm).
  - intros Hin. apply (Hclosed w v Hin); [|exact Hv].
    apply (@face_neighbours_grid sh v w); [apply mask_grid; exact Hv|exact Hw].
Qed.

(** The components: each is the flood fill of a seed of the mask. *)
Local Abbreviation floods comps :=
  (Forall (fun comp => exists seed, mask seed = true /\ comp = flood sh mask seed) comps).

Lemma add_component_spec (comps : list (list voxel)) (c : voxel) :
  floods comps ->
  floods (add_component sh mask comps c) /\
  (forall w, existsb (mem_voxel w) comps = true ->
             existsb (mem_voxel w) (add_component sh mask comps c) = true) /\
  (mask c = true -> existsb (mem_voxel c) (add_component sh mask comps c) = true).
Proof.
  intros Hf. unfold add_component.
  destruct (mask c) eqn:Hm; cbn [andb].
  - destruct (existsb (mem_voxel c) comps) eqn:E; cbn [negb].
    + split; [exact Hf|]. split; [auto|]. intros _. exact E.
    + split; [apply Forall_app; split; [exact Hf|]; repeat constructor; exists c; auto|].
      split; intros; rewrite existsb_app.
      * apply orb_true_iff. left. assumption.
      * apply orb_true_iff. right. cbn [existsb]. rewrite orb_false_r.
        apply mem_voxel_In. apply (flood_spec Hm).
  - split; [exact Hf|]. split; [auto|]. discriminate.
Qed.

Lemma components_spec :
  floods (components sh mask) /\
  forall c, In c (all_voxels sh) -> mask c = true ->
            existsb (mem_voxel c) (components sh mask) = true.
Proof.
  unfold components.
  assert (Hgen : forall l comps, floods comps ->
    floods (fold_left (add_component sh mask) l comps) /\
    (forall w, existsb (mem_voxel w) comps = true ->
               existsb (mem_voxel w) (fold_left (add_component sh mask) l comps) = true) /\
    (forall c, In c l -> mask c = true ->
               existsb (mem_voxel c) (fold_left (add_component sh mask) l comps) = true)).
  { induction l as [|x t IH]; intros comps Hf; cbn [fold_left].
    - split; [exact Hf|]. split; [auto|]. intros c [].
    - destruct (add_component_spec x Hf) as [Hf' [Hkeep Hnew]].
      destruct (IH _ Hf') as [Hf'' [Hkeep' Hin']].
      split; [exact Hf''|]. split; [auto|].
      intros c [E|Hc] Hm; [subst c; apply Hkeep'; apply Hnew; exact Hm|].
      apply Hin'; assumption. }
  destruct (Hgen (all_voxels sh) [] (Forall_nil _)) as [Hf [_ Hin]].
  split; assumption.
Qed.

(** Two voxels joined inside the mask have the same component number. *)
Lemma component_id_same (u v : voxel) :
  reach sh masked u v ->
  component_id (components sh mask) u = component_id (components sh mask) v.
Proof.
  intros Huv. destruct components_spec as [Hf _].
  induction Hf as [|comp rest [seed [Hseed E]] Hrest IH]; cbn [component_id]; [reflexivity|].
  assert (Hmem : mem_voxel u comp = mem_voxel v comp).
  { subst comp. pose proof (flood_same Hseed Huv) as Hs.
    destruct (mem_voxel u (flood sh mask seed)) eqn:Eu.
    - symmetry. apply mem_voxel_In. apply Hs. apply mem_voxel_In. exact Eu.
    - destruct (mem_voxel v (flood sh mask seed)) eqn:Ev; [|reflexivity].
      apply mem_voxel_In in Ev. apply Hs in Ev. apply mem_voxel_In in Ev. congruence. }
  rewrite Hmem, IH. reflexivity.
Qed.

Lemma component_id_In (comps : list (list voxel)) (c : voxel) (k : nat) :
  component_id comps c = S k -> exists comp, nth_error comps k = Some comp /\ In c comp.
Proof.
  revert k. induction comps as [|comp rest IH]; intros k E; cbn [component_id] in E;
    [discriminate|].
  destruct (mem_voxel c comp) eqn:Em.
  - inversion E. subst k. exists comp. split; [reflexivity|]. apply mem_voxel_In. exact Em.
  - destruct (component_id rest c) as [|j] eqn:Ej; [discriminate|].
    inversion E. subst k. destruct (IH j eq_refl) as [comp' [Hn Hin]].
    exists comp'. split; assumption.
Qed.

Lemma component_id_pos (comps : list (list voxel)) (c : voxel) :
  existsb (mem_voxel c) comps = true -> component_id comps c <> 0.
Proof.
  induction comps as [|comp rest IH]; cbn [existsb component_id]; [discriminate|].
  destruct (mem_voxel c comp); [discriminate|]. cbn [orb]. intros E.
  specialize (IH E). destruct (component_id rest c); [contradiction|discriminate].
Qed.

Lemma component_id_le (comps : list (list voxel)) (c : voxel) :
  component_id comps c <= length comps.
Proof.
  induction comps as [|comp rest IH]; cbn [component_id length]; [lia|].
  destruct (mem_voxel c comp); [lia|]. destruct (component_id rest c); lia.
Qed.

(** The voxels that carry a component number are in the mask, and two
    voxels of the same number are joined inside the mask. *)
Lemma component_id_masked (c : voxel) :
  component_id (components sh mask) c <> 0 -> mask c = true.
Proof.
  intros Hc. destruct (component_id (components sh mask) c) as [|k] eqn:E; [contradiction|].
  destruct (component_id_In _ _ E) as [comp [Hn Hin]].
  destruct components_spec as [Hf _]. rewrite Forall_forall in Hf.
  destruct (Hf comp (nth_error_In _ _ Hn)) as [seed [Hseed Ec]]. subst comp.
  exact (proj2 (reach_end (proj1 (proj2 (flood_spec Hseed)) c Hin))).
Qed.

Lemma component_id_joined (u v : voxel) (k : nat) :
  component_id (components sh mask) u = S k ->
  component_id (components sh mask) v = S k ->
  reach sh masked u v.
Proof.
  intros Eu Ev.
  destruct (component_id_In _ _ Eu) as [comp [Hn Hu]].
  destruct (component_id_In _ _ Ev) as [comp' [Hn' Hv]].
  assert (comp' = comp) by congruence. subst comp'.
  destruct components_spec as [Hf _]. rewrite Forall_forall in Hf.
  destruct (Hf comp (nth_error_In _ _ Hn)) as [seed [Hseed Ec]]. subst comp.
  destruct (flood_spec Hseed) as [_ [Hreach _]].
  apply (@reach_trans sh masked u seed v); [|apply Hreach; exact Hv].
  apply reach_sym; [exact masked_grid|]. apply Hreach. exact Hu.
Qed.

End FloodFacts.

(** ** Arrays over the grid *)

Lemma all_voxels_NoDup (sh : nat * nat * nat) : NoDup (all_voxels sh).
Proof.
  destruct sh as [[nx ny] nz]. unfold all_voxels.
  assert (Hflat : forall {A B} (f : A -> list B) (l : list A),
    NoDup l -> (forall a, In a l -> NoDup (f a)) ->
    (forall a a' b, In a l -> In a' l -> In b (f a) -> In b (f a') -> a = a') ->
    NoDup (flat_map f l)).
  { intros A B f l. induction l as [|a t IH]; intros Hnd Hf Hdis; cbn [flat_map];
      [constructor|].
    inversion Hnd as [|? ? Ha Ht]. subst.
    apply NoDup_app.
    - apply Hf. left. reflexivity.
    - apply IH; [exact Ht|intros; apply Hf; right; assumption|].
      intros a1 a2 b H1 H2. apply Hdis; right; assumption.
    - intros b Hb Hb'. apply in_flat_map in Hb'. destruct Hb' as [a' [Ha' Hb']].
      assert (a = a') by (apply (Hdis a a' b); auto using in_eq, in_cons).
      subst a'. contradiction. }
  apply Hflat; [apply seq_NoDup| |].
  - intros x _. apply Hflat; [apply seq_NoDup| |].
    + intros y _. apply Finite.Injective_map_NoDup; [|apply seq_NoDup].
      intros z z' E. inversion E. reflexivity.
    + intros y y' b _ _ Hb Hb'. apply in_map_iff in Hb, Hb'.
      destruct Hb as [z [E _]], Hb' as [z' [E' _]]. subst b. inversion E'. reflexivity.
  - intros x x' b _ _ Hb Hb'. apply in_flat_map in Hb, Hb'.
    destruct Hb as [y [_ Hb]], Hb' as [y' [_ Hb']]. apply in_map_iff in Hb, Hb'.
    destruct Hb as [z [E _]], Hb' as [z' [E' _]]. subst b. inversion E'. reflexivity.
Qed.

Lemma assoc_voxel_nth {A} (vs : list voxel) (a : list A) (k : nat) (d : A) :
  NoDup vs -> k < length vs -> k < length a ->
  assoc_voxel (nth k vs (0, 0, 0)) (combine vs a) d = nth k a d.
Proof.
  revert a k. induction vs as [|v vs IH]; intros [|x a] k Hnd Hk Ha;
    cbn [length] in Hk, Ha; try lia.
  inversion Hnd as [|? ? Hv Hvs]. subst.
  destruct k as [|k]; cbn [nth combine assoc_voxel].
  - rewrite (proj2 (voxel_eqb_eq v v) eq_refl). reflexivity.
  - destruct (voxel_eqb (nth k vs (0, 0, 0)) v) eqn:E.
    + apply voxel_eqb_eq in E. exfalso. apply Hv. rewrite <- E. apply nth_In. lia.
    + apply IH; [exact Hvs|lia|lia].
Qed.

Lemma assoc_voxel_outside {A} (vs : list voxel) (a : list A) (c : voxel) (d : A) :
  ~ In c vs -> assoc_voxel c (combine vs a) d = d.
Proof.
  revert a. induction vs as [|v vs IH]; intros [|x a] Hc; cbn [combine assoc_voxel];
    try reflexivity.
  destruct (voxel_eqb c v) eqn:E.
  - apply voxel_eqb_eq in E. subst. exfalso. apply Hc. left. reflexivity.
  - apply IH. intros Hin. apply Hc. right. exact Hin.
Qed.

Section Grid.
Variable sh : nat * nat * nat.

(** The entry of a flattened array at a voxel of the grid. *)
Lemma grid_get_nth {A} (a : list A) (c : voxel) (d : A) :
  length a = length (all_voxels sh) -> In c (all_voxels sh) ->
  exists k, k < length a /\ nth k (all_voxels sh) (0, 0, 0) = c /\
            grid_get sh a c d = nth k a d.
Proof.
  intros Hlen Hc. destruct (@In_nth voxel (all_voxels sh) c (0, 0, 0) Hc) as [k [Hk E]].
  exists k. split; [lia|]. split; [exact E|].
  unfold grid_get. rewrite <- E. apply assoc_voxel_nth; [apply all_voxels_NoDup|lia|lia].
Qed.

Lemma grid_get_at {A} (a : list A) (k : nat) (d : A) :
  length a = length (all_voxels sh) -> k < length a ->
  grid_get sh a (nth k (all_voxels sh) (0, 0, 0)) d = nth k a d.
Proof.
  intros Hlen Hk. unfold grid_get.
  apply assoc_voxel_nth; [apply all_voxels_NoDup|lia|lia].
Qed.

Lemma grid_get_outside {A} (a : list A) (c : voxel) (d : A) :
  ~ In c (all_voxels sh) -> grid_get sh a c d = d.
Proof. apply assoc_voxel_outside. Qed.

Lemma grid_get_map {A B} (f : A -> B) (a : list A) (c : voxel) (d : A) (d' : B) :
  length a = length (all_voxels sh) -> In c (all_voxels sh) ->
  grid_get sh (map f a) c d' = f (grid_get sh a c d).
Proof.
  intros Hlen Hc. destruct (@grid_get_nth _ a c d Hlen Hc) as [k [Hk [E Hg]]].
  rewrite Hg. rewrite <- E. rewrite grid_get_at by (rewrite ?length_map; lia).
  rewrite (nth_indep _ d' (f d)) by (rewrite length_map; lia).
  apply map_nth.
Qed.

Lemma grid_get_In {A} (a : list A) (c : voxel) (d : A) :
  length a = length (all_voxels sh) -> In c (all_voxels sh) -> In (grid_get sh a c d) a.
Proof.
  intros Hlen Hc. destruct (@grid_get_nth _ a c d Hlen Hc) as [k [Hk [_ Hg]]].
  rewrite Hg. apply nth_In. exact Hk.
Qed.

(** The entries of the grid are those of the voxels of the grid. *)
Lemma grid_get_voxels {B} (f : voxel -> B) (c : voxel) (d : B) :
  In c (all_voxels sh) -> grid_get sh (map f (all_voxels sh)) c d = f c.
Proof.
  intros Hc. destruct (@In_nth voxel (all_voxels sh) c (0, 0, 0) Hc) as [k [Hk E]].
  rewrite <- E. rewrite grid_get_at by (rewrite ?length_map; lia).
  rewrite (nth_indep _ d (f (0, 0, 0))) by (rewrite length_map; lia).
  apply map_nth.
Qed.

End Grid.

(** ** Masks, positions and writes *)

Lemma mask_select_In {A} (a : list A) (m : list bool) (x : A) :
  In x (mask_select a m) <->
  exists k, nth_error a k = Some x /\ nth_error m k = Some true.
Proof.
  revert m. induction a as [|y a IH]; intros [|b m]; cbn [mask_select].
  - split; [intros []|intros [[|k] [E _]]; discriminate].
  - split; [intros []|intros [[|k] [E _]]; discriminate].
  - split; [intros []|intros [[|k] [_ E]]; discriminate].
  - destruct b; cbn [In]; rewrite IH; split.
    + intros [E|[k [E1 E2]]]; [subst; exists 0; auto|exists (S k); auto].
    + intros [[|k] [E1 E2]]; [left; inversion E1; reflexivity|right; exists k; auto].
    + intros [k [E1 E2]]. exists (S k). auto.
    + intros [[|k] [E1 E2]]; [discriminate|exists k; auto].
Qed.

Lemma positions_of_In (x : Z) (a : list Z) (r : nat) :
  In r (positions_of x a) <-> nth_error a r = Some x.
Proof.
  unfold positions_of. rewrite mask_select_In. split.
  - intros [k [E1 E2]].
    assert (Hk : k < length a).
    { assert (Hk' : k < length (seq 0 (length a))) by (apply nth_error_Some; congruence).
      rewrite length_seq in Hk'. exact Hk'. }
    rewrite nth_error_nth' with (d := 0) in E1 by (rewrite length_seq; exact Hk).
    rewrite seq_nth in E1 by exact Hk. inversion E1. subst r. cbn [Nat.add].
    rewrite nth_error_map in E2.
    destruct (nth_error a k) as [y|] eqn:Ey; [|discriminate].
    cbn [option_map] in E2. inversion E2 as [E]. apply Z.eqb_eq in E. subst. reflexivity.
  - intros E. exists r.
    assert (Hr : r < length a) by (apply nth_error_Some; congruence).
    split.
    + rewrite nth_error_nth' with (d := 0) by (rewrite length_seq; exact Hr).
      rewrite seq_nth by exact Hr. reflexivity.
    + rewrite nth_error_map, E. cbn [option_map]. rewrite Z.eqb_refl. reflexivity.
Qed.

Lemma assign_all_length (regions : list nat) (value : Z) (s : list Z) :
  length (assign_all regions value s) = length s.
Proof.
  unfold assign_all. revert s.
  induction regions as [|r t IH]; intros s; cbn [fold_left]; [reflexivity|].
  rewrite IH. apply set_nth_length.
Qed.

Lemma assign_all_in (regions : list nat) (value : Z) (s : list Z) (r : nat) (d : Z) :
  In r regions -> r < length s -> nth r (assign_all regions value s) d = value.
Proof.
  unfold assign_all. revert s.
  induction regions as [|x t IH]; intros s Hin Hr; [destruct Hin|].
  cbn [fold_left]. destruct (in_dec Nat.eq_dec r t) as [Ht|Ht].
  - apply IH; [exact Ht|]. rewrite set_nth_length. exact Hr.
  - destruct Hin as [E|Hin]; [subst x|contradiction].
    assert (Hkeep : forall l s', ~ In r l ->
      nth r (fold_left (fun s0 r0 => set_nth r0 value s0) l s') d = nth r s' d).
    { clear. induction l as [|y l IHl]; intros s' Hn; cbn [fold_left]; [reflexivity|].
      rewrite IHl by (intros Hc; apply Hn; right; exact Hc).
      apply nth_set_nth_other. intros E. apply Hn. left. exact E. }
    rewrite Hkeep by exact Ht. apply nth_set_nth_same. exact Hr.
Qed.

Lemma assign_all_out (regions : list nat) (value : Z) (s : list Z) (r : nat) (d : Z) :
  ~ In r regions -> nth r (assign_all regions value s) d = nth r s d.
Proof.
  unfold assign_all. revert s.
  induction regions as [|y l IHl]; intros s Hn; cbn [fold_left]; [reflexivity|].
  rewrite IHl by (intros Hc; apply Hn; right; exact Hc).
  apply nth_set_nth_other. intros E. apply Hn. left. exact E.
Qed.

(** ** The over-segmentation *)

Section Segmentation.
Variable observed : LabelMap.
Variable n : nat.
Hypothesis Hseg : segmentation_ok observed n.

Local Abbreviation sh := (lm_shape observed).
Local Abbreviation data := (lm_data observed).

Lemma region_at_range (c : voxel) :
  In c (all_voxels sh) -> (0 <= region_at observed c < Z.of_nat n)%Z.
Proof.
  intros Hc. destruct Hseg as [Hlen Hall]. rewrite Forall_forall in Hall.
  apply Hall. unfold region_at. apply grid_get_In; assumption.
Qed.

Lemma region_at_outside (c : voxel) :
  ~ In c (all_voxels sh) -> region_at observed c = (-1)%Z.
Proof. intros Hc. unfold region_at. apply grid_get_outside. exact Hc. Qed.

Lemma carries_region (r : nat) (c : voxel) :
  carries observed (Z.of_nat r) c <->
  In c (all_voxels sh) /\ region_at observed c = Z.of_nat r.
Proof. reflexivity. Qed.

(** The mask of a label. *)
Lemma solution_map_spec (s : list Z) (label : nat) (c : voxel) :
  length s = n ->
  grid_get sh (solution_map observed s label) c false = true <->
  assigned_voxels observed s (Z.of_nat label) c.
Proof.
  intros Hlen. unfold solution_map, assigned_voxels. cbv zeta.
  destruct (mem_voxel c (all_voxels sh)) eqn:Hm;
    [apply mem_voxel_In in Hm; rename Hm into Hc
    |assert (Hc : ~ In c (all_voxels sh))
       by (intros Hc; apply mem_voxel_In in Hc; congruence)].
  - rewrite (@grid_get_map sh _ _ _ data c (-1)%Z false (proj1 Hseg) Hc).
    fold (region_at observed c). pose proof (@region_at_range c Hc) as Hr.
    rewrite existsb_exists. split.
    + intros [r [Hin E]]. apply positions_of_In in Hin. apply Z.eqb_eq in E.
      split; [exact Hc|]. rewrite <- E, Nat2Z.id. apply nth_error_nth. exact Hin.
    + intros [_ E]. exists (Z.to_nat (region_at observed c)). split.
      * apply positions_of_In. rewrite <- E. apply nth_error_nth'. lia.
      * apply Z.eqb_eq. lia.
  - rewrite grid_get_outside by exact Hc. split; [discriminate|]. intros [Hc' _]. contradiction.
Qed.

End Segmentation.

(** ** The detection of the components of a label *)

Section Detection.
Context {F : Type} `{Num F}.
Variable observation : list F.
Variable observed : LabelMap.
Variables mean_vertex std_vertex mean_edge std_edge initial_weights : list F.
Variable n : nat.
Hypothesis Hseg : segmentation_ok observed n.
Hypothesis Hreg : regions_connected observed n.

Local Abbreviation sh := (lm_shape observed).
Local Abbreviation data := (lm_data observed).
Local Abbreviation detect :=
  (detect_label observation observed mean_vertex std_vertex mean_edge std_edge
                initial_weights).
Local Abbreviation mask_of s label :=
  (fun c => grid_get sh (solution_map observed s label) c false).
Local Abbreviation comps_of s label := (components sh (mask_of s label)).
Local Abbreviation id_of s label := (component_id (comps_of s label)).

(** The super-regions met by the component of number [k]. *)
Local Abbreviation correct_of s label k :=
  (np_unique (mask_select data
     (map (Z.eqb (Z.of_nat k))
          (map (fun c => Z.of_nat (id_of s label c)) (all_voxels sh))))).

Lemma detect_label_cases (s : list Z) (label : nat) (mv : list F) (s' : list Z) :
  detect s label mv = Some s' ->
  (length (comps_of s label) = 1 /\ s' = s) \/
  (length (comps_of s label) <> 1 /\
   exists a,
     np_argmin (tl (component_costs observation observed mean_vertex std_vertex
                      mean_edge std_edge initial_weights s label mv)) = Some a /\
     s' = assign_all (map Z.to_nat (correct_of s label (a + 1))) (Z.of_nat label)
                     (assign_all (positions_of (Z.of_nat label) s) (-1)%Z s)).
Proof.
  unfold detect_label, potential_regions, ndi_label. cbv beta iota zeta.
  destruct (length (comps_of s label) =? 1) eqn:E.
  - apply Nat.eqb_eq in E. intros Hs. injection Hs as Hs. left.
    split; [exact E|symmetry; exact Hs].
  - apply Nat.eqb_neq in E. intros Hs. right. split; [exact E|].
    destruct (np_argmin _) as [a|] eqn:Ea; [|discriminate].
    exists a. split; [reflexivity|]. injection Hs as Hs. symmetry. exact Hs.
Qed.

Lemma mask_of_grid (s : list Z) (label : nat) (c : voxel) :
  length s = n -> mask_of s label c = true -> In c (all_voxels sh).
Proof.
  intros Hlen Hm. apply (proj1 (@solution_map_spec observed n Hseg s label c Hlen)) in Hm.
  apply Hm.
Qed.

(** The super-regions met by a component. *)
Lemma correct_of_spec (s : list Z) (label k r : nat) :
  In r (map Z.to_nat (correct_of s label k)) <->
  exists c, In c (all_voxels sh) /\ region_at observed c = Z.of_nat r /\ id_of s label c = k.
Proof.
  destruct Hseg as [Hlen Hall].
  rewrite in_map_iff. split.
  - intros [o [Eo Hin]]. apply (proj1 (np_unique_In _ _)) in Hin.
    apply (proj1 (mask_select_In _ _ _)) in Hin.
    destruct Hin as [j [E1 E2]].
    assert (Hj : j < length data) by (apply nth_error_Some; congruence).
    rewrite map_map, nth_error_map in E2.
    rewrite (@nth_error_nth' voxel (all_voxels sh) j (0, 0, 0)) in E2 by lia.
    cbn [option_map] in E2. inversion E2 as [E3]. apply Z.eqb_eq in E3.
    exists (nth j (all_voxels sh) (0, 0, 0)).
    assert (Hc : In (nth j (all_voxels sh) (0, 0, 0)) (all_voxels sh)) by (apply nth_In; lia).
    split; [exact Hc|]. split; [|lia].
    unfold region_at. rewrite grid_get_at by assumption.
    rewrite (nth_error_nth _ _ _ E1).
    rewrite Forall_forall in Hall. specialize (Hall o (nth_error_In _ _ E1)). lia.
  - intros [c [Hc [Er Ek]]]. exists (Z.of_nat r). split; [apply Nat2Z.id|].
    apply np_unique_In. apply mask_select_In.
    destruct (@grid_get_nth sh _ data c (-1)%Z Hlen Hc) as [j [Hj [Ej Hg]]].
    exists j. split.
    + rewrite <- Er. unfold region_at. rewrite Hg. apply nth_error_nth'. exact Hj.
    + rewrite map_map, nth_error_map.
      rewrite (@nth_error_nth' voxel (all_voxels sh) j (0, 0, 0)) by lia.
      cbn [option_map]. rewrite Ej, Ek, Z.eqb_refl. reflexivity.
Qed.

(** The two writes that end the detection of a label, when the component
    of number [k] is the chosen one. *)
Lemma detection_writes (s : list Z) (label k : nat) :
  length s = n -> 0 < k ->
  let correct := map Z.to_nat (correct_of s label k) in
  let cleared := assign_all (positions_of (Z.of_nat label) s) (-1)%Z s in
  (forall r, In r correct -> r < n /\ nth_error s r = Some (Z.of_nat label)) /\
  (forall r, In r correct ->
     nth r (assign_all correct (Z.of_nat label) cleared) 0%Z = Z.of_nat label) /\
  (forall r, ~ In r correct ->
     nth r (assign_all correct (Z.of_nat label) cleared) 0%Z
     = if existsb (Nat.eqb r) (positions_of (Z.of_nat label) s)
       then (-1)%Z else nth r s 0%Z).
Proof.
  intros Hlen Hk correct cleared.
  assert (Hgrid : forall c, mask_of s label c = true -> In c (all_voxels sh))
    by (intros c; apply (@mask_of_grid s label c Hlen)).
  assert (Hmask : forall c, mask_of s label c = true <->
                            assigned_voxels observed s (Z.of_nat label) c)
    by (intros c; apply (@solution_map_spec observed n Hseg s label c Hlen)).
  assert (Hcl : length cleared = n) by (unfold cleared; rewrite assign_all_length; exact Hlen).
  assert (Hcorrect : forall r, In r correct ->
             r < n /\ nth_error s r = Some (Z.of_nat label)).
  { intros r Hr. apply correct_of_spec in Hr. destruct Hr as [c [Hc [Er Ek]]].
    pose proof (@region_at_range observed n Hseg c Hc) as Hrange.
    assert (Hm : mask_of s label c = true).
    { apply (@component_id_masked sh _ Hgrid c). rewrite Ek. lia. }
    apply Hmask in Hm. destruct Hm as [_ Hm]. rewrite Er, Nat2Z.id in Hm.
    split; [lia|]. rewrite <- Hm. apply nth_error_nth'. lia. }
  split; [exact Hcorrect|]. split.
  - intros r Hr. apply assign_all_in; [exact Hr|]. rewrite Hcl. apply Hcorrect. exact Hr.
  - intros r Hr. rewrite assign_all_out by exact Hr. unfold cleared.
    destruct (existsb (Nat.eqb r) (positions_of (Z.of_nat label) s)) eqn:Ex.
    + apply existsb_exists in Ex. destruct Ex as [r' [Hr' Er]]. apply Nat.eqb_eq in Er.
      subst r'. apply assign_all_in; [exact Hr'|]. apply positions_of_In in Hr'.
      apply nth_error_Some. congruence.
    + apply assign_all_out. intros Hr'.
      assert (existsb (Nat.eqb r) (positions_of (Z.of_nat label) s) = true); [|congruence].
      apply existsb_exists. exists r. split; [exact Hr'|apply Nat.eqb_refl].
Qed.

(** What the detection does to the solution, and what it achieves. *)
Lemma detect_label_spec (s : list Z) (label : nat) (mv : list F) (s' : list Z) :
  length s = n -> detect s label mv = Some s' ->
  length s' = n /\
  (forall r, nth r s 0%Z <> Z.of_nat label -> nth r s' 0%Z = nth r s 0%Z) /\
  (forall r, nth r s 0%Z = Z.of_nat label ->
     nth r s' 0%Z = Z.of_nat label \/ nth r s' 0%Z = (-1)%Z) /\
  one_component sh (assigned_voxels observed s' (Z.of_nat label)).
Proof.
  intros Hlen Hd.
  assert (Hgrid : forall c, mask_of s label c = true -> In c (all_voxels sh))
    by (intros c; apply (@mask_of_grid s label c Hlen)).
  assert (Hmask : forall c, mask_of s label c = true <->
                            assigned_voxels observed s (Z.of_nat label) c)
    by (intros c; apply (@solution_map_spec observed n Hseg s label c Hlen)).
  destruct (@detect_label_cases s label mv _ Hd) as [[Hone E]|[Hmany [a [_ E]]]]; subst s'.
  - split; [exact Hlen|]. split; [auto|]. split; [auto|].
    intros u v Hu Hv.
    assert (Hid : forall c, assigned_voxels observed s (Z.of_nat label) c ->
                            id_of s label c = 1).
    { intros c Hc. pose proof (component_id_le (comps_of s label) c) as Hle.
      assert (Hpos : id_of s label c <> 0).
      { apply component_id_pos. apply (proj2 (@components_spec sh _ Hgrid)); [apply Hc|].
        apply Hmask. exact Hc. }
      lia. }
    apply (@reach_mono sh (fun c => mask_of s label c = true)).
    + intros c Hc. apply Hmask. exact Hc.
    + apply (@component_id_joined sh _ Hgrid u v 0); apply Hid; assumption.
  - set (correct := map Z.to_nat (correct_of s label (a + 1))).
    set (cleared := assign_all (positions_of (Z.of_nat label) s) (-1)%Z s).
    assert (Hcl : length cleared = n) by (unfold cleared; rewrite assign_all_length; exact Hlen).
    destruct (@detection_writes s label (a + 1) Hlen ltac:(lia)) as [Hcorrect [Hin Hout]].
    fold correct cleared in Hcorrect, Hin, Hout.
    assert (Hkept : forall r, r < n ->
               nth r (assign_all correct (Z.of_nat label) cleared) 0%Z = Z.of_nat label ->
               In r correct).
    { intros r Hr Er. destruct (in_dec Nat.eq_dec r correct) as [Hc|Hc]; [exact Hc|].
      rewrite (Hout r Hc) in Er.
      destruct (existsb (Nat.eqb r) (positions_of (Z.of_nat label) s)) eqn:Ex; [lia|].
      exfalso. assert (existsb (Nat.eqb r) (positions_of (Z.of_nat label) s) = true);
        [|congruence].
      apply existsb_exists. exists r. split; [|apply Nat.eqb_refl].
      apply positions_of_In. rewrite <- Er. apply nth_error_nth'. lia. }
    split; [rewrite assign_all_length; exact Hcl|]. split; [|split].
    + intros r Hr. rewrite Hout.
      * destruct (existsb (Nat.eqb r) (positions_of (Z.of_nat label) s)) eqn:Ex;
          [|reflexivity].
        apply existsb_exists in Ex. destruct Ex as [r' [Hr' Er]]. apply Nat.eqb_eq in Er.
        subst r'. apply positions_of_In in Hr'. apply (nth_error_nth _ _ 0%Z) in Hr'.
        contradiction.
      * intros Hc. apply Hcorrect in Hc. destruct Hc as [_ Hc].
        apply (nth_error_nth _ _ 0%Z) in Hc. contradiction.
    + intros r Hr. destruct (in_dec Nat.eq_dec r correct) as [Hc|Hc].
      * left. apply Hin. exact Hc.
      * rewrite (Hout r Hc).
        destruct (existsb (Nat.eqb r) (positions_of (Z.of_nat label) s));
          [right; reflexivity|left; exact Hr].
    + intros u v Hu Hv.
      set (Q := assigned_voxels observed
                  (assign_all correct (Z.of_nat label) cleared) (Z.of_nat label)).
      assert (HQgrid : forall c, Q c -> In c (all_voxels sh)) by (intros c Hc; apply Hc).
      (* every voxel of the chosen component keeps the label *)
      assert (Hchosen : forall c, id_of s label c = a + 1 -> Q c).
      { intros c Ec.
        assert (Hc : In c (all_voxels sh)).
        { apply Hgrid. apply (@component_id_masked sh _ Hgrid c). rewrite Ec. lia. }
        split; [exact Hc|]. apply Hin. apply correct_of_spec.
        exists c. split; [exact Hc|]. split; [|exact Ec].
        pose proof (@region_at_range observed n Hseg c Hc). lia. }
      (* every voxel that keeps the label is joined to one of the chosen component *)
      assert (Hlink : forall x, Q x ->
                exists c, id_of s label c = a + 1 /\ reach sh Q x c).
      { intros x [Hx Ex]. pose proof (@region_at_range observed n Hseg x Hx) as Hrange.
        apply Hkept in Ex; [|lia]. apply correct_of_spec in Ex.
        destruct Ex as [c [Hc [Er Ek]]]. exists c. split; [exact Ek|].
        apply (@reach_mono sh (carries observed (region_at observed x))).
        - intros y [Hy Ey]. split; [exact Hy|].
          fold (region_at observed y) in Ey. rewrite Ey. apply Hin.
          apply correct_of_spec. exists c. split; [exact Hc|]. split; [|exact Ek].
          rewrite Er. rewrite Z2Nat.id by lia. reflexivity.
        - rewrite <- (Z2Nat.id (region_at observed x)) by lia.
          apply Hreg; [lia| |].
          + split; [exact Hx|]. fold (region_at observed x). lia.
          + split; [exact Hc|]. fold (region_at observed c). lia. }
      destruct (Hlink u Hu) as [cu [Ecu Hucu]]. destruct (Hlink v Hv) as [cv [Ecv Hvcv]].
      apply (@reach_trans sh Q u cu v); [exact Hucu|].
      apply (@reach_trans sh Q cu cv v); [|apply reach_sym; assumption].
      apply (@reach_within sh (fun c => mask_of s label c = true)).
      * intros x Hx. apply Hchosen.
        rewrite <- (@component_id_same sh _ Hgrid cu x Hx). exact Ecu.
      * replace (a + 1) with (S a) in Ecu, Ecv by lia.
        apply (@component_id_joined sh _ Hgrid cu cv a); assumption.
Qed.

(** Which super-regions keep the label: those whose voxels carry the
    chosen number in [potential_region_map]; the others of the label are
    set to [-1]. *)
Lemma detect_label_chosen (s : list Z) (label : nat) (mv : list F) (s' : list Z) :
  length s = n -> detect s label mv = Some s' ->
  (snd (potential_regions observed s label) = 1 /\ s' = s) \/
  (snd (potential_regions observed s label) <> 1 /\
   exists a,
     np_argmin (tl (component_costs observation observed mean_vertex std_vertex
                      mean_edge std_edge initial_weights s label mv)) = Some a /\
     forall r c, nth r s 0%Z = Z.of_nat label -> carries observed (Z.of_nat r) c ->
       nth r s' 0%Z
       = if (region_at (fst (potential_regions observed s label)) c =? Z.of_nat (a + 1))%Z
         then Z.of_nat label else (-1)%Z).
Proof.
  intros Hlen Hd.
  assert (Hgrid : forall c, mask_of s label c = true -> In c (all_voxels sh))
    by (intros c; apply (@mask_of_grid s label c Hlen)).
  assert (Hmask : forall c, mask_of s label c = true <->
                            assigned_voxels observed s (Z.of_nat label) c)
    by (intros c; apply (@solution_map_spec observed n Hseg s label c Hlen)).
  destruct (@detect_label_cases s label mv _ Hd) as [[Hone E]|[Hmany [a [Ea E]]]].
  { left. split; assumption. }
  right. split; [exact Hmany|]. exists a. split; [exact Ea|].
  intros r c Er [Hc Erc]. fold (region_at observed c) in Erc.
  destruct (@detection_writes s label (a + 1) Hlen ltac:(lia)) as [Hcorrect [Hin Hout]].
  cbv zeta in Hcorrect, Hin, Hout. rewrite <- E in Hin, Hout.
  assert (Hid : region_at (fst (potential_regions observed s label)) c
                = Z.of_nat (id_of s label c)).
  { unfold potential_regions, ndi_label, region_at. cbn [fst lm_shape lm_data].
    apply (@grid_get_voxels sh Z (fun c => Z.of_nat (id_of s label c)) c (-1)%Z Hc). }
  rewrite Hid.
  pose proof (@region_at_range observed n Hseg c Hc) as Hrange.
  assert (Hr : r < n) by lia.
  destruct (Z.of_nat (id_of s label c) =? Z.of_nat (a + 1))%Z eqn:Ek.
  - apply Z.eqb_eq in Ek. apply Hin. apply correct_of_spec.
    exists c. split; [exact Hc|]. split; [exact Erc|lia].
  - apply Z.eqb_neq in Ek. rewrite Hout.
    + replace (existsb (Nat.eqb r) (positions_of (Z.of_nat label) s)) with true; [reflexivity|].
      symmetry. apply existsb_exists. exists r. split; [|apply Nat.eqb_refl].
      apply positions_of_In. rewrite <- Er. apply nth_error_nth'. lia.
    + intros Hcr. apply correct_of_spec in Hcr. destruct Hcr as [c' [Hc' [Erc' Ek']]].
      apply Ek. rewrite <- Ek'. f_equal.
      apply (@component_id_same sh _ Hgrid c c').
      apply (@reach_mono sh (carries observed (Z.of_nat r))).
      * intros x [Hx Ex]. apply Hmask. split; [exact Hx|].
        fold (region_at observed x) in Ex. rewrite Ex, Nat2Z.id. exact Er.
      * apply Hreg; [exact Hr|split; assumption|split; assumption].
Qed.

End Detection.

(** ** Detection, repair and joining *)

Lemma one_component_ext (sh : nat * nat * nat) (P Q : voxel -> Prop) :
  (forall c, P c <-> Q c) -> one_component sh P -> one_component sh Q.
Proof.
  intros HPQ HP u v Hu Hv. apply (@reach_mono sh P Q); [intros c; apply HPQ|].
  apply HP; apply HPQ; assumption.
Qed.

Lemma set_nth_same {A} (i : nat) (l : list A) (d : A) : set_nth i (nth i l d) l = l.
Proof.
  revert i. induction l as [|x t IH]; intros [|i]; cbn [set_nth nth]; try reflexivity.
  rewrite IH. reflexivity.
Qed.

Lemma map_const_repeat {A B} (b : B) (l : list A) : map (fun _ => b) l = repeat b (length l).
Proof. induction l as [|x t IH]; cbn [map repeat length]; [reflexivity|]. rewrite IH. reflexivity. Qed.

Lemma map2_map_same {A B C} (f : B -> A -> C) (g : A -> B) (l : list A) :
  map2 f (map g l) l = map (fun x => f (g x) x) l.
Proof. induction l as [|x t IH]; cbn [map map2]; [reflexivity|]. rewrite IH. reflexivity. Qed.

Lemma combine_snoc {A B} (l : list A) (l' : list B) (x : A) (y : B) :
  length l = length l' -> combine (l ++ [x]) (l' ++ [y]) = combine l l' ++ [(x, y)].
Proof.
  revert l'. induction l as [|a l IH]; intros [|b l'] Hlen; cbn [length] in Hlen;
    try discriminate; cbn [app combine]; [reflexivity|].
  rewrite IH by lia. reflexivity.
Qed.

Lemma enumerate_app {A} (l : list A) (x : A) :
  enumerate (l ++ [x]) = enumerate l ++ [(length l, x)].
Proof.
  unfold enumerate. rewrite length_app. cbn [length]. rewrite Nat.add_1_r, seq_S.
  cbn [Nat.add]. apply combine_snoc. apply length_seq.
Qed.

Section Guarantee.
Context {F : Type} `{Num F}.
Variable observation : list F.
Variable observed : LabelMap.
Variable model_graph : SRG (F:=F).
Variables mean_vertex std_vertex mean_edge std_edge : list F.
Variables initial_weights vertex_weights : list F.
Variable graph_weights : F * F.
Variable n : nat.
Hypothesis Hseg : segmentation_ok observed n.
Hypothesis Hreg : regions_connected observed n.

Local Abbreviation sh := (lm_shape observed).
Local Abbreviation data := (lm_data observed).
Local Abbreviation K := (n_model model_graph).
Local Abbreviation labelled s label := (assigned_voxels observed s (Z.of_nat label)).

Lemma labelled_grid (s : list Z) (label : nat) (c : voxel) :
  labelled s label c -> In c (all_voxels sh).
Proof. intros Hc. apply Hc. Qed.

(** The detection, label after label. *)
Lemma detect_from_spec (mvs : list (list F)) :
  forall (label : nat) (s s1 : list Z),
    length s = n ->
    detect_from observation observed mean_vertex std_vertex mean_edge std_edge
                initial_weights label mvs s = Some s1 ->
    (forall l, l < label -> one_component sh (labelled s l)) ->
    length s1 = n /\
    forall l, l < label + length mvs -> one_component sh (labelled s1 l).
Proof.
  induction mvs as [|mv rest IH]; intros label s s1 Hlen Hd Hinv; cbn [detect_from] in Hd.
  - injection Hd as Hd. subst s1. split; [exact Hlen|].
    intros l Hl. apply Hinv. cbn [length] in Hl. lia.
  - destruct (detect_label observation observed mean_vertex std_vertex mean_edge std_edge
                initial_weights s label mv) as [s'|] eqn:Es; [|discriminate].
    destruct (@detect_label_spec F _ observation observed mean_vertex std_vertex mean_edge
                std_edge initial_weights n Hseg Hreg s label mv s' Hlen Es)
      as [Hlen' [Hother [Hsame Hone]]].
    destruct (IH (S label) s' s1 Hlen' Hd) as [Hlen1 Hinv1].
    + intros l Hl. destruct (Nat.eq_dec l label) as [E|E]; [subst l; exact Hone|].
      apply (@one_component_ext sh (labelled s l)); [|apply Hinv; lia].
      intros c. unfold assigned_voxels.
      set (r := Z.to_nat (region_at observed c)).
      destruct (Z.eq_dec (nth r s 0%Z) (Z.of_nat label)) as [El|El].
      * destruct (Hsame r El) as [E'|E']; rewrite El, E'; split; intros [Hc Hl']; lia.
      * rewrite (Hother r El). reflexivity.
    + split; [exact Hlen1|]. intros l Hl. apply Hinv1. cbn [length] in Hl. lia.
Qed.

(** The neighbours in the adjacency of the super-regions. *)
Lemma RAG_In (i m : nat) :
  In m (RAG observed i) ->
  exists u w, In u (all_voxels sh) /\ region_at observed u = Z.of_nat i /\
              In w (face_neighbours sh u) /\ m = Z.to_nat (region_at observed w).
Proof.
  unfold RAG. cbv zeta. intros Hm. apply nodup_In in Hm. apply in_flat_map in Hm.
  destruct Hm as [u [Hu Hm]]. fold (region_at observed u) in Hm.
  destruct (region_at observed u =? Z.of_nat i)%Z eqn:E; [|destruct Hm].
  apply Z.eqb_eq in E. apply in_map_iff in Hm. destruct Hm as [w [Ew Hw]].
  apply filter_In in Hw. destruct Hw as [Hw _].
  exists u, w. split; [exact Hu|]. split; [exact E|]. split; [exact Hw|].
  symmetry. exact Ew.
Qed.

Lemma try_repair_fst (joined : LabelMap) (i : nat) (current : Z * F) (p : Z) :
  let next := try_repair observation observed model_graph mean_vertex std_vertex
                mean_edge std_edge vertex_weights graph_weights joined i current p in
  fst next = fst current \/ fst next = p.
Proof.
  cbv zeta. unfold try_repair. destruct (p =? fst current)%Z; [left; reflexivity|].
  destruct (p =? -1)%Z; [left; reflexivity|]. cbv zeta.
  destruct (fltb _ _); [right|left]; reflexivity.
Qed.

Lemma try_repair_fold_fst (joined : LabelMap) (i : nat) (l : list Z) (current : Z * F) :
  let result := fold_left (try_repair observation observed model_graph mean_vertex
                             std_vertex mean_edge std_edge vertex_weights graph_weights
                             joined i) l current in
  fst result = fst current \/ In (fst result) l.
Proof.
  cbv zeta. revert current. induction l as [|p t IH]; intros current; cbn [fold_left];
    [left; reflexivity|].
  destruct (IH (try_repair observation observed model_graph mean_vertex std_vertex
                  mean_edge std_edge vertex_weights graph_weights joined i current p))
    as [E|E]; [|right; right; exact E].
  destruct (@try_repair_fst joined i current p) as [E'|E'].
  - left. congruence.
  - right. left. congruence.
Qed.

(** A super-region next to those of a label joins them. *)
Lemma adopt_neighbour_label (s : list Z) (i m label : nat) :
  length s = n -> i < n -> (nth i s 0 <= -1)%Z ->
  In m (RAG observed i) -> nth m s 0%Z = Z.of_nat label ->
  one_component sh (labelled s label) ->
  one_component sh (labelled (set_nth i (Z.of_nat label) s) label).
Proof.
  intros Hlen Hi Hneg Hm El Hone.
  set (Q := labelled (set_nth i (Z.of_nat label) s) label).
  destruct (@RAG_In i m Hm) as [u [w [Hu [Eu [Hw Em]]]]].
  destruct (@face_neighbours_grid sh u w Hu Hw) as [Hwg _].
  pose proof (@region_at_range observed n Hseg w Hwg) as Hrw.
  assert (HQ : forall c, Q c <-> labelled s label c \/ carries observed (Z.of_nat i) c).
  { intros c. unfold Q, assigned_voxels, carries. fold (region_at observed c).
    split.
    - intros [Hc E]. destruct (Z.eq_dec (region_at observed c) (Z.of_nat i)) as [Ec|Ec].
      + right. split; assumption.
      + left. split; [exact Hc|]. rewrite nth_set_nth_other in E; [exact E|].
        pose proof (@region_at_range observed n Hseg c Hc). lia.
    - intros [[Hc E]|[Hc E]]; (split; [exact Hc|]).
      + destruct (Nat.eq_dec i (Z.to_nat (region_at observed c))) as [Ec|Ec].
        * rewrite <- Ec. apply nth_set_nth_same. lia.
        * rewrite nth_set_nth_other by exact Ec. exact E.
      + rewrite E, Nat2Z.id. apply nth_set_nth_same. lia. }
  assert (Qw : labelled s label w).
  { split; [exact Hwg|]. rewrite <- Em. exact El. }
  assert (Hto : forall x, Q x -> reach sh Q x w).
  { intros x Hx. apply HQ in Hx. destruct Hx as [Hx|Hx].
    - apply (@reach_mono sh (labelled s label)); [intros c Hc; apply HQ; left; exact Hc|].
      apply Hone; assumption.
    - apply (@reach_step sh Q x u w); [|exact Hw|apply HQ; left; exact Qw].
      apply (@reach_mono sh (carries observed (Z.of_nat i)));
        [intros c Hc; apply HQ; right; exact Hc|].
      apply Hreg; [exact Hi|exact Hx|]. split; [exact Hu|exact Eu]. }
  intros x y Hx Hy. apply (@reach_trans sh Q x w y); [apply Hto; exact Hx|].
  apply reach_sym; [intros c Hc; apply Hc|]. apply Hto. exact Hy.
Qed.

(** The body of the repair keeps every label in one component. *)
Lemma repair_vertex_connected (joined : LabelMap) (s : list Z) (i : nat) :
  length s = n ->
  (forall l, l < K -> one_component sh (labelled s l)) ->
  let s' := repair_vertex observation observed model_graph mean_vertex std_vertex
              mean_edge std_edge vertex_weights graph_weights joined s i in
  length s' = n /\ forall l, l < K -> one_component sh (labelled s' l).
Proof.
  intros Hlen Hinv. cbv zeta. unfold repair_vertex.
  destruct (-1 <? nth i s 0)%Z eqn:E; [split; assumption|].
  apply Z.ltb_ge in E. cbv zeta.
  set (result := fold_left _ _ _).
  split; [rewrite set_nth_length; exact Hlen|].
  assert (Hi : i < n).
  { destruct (Nat.lt_ge_cases i (length s)) as [Hlt|Hge]; [lia|].
    rewrite nth_overflow in E by exact Hge. lia. }
  destruct (@try_repair_fold_fst joined i (potential_predictions observed s i)
              (nth i s 0%Z, finf)) as [Ef|Ef]; fold result in Ef; cbn [fst] in Ef.
  - rewrite Ef, set_nth_same. exact Hinv.
  - unfold potential_predictions in Ef. apply nodup_In in Ef. apply in_map_iff in Ef.
    destruct Ef as [m [Em Hm]]. intros l Hl.
    destruct (Z.eq_dec (fst result) (Z.of_nat l)) as [Ep|Ep].
    + rewrite Ep. apply (@adopt_neighbour_label s i m l); try assumption; [congruence|].
      apply Hinv. exact Hl.
    + apply (@one_component_ext sh (labelled s l)); [|apply Hinv; exact Hl].
      intros c. unfold assigned_voxels.
      destruct (Nat.eq_dec i (Z.to_nat (region_at observed c))) as [Ec|Ec].
      * rewrite <- Ec. rewrite nth_set_nth_same by lia.
        split; intros [Hc Hv]; exfalso; [lia|congruence].
      * rewrite nth_set_nth_other by exact Ec. reflexivity.
Qed.

Lemma repair_pass_connected (costs : list F) (s : list Z) :
  length s = n ->
  (forall l, l < K -> one_component sh (labelled s l)) ->
  let s' := repair_pass observation observed model_graph mean_vertex std_vertex
              mean_edge std_edge vertex_weights graph_weights costs s in
  length s' = n /\ forall l, l < K -> one_component sh (labelled s' l).
Proof.
  intros Hlen Hinv. cbv zeta. unfold repair_pass. cbv zeta.
  generalize (join_by_label observed model_graph s) as joined.
  generalize (map fst (sorted_desc (enumerate costs))) as order.
  intros order joined. revert s Hlen Hinv.
  induction order as [|i rest IH]; intros s Hlen Hinv; cbn [fold_left]; [split; assumption|].
  destruct (@repair_vertex_connected joined s i Hlen Hinv) as [Hlen' Hinv'].
  apply IH; assumption.
Qed.

Lemma contiguity_repair_connected (fuel : nat) (costs : list F) :
  forall s s', length s = n ->
    (forall l, l < K -> one_component sh (labelled s l)) ->
    contiguity_repair observation observed model_graph mean_vertex std_vertex
      mean_edge std_edge vertex_weights graph_weights fuel costs s = Some s' ->
    length s' = n /\ forall l, l < K -> one_component sh (labelled s' l).
Proof.
  induction fuel as [|fuel IH]; intros s s' Hlen Hinv Hr; cbn [contiguity_repair] in Hr;
    destruct (mem_Z (-1) s).
  - discriminate.
  - injection Hr as Hr. subst s'. split; assumption.
  - destruct (@repair_pass_connected costs s Hlen Hinv) as [Hlen' Hinv'].
    exact (IH _ _ Hlen' Hinv' Hr).
  - injection Hr as Hr. subst s'. split; assumption.
Qed.

(** The joined labelmap of step 6 gives every voxel the label of its
    super-region. *)
Lemma join_by_element_data (s : list Z) :
  lm_data (join_by_element observed s)
  = map (fun o => if ((0 <=? o) && (o <? Z.of_nat (length s)))%Z
                  then nth (Z.to_nat o) s 0%Z else 0%Z) data.
Proof.
  unfold join_by_element. cbn [lm_data]. unfold zeros_like_observed.
  induction s as [|v s IH] using rev_ind.
  - cbn [enumerate length seq combine fold_left]. rewrite <- map_const_repeat.
    apply map_ext. intros o. destruct (0 <=? o)%Z eqn:E; cbn [andb]; [|reflexivity].
    destruct (o <? Z.of_nat 0)%Z eqn:E'; [|reflexivity].
    apply Z.leb_le in E. apply Z.ltb_lt in E'. cbn in E'. lia.
  - rewrite enumerate_app, fold_left_app. cbn [fold_left fst snd]. rewrite IH.
    unfold assign_region. rewrite map2_map_same. apply map_ext. intros o.
    rewrite length_app. cbn [length].
    destruct (o =? Z.of_nat (length s))%Z eqn:E.
    + apply Z.eqb_eq in E. subst o.
      replace ((0 <=? Z.of_nat (length s)) && (Z.of_nat (length s) <? Z.of_nat (length s + 1)))%Z
        with true by (symmetry; apply andb_true_iff; split; [apply Z.leb_le|apply Z.ltb_lt]; lia).
      rewrite Nat2Z.id, nth_middle. reflexivity.
    + apply Z.eqb_neq in E.
      destruct (0 <=? o)%Z eqn:E0; cbn [andb]; [|reflexivity]. apply Z.leb_le in E0.
      destruct (o <? Z.of_nat (length s))%Z eqn:E1.
      * apply Z.ltb_lt in E1.
        replace (o <? Z.of_nat (length s + 1))%Z with true
          by (symmetry; apply Z.ltb_lt; lia).
        rewrite app_nth1 by lia. reflexivity.
      * apply Z.ltb_ge in E1.
        replace (o <? Z.of_nat (length s + 1))%Z with false
          by (symmetry; apply Z.ltb_ge; lia).
        reflexivity.
Qed.

Lemma join_by_element_carries (s : list Z) (l : Z) (c : voxel) :
  length s = n ->
  (carries (join_by_element observed s) l c <-> assigned_voxels observed s l c).
Proof.
  intros Hlen. unfold carries, assigned_voxels.
  change (lm_shape (join_by_element observed s)) with sh.
  rewrite join_by_element_data. split; intros [Hc E]; (split; [exact Hc|]).
  - rewrite (@grid_get_map sh _ _ _ data c (-1)%Z (-1)%Z (proj1 Hseg) Hc) in E.
    fold (region_at observed c) in E.
    pose proof (@region_at_range observed n Hseg c Hc) as Hr.
    replace ((0 <=? region_at observed c) && (region_at observed c <? Z.of_nat (length s)))%Z
      with true in E
      by (symmetry; apply andb_true_iff; split; [apply Z.leb_le|apply Z.ltb_lt]; lia).
    exact E.
  - rewrite (@grid_get_map sh _ _ _ data c (-1)%Z (-1)%Z (proj1 Hseg) Hc).
    fold (region_at observed c).
    pose proof (@region_at_range observed n Hseg c Hc) as Hr.
    replace ((0 <=? region_at observed c) && (region_at observed c <? Z.of_nat (length s)))%Z
      with true
      by (symmetry; apply andb_true_iff; split; [apply Z.leb_le|apply Z.ltb_lt]; lia).
    exact E.
Qed.

(** After the detection and the repair, every model label is one
    component of the joined labelmap, or none. *)
Lemma contiguity_connected (fuel : nat) (costs : list F) (s0 s1 s2 : list Z) :
  length s0 = n ->
  contiguity_detect observation observed model_graph mean_vertex std_vertex mean_edge
                    std_edge initial_weights s0 = Some s1 ->
  contiguity_repair observation observed model_graph mean_vertex std_vertex
    mean_edge std_edge vertex_weights graph_weights fuel costs s1 = Some s2 ->
  forall label, label < K ->
    one_component sh (carries (join_by_element observed s2) (Z.of_nat label)).
Proof.
  intros Hlen Hd Hr label Hl.
  destruct (@detect_from_spec (vertices model_graph) 0 s0 s1 Hlen Hd) as [Hlen1 Hinv1];
    [intros l Hl0; lia|].
  destruct (@contiguity_repair_connected fuel costs s1 s2 Hlen1 Hinv1 Hr) as [Hlen2 Hinv2].
  apply (@one_component_ext sh (labelled s2 label)); [|apply Hinv2; exact Hl].
  intros c. symmetry. apply join_by_element_carries. exact Hlen2.
Qed.

End Guarantee.

(** ** The numbers of the components *)

Lemma component_id_app_l (comps rest : list (list voxel)) (c : voxel) :
  component_id comps c <> 0 -> component_id (comps ++ rest) c = component_id comps c.
Proof.
  induction comps as [|comp comps IH]; cbn [component_id app]; [contradiction|].
  destruct (mem_voxel c comp); [reflexivity|]. intros Hc.
  destruct (component_id comps c) as [|k] eqn:E; [contradiction|].
  rewrite IH by discriminate. reflexivity.
Qed.

Lemma component_id_app_r (comps : list (list voxel)) (comp : list voxel) (c : voxel) :
  component_id comps c = 0 -> In c comp ->
  component_id (comps ++ [comp]) c = S (length comps).
Proof.
  intros Hc Hin. induction comps as [|comp' comps IH]; cbn [component_id app length].
  - rewrite (proj2 (mem_voxel_In c comp) Hin). reflexivity.
  - cbn [component_id] in Hc. destruct (mem_voxel c comp'); [discriminate|].
    destruct (component_id comps c) as [|k] eqn:E; [|discriminate].
    rewrite IH by reflexivity. reflexivity.
Qed.

Lemma component_id_zero (comps : list (list voxel)) (c : voxel) :
  existsb (mem_voxel c) comps = false -> component_id comps c = 0.
Proof.
  induction comps as [|comp comps IH]; cbn [existsb component_id]; [reflexivity|].
  intros E. apply orb_false_iff in E. destruct E as [E1 E2]. rewrite E1, (IH E2). reflexivity.
Qed.

Section Numbers.
Variable sh : nat * nat * nat.
Variable mask : voxel -> bool.
Hypothesis mask_grid : forall c, mask c = true -> In c (all_voxels sh).

Local Abbreviation masked := (fun c => mask c = true).
Local Abbreviation numbered comps :=
  (forall j, j < length comps ->
     exists seed, In seed (all_voxels sh) /\ component_id comps seed = S j).

(** Every number from 1 to the count is carried by a voxel. *)
Lemma components_numbered : numbered (components sh mask).
Proof.
  unfold components.
  assert (Hgen : forall l comps, (forall c, In c l -> In c (all_voxels sh)) ->
            numbered comps -> numbered (fold_left (add_component sh mask) l comps)).
  { induction l as [|c l IH]; intros comps Hl Hn; cbn [fold_left]; [exact Hn|].
    apply IH; [intros x Hx; apply Hl; right; exact Hx|].
    unfold add_component.
    destruct (mask c && negb (existsb (mem_voxel c) comps)) eqn:E; [|exact Hn].
    apply andb_true_iff in E. destruct E as [Hm E]. apply negb_true_iff in E.
    intros j Hj. rewrite length_app in Hj. cbn [length] in Hj.
    destruct (Nat.lt_ge_cases j (length comps)) as [Hlt|Hge].
    - destruct (Hn j Hlt) as [seed [Hs Es]]. exists seed. split; [exact Hs|].
      rewrite component_id_app_l; [exact Es|]. rewrite Es. discriminate.
    - assert (j = length comps) by lia. subst j. exists c.
      split; [apply Hl; left; reflexivity|].
      apply component_id_app_r; [apply component_id_zero; exact E|].
      apply (@flood_spec sh mask mask_grid c Hm). }
  apply Hgen; [auto|]. intros j Hj. cbn [length] in Hj. lia.
Qed.

(** The grid itself is connected. *)
Lemma grid_connected :
  (forall c, In c (all_voxels sh) -> mask c = true) ->
  forall c, In c (all_voxels sh) -> reach sh masked (0, 0, 0) c.
Proof.
  intros Hall. destruct sh as [[nx ny] nz] eqn:Esh.
  assert (Hx : forall x, x < nx -> 0 < ny -> 0 < nz -> reach (nx, ny, nz) masked (0, 0, 0) (x, 0, 0)).
  { induction x as [|x IH]; intros Hlt Hy Hz.
    - apply reach_refl. apply Hall. apply all_voxels_In. lia.
    - apply (@reach_step (nx, ny, nz) masked _ (x, 0, 0)); [apply IH; lia| |].
      + apply face_neighbours_In. right; left. split; [apply Nat.ltb_lt; lia|reflexivity].
      + apply Hall. apply all_voxels_In. lia. }
  assert (Hy : forall x y, x < nx -> y < ny -> 0 < nz ->
                 reach (nx, ny, nz) masked (0, 0, 0) (x, y, 0)).
  { intros x. induction y as [|y IH]; intros Hlx Hly Hz; [apply Hx; lia|].
    apply (@reach_step (nx, ny, nz) masked _ (x, y, 0)); [apply IH; lia| |].
    - apply face_neighbours_In. do 3 right; left.
      split; [apply Nat.ltb_lt; lia|reflexivity].
    - apply Hall. apply all_voxels_In. lia. }
  intros [[x y] z] Hc. apply all_voxels_In in Hc.
  assert (Hz : forall z, z < nz -> reach (nx, ny, nz) masked (0, 0, 0) (x, y, z)).
  { induction z0 as [|z0 IH]; intros Hlz; [apply Hy; lia|].
    apply (@reach_step (nx, ny, nz) masked _ (x, y, z0)); [apply IH; lia| |].
    - apply face_neighbours_In. do 5 right.
      split; [apply Nat.ltb_lt; lia|reflexivity].
    - apply Hall. apply all_voxels_In. lia. }
  apply Hz. lia.
Qed.

(** Several components leave a voxel of the grid outside the mask. *)
Lemma several_components_background :
  2 <= length (components sh mask) ->
  exists c, In c (all_voxels sh) /\ component_id (components sh mask) c = 0.
Proof.
  intros Hlen.
  destruct (forallb mask (all_voxels sh)) eqn:E.
  - exfalso. rewrite forallb_forall in E.
    destruct (@components_numbered 0 ltac:(lia)) as [s1 [H1 E1]].
    destruct (@components_numbered 1 ltac:(lia)) as [s2 [H2 E2]].
    assert (Hsame : component_id (components sh mask) s1
                    = component_id (components sh mask) s2).
    { apply (@component_id_same sh mask mask_grid).
      apply (@reach_trans sh masked s1 (0, 0, 0) s2); [|apply grid_connected; assumption].
      apply reach_sym; [exact mask_grid|]. apply grid_connected; assumption. }
    congruence.
  - assert (Hex : exists c, In c (all_voxels sh) /\ mask c = false).
    { clear -E. induction (all_voxels sh) as [|x t IH]; cbn [forallb] in E; [discriminate|].
      apply andb_false_iff in E. destruct E as [E|E].
      - exists x. split; [left; reflexivity|exact E].
      - destruct (IH E) as [c [Hc Hm]]. exists c. split; [right; exact Hc|exact Hm]. }
    destruct Hex as [c [Hc Hm]]. exists c. split; [exact Hc|].
    destruct (component_id (components sh mask) c) as [|k] eqn:Ek; [reflexivity|].
    exfalso. assert (mask c = true); [|congruence].
    apply (@component_id_masked sh mask mask_grid c). rewrite Ek. discriminate.
Qed.

End Numbers.

(** ** Strictly sorted lists *)

Lemma sorted_same_elements (l1 l2 : list Z) :
  StronglySorted Z.lt l1 -> StronglySorted Z.lt l2 ->
  (forall x, In x l1 <-> In x l2) -> l1 = l2.
Proof.
  intros H1. revert l2. induction H1 as [|a l1 Hs1 IH Ha]; intros l2 H2 Hin.
  - destruct l2 as [|b l2]; [reflexivity|]. exfalso. apply (Hin b). left. reflexivity.
  - inversion H2 as [|b l2' Hs2 Hb]; subst.
    + exfalso. apply (Hin a). left. reflexivity.
    + rewrite Forall_forall in Ha, Hb.
      assert (a = b).
      { assert (Hab : In a (b :: l2')) by (apply Hin; left; reflexivity).
        assert (Hba : In b (a :: l1)) by (apply Hin; left; reflexivity).
        destruct Hab as [E|Hab]; [symmetry; exact E|].
        destruct Hba as [E|Hba]; [exact E|].
        specialize (Ha b Hba). specialize (Hb a Hab). lia. }
      subst b. f_equal. apply IH; [exact Hs2|].
      intros x. split; intros Hx.
      * assert (Hx' : In x (a :: l2')) by (apply Hin; right; exact Hx).
        destruct Hx' as [E|Hx']; [|exact Hx']. subst x. specialize (Ha a Hx). lia.
      * assert (Hx' : In x (a :: l1)) by (apply Hin; right; exact Hx).
        destruct Hx' as [E|Hx']; [|exact Hx']. subst x. specialize (Hb a Hx). lia.
Qed.

Lemma seq_sorted (a m : nat) : StronglySorted Z.lt (map Z.of_nat (seq a m)).
Proof.
  revert a. induction m as [|m IH]; intros a; cbn [seq map]; constructor; [apply IH|].
  apply Forall_forall. intros x Hx. apply in_map_iff in Hx. destruct Hx as [k [E Hk]].
  apply in_seq in Hk. lia.
Qed.

(** ** The array of the component costs *)

Section CostRows.
Context {F : Type} `{Num F}.

Lemma build_graph_vertices_plain (volume : list F) (labelmap : LabelMap) (add_edges : bool) :
  vertices (build_graph volume labelmap add_edges None)
  = column_stack (measure_center_of_mass labelmap (np_unique (lm_data labelmap)))
                 (region_intensities volume labelmap)
                 (map of_Z (unique_counts (lm_data labelmap))).
Proof. unfold build_graph. destruct add_edges; reflexivity. Qed.

Lemma build_graph_vertices_count (volume : list F) (labelmap : LabelMap) (add_edges : bool) :
  length (vertices (build_graph volume labelmap add_edges None))
  = length (np_unique (lm_data labelmap)).
Proof.
  rewrite build_graph_vertices_plain. unfold column_stack.
  rewrite map2_length, length_combine. unfold measure_center_of_mass, region_intensities,
    unique_counts.
  rewrite !length_map, length_seq. lia.
Qed.

Lemma normalized_vertices_length (mean_vertex std_vertex mean_edge std_edge : list F)
    (g : SRG (F:=F)) :
  length (vertices (normalized mean_vertex std_vertex mean_edge std_edge g))
  = length (vertices g).
Proof.
  unfold normalized, normalize_graph. cbv zeta.
  destruct (0 <? length (edges g)); cbn [n_graph vertices]; apply standardize_length.
Qed.

Lemma compute_initial_vertex_cost_length (v1 : list (list F)) (mv w : list F) :
  length (compute_initial_vertex_cost v1 (repeat mv (length v1)) (Some w)) = length v1.
Proof.
  unfold compute_initial_vertex_cost, linalg_norm, mmul_row, msub, drop_last_col.
  rewrite !length_map, map2_length, !length_map, repeat_length. lia.
Qed.

End CostRows.

Section Rows.
Context {F : Type} `{Num F}.
Variable observation : list F.
Variable observed : LabelMap.
Variables mean_vertex std_vertex mean_edge std_edge initial_weights : list F.
Variable n : nat.
Hypothesis Hseg : segmentation_ok observed n.

Local Abbreviation sh := (lm_shape observed).

(** With several components, [potential_region_map] holds the numbers from
    0, the background, to the count, and [costs] one entry for each. *)
Lemma component_costs_rows (s : list Z) (label : nat) (mv : list F) :
  length s = n ->
  2 <= snd (potential_regions observed s label) ->
  np_unique (lm_data (fst (potential_regions observed s label)))
  = map Z.of_nat (seq 0 (S (snd (potential_regions observed s label)))) /\
  length (component_costs observation observed mean_vertex std_vertex mean_edge std_edge
                          initial_weights s label mv)
  = S (snd (potential_regions observed s label)).
Proof.
  intros Hlen Hcount.
  assert (Hlabels : np_unique (lm_data (fst (potential_regions observed s label)))
                    = map Z.of_nat (seq 0 (S (snd (potential_regions observed s label))))).
  { revert Hcount. unfold potential_regions, ndi_label. cbn [fst snd lm_data].
    set (mask := fun c => grid_get sh (solution_map observed s label) c false).
    intros Hcount.
    assert (Hgrid : forall c, mask c = true -> In c (all_voxels sh)).
    { intros c Hc. apply (proj1 (@solution_map_spec observed n Hseg s label c Hlen)) in Hc.
      apply Hc. }
    apply sorted_same_elements; [apply np_unique_sorted|apply seq_sorted|].
    intros x. rewrite np_unique_In, !in_map_iff. split.
    - intros [c [E Hc]]. exists (component_id (components sh mask) c).
      split; [exact E|]. apply in_seq.
      pose proof (component_id_le (components sh mask) c). lia.
    - intros [k [E Hk]]. apply in_seq in Hk. subst x.
      destruct k as [|j].
      + destruct (@several_components_background sh mask Hgrid Hcount) as [c [Hc Ec]].
        exists c. split; [rewrite Ec; reflexivity|exact Hc].
      + destruct (@components_numbered sh mask Hgrid j ltac:(lia)) as [seed [Hs Es]].
        exists seed. split; [rewrite Es; reflexivity|exact Hs]. }
  split; [exact Hlabels|].
  unfold component_costs. cbv zeta.
  rewrite compute_initial_vertex_cost_length, normalized_vertices_length,
    build_graph_vertices_count, Hlabels, length_map, length_seq.
  reflexivity.
Qed.

(** Without a component, [costs] has at most the entry of the background. *)
Lemma component_costs_none (s : list Z) (label : nat) (mv : list F) :
  snd (potential_regions observed s label) = 0 ->
  length (component_costs observation observed mean_vertex std_vertex mean_edge std_edge
                          initial_weights s label mv) <= 1.
Proof.
  intros Hcount. unfold component_costs. cbv zeta.
  rewrite compute_initial_vertex_cost_length, normalized_vertices_length,
    build_graph_vertices_count.
  revert Hcount. unfold potential_regions, ndi_label. cbn [fst snd lm_data].
  set (mask := fun c => grid_get sh (solution_map observed s label) c false).
  intros Hcount.
  pose proof (np_unique_sorted
                (map (fun c => Z.of_nat (component_id (components sh mask) c))
                     (all_voxels sh))) as Hsorted.
  assert (Hzero : forall x,
            In x (np_unique (map (fun c => Z.of_nat (component_id (components sh mask) c))
                                 (all_voxels sh))) -> x = 0%Z).
  { intros x Hx. apply (proj1 (np_unique_In _ _)) in Hx. apply in_map_iff in Hx.
    destruct Hx as [c [E _]].
    pose proof (component_id_le (components sh mask) c). lia. }
  destruct (np_unique _) as [|a [|b l]]; cbn [length]; try lia.
  exfalso. inversion Hsorted as [|? ? _ Hab]. subst.
  inversion Hab as [|? ? Hlt _]. subst.
  rewrite (Hzero a), (Hzero b) in Hlt by (cbn [In]; auto). lia.
Qed.

End Rows.

Lemma np_argmin_index (a : list float) (j : nat) : np_argmin a = Some j -> j < length a.
Proof.
  unfold np_argmin. destruct (min_scan a) as [[j' m]|] eqn:E; [|discriminate].
  cbn [option_map fst]. intros Hj. injection Hj as Hj. subst j'.
  apply (min_scan_value _ E).
Qed.

(** ** The arg-min on binary64 without NaN *)

Lemma argmin_scan_least (a : list float) (mp : float) (mi i : nat) :
  not_nan mp -> Forall not_nan a ->
  fleb (snd (argmin_scan mp mi i a)) mp = true /\
  Forall (fun x => fleb (snd (argmin_scan mp mi i a)) x = true) a.
Proof.
  revert mp mi i. induction a as [|x a IH]; intros mp mi i Hmp Ha; cbn [argmin_scan].
  - split; [apply fleb_refl; exact Hmp|constructor].
  - inversion Ha as [|? ? Hx Ha']. subst.
    destruct (fleb mp x) eqn:Hle; cbn [negb].
    + destruct (IH mp mi (S i) Hmp Ha') as [H1 H2].
      split; [exact H1|]. constructor; [|exact H2].
      exact (@fleb_trans _ _ _ H1 Hle).
    + unfold not_nan in Hx. rewrite Hx.
      destruct (IH x i (S i) Hx Ha') as [H1 H2].
      split; [|constructor; assumption].
      apply (@fleb_trans _ x _ H1). apply fltb_fleb.
      apply not_fleb_fltb; assumption.
Qed.

Lemma np_argmin_least (a : list float) (j : nat) :
  Forall not_nan a -> np_argmin a = Some j ->
  j < length a /\ Forall (fun x => fleb (nth j a 0%float) x = true) a.
Proof.
  intros Ha Hj. unfold np_argmin in Hj.
  destruct (min_scan a) as [[j' m]|] eqn:E; [|discriminate].
  cbn [option_map fst] in Hj. injection Hj as Hj. subst j'.
  destruct (min_scan_value _ E) as [Hlt Em]. split; [exact Hlt|]. rewrite <- Em.
  destruct a as [|x a]; [constructor|]. unfold min_scan in E.
  inversion Ha as [|? ? Hx Ha']. subst. unfold not_nan in Hx. rewrite Hx in E.
  injection E as E. destruct (argmin_scan_least 0 1 Hx Ha') as [H1 H2]. rewrite E in H1, H2.
  cbn [snd] in H1, H2. constructor; assumption.
Qed.

(** ** The guarantee *)

(** The detection of one label: what [costs] holds, which component is
    chosen and which super-regions keep the label. *)
Lemma detect_label_keeps_cheapest (observation : list float) (observed : LabelMap)
    (mean_vertex std_vertex mean_edge std_edge initial_weights : list float) (n : nat) :
  segmentation_ok observed n -> regions_connected observed n ->
  forall s label model_vertex s',
     length s = n ->
     detect_label observation observed mean_vertex std_vertex mean_edge std_edge
                  initial_weights s label model_vertex = Some s' ->
     let costs := component_costs observation observed mean_vertex std_vertex mean_edge
                                  std_edge initial_weights s label model_vertex in
     let potential_region_map := fst (potential_regions observed s label) in
     let potential_region_count := snd (potential_regions observed s label) in
     (potential_region_count = 1 /\ s' = s) \/
     (2 <= potential_region_count /\
      np_unique (lm_data potential_region_map)
      = map Z.of_nat (seq 0 (S potential_region_count)) /\
      length costs = S potential_region_count /\
      exists a,
        np_argmin (tl costs) = Some a /\ a < potential_region_count /\
        (Forall not_nan (tl costs) ->
         Forall (fun x => fleb (nth a (tl costs) 0%float) x = true) (tl costs)) /\
        forall r c, nth r s 0%Z = Z.of_nat label -> carries observed (Z.of_nat r) c ->
          nth r s' 0%Z
          = if (region_at potential_region_map c =? Z.of_nat (a + 1))%Z
            then Z.of_nat label else (-1)%Z).
Proof.
  intros Hseg Hreg s label mv s' Hlen Hd. cbv zeta.
  destruct (@detect_label_chosen float _ observation observed mean_vertex std_vertex
              mean_edge std_edge initial_weights n Hseg Hreg s label mv s' Hlen Hd)
    as [Hone|[Hmany [a [Ea Hkeep]]]]; [left; exact Hone|].
  right. pose proof (np_argmin_index _ Ea) as Ha.
  assert (Hcount : 2 <= snd (potential_regions observed s label)).
  { destruct (snd (potential_regions observed s label)) as [|[|k]] eqn:Ec;
      [|contradiction|lia].
    pose proof (@component_costs_none float _ observation observed mean_vertex std_vertex
                  mean_edge std_edge initial_weights s label mv Ec) as Hle.
    destruct (component_costs observation observed mean_vertex std_vertex mean_edge
                std_edge initial_weights s label mv) as [|x [|y l]];
      cbn [tl length] in Ha, Hle; lia. }
  destruct (@component_costs_rows float _ observation observed mean_vertex std_vertex
              mean_edge std_edge initial_weights n Hseg s label mv Hlen Hcount)
    as [Hlabels Hrows].
  split; [exact Hcount|]. split; [exact Hlabels|]. split; [exact Hrows|].
  exists a. split; [exact Ea|]. split.
  - destruct (component_costs observation observed mean_vertex std_vertex mean_edge
                std_edge initial_weights s label mv) as [|x l];
      cbn [tl length] in Ha, Hrows; lia.
  - split; [|exact Hkeep]. intros Hnan. exact (proj2 (np_argmin_least Hnan Ea)).
Qed.

(** ** The detection, one label at a time *)

Section DetectionLoop.
Context {F : Type} `{Num F}.
Variable observation : list F.
Variable observed : LabelMap.
Variables mean_vertex std_vertex mean_edge std_edge initial_weights : list F.

Local Abbreviation detect_run :=
  (detect_from observation observed mean_vertex std_vertex mean_edge std_edge
               initial_weights).
Local Abbreviation detect_one :=
  (detect_label observation observed mean_vertex std_vertex mean_edge std_edge
                initial_weights).

Lemma detect_from_app (a b : list (list F)) :
  forall (label : nat) (s : list Z),
    detect_run label (a ++ b) s
    = match detect_run label a s with
      | Some t => detect_run (label + length a) b t
      | None => None
      end.
Proof.
  induction a as [|mv a IH]; intros label s; cbn [app detect_from length].
  - rewrite Nat.add_0_r. reflexivity.
  - destruct (detect_one s label mv) as [t|]; [|reflexivity].
    rewrite IH. replace (S label + length a) with (label + S (length a)) by lia.
    reflexivity.
Qed.

(** A detection that returns has passed every label: the solution the loop
    holds when it reaches [label], and the one it holds after it. *)
Lemma detect_from_reaches (mvs : list (list F)) (label : nat) (s0 s1 : list Z) :
  detect_run 0 mvs s0 = Some s1 -> label < length mvs ->
  exists s s',
    detect_run 0 (firstn label mvs) s0 = Some s
    /\ detect_one s label (nth label mvs []) = Some s'
    /\ detect_run 0 (firstn (S label) mvs) s0 = Some s'.
Proof.
  intros Hd Hl.
  assert (Hsplit : mvs = firstn label mvs ++ nth label mvs [] :: skipn (S label) mvs).
  { rewrite <- (firstn_skipn label mvs) at 1. f_equal.
    clear Hd. revert label Hl. induction mvs as [|mv mvs IH]; intros label Hl.
    - cbn [length] in Hl. lia.
    - destruct label as [|label]; [reflexivity|].
      cbn [skipn nth]. apply IH. cbn [length] in Hl. lia. }
  assert (Hfirst : length (firstn label mvs) = label)
    by (rewrite length_firstn; lia).
  rewrite Hsplit, detect_from_app, Hfirst in Hd. cbn [Nat.add] in Hd.
  destruct (detect_run 0 (firstn label mvs) s0) as [s|] eqn:Es; [|discriminate].
  cbn [detect_from] in Hd.
  destruct (detect_one s label (nth label mvs [])) as [s'|] eqn:Es'; [|discriminate].
  exists s, s'. split; [reflexivity|]. split; [exact Es'|].
  assert (Hnext : firstn (S label) mvs = firstn label mvs ++ [nth label mvs []]).
  { clear Hd Hsplit Hfirst Es Es'. revert label Hl.
    induction mvs as [|mv mvs IH]; intros label Hl.
    - cbn [length] in Hl. lia.
    - destruct label as [|label]; [reflexivity|].
      cbn [firstn nth app]. rewrite <- IH by (cbn [length] in Hl; lia). reflexivity. }
  rewrite Hnext, detect_from_app, Es, Hfirst. cbn [Nat.add detect_from].
  rewrite Es'. reflexivity.
Qed.

End DetectionLoop.

(** C2, amended. With an over-segmentation into the spatially connected
    super-regions [0 .. n-1]: (1) a detection that returns has gone through
    every model label, from the solution [s] it holds when it reaches the
    label to the solution [s'] it holds after it. When it meets a label of
    several components, [costs] holds the initial vertex cost
    ([compute_initial_vertex_cost]: the size left out, under
    [initial_weights]) against the vertex of that label in the model graph,
    of the background first and then of each component, in the order of
    their numbers; the detection keeps the label on the super-regions of
    the component whose number is one more than the arg-min of [costs[1:]],
    a cost no other component is below when none of these costs is NaN, and
    sets the other super-regions of the label to [-1]. (2) Once the
    detection has returned and the repair loop has ended, the voxels that
    carry a model label in the joined labelmap are one spatially connected
    component, or none. *)
Theorem contiguity_guarantee (observation : list float) (observed : LabelMap)
    (model_graph : SRG (F:=float))
    (mean_vertex std_vertex mean_edge std_edge initial_weights vertex_weights : list float)
    (graph_weights : float * float) (n : nat) :
  segmentation_ok observed n -> regions_connected observed n ->
  (forall s0 s1 label,
     length s0 = n ->
     contiguity_detect observation observed model_graph mean_vertex std_vertex mean_edge
                       std_edge initial_weights s0 = Some s1 ->
     label < n_model model_graph ->
     exists s s',
       detect_from observation observed mean_vertex std_vertex mean_edge std_edge
                   initial_weights 0 (firstn label (vertices model_graph)) s0 = Some s
       /\ detect_from observation observed mean_vertex std_vertex mean_edge std_edge
                      initial_weights 0 (firstn (S label) (vertices model_graph)) s0
          = Some s'
       /\ let model_vertex := nth label (vertices model_graph) [] in
          let potential_region_map := fst (potential_regions observed s label) in
          let potential_region_count := snd (potential_regions observed s label) in
          let potential_region_super_graph :=
            normalized mean_vertex std_vertex mean_edge std_edge
                       (build_graph observation potential_region_map false None) in
          let costs :=
            compute_initial_vertex_cost
              (vertices potential_region_super_graph)
              (repeat model_vertex (length (vertices potential_region_super_graph)))
              (Some initial_weights) in
          (potential_region_count = 1 /\ s' = s) \/
          (2 <= potential_region_count /\
           np_unique (lm_data potential_region_map)
           = map Z.of_nat (seq 0 (S potential_region_count)) /\
           length costs = S potential_region_count /\
           exists a,
             np_argmin (tl costs) = Some a /\ a < potential_region_count /\
             (Forall not_nan (tl costs) ->
              Forall (fun x => fleb (nth a (tl costs) 0%float) x = true) (tl costs)) /\
             forall r c, nth r s 0%Z = Z.of_nat label -> carries observed (Z.of_nat r) c ->
               nth r s' 0%Z
               = if (region_at potential_region_map c =? Z.of_nat (a + 1))%Z
                 then Z.of_nat label else (-1)%Z)) /\
  (forall fuel solution_costs s0 s1 s2,
     length s0 = n ->
     contiguity_detect observation observed model_graph mean_vertex std_vertex mean_edge
                       std_edge initial_weights s0 = Some s1 ->
     contiguity_repair observation observed model_graph mean_vertex std_vertex mean_edge
                       std_edge vertex_weights graph_weights fuel solution_costs s1
     = Some s2 ->
     forall label, label < n_model model_graph ->
       one_component (lm_shape observed)
                     (carries (join_by_element observed s2) (Z.of_nat label))).
Proof.
  intros Hseg Hreg. split.
  - intros s0 s1 label Hlen Hd Hl.
    destruct (@detect_from_reaches float _ observation observed mean_vertex std_vertex
                mean_edge std_edge initial_weights (vertices model_graph) label s0 s1
                Hd Hl) as [s [s' [Es [Es' Enext]]]].
    exists s, s'. split; [exact Es|]. split; [exact Enext|].
    assert (Hs : length s = n).
    { apply (@detect_from_spec float _ observation observed mean_vertex std_vertex
               mean_edge std_edge initial_weights n Hseg Hreg
               (firstn label (vertices model_graph)) 0 s0 s Hlen Es).
      intros l Hl0. lia. }
    exact (@detect_label_keeps_cheapest observation observed mean_vertex std_vertex
             mean_edge std_edge initial_weights n Hseg Hreg s label
             (nth label (vertices model_graph) []) s' Hs Es').
  - intros fuel costs s0 s1 s2 Hlen Hd Hr label Hl.
    exact (@contiguity_connected float _ observation observed model_graph mean_vertex
             std_vertex mean_edge std_edge initial_weights vertex_weights graph_weights n
             Hseg Hreg fuel costs s0 s1 s2 Hlen Hd Hr label Hl).
Qed.

Lemma half_segmentation_ok : segmentation_ok half_observed_labelmap 4.
Proof. split; [reflexivity|]. repeat constructor; cbn; lia. Qed.

Lemma half_regions_connected : regions_connected half_observed_labelmap 4.
Proof.
  intros r Hr u v [Hu Eu] [Hv Ev]. rewrite <- Ev in Eu.
  assert (E : u = v).
  { cbn in Hu, Hv.
    destruct Hu as [Hu|[Hu|[Hu|[Hu|[]]]]]; destruct Hv as [Hv|[Hv|[Hv|[Hv|[]]]]];
      subst u v; try reflexivity; vm_compute in Eu; discriminate. }
  subst v. apply reach_refl. split; [exact Hu|]. rewrite <- Ev. reflexivity.
Qed.

Lemma contiguity_guarantee_witness :
  alternating_detected = [0; -1; -1; 1]%Z /\
  alternating_repaired = [0; 0; 1; 1]%Z /\
  forall label, label < n_model half_model_graph ->
    one_component (lm_shape half_observed_labelmap)
      (carries (join_by_element half_observed_labelmap alternating_repaired)
               (Z.of_nat label)).
Proof.
  split; [vm_compute; reflexivity|]. split; [vm_compute; reflexivity|].
  apply (proj2 (@contiguity_guarantee alternating_volume half_observed_labelmap
                  half_model_graph half_mean_vertex half_std_vertex half_mean_edge
                  half_std_edge initial_weights_2d vertex_weights_2d graph_weights_2d 4
                  half_segmentation_ok half_regions_connected)
          2 alternating_costs alternating_solution alternating_detected
          alternating_repaired).
  - vm_compute. reflexivity.
  - vm_compute. reflexivity.
  - vm_compute. reflexivity.
Defined.

(** C2 as stated fails on a row of eight voxels whose label 0 has two
    components in the initial solution, the voxels 0-1 and the voxels 3-5.
    The detection keeps the first, of the lower initial vertex cost (0.380
    against 0.439), and unassigns the second, although the vertex cost
    against the reference vertex of label 0, the size included, is lower
    for the second: 1.542 against 2.309 under the vertex weights of the
    script, 0.479 against 0.642 under the default weights. *)
Lemma detection_keeps_lowest_initial_cost :
  spot_solution = [0; 1; 0; 1]%Z
  /\ lm_data (fst (potential_regions spot_observed_labelmap spot_solution 0))
     = [1; 1; 0; 2; 2; 2; 0; 0]%Z
  /\ detect_label spot_volume spot_observed_labelmap spot_mean_vertex spot_std_vertex
                  spot_mean_edge spot_std_edge initial_weights_2d spot_solution 0
                  (nth 0 (vertices spot_model_graph) [])
     = Some [0; 1; -1; 1]%Z
  /\ contiguity_detect spot_volume spot_observed_labelmap spot_model_graph
                       spot_mean_vertex spot_std_vertex spot_mean_edge spot_std_edge
                       initial_weights_2d spot_solution
     = Some [0; -1; -1; 1]%Z
  /\ PrimFloat.ltb
       (nth 1 (compute_initial_vertex_cost (vertices spot_components) spot_reference
                                           (Some initial_weights_2d)) 0%float)
       (nth 2 (compute_initial_vertex_cost (vertices spot_components) spot_reference
                                           (Some initial_weights_2d)) 0%float) = true
  /\ PrimFloat.ltb
       (nth 2 (compute_vertex_cost (vertices spot_components) spot_reference
                                   (Some vertex_weights_2d)) 0%float)
       (nth 1 (compute_vertex_cost (vertices spot_components) spot_reference
                                   (Some vertex_weights_2d)) 0%float) = true
  /\ PrimFloat.ltb
       (nth 2 (compute_vertex_cost (vertices spot_components) spot_reference None) 0%float)
       (nth 1 (compute_vertex_cost (vertices spot_components) spot_reference None) 0%float)
     = true.
Proof. vm_compute. repeat split; reflexivity. Qed.

(* ------------------------------------------------------------------ *)
(** * What the repair loop can rely on *)

(** ** The adjacency of an over-segmentation is connected *)

(** A path from one side of a partition to the other crosses it. *)
Lemma reach_crossing (sh : nat * nat * nat) (P : voxel -> Prop) (side : voxel -> bool)
    (u v : voxel) :
  reach sh P u v -> side u = true -> side v = false ->
  exists x y, P x /\ P y /\ In y (face_neighbours sh x) /\ side x = true /\ side y = false.
Proof.
  induction 1 as [u Hu|u v w Huv IH Hw Pw]; intros Su Sv; [congruence|].
  destruct (side v) eqn:Ev.
  - exists v, w. destruct (reach_end Huv) as [_ Pv]. auto.
  - apply IH; [exact Su|reflexivity].
Qed.

Lemma RAG_adjacent (observed : LabelMap) (x y : voxel) :
  In x (all_voxels (lm_shape observed)) ->
  In y (face_neighbours (lm_shape observed) x) ->
  (0 <= region_at observed x)%Z ->
  region_at observed y <> region_at observed x ->
  In (Z.to_nat (region_at observed y)) (RAG observed (Z.to_nat (region_at observed x))).
Proof.
  intros Hx Hy Hpos Hne. unfold RAG. cbv zeta. apply nodup_In. apply in_flat_map.
  exists x. split; [exact Hx|]. fold (region_at observed x).
  rewrite Z2Nat.id by exact Hpos. rewrite Z.eqb_refl.
  apply in_map_iff. exists y. split; [reflexivity|].
  apply filter_In. split; [exact Hy|]. fold (region_at observed y).
  apply negb_true_iff. apply Z.eqb_neq. exact Hne.
Qed.

(** X21. When the ids [0 .. n-1] all occur, the region adjacency graph is
    connected: the grid is. *)
Lemma segmentation_connected (observed : LabelMap) (n : nat) :
  segmentation_ok observed n ->
  (forall r, r < n -> In (Z.of_nat r) (lm_data observed)) ->
  connected n (super_adjacency observed).
Proof.
  intros Hseg Hall S [a [Ha Sa]] [b [Hb Sb]].
  set (sh := lm_shape observed).
  set (inside := fun c : voxel => mem_voxel c (all_voxels sh)).
  assert (Hin : forall c, inside c = true -> In c (all_voxels sh))
    by (intros c Hc; apply mem_voxel_In; exact Hc).
  assert (Hvoxel : forall r, r < n ->
            exists c, In c (all_voxels sh) /\ region_at observed c = Z.of_nat r).
  { intros r Hr. destruct (In_nth _ _ 0%Z (Hall r Hr)) as [k [Hk Ek]].
    exists (nth k (all_voxels sh) (0, 0, 0)). destruct Hseg as [Hlen _].
    split; [apply nth_In; unfold sh; lia|].
    unfold region_at. fold sh. rewrite (@grid_get_at sh Z _ k (-1)%Z Hlen Hk).
    rewrite (nth_indep _ (-1)%Z 0%Z Hk). exact Ek. }
  destruct (Hvoxel a Ha) as [u [Hu Eu]]. destruct (Hvoxel b Hb) as [v [Hv Ev]].
  assert (Hpath : reach sh (fun c => inside c = true) u v).
  { assert (Hall' : forall c, In c (all_voxels sh) -> inside c = true)
      by (intros c Hc; apply mem_voxel_In; exact Hc).
    apply (@reach_trans sh _ u (0, 0, 0) v);
      [|apply (@grid_connected sh inside Hin Hall'); exact Hv].
    apply reach_sym; [exact Hin|]. apply (@grid_connected sh inside Hin Hall'). exact Hu. }
  destruct (@reach_crossing sh _ (fun c => S (Z.to_nat (region_at observed c))) u v Hpath)
    as [x [y [Px [Py [Hxy [Sx Sy]]]]]].
  { rewrite Eu, Nat2Z.id. exact Sa. }
  { rewrite Ev, Nat2Z.id. exact Sb. }
  pose proof (@region_at_range observed n Hseg x (Hin x Px)) as Hrx.
  pose proof (@region_at_range observed n Hseg y (Hin y Py)) as Hry.
  exists (Z.to_nat (region_at observed x)), (Z.to_nat (region_at observed y)).
  split; [lia|]. split; [lia|]. split; [exact Sx|]. split; [exact Sy|].
  unfold super_adjacency. apply RAG_adjacent; [apply Hin; exact Px|exact Hxy|lia|].
  intros E. rewrite E in Sy. congruence.
Qed.

(** ** After the detection every label is still held *)

Section Held.
Variable observation : list float.
Variable observed : LabelMap.
Variables mean_vertex std_vertex mean_edge std_edge initial_weights : list float.
Variable n : nat.
Hypothesis Hseg : segmentation_ok observed n.
Hypothesis Hreg : regions_connected observed n.

Local Abbreviation sh := (lm_shape observed).

(** The detection of a label leaves it on a super-region. *)
Lemma detect_label_held (s : list Z) (label : nat) (mv : list float) (s' : list Z) :
  length s = n ->
  detect_label observation observed mean_vertex std_vertex mean_edge std_edge
               initial_weights s label mv = Some s' ->
  In (Z.of_nat label) s'.
Proof.
  intros Hlen Hd.
  set (mask := fun c => grid_get sh (solution_map observed s label) c false).
  assert (Hgrid : forall c, mask c = true -> In c (all_voxels sh)).
  { intros c Hc. apply (proj1 (@solution_map_spec observed n Hseg s label c Hlen)) in Hc.
    apply Hc. }
  assert (Hcount : snd (potential_regions observed s label)
                   = length (components sh mask)) by reflexivity.
  (* a voxel of the component that keeps the label *)
  assert (Hseed : exists k seed, In seed (all_voxels sh) /\
            component_id (components sh mask) seed = S k /\
            forall r c, nth r s 0%Z = Z.of_nat label -> carries observed (Z.of_nat r) c ->
              component_id (components sh mask) c = S k -> nth r s' 0%Z = Z.of_nat label).
  { pose proof (@detect_label_keeps_cheapest observation observed mean_vertex std_vertex
                  mean_edge std_edge initial_weights n Hseg Hreg) as Hdetect.
    destruct (Hdetect s label mv s' Hlen Hd) as [[Hone E]|[Hmany [_ [_ [a [_ [Ha [_ Hkeep]]]]]]]].
    - rewrite Hcount in Hone.
      destruct (@components_numbered sh mask Hgrid 0 ltac:(lia)) as [seed [Hs Es]].
      exists 0, seed. split; [exact Hs|]. split; [exact Es|].
      intros r c Er _ _. rewrite E. exact Er.
    - rewrite Hcount in Ha.
      destruct (@components_numbered sh mask Hgrid a Ha) as [seed [Hs Es]].
      exists a, seed. split; [exact Hs|]. split; [exact Es|].
      intros r c Er Hc Ec. rewrite (Hkeep r c Er Hc).
      replace (region_at (fst (potential_regions observed s label)) c)
        with (Z.of_nat (component_id (components sh mask) c)).
      + rewrite Ec. replace (a + 1) with (S a) by lia. rewrite Z.eqb_refl. reflexivity.
      + symmetry. unfold potential_regions, ndi_label, region_at. cbn [fst lm_shape lm_data].
        apply (@grid_get_voxels sh Z
                 (fun c => Z.of_nat (component_id (components sh mask) c)) c (-1)%Z).
        apply Hc. }
  destruct Hseed as [k [seed [Hs [Es Hkeep]]]].
  assert (Hm : mask seed = true).
  { apply (@component_id_masked sh mask Hgrid seed). rewrite Es. discriminate. }
  apply (proj1 (@solution_map_spec observed n Hseg s label seed Hlen)) in Hm.
  destruct Hm as [_ Hm].
  pose proof (@region_at_range observed n Hseg seed Hs) as Hr.
  set (r := Z.to_nat (region_at observed seed)) in *.
  assert (E : nth r s' 0%Z = Z.of_nat label).
  { apply (Hkeep r seed Hm); [|exact Es]. split; [exact Hs|].
    fold (region_at observed seed). unfold r. lia. }
  rewrite <- E. apply nth_In.
  destruct (@detect_label_spec float _ observation observed mean_vertex std_vertex
              mean_edge std_edge initial_weights n Hseg Hreg s label mv s' Hlen Hd)
    as [Hlen' _].
  unfold r. lia.
Qed.

End Held.

Section Repairable.
Variable observation : list float.
Variable observed : LabelMap.
Variable model_graph : SRG (F:=float).
Variables mean_vertex std_vertex mean_edge std_edge initial_weights : list float.
Variable n : nat.
Hypothesis Hseg : segmentation_ok observed n.
Hypothesis Hreg : regions_connected observed n.

Lemma detect_from_held (mvs : list (list float)) :
  forall (label : nat) (s s1 : list Z),
    length s = n ->
    Forall (fun l => (-1 <= l < Z.of_nat (label + length mvs))%Z) s ->
    detect_from observation observed mean_vertex std_vertex mean_edge std_edge
                initial_weights label mvs s = Some s1 ->
    (forall l, l < label -> In (Z.of_nat l) s) ->
    Forall (fun l => (-1 <= l < Z.of_nat (label + length mvs))%Z) s1 /\
    forall l, l < label + length mvs -> In (Z.of_nat l) s1.
Proof.
  induction mvs as [|mv rest IH]; intros label s s1 Hlen Hrange Hd Hheld;
    cbn [detect_from] in Hd.
  - injection Hd as Hd. subst s1. split; [exact Hrange|].
    intros l Hl. apply Hheld. cbn [length] in Hl. lia.
  - destruct (detect_label observation observed mean_vertex std_vertex mean_edge std_edge
                initial_weights s label mv) as [s'|] eqn:Es; [|discriminate].
    destruct (@detect_label_spec float _ observation observed mean_vertex std_vertex mean_edge
                std_edge initial_weights n Hseg Hreg s label mv s' Hlen Es)
      as [Hlen' [Hother [Hsame _]]].
    pose proof (@detect_label_held observation observed mean_vertex std_vertex mean_edge
                  std_edge initial_weights n Hseg Hreg s label mv s' Hlen Es) as Hnew.
    cbn [length] in Hrange |- *.
    replace (label + S (length rest)) with (S label + length rest) in Hrange |- * by lia.
    apply (IH (S label) s' s1 Hlen'); [|exact Hd|].
    + apply Forall_forall. intros x Hx. destruct (In_nth _ _ 0%Z Hx) as [r [Hr Er]].
      rewrite Forall_forall in Hrange.
      assert (Hs : (-1 <= nth r s 0 < Z.of_nat (S label + length rest))%Z)
        by (apply Hrange; apply nth_In; lia).
      destruct (Z.eq_dec (nth r s 0%Z) (Z.of_nat label)) as [E|E].
      * destruct (Hsame r E) as [E'|E']; rewrite <- Er, E'; lia.
      * rewrite <- Er, (Hother r E). exact Hs.
    + intros l Hl. destruct (Nat.eq_dec l label) as [E|E]; [subst l; exact Hnew|].
      assert (Hin : In (Z.of_nat l) s) by (apply Hheld; lia).
      destruct (In_nth _ _ 0%Z Hin) as [r [Hr Er]].
      rewrite <- Er, <- (Hother r) by lia. apply nth_In. lia.
Qed.

(** X23. The solution the detection returns is one the repair can work on:
    every entry is [-1] or a model label, and every model label is held. *)
Lemma contiguity_detect_repairable (s0 s1 : list Z) :
  length s0 = n ->
  Forall (fun l => (0 <= l < Z.of_nat (n_model model_graph))%Z) s0 ->
  contiguity_detect observation observed model_graph mean_vertex std_vertex mean_edge
                    std_edge initial_weights s0 = Some s1 ->
  length s1 = n /\ repairable (n_model model_graph) s1.
Proof.
  intros Hlen Hrange Hd. unfold contiguity_detect in Hd.
  destruct (@detect_from_spec float _ observation observed mean_vertex std_vertex mean_edge
              std_edge initial_weights n Hseg Hreg (vertices model_graph) 0 s0 s1 Hlen Hd)
    as [Hlen1 _]; [intros l Hl; lia|].
  split; [exact Hlen1|].
  apply (@detect_from_held (vertices model_graph) 0 s0 s1 Hlen); [|exact Hd|intros l Hl; lia].
  apply Forall_forall. intros x Hx. rewrite Forall_forall in Hrange.
  specialize (Hrange x Hx). unfold n_model in Hrange. cbn [Nat.add]. lia.
Qed.

End Repairable.

(* ------------------------------------------------------------------ *)
(** * The improvement loop under the default edge weights *)


(** ** An accepted step under the default edge weights *)

Lemma labelmap_ext (a b : LabelMap) :
  lm_shape a = lm_shape b -> lm_data a = lm_data b -> a = b.
Proof. destruct a, b. simpl. intros E1 E2. rewrite E1, E2. reflexivity. Qed.

Lemma join_by_element_set_nth (observed : LabelMap) (s : list Z) (i : nat) (p : Z) :
  i < length s ->
  join_by_element observed (set_nth i p s)
  = working_labelmap observed (join_by_element observed s) i p.
Proof.
  intros Hi.
  assert (Hdata : lm_data (join_by_element observed (set_nth i p s))
                  = assign_region observed (lm_data (join_by_element observed s)) i p).
  { rewrite !join_by_element_data. unfold assign_region. rewrite map2_map_same.
    apply map_ext. intros o. rewrite set_nth_length.
    destruct (o =? Z.of_nat i)%Z eqn:E.
    - apply Z.eqb_eq in E. subst o.
      replace ((0 <=? Z.of_nat i) && (Z.of_nat i <? Z.of_nat (length s)))%Z with true
        by (symmetry; apply andb_true_iff; split; [apply Z.leb_le|apply Z.ltb_lt]; lia).
      rewrite Nat2Z.id. apply nth_set_nth_same. exact Hi.
    - apply Z.eqb_neq in E.
      destruct ((0 <=? o) && (o <? Z.of_nat (length s)))%Z eqn:E'; [|reflexivity].
      apply andb_true_iff in E'. destruct E' as [E1 E2]. apply Z.leb_le in E1.
      apply nth_set_nth_other. lia. }
  apply labelmap_ext; [reflexivity|exact Hdata].
Qed.

Lemma compute_edge_cost_default {F} `{Num F} (edges1 edges2 : list (list F)) :
  compute_edge_cost edges1 edges2 (Some (np_ones (ncols edges1)))
  = compute_edge_cost edges1 edges2 None.
Proof. reflexivity. Qed.

Section Monotone.
Variable observation : list float.
Variable observed_labelmap : LabelMap.
Variable model_graph : SRG (F:=float).
Variables mean_vertex std_vertex mean_edge std_edge : list float.
Variables vertex_weights edge_weights : list float.
Variable graph_weights : float * float.

Local Abbreviation cost_of st :=
  (current_cost model_graph vertex_weights edge_weights graph_weights st).
Local Abbreviation next st i :=
  (rebuild observation observed_labelmap model_graph mean_vertex std_vertex mean_edge
           std_edge
           (improve_step observation observed_labelmap model_graph mean_vertex std_vertex
                         mean_edge std_edge vertex_weights edge_weights graph_weights st i)).

(** Where the candidates are costed as the current assignment is, the
    global cost does not rise: when [edge_weights] is the default weight
    vector (as [(1,1,1,1,1)] in [calibration.py]), an epoch of one
    super-vertex either keeps the solution and its cost, or strictly lowers
    the global cost. *)
Lemma accepted_step_lowers_cost (st : State (F:=float)) (i : nat) :
  rebuilt_state observation observed_labelmap model_graph mean_vertex std_vertex mean_edge
                std_edge st ->
  i < length (solution st) ->
  edge_weights = np_ones (ncols (edges (observation_graph (next st i)))) ->
  (solution (next st i) = solution st /\ cost_of (next st i) = cost_of st) \/
  fltb (cost_of (next st i)) (cost_of st) = true.
Proof.
  intros [Hjoined Hgraph] Hi Hw.
  destruct (improve_vertex_strict observation observed_labelmap model_graph mean_vertex
              std_vertex mean_edge std_edge vertex_weights edge_weights graph_weights st i)
    as [E|[_ [Ec Hlt]]].
  - left.
    assert (Es : solution (next st i) = solution st).
    { cbn [rebuild improve_step solution]. rewrite E. cbn [fst]. apply set_nth_same. }
    split; [exact Es|].
    unfold current_cost. cbn [rebuild improve_step observation_graph solution].
    cbn [rebuild improve_step solution] in Es.
    rewrite Es, <- Hjoined, <- Hgraph. reflexivity.
  - right.
    assert (Enext : cost_of (next st i)
                    = snd (improve_vertex observation observed_labelmap model_graph
                             mean_vertex std_vertex mean_edge std_edge vertex_weights
                             edge_weights graph_weights st i)).
    { rewrite Ec. unfold current_cost.
      set (g' := observation_graph (next st i)) in *.
      assert (Eg : g' = graph_of observation model_graph mean_vertex std_vertex mean_edge
                          std_edge
                          (working_labelmap observed_labelmap (joined_labelmap st) i
                             (fst (improve_vertex observation observed_labelmap model_graph
                                     mean_vertex std_vertex mean_edge std_edge
                                     vertex_weights edge_weights graph_weights st i)))).
      { unfold g'. cbn [rebuild improve_step observation_graph solution].
        rewrite (join_by_element_set_nth observed_labelmap _ _ Hi), <- Hjoined.
        reflexivity. }
      unfold potential_cost, global_cost. rewrite <- Eg.
      replace (Some edge_weights) with (Some (@np_ones float _ (ncols (edges g'))))
        by (rewrite <- Hw; reflexivity).
      reflexivity. }
    rewrite Enext. exact Hlt.
Qed.

End Monotone.

(** On the strip under the weights of [calibration.py] the step is
    accepted and the cost falls (from 0.963... to 0.395...). *)
Lemma accepted_step_lowers_cost_on_strip :
  let st' := rebuild strip_volume strip_observed_labelmap strip_model_graph
               strip_mean_vertex strip_std_vertex strip_mean_edge strip_std_edge
               (improve_step strip_volume strip_observed_labelmap strip_model_graph
                  strip_mean_vertex strip_std_vertex strip_mean_edge strip_std_edge
                  vertex_weights_cal edge_weights_cal graph_weights_cal strip_detour 3) in
  solution st' = [0; 0; 0; 1; 1; 2; 2]%Z /\
  fltb (current_cost strip_model_graph vertex_weights_cal edge_weights_cal graph_weights_cal st')
       (current_cost strip_model_graph vertex_weights_cal edge_weights_cal graph_weights_cal
                     strip_detour) = true.
Proof.
  cbv zeta. split; [vm_compute; reflexivity|].
  destruct (@accepted_step_lowers_cost strip_volume strip_observed_labelmap strip_model_graph
              strip_mean_vertex strip_std_vertex strip_mean_edge strip_std_edge
              vertex_weights_cal edge_weights_cal graph_weights_cal strip_detour 3)
    as [[Es _]|Hlt].
  - split; reflexivity.
  - vm_compute. lia.
  - vm_compute. reflexivity.
  - vm_compute in Es. discriminate.
  - exact Hlt.
Qed.

(* ------------------------------------------------------------------ *)
(** * The overlap score *)

Lemma logical_and_comm (d1 d2 : list bool) : logical_and d1 d2 = logical_and d2 d1.
Proof.
  unfold logical_and. revert d2.
  induction d1 as [|a d1 IH]; intros [|b d2]; simpl; try reflexivity.
  rewrite andb_comm, IH. reflexivity.
Qed.

(** X1. The overlap score does not depend on the order of its two masks. *)
Theorem dice_coefficient_symmetric (F : Type) (N : Num F) (dist1 dist2 : list bool) :
  length dist1 = length dist2 ->
  dice_coefficient (F:=F) dist1 dist2 = dice_coefficient dist2 dist1.
Proof.
  intros _. unfold dice_coefficient.
  rewrite logical_and_comm, Z.add_comm. reflexivity.
Qed.

Lemma dice_coefficient_symmetric_witness :
  dice_coefficient (F:=float) [true; true; false] [false; true; true]
  = dice_coefficient [false; true; true] [true; true; false].
Proof.
  apply (@dice_coefficient_symmetric float float_Num [true; true; false] [false; true; true]).
  reflexivity.
Defined.

Lemma bool_sum_zero (a : list bool) : bool_sum a = 0%Z -> Forall (fun b => b = false) a.
Proof.
  unfold bool_sum. induction a as [|b a IH]; intros E; constructor.
  - destruct b; [simpl in E; lia|reflexivity].
  - apply IH. destruct b; simpl in E; [lia|exact E].
Qed.

Lemma logical_and_false_l (d1 d2 : list bool) :
  Forall (fun b => b = false) d1 -> Forall (fun b => b = false) (logical_and d1 d2).
Proof.
  unfold logical_and. intros A. revert d2.
  induction A as [|a d1 Ha A IH]; intros [|b d2]; simpl; constructor.
  - rewrite Ha. reflexivity.
  - apply IH.
Qed.

Lemma np_sum_twice_false (a : list bool) :
  Forall (fun b => b = false) a -> np_sum (F:=float) (twice a) = 0%float.
Proof.
  unfold np_sum, twice. intros A.
  change (f0 (F:=float)) with 0%float.
  induction A as [|b a Hb A IH]; simpl; [reflexivity|].
  rewrite Hb. exact IH.
Qed.

(** X2. When neither mask has a true entry the overlap score is NaN: the
    float64 quotient 0/0 of an empty intersection over two empty counts. *)
Theorem dice_coefficient_of_empty_masks (dist1 dist2 : list bool) :
  length dist1 = length dist2 ->
  bool_sum dist1 = 0%Z ->
  bool_sum dist2 = 0%Z ->
  is_NaN (dice_coefficient dist1 dist2).
Proof.
  intros _ E1 E2. unfold dice_coefficient.
  rewrite np_sum_twice_false
    by (apply logical_and_false_l, bool_sum_zero; exact E1).
  rewrite E1, E2. vm_compute. reflexivity.
Qed.

Lemma dice_coefficient_of_empty_masks_witness :
  is_NaN (dice_coefficient [false; false; false] [false; false; false]).
Proof.
  apply (@dice_coefficient_of_empty_masks [false; false; false] [false; false; false]);
    reflexivity.
Defined.

Lemma bool_sum_cons (b : bool) (a : list bool) :
  bool_sum (b :: a) = ((if b then 1 else 0) + bool_sum a)%Z.
Proof. unfold bool_sum. destruct b; cbn [filter length]; lia. Qed.

Lemma bool_sum_nonneg (a : list bool) : (0 <= bool_sum a)%Z.
Proof. unfold bool_sum. lia. Qed.

Lemma logical_and_cons (a b : bool) (d1 d2 : list bool) :
  logical_and (a :: d1) (b :: d2) = (a && b) :: logical_and d1 d2.
Proof. reflexivity. Qed.

Lemma bool_sum_and_le (d1 d2 : list bool) :
  (bool_sum (logical_and d1 d2) <= bool_sum d1)%Z
  /\ (bool_sum (logical_and d1 d2) <= bool_sum d2)%Z.
Proof.
  revert d2. induction d1 as [|a d1 IH]; intros [|b d2];
    try (split; [apply Z.le_refl || apply bool_sum_nonneg|apply bool_sum_nonneg || apply Z.le_refl]).
  rewrite logical_and_cons, !bool_sum_cons.
  destruct (IH d2) as [I1 I2]. destruct a, b; cbn [andb]; lia.
Qed.

Lemma full_overlap_equal (d1 d2 : list bool) :
  length d1 = length d2 ->
  bool_sum (logical_and d1 d2) = bool_sum d1 ->
  bool_sum (logical_and d1 d2) = bool_sum d2 ->
  d1 = d2.
Proof.
  revert d2. induction d1 as [|a d1 IH]; intros [|b d2] L E1 E2; try discriminate L.
  - reflexivity.
  - rewrite logical_and_cons, !bool_sum_cons in E1, E2.
    destruct (bool_sum_and_le d1 d2) as [I1 I2].
    injection L as L.
    destruct a, b; cbn [andb] in E1, E2; try lia;
      f_equal; apply IH; try assumption; lia.
Qed.

Lemma logical_and_diag (d : list bool) : logical_and d d = d.
Proof.
  induction d as [|a d IH]; [reflexivity|].
  rewrite logical_and_cons, IH. destruct a; reflexivity.
Qed.

Lemma np_sum_twice_exact (a : list bool) :
  np_sum (F:=xreal) (twice a) = XFin (2 * IZR (bool_sum a)).
Proof.
  assert (E : twice (F:=xreal) a = map XFin (map (fun b : bool => if b then 2 else 0)%R a)).
  { unfold twice. rewrite map_map. apply map_ext. intros b. simpl.
    destruct b; f_equal; lra. }
  rewrite E, np_sum_XFin. f_equal. clear E.
  induction a as [|b a IH]; [simpl; unfold bool_sum; simpl; lra|].
  rewrite bool_sum_cons, plus_IZR. unfold Rsum in *. cbn [map fold_right].
  rewrite IH. destruct b; lra.
Qed.

Lemma dice_coefficient_value (d1 d2 : list bool) :
  (0 < bool_sum d1 + bool_sum d2)%Z ->
  dice_coefficient (F:=xreal) d1 d2
  = XFin (2 * IZR (bool_sum (logical_and d1 d2)) / IZR (bool_sum d1 + bool_sum d2)).
Proof.
  intros Hpos. unfold dice_coefficient. rewrite np_sum_twice_exact. simpl.
  rewrite Reqb_false; [reflexivity|].
  apply eq_IZR_contrapositive. lia.
Qed.

(** X3. In exact arithmetic, when one of the two masks has a true entry,
    the overlap score is twice the size of the intersection over the sum of
    the two sizes, a number between 0 and 1. *)
Theorem dice_coefficient_exact_range (dist1 dist2 : list bool) :
  length dist1 = length dist2 ->
  (0 < bool_sum dist1 + bool_sum dist2)%Z ->
  exists r : R,
    dice_coefficient (F:=xreal) dist1 dist2 = XFin r
    /\ r = (2 * IZR (bool_sum (logical_and dist1 dist2))
            / IZR (bool_sum dist1 + bool_sum dist2))%R
    /\ (0 <= r <= 1)%R.
Proof.
  intros _ Hpos. eexists. split; [apply dice_coefficient_value; exact Hpos|].
  split; [reflexivity|].
  destruct (bool_sum_and_le dist1 dist2) as [I1 I2].
  pose proof (bool_sum_nonneg (logical_and dist1 dist2)) as I0.
  assert (D : (0 < IZR (bool_sum dist1 + bool_sum dist2))%R) by (apply IZR_lt; exact Hpos).
  assert (N0 : (0 <= 2 * IZR (bool_sum (logical_and dist1 dist2)))%R).
  { apply IZR_le in I0. lra. }
  assert (N1 : (2 * IZR (bool_sum (logical_and dist1 dist2))
                <= IZR (bool_sum dist1 + bool_sum dist2))%R).
  { rewrite <- mult_IZR. apply IZR_le. lia. }
  split.
  - apply Rmult_le_pos; [exact N0|]. left. apply Rinv_0_lt_compat. exact D.
  - apply Rmult_le_reg_r with (r := IZR (bool_sum dist1 + bool_sum dist2)); [exact D|].
    unfold Rdiv. rewrite Rmult_assoc, Rinv_l by lra. lra.
Qed.

Lemma dice_coefficient_exact_range_witness :
  exists r : R,
    dice_coefficient (F:=xreal) [true; true; false] [false; true; true] = XFin r
    /\ r = (2 * IZR (bool_sum (logical_and [true; true; false] [false; true; true]))
            / IZR (bool_sum [true; true; false] + bool_sum [false; true; true]))%R
    /\ (0 <= r <= 1)%R.
Proof.
  apply (@dice_coefficient_exact_range [true; true; false] [false; true; true]);
    reflexivity.
Defined.

(** X4. In exact arithmetic, the overlap score of two masks of one shape,
    one of them with a true entry, is 1 exactly when the masks are equal
    and 0 exactly when they have no true entry in common. *)
Theorem dice_coefficient_extremes (dist1 dist2 : list bool) :
  length dist1 = length dist2 ->
  (0 < bool_sum dist1 + bool_sum dist2)%Z ->
  (dice_coefficient (F:=xreal) dist1 dist2 = XFin 1 <-> dist1 = dist2)
  /\ (dice_coefficient (F:=xreal) dist1 dist2 = XFin 0
      <-> bool_sum (logical_and dist1 dist2) = 0%Z).
Proof.
  intros L Hpos. rewrite (dice_coefficient_value _ _ Hpos).
  destruct (bool_sum_and_le dist1 dist2) as [I1 I2].
  assert (D : (IZR (bool_sum dist1 + bool_sum dist2) <> 0)%R) by (apply eq_IZR_contrapositive; lia).
  split; split.
  - intros E. injection E as E.
    assert (E' : (2 * IZR (bool_sum (logical_and dist1 dist2))
                  = IZR (bool_sum dist1 + bool_sum dist2))%R).
    { apply Rmult_eq_compat_r with (r := IZR (bool_sum dist1 + bool_sum dist2)) in E.
      unfold Rdiv in E. rewrite Rmult_assoc, Rinv_l in E by exact D. lra. }
    rewrite <- mult_IZR in E'. apply eq_IZR in E'.
    apply full_overlap_equal; [exact L|lia|lia].
  - intros ->. rewrite logical_and_diag. f_equal.
    rewrite plus_IZR. rewrite plus_IZR in D. field. lra.
  - intros E. injection E as E.
    apply Rmult_eq_compat_r with (r := IZR (bool_sum dist1 + bool_sum dist2)) in E.
    unfold Rdiv in E. rewrite Rmult_assoc, Rinv_l in E by exact D.
    apply eq_IZR. lra.
  - intros ->. f_equal. unfold Rdiv. lra.
Qed.

Lemma dice_coefficient_extremes_witness :
  (dice_coefficient (F:=xreal) [true; true; false] [false; true; true] = XFin 1
   <-> [true; true; false] = [false; true; true])
  /\ (dice_coefficient (F:=xreal) [true; true; false] [false; true; true] = XFin 0
      <-> bool_sum (logical_and [true; true; false] [false; true; true]) = 0%Z).
Proof.
  apply (@dice_coefficient_extremes [true; true; false] [false; true; true]);
    reflexivity.
Defined.

(* ------------------------------------------------------------------ *)
(** * The seed grid *)

Lemma length_three {A} (l : list A) :
  length l = 3 -> exists a b c, l = [a; b; c].
Proof.
  destruct l as [|a [|b [|c [|d l]]]]; intros E; try discriminate E.
  exists a, b, c. reflexivity.
Qed.

Lemma anisotropic_seeds_asserts (F : Type) (N : Num F) (shape amounts : list nat) :
  length shape <> 3 \/ length amounts <> 3 ->
  anisotropic_seeds (F:=F) shape amounts = inl AssertionError.
Proof.
  intros Hl.
  destruct shape as [|n0 [|n1 [|n2 [|n3 shape]]]]; try reflexivity.
  destruct amounts as [|a0 [|a1 [|a2 [|a3 amounts]]]]; try reflexivity.
  destruct Hl as [Hl|Hl]; exfalso; apply Hl; reflexivity.
Qed.

Lemma anisotropic_seeds_three (F : Type) (N : Num F) (n0 n1 n2 a0 a1 a2 : nat) :
  let r := anisotropic_seeds (F:=F) [n0; n1; n2] [a0; a1; a2] in
  ((a0 = 0 \/ a1 = 0 \/ a2 = 0) /\ r = inl ZeroDivisionError)
  \/ ((0 < a0 /\ 0 < a1 /\ 0 < a2) /\ (n0 < a0 \/ n1 < a1 \/ n2 < a2)
      /\ r = inl ValueError)
  \/ ((0 < a0 <= n0 /\ 0 < a1 <= n1 /\ 0 < a2 <= n2) /\ exists seeds, r = inr seeds).
Proof.
  intros r. subst r. unfold anisotropic_seeds.
  destruct (Nat.eqb_spec a0 0) as [Z0|Z0]; [left; auto|].
  destruct (Nat.eqb_spec a1 0) as [Z1|Z1]; [left; auto|].
  destruct (Nat.eqb_spec a2 0) as [Z2|Z2]; [left; auto|].
  cbn [orb]. right.
  assert (P0 : n0 / a0 = 0 <-> n0 < a0) by (apply Nat.div_small_iff; exact Z0).
  assert (P1 : n1 / a1 = 0 <-> n1 < a1) by (apply Nat.div_small_iff; exact Z1).
  assert (P2 : n2 / a2 = 0 <-> n2 < a2) by (apply Nat.div_small_iff; exact Z2).
  destruct (Nat.eqb_spec (n0 / a0) 0) as [S0|S0];
    [left; repeat split; try lia; left; apply P0; exact S0|].
  destruct (Nat.eqb_spec (n1 / a1) 0) as [S1|S1];
    [left; repeat split; try lia; right; left; apply P1; exact S1|].
  destruct (Nat.eqb_spec (n2 / a2) 0) as [S2|S2];
    [left; repeat split; try lia; right; right; apply P2; exact S2|].
  cbn [orb]. right. split; [|eexists; reflexivity].
  assert (~ n0 < a0) by (intros C; apply S0, P0, C).
  assert (~ n1 < a1) by (intros C; apply S1, P1, C).
  assert (~ n2 < a2) by (intros C; apply S2, P2, C).
  lia.
Qed.

Ltac outcome :=
  repeat match goal with
         | |- _ /\ _ => split
         | |- _ <-> _ => split; intros ?
         end;
  repeat match goal with
         | E : exists _, _ |- _ => destruct E
         | E : _ /\ _ |- _ => destruct E
         end;
  try discriminate; try lia; try tauto; try (eexists; reflexivity).

(** X5. [anisotropic_seeds] returns an array exactly when it is given three
    axes and three amounts, every amount positive and not above its axis.
    Otherwise it raises: [AssertionError] on a wrong number of axes or of
    amounts; else [ZeroDivisionError] when an amount is zero; else
    [ValueError] (a slice of step zero) when an amount exceeds its axis. *)
Theorem anisotropic_seeds_domain (F : Type) (N : Num F) (shape amounts : list nat) :
  ((exists seeds, anisotropic_seeds (F:=F) shape amounts = inr seeds)
   <-> length shape = 3 /\ Forall2 (fun n a => 0 < a <= n) shape amounts)
  /\ (anisotropic_seeds (F:=F) shape amounts = inl AssertionError
      <-> length shape <> 3 \/ length amounts <> 3)
  /\ (anisotropic_seeds (F:=F) shape amounts = inl ZeroDivisionError
      <-> length shape = 3 /\ length amounts = 3 /\ In 0 amounts)
  /\ (anisotropic_seeds (F:=F) shape amounts = inl ValueError
      <-> length shape = 3 /\ length amounts = 3 /\ ~ In 0 amounts
          /\ Exists (fun na => fst na < snd na) (combine shape amounts)).
Proof.
  destruct (Nat.eq_dec (length shape) 3) as [Ls|Ls];
    [destruct (Nat.eq_dec (length amounts) 3) as [La|La]|].
  - destruct (length_three _ Ls) as [n0 [n1 [n2 ->]]].
    destruct (length_three _ La) as [a0 [a1 [a2 ->]]].
    assert (F2 : Forall2 (fun n a => 0 < a <= n) [n0; n1; n2] [a0; a1; a2]
                 <-> 0 < a0 <= n0 /\ 0 < a1 <= n1 /\ 0 < a2 <= n2).
    { split.
      - intros E. inversion E as [|? ? ? ? H0 E1]; subst.
        inversion E1 as [|? ? ? ? H1 E2]; subst.
        inversion E2 as [|? ? ? ? H2 E3]; subst. auto.
      - intros [H0 [H1 H2]]. repeat constructor; lia. }
    assert (I0 : In 0 [a0; a1; a2] <-> a0 = 0 \/ a1 = 0 \/ a2 = 0).
    { simpl. intuition congruence. }
    assert (Ex : Exists (fun na => fst na < snd na) (combine [n0; n1; n2] [a0; a1; a2])
                 <-> n0 < a0 \/ n1 < a1 \/ n2 < a2).
    { simpl. split.
      - intros E. inversion E as [? ? H0|? ? E1]; subst; [auto|].
        inversion E1 as [? ? H1|? ? E2]; subst; [auto|].
        inversion E2 as [? ? H2|? ? E3]; subst; [auto|]. inversion E3.
      - intros [H0|[H1|H2]].
        + apply Exists_cons_hd. exact H0.
        + apply Exists_cons_tl, Exists_cons_hd. exact H1.
        + apply Exists_cons_tl, Exists_cons_tl, Exists_cons_hd. exact H2. }
    rewrite F2, I0, Ex.
    destruct (anisotropic_seeds_three N n0 n1 n2 a0 a1 a2)
      as [[Hz ->]|[[Hp [Hv ->]]|[Hok [seeds ->]]]]; outcome.
  - rewrite (@anisotropic_seeds_asserts F N shape amounts) by (right; exact La).
    outcome.
    match goal with E : Forall2 _ _ _ |- _ => apply Forall2_length in E end.
    congruence.
  - rewrite (@anisotropic_seeds_asserts F N shape amounts) by (left; exact Ls).
    outcome.
Qed.

Section SeedCount.
Variables px py pz : nat -> bool.

Let inside (c : nat * nat * nat) : bool := let '(x, y, z) := c in px x && py y && pz z.

Lemma count_along_z (x y : nat) (lz : list nat) :
  length (filter inside (map (fun z => (x, y, z)) lz))
  = if px x && py y then length (filter pz lz) else 0.
Proof.
  induction lz as [|z lz IH]; simpl.
  - destruct (px x && py y); reflexivity.
  - destruct (px x && py y) eqn:E; simpl in *.
    + destruct (pz z); simpl; rewrite IH; reflexivity.
    + exact IH.
Qed.

Lemma count_along_y (x : nat) (ly lz : list nat) :
  length (filter inside (flat_map (fun y => map (fun z => (x, y, z)) lz) ly))
  = if px x then length (filter py ly) * length (filter pz lz) else 0.
Proof.
  induction ly as [|y ly IH]; cbn [flat_map].
  - destruct (px x); reflexivity.
  - rewrite filter_app, length_app, IH, count_along_z. cbn [filter].
    destruct (px x), (py y); cbn [andb length]; lia.
Qed.

Lemma count_along_x (lx ly lz : list nat) :
  length (filter inside
            (flat_map (fun x => flat_map (fun y => map (fun z => (x, y, z)) lz) ly) lx))
  = length (filter px lx) * (length (filter py ly) * length (filter pz lz)).
Proof.
  induction lx as [|x lx IH]; cbn [flat_map]; [reflexivity|].
  rewrite filter_app, length_app, IH, count_along_y. cbn [filter].
  destruct (px x); cbn [length]; lia.
Qed.

End SeedCount.

Lemma count_members (xs : list nat) (n : nat) :
  NoDup xs -> (forall x, In x xs -> x < n) ->
  length (filter (fun x => existsb (Nat.eqb x) xs) (seq 0 n)) = length xs.
Proof.
  intros Hnd Hlt.
  assert (M : forall x, existsb (Nat.eqb x) xs = true <-> In x xs).
  { intros x. rewrite existsb_exists. split.
    - intros [y [Hy E]]. apply Nat.eqb_eq in E. subst. exact Hy.
    - intros Hx. exists x. split; [exact Hx|apply Nat.eqb_refl]. }
  apply Nat.le_antisymm.
  - apply NoDup_incl_length; [apply NoDup_filter, seq_NoDup|].
    intros x Hx. apply filter_In in Hx. apply M, Hx.
  - apply NoDup_incl_length; [exact Hnd|].
    intros x Hx. apply filter_In. split; [|apply M, Hx].
    apply in_seq. specialize (Hlt x Hx). lia.
Qed.

Lemma slice_indices_length (start step stop : nat) :
  length (slice_indices start step stop)
  = if start <? stop then (stop - start - 1) / step + 1 else 0.
Proof. unfold slice_indices. rewrite length_map, length_seq. reflexivity. Qed.

Lemma slice_indices_In (start step stop x : nat) :
  0 < step -> In x (slice_indices start step stop) -> x < stop.
Proof.
  intros Hs Hx. unfold slice_indices in Hx.
  apply in_map_iff in Hx. destruct Hx as [k [<- Hk]]. apply in_seq in Hk.
  destruct (Nat.ltb_spec start stop) as [L|L]; [|lia].
  assert (Hk' : k <= (stop - start - 1) / step) by lia.
  pose proof (Nat.Div0.mul_div_le (stop - start - 1) step) as D.
  assert (k * step <= step * ((stop - start - 1) / step)) by nia.
  lia.
Qed.

Lemma slice_indices_NoDup (start step stop : nat) :
  0 < step -> NoDup (slice_indices start step stop).
Proof.
  intros Hs. unfold slice_indices.
  apply Finite.Injective_map_NoDup; [|apply seq_NoDup].
  intros j k E. nia.
Qed.

Lemma seeds_along_bounds (n a : nat) :
  0 < a <= n ->
  a <= seeds_along n a /\ (n mod a = 0 -> seeds_along n a = a).
Proof.
  intros [Ha Hn]. unfold seeds_along. rewrite slice_indices_length.
  assert (Hs : 0 < n / a) by (apply Nat.div_str_pos; lia).
  assert (Hstart : n / (2 * a) = n / a / 2)
    by (rewrite Nat.Div0.div_div; f_equal; lia).
  assert (Hhalf : n / a / 2 < n / a) by (apply Nat.div_lt; lia).
  pose proof (Nat.Div0.mul_div_le n a) as Hle.
  rewrite Hstart.
  set (s := n / a) in *. set (h := s / 2) in *.
  assert (L : h < n) by nia.
  destruct (Nat.ltb_spec h n) as [_|C]; [|lia].
  split.
  - assert (a - 1 <= (n - h - 1) / s); [|lia].
    apply Nat.div_le_lower_bound; [lia|]. nia.
  - intros Hm.
    assert (E : n = a * s).
    { unfold s. apply Nat.Div0.div_exact. exact Hm. }
    assert ((n - h - 1) / s = a - 1); [|lia].
    symmetry. apply Nat.div_unique with (r := n - h - 1 - s * (a - 1)); nia.
Qed.

Lemma count_ones (P : nat * nat * nat -> bool) (l : list (nat * nat * nat)) :
  length (filter (fun x : float => PrimFloat.eqb x 1)
                 (map (fun c => if P c then f1 else f0) l))
  = length (filter P l).
Proof.
  assert (E1 : PrimFloat.eqb (f1 (F:=float)) 1 = true) by reflexivity.
  assert (E0 : PrimFloat.eqb (f0 (F:=float)) 1 = false) by reflexivity.
  induction l as [|c l IH]; [reflexivity|].
  cbn [map filter]. destruct (P c).
  - rewrite E1. cbn [length]. rewrite IH. reflexivity.
  - rewrite E0. exact IH.
Qed.

(** X6. When [anisotropic_seeds] returns, the array has one float64 entry
    per voxel, each 0 or 1, and the entries equal to 1 number the product
    of the seeds along the three axes; along an axis there are at least as
    many seeds as asked for, and exactly as many when the amount divides
    the axis. *)
Theorem anisotropic_seeds_count (n0 n1 n2 a0 a1 a2 : nat) (seeds : list float) :
  anisotropic_seeds [n0; n1; n2] [a0; a1; a2] = inr seeds ->
  length seeds = n0 * n1 * n2
  /\ Forall (fun x => x = 0%float \/ x = 1%float) seeds
  /\ length (filter (fun x => PrimFloat.eqb x 1) seeds)
     = seeds_along n0 a0 * seeds_along n1 a1 * seeds_along n2 a2
  /\ Forall2 (fun n a => a <= seeds_along n a /\ (n mod a = 0 -> seeds_along n a = a))
             [n0; n1; n2] [a0; a1; a2].
Proof.
  intros E.
  destruct (anisotropic_seeds_three float_Num n0 n1 n2 a0 a1 a2)
    as [[_ Hr]|[[_ [_ Hr]]|[[H0 [H1 H2]] _]]];
    try (rewrite E in Hr; discriminate Hr).
  unfold anisotropic_seeds in E.
  destruct ((a0 =? 0) || (a1 =? 0) || (a2 =? 0)); [discriminate E|].
  destruct ((n0 / a0 =? 0) || (n1 / a1 =? 0) || (n2 / a2 =? 0)) eqn:Hstep;
    [discriminate E|].
  apply orb_false_iff in Hstep. destruct Hstep as [Hstep S2].
  apply orb_false_iff in Hstep. destruct Hstep as [S0 S1].
  apply Nat.eqb_neq in S0, S1, S2.
  injection E as E. subst seeds.
  split; [|split; [|split]].
  - rewrite length_map. unfold all_voxels.
    assert (G : forall lx ly lz : list nat,
               length (flat_map (fun x : nat =>
                                   flat_map (fun y : nat => map (fun z : nat => (x, y, z)) lz) ly)
                                lx)
               = length lx * length ly * length lz).
    { intros lx ly lz.
      assert (Gy : forall x : nat,
                 length (flat_map (fun y : nat => map (fun z : nat => (x, y, z)) lz) ly)
                 = length ly * length lz).
      { intros x. induction ly as [|y ly IH]; simpl; [reflexivity|].
        rewrite length_app, length_map, IH. reflexivity. }
      induction lx as [|x lx IH]; simpl; [reflexivity|].
      rewrite length_app, Gy, IH. lia. }
    rewrite G, !length_seq. reflexivity.
  - apply Forall_forall. intros x Hx. apply in_map_iff in Hx.
    destruct Hx as [[[cx cy] cz] [<- _]].
    destruct (existsb _ _ && existsb _ _ && existsb _ _); [right|left]; reflexivity.
  - set (P := fun c : nat * nat * nat =>
                let '(x, y, z) := c in
                existsb (Nat.eqb x) (slice_indices (n0 / (2 * a0)) (n0 / a0) n0)
                && existsb (Nat.eqb y) (slice_indices (n1 / (2 * a1)) (n1 / a1) n1)
                && existsb (Nat.eqb z) (slice_indices (n2 / (2 * a2)) (n2 / a2) n2)).
    rewrite (map_ext _ (fun c : nat * nat * nat => if P c then f1 else f0 (F:=float)))
      by (intros [[x y] z]; reflexivity).
    rewrite (count_ones P). subst P.
    unfold all_voxels.
    rewrite (count_along_x
                 (fun x => existsb (Nat.eqb x) (slice_indices (n0 / (2 * a0)) (n0 / a0) n0))
                 (fun y => existsb (Nat.eqb y) (slice_indices (n1 / (2 * a1)) (n1 / a1) n1))
                 (fun z => existsb (Nat.eqb z) (slice_indices (n2 / (2 * a2)) (n2 / a2) n2))).
    rewrite !count_members;
      try (apply slice_indices_NoDup; lia);
      try (intros x; apply slice_indices_In; lia).
    unfold seeds_along. lia.
  - repeat constructor; try (apply seeds_along_bounds; lia);
      try (intros Hm; apply seeds_along_bounds; [lia|exact Hm]).
Qed.

Lemma anisotropic_seeds_count_witness :
  exists seeds : list float,
    anisotropic_seeds [4; 6; 2] [2; 3; 1] = inr seeds
    /\ length seeds = 4 * 6 * 2
    /\ length (filter (fun x => PrimFloat.eqb x 1) seeds)
       = seeds_along 4 2 * seeds_along 6 3 * seeds_along 2 1.
Proof.
  eexists. split; [reflexivity|].
  split;
    apply (@anisotropic_seeds_count 4 6 2 2 3 1 _ eq_refl).
Defined.

(* ------------------------------------------------------------------ *)
(** * The graph builder: sizes, plain rows and edge rows *)

Lemma indicator_sum (x : Z) (U : list Z) :
  NoDup U ->
  fold_right Z.add 0%Z (map (fun l => if (l =? x)%Z then 1 else 0)%Z U)
  = if mem_Z x U then 1%Z else 0%Z.
Proof.
  unfold mem_Z. induction 1 as [|y U Hy Hnd IH]; [reflexivity|].
  cbn [map fold_right existsb]. rewrite IH.
  rewrite (Z.eqb_sym x y).
  destruct (Z.eqb_spec y x) as [->|Hne]; cbn [orb].
  - destruct (existsb (Z.eqb x) U) eqn:E; [|reflexivity].
    exfalso. apply Hy. apply existsb_exists in E. destruct E as [z [Hz E]].
    apply Z.eqb_eq in E. subst. exact Hz.
  - reflexivity.
Qed.

Lemma counts_sum (U a : list Z) :
  NoDup U -> (forall x, In x a -> In x U) ->
  fold_right Z.add 0%Z (map (fun l => Z.of_nat (length (filter (Z.eqb l) a))) U)
  = Z.of_nat (length a).
Proof.
  intros Hnd. induction a as [|x a IH]; intros Hin.
  - cbn [filter length]. induction U as [|y U IHU]; [reflexivity|].
    cbn [map fold_right]. rewrite IHU; [reflexivity|inversion Hnd; assumption|].
    intros z [].
  - assert (E : forall l, Z.of_nat (length (filter (Z.eqb l) (x :: a)))
                          = ((if (l =? x)%Z then 1 else 0)
                             + Z.of_nat (length (filter (Z.eqb l) a)))%Z).
    { intros l. cbn [filter]. destruct (l =? x)%Z; cbn [length]; lia. }
    rewrite (map_ext _ _ E).
    assert (S : forall (f g : Z -> Z) (l : list Z),
               fold_right Z.add 0%Z (map (fun t => f t + g t)%Z l)
               = (fold_right Z.add 0%Z (map f l) + fold_right Z.add 0%Z (map g l))%Z).
    { intros f g l. induction l as [|t l IHl]; [reflexivity|].
      cbn [map fold_right]. rewrite IHl. lia. }
    rewrite S, IH, (indicator_sum x Hnd) by (intros z Hz; apply Hin; right; exact Hz).
    assert (M : mem_Z x U = true) by (apply mem_Z_In, Hin; left; reflexivity).
    rewrite M. cbn [length]. lia.
Qed.

Lemma sorted_NoDup (l : list Z) : StronglySorted Z.lt l -> NoDup l.
Proof.
  induction 1 as [|x l Hs IH Hx]; constructor; [|exact IH].
  intros Hin. rewrite Forall_forall in Hx. specialize (Hx x Hin). lia.
Qed.

(** X7. The sizes [compute_attributes] returns, one per distinct label, are
    positive and add up to the number of voxels of the labelmap. *)
Theorem sizes_partition_the_volume (F : Type) (N : Num F) (volume : list F)
    (labelmap : LabelMap) :
  exists sizes,
    compute_attributes volume labelmap "size" = Some (Sizes (F:=F) sizes)
    /\ length sizes = length (np_unique (lm_data labelmap))
    /\ Forall (fun s => (0 < s)%Z) sizes
    /\ fold_right Z.add 0%Z sizes = Z.of_nat (length (lm_data labelmap)).
Proof.
  exists (unique_counts (lm_data labelmap)). split; [reflexivity|].
  unfold unique_counts. split; [apply length_map|]. split.
  - apply Forall_forall. intros s Hs. apply in_map_iff in Hs.
    destruct Hs as [l [<- Hl]]. apply (proj1 (np_unique_In _ _)) in Hl.
    assert (Hf : In l (filter (Z.eqb l) (lm_data labelmap)))
      by (apply filter_In; split; [exact Hl|apply Z.eqb_refl]).
    destruct (filter (Z.eqb l) (lm_data labelmap)); [destruct Hf|cbn [length]; lia].
  - apply counts_sum.
    + apply sorted_NoDup, np_unique_sorted.
    + intros x Hx. apply np_unique_In. exact Hx.
Qed.

Section PlainRows.
Context {F : Type} `{Num F}.

Lemma index_of_nth (U : list Z) (i : nat) :
  NoDup U -> i < length U -> index_of (nth i U 0%Z) U = i.
Proof.
  intros Hnd Hi.
  assert (Hin : In (nth i U 0%Z) U) by (apply nth_In; exact Hi).
  apply (proj1 (NoDup_nth U 0%Z) Hnd).
  - apply index_of_lt. exact Hin.
  - exact Hi.
  - apply nth_index_of. exact Hin.
Qed.

Lemma plain_row (volume : list F) (labelmap : LabelMap) (add_edges : bool) (i : nat) :
  i < length (np_unique (lm_data labelmap)) ->
  nth i (vertices (build_graph volume labelmap add_edges None)) []
  = region_vertex volume labelmap (nth i (np_unique (lm_data labelmap)) 0%Z).
Proof.
  intros Hi. rewrite build_graph_vertices_plain.
  assert (Hin : In (nth i (np_unique (lm_data labelmap)) 0%Z) (lm_data labelmap))
    by (apply (proj1 (np_unique_In _ _)), nth_In; exact Hi).
  pose proof (@attributes_at_index F _ volume labelmap
                (nth i (np_unique (lm_data labelmap)) 0%Z) Hin) as A.
  cbv zeta in A.
  rewrite (index_of_nth (sorted_NoDup (np_unique_sorted (lm_data labelmap))) Hi) in A.
  rewrite <- A.
  rewrite column_stack_nth.
  - rewrite (@nth_map_lt _ _ of_Z (unique_counts (lm_data labelmap)) i f0 0%Z)
      by (unfold unique_counts; rewrite length_map; exact Hi).
    reflexivity.
  - unfold measure_center_of_mass. rewrite length_map. exact Hi.
  - unfold region_intensities. rewrite length_map, length_seq. exact Hi.
  - unfold unique_counts. rewrite !length_map. exact Hi.
Qed.

(** X8. Without [target_vertices], [build_graph] makes one vertex per
    distinct label of the labelmap, in ascending order of the labels: row
    [i] holds the centroid, the mean intensity and the voxel count of the
    [i]-th smallest label. *)
Theorem build_graph_plain_rows (volume : list F) (labelmap : LabelMap) (add_edges : bool) :
  let g := build_graph volume labelmap add_edges None in
  let labels := np_unique (lm_data labelmap) in
  length (vertices g) = length labels
  /\ StronglySorted Z.lt labels
  /\ (forall l, In l labels <-> In l (lm_data labelmap))
  /\ forall i, i < length labels ->
       nth i (vertices g) [] = region_vertex volume labelmap (nth i labels 0%Z).
Proof.
  intros g labels. split; [apply build_graph_vertices_count|].
  split; [apply np_unique_sorted|].
  split; [intros l; apply np_unique_In|].
  intros i Hi. apply plain_row. exact Hi.
Qed.

Lemma graph_of_vertices (volume : list F) (labelmap : LabelMap) (add_edges : bool)
    (tv : option nat) :
  build_graph volume labelmap add_edges tv
  = let V := vertices (build_graph volume labelmap add_edges tv) in
    if negb add_edges then
      {| vertices := V; edges := [];
         vertex_attributes := vertex_names; edge_attributes := [] |}
    else
      {| vertices := V; edges := relational_edges V;
         vertex_attributes := vertex_names; edge_attributes := edge_names |}.
Proof. destruct add_edges; reflexivity. Qed.

Lemma aligned_graph_is_plain (volume : list F) (labelmap : LabelMap)
    (add_edges : bool) (K : nat) :
  (forall x, In x (lm_data labelmap) <-> (0 <= x < Z.of_nat K)%Z) ->
  build_graph volume labelmap add_edges (Some K)
  = build_graph volume labelmap add_edges None.
Proof.
  intros Hlab.
  assert (HU : np_unique (lm_data labelmap) = map Z.of_nat (seq 0 K)).
  { apply sorted_same_elements; [apply np_unique_sorted|apply seq_sorted|].
    intros x. rewrite np_unique_In, Hlab, in_map_iff. split.
    - intros Hx. exists (Z.to_nat x). split; [lia|apply in_seq; lia].
    - intros [k [<- Hk]]. apply in_seq in Hk. lia. }
  assert (HV : vertices (build_graph volume labelmap add_edges (Some K))
               = vertices (build_graph volume labelmap add_edges None)).
  { apply nth_ext with (d := []) (d' := []).
    - rewrite build_graph_vertices_length, build_graph_vertices_count, HU,
        length_map, length_seq. reflexivity.
    - intros k Hk. rewrite build_graph_vertices_length in Hk.
      rewrite plain_row by (rewrite HU, length_map, length_seq; exact Hk).
      rewrite HU, (@nth_map_lt _ _ Z.of_nat (seq 0 K) k 0%Z 0)
        by (rewrite length_seq; exact Hk).
      rewrite seq_nth by exact Hk. cbn [Nat.add].
      rewrite build_graph_vertices_target.
      pose proof (@target_rows_nth F _ (np_unique (lm_data labelmap))
                    (measure_center_of_mass labelmap (np_unique (lm_data labelmap)))
                    (region_intensities volume labelmap)
                    (unique_counts (lm_data labelmap))
                    (np_unique_sorted (lm_data labelmap)) K 0 k Hk) as T.
      assert (B0 : below (Z.of_nat 0) (np_unique (lm_data labelmap)) = 0).
      { apply below_nonneg. intros x Hx. apply (proj1 (np_unique_In _ _)) in Hx.
        apply Hlab in Hx. lia. }
      rewrite B0 in T. cbn [Nat.add] in T. rewrite T.
      assert (Hin : In (Z.of_nat k) (lm_data labelmap)) by (apply Hlab; lia).
      assert (M : mem_Z (Z.of_nat k) (np_unique (lm_data labelmap)) = true)
        by (apply mem_Z_In, np_unique_In; exact Hin).
      rewrite M. apply attributes_at_index. exact Hin. }
  rewrite (graph_of_vertices volume labelmap add_edges (Some K)),
          (graph_of_vertices volume labelmap add_edges None).
  cbv zeta. rewrite HV. reflexivity.
Qed.

(** X9. When the labels of the labelmap are exactly [0 .. K-1], the graph
    aligned on [K] target vertices is the graph built without
    [target_vertices]. *)
Theorem build_graph_aligned_is_plain (volume : list F) (labelmap : LabelMap)
    (add_edges : bool) (K : nat) :
  (forall x, In x (lm_data labelmap) <-> (0 <= x < Z.of_nat K)%Z) ->
  build_graph volume labelmap add_edges (Some K)
  = build_graph volume labelmap add_edges None.
Proof. apply aligned_graph_is_plain. Qed.

(** X10. With [add_edges], the [n] vertices get [n * n] edges, the edge
    from vertex [i] to vertex [j] at row [i * n + j]: the difference of the
    two centroids, the absolute difference of the two intensities and the
    quotient of the two sizes. Without [add_edges] the vertices are the
    same and there is no edge. *)
Theorem build_graph_edge_rows (volume : list F) (labelmap : LabelMap)
    (target_vertices : option nat) :
  let g := build_graph volume labelmap true target_vertices in
  let n := length (vertices g) in
  length (edges g) = n * n
  /\ (forall i j, i < n -> j < n ->
        let vi := nth i (vertices g) [] in
        let vj := nth j (vertices g) [] in
        nth (i * n + j) (edges g) []
        = vsub (firstn 3 vi) (firstn 3 vj)
            ++ [fabs (fsub (nth 3 vi f0) (nth 3 vj f0)); fdiv (nth 4 vi f0) (nth 4 vj f0)])
  /\ vertices (build_graph volume labelmap false target_vertices) = vertices g
  /\ edges (build_graph volume labelmap false target_vertices) = [].
Proof.
  intros g n. subst g n. rewrite build_graph_edges. split; [|split; [|split]].
  - apply relational_edges_length.
  - intros i j Hi Hj vi vj. apply relational_edges_nth; assumption.
  - reflexivity.
  - reflexivity.
Qed.

End PlainRows.

Lemma build_graph_aligned_is_plain_witness :
  build_graph half_model_volume half_model_labelmap true (Some 2)
  = build_graph half_model_volume half_model_labelmap true None.
Proof.
  apply (@build_graph_aligned_is_plain float float_Num half_model_volume half_model_labelmap
           true 2).
  intros x. simpl. lia.
Defined.

(* ------------------------------------------------------------------ *)
(** * The cost model: equal graphs, weights of sum zero, scaled weights *)

Lemma map2_diag {A C} (f : A -> A -> C) (l : list A) :
  map2 f l l = map (fun x => f x x) l.
Proof. induction l as [|x l IH]; [reflexivity|]. simpl. rewrite IH. reflexivity. Qed.

Lemma sub_self (x : float) : is_finite x -> (x - x)%float = 0%float.
Proof.
  unfold is_finite. intros Hx. apply Prim2SF_inj. rewrite FloatAxioms.sub_spec.
  change (Prim2SF 0) with (S754_zero false).
  destruct (Prim2SF x) as [s|s| |s m e]; try contradiction.
  - destruct s; reflexivity.
  - unfold SF64sub, SFsub. rewrite Z.min_id. unfold shl_align.
    rewrite Z.sub_diag. reflexivity.
Qed.

Lemma mul_finite_zero (w z : float) : is_finite w -> is_zero z -> is_zero (w * z).
Proof.
  unfold is_finite, is_zero. intros Hw [s Hz]. rewrite FloatAxioms.mul_spec, Hz.
  destruct (Prim2SF w) as [t|t| |t m e]; try contradiction; eexists; reflexivity.
Qed.

Lemma square_zero (z : float) : is_zero z -> (z * z)%float = 0%float.
Proof.
  intros [s Hz]. apply Prim2SF_inj. rewrite FloatAxioms.mul_spec, Hz.
  destruct s; reflexivity.
Qed.

Lemma zero_is_zero : is_zero 0.
Proof. exists false. reflexivity. Qed.

Lemma np_sum_zeros (v : list float) :
  Forall (fun x => x = 0%float) v -> np_sum v = 0%float.
Proof.
  unfold np_sum. change (f0 (F:=float)) with 0%float.
  induction 1 as [|x v Hx Hv IH]; [reflexivity|].
  cbn [fold_left]. rewrite Hx. exact IH.
Qed.

Lemma norm_row_self (w r : list float) :
  Forall is_finite w -> Forall is_finite r ->
  norm_row (vmul w (vsub r r)) = 0%float.
Proof.
  intros Hw Hr. unfold norm_row.
  rewrite np_sum_zeros; [reflexivity|].
  apply Forall_forall. intros q Hq. apply in_map_iff in Hq.
  destruct Hq as [t [<- Ht]]. apply square_zero.
  revert t Ht. apply Forall_forall. unfold vmul.
  apply (@Forall_map2 _ _ _ is_finite is_zero is_zero); [apply mul_finite_zero|exact Hw|].
  unfold vsub. rewrite map2_diag. apply Forall_forall. intros d Hd.
  apply in_map_iff in Hd. destruct Hd as [x [<- Hx]].
  rewrite sub_self; [apply zero_is_zero|].
  rewrite Forall_forall in Hr. apply Hr, Hx.
Qed.

Lemma is_finite_removelast (r : list float) :
  Forall is_finite r -> Forall is_finite (removelast r).
Proof.
  intros Hr. apply Forall_forall. intros x Hx.
  rewrite Forall_forall in Hr. apply Hr.
  destruct r as [|y r]; [destruct Hx|].
  assert (E : y :: r = removelast (y :: r) ++ [last (y :: r) 0%float])
    by (apply app_removelast_last; discriminate).
  rewrite E. apply in_or_app. left. exact Hx.
Qed.

Lemma self_cost_rows (M : list (list float)) (weights : list float) :
  Forall (Forall is_finite) M ->
  Forall is_finite (renormalize weights) ->
  linalg_norm (mmul_row (renormalize weights) (msub M M)) = repeat 0%float (length M).
Proof.
  intros HM Hw.
  rewrite linalg_norm_rows, map2_diag, <- map_const_repeat.
  apply map_ext_in. intros r Hr. apply norm_row_self; [exact Hw|].
  rewrite Forall_forall in HM. apply HM, Hr.
Qed.

(** X11. In float64, a graph costs exactly 0 against itself, row by row,
    under each of the three cost functions, when its attributes and the
    renormalized weights are finite. *)
Theorem cost_against_itself_is_zero (M : list (list float)) (weights : list float) :
  Forall (Forall is_finite) M ->
  Forall is_finite (renormalize weights) ->
  (Forall (fun r => length r = length weights) M ->
   compute_vertex_cost M M (Some weights) = repeat 0%float (length M)
   /\ compute_edge_cost M M (Some weights) = repeat 0%float (length M))
  /\ (Forall (fun r => length r = S (length weights)) M ->
      compute_initial_vertex_cost M M (Some weights) = repeat 0%float (length M)).
Proof.
  intros HM Hw.
  pose proof (@self_cost_rows M weights HM Hw) as G.
  split.
  - intros _. split; exact G.
  - intros _. unfold compute_initial_vertex_cost, drop_last_col.
    rewrite linalg_norm_rows, map2_diag, map_map, <- map_const_repeat.
    apply map_ext_in. intros r Hr. apply norm_row_self; [exact Hw|].
    apply is_finite_removelast. rewrite Forall_forall in HM. apply HM, Hr.
Qed.

Lemma cost_against_itself_is_zero_witness :
  compute_vertex_cost [[fl 1; fl (-2)]; [fl 3; fl 0]] [[fl 1; fl (-2)]; [fl 3; fl 0]]
                      (Some [fl 1; fl 7])
  = repeat 0%float 2
  /\ compute_edge_cost [[fl 1; fl (-2)]; [fl 3; fl 0]] [[fl 1; fl (-2)]; [fl 3; fl 0]]
                       (Some [fl 1; fl 7])
     = repeat 0%float 2.
Proof.
  apply (proj1 (@cost_against_itself_is_zero [[fl 1; fl (-2)]; [fl 3; fl 0]] [fl 1; fl 7]
                  ltac:(repeat constructor) ltac:(repeat constructor))).
  repeat constructor.
Defined.

Lemma div_by_zero (x z : float) : is_zero z -> is_NaN (x / z) \/ is_Inf (x / z).
Proof.
  unfold is_NaN, is_Inf. intros [s Hz]. rewrite FloatAxioms.div_spec, Hz.
  destruct (Prim2SF x) as [t|t| |t m e]; simpl;
    solve [left; reflexivity | right; eexists; reflexivity].
Qed.

Lemma mul_NaN_or_Inf (w d : float) :
  is_NaN w \/ is_Inf w -> is_NaN (w * d) \/ is_Inf (w * d).
Proof.
  intros [Hw|[s Hw]]; [left; apply NaN_mul_l, Hw|].
  unfold is_NaN, is_Inf. rewrite FloatAxioms.mul_spec, Hw.
  destruct (Prim2SF d) as [t|t| |t m e]; simpl;
    solve [left; reflexivity | right; eexists; reflexivity].
Qed.

Lemma square_NaN_or_Inf (t : float) :
  is_NaN t \/ is_Inf t -> is_NaN (t * t) \/ is_PInf (t * t).
Proof.
  intros [Ht|Ht]; [left; apply NaN_mul_l, Ht|right; apply square_Inf, Ht].
Qed.

Lemma np_sum_NaN_or_PInf (v : list float) :
  v <> [] -> Forall (fun x => is_NaN x \/ is_PInf x) v ->
  is_NaN (np_sum v) \/ is_PInf (np_sum v).
Proof.
  intros Hne Hall. unfold np_sum. change (f0 (F:=float)) with 0%float.
  assert (G : forall a, a = 0%float \/ is_NaN a \/ is_PInf a -> v <> [] ->
                        is_NaN (fold_left fadd v a) \/ is_PInf (fold_left fadd v a)).
  { clear Hne. induction Hall as [|x v Hx Hv IH]; intros a Ha Hne; [congruence|].
    cbn [fold_left].
    assert (Hax : is_NaN (fadd a x) \/ is_PInf (fadd a x)).
    { destruct Ha as [->|[Ha|Ha]].
      - destruct Hx as [Hx|Hx]; [left; apply NaN_add_r, Hx|right].
        apply add_PInf; [left; reflexivity|exact Hx].
      - left. apply NaN_add_l, Ha.
      - destruct Hx as [Hx|Hx]; [left; apply NaN_add_r, Hx|right].
        apply add_PInf; [right; exact Ha|exact Hx]. }
    destruct v as [|y v]; [exact Hax|].
    apply IH; [right; exact Hax|discriminate]. }
  apply G; [left; reflexivity|exact Hne].
Qed.

Lemma norm_row_zero_sum (w' d : list float) :
  w' <> [] -> d <> [] ->
  Forall (fun x => is_NaN x \/ is_Inf x) w' ->
  is_NaN (norm_row (vmul w' d)) \/ is_PInf (norm_row (vmul w' d)).
Proof.
  intros Hw Hd Hall. unfold norm_row.
  assert (S : is_NaN (np_sum (map (fun x => fmul x x) (vmul w' d)))
              \/ is_PInf (np_sum (map (fun x => fmul x x) (vmul w' d)))).
  { apply np_sum_NaN_or_PInf.
    - destruct w' as [|a w']; [congruence|]. destruct d as [|b d]; [congruence|].
      discriminate.
    - apply Forall_forall. intros q Hq. apply in_map_iff in Hq.
      destruct Hq as [t [<- Ht]]. apply square_NaN_or_Inf.
      revert t Ht. apply Forall_forall. unfold vmul.
      apply (@Forall_map2 _ _ _ (fun x => is_NaN x \/ is_Inf x) (fun _ => True)
                          (fun x => is_NaN x \/ is_Inf x));
        [intros x y Hx _; apply mul_NaN_or_Inf, Hx|exact Hall|].
      apply Forall_forall. intros; exact I. }
  destruct S as [S|S]; [left; apply NaN_sqrt, S|right; apply sqrt_PInf, S].
Qed.

(** X12. In float64, when the weights add up to zero (of either sign), no
    cost is finite: every entry [compute_vertex_cost] and
    [compute_edge_cost] return is NaN or +infinity. *)
Theorem zero_sum_weights_give_no_finite_cost (M1 M2 : list (list float))
    (weights : list float) :
  weights <> [] ->
  is_zero (np_sum weights) ->
  Forall (fun r => length r = length weights) M1 ->
  Forall (fun r => length r = length weights) M2 ->
  Forall (fun c => is_NaN c \/ is_PInf c) (compute_vertex_cost M1 M2 (Some weights))
  /\ Forall (fun c => is_NaN c \/ is_PInf c) (compute_edge_cost M1 M2 (Some weights)).
Proof.
  intros Hne Hz H1 H2.
  assert (G : Forall (fun c => is_NaN c \/ is_PInf c)
                     (linalg_norm (mmul_row (renormalize weights) (msub M1 M2)))).
  { rewrite linalg_norm_rows.
    apply (@Forall_map2 _ _ _ (fun r => length r = length weights)
                        (fun r => length r = length weights)); [|exact H1|exact H2].
    intros a b Ha Hb. apply norm_row_zero_sum.
    - intros E. apply (f_equal (@length float)) in E.
      rewrite renormalize_length in E. destruct weights; [congruence|discriminate E].
    - intros E. apply (f_equal (@length float)) in E.
      unfold vsub in E. rewrite map2_length, Ha, Hb, Nat.min_id in E.
      destruct weights; [congruence|discriminate E].
    - unfold renormalize. apply Forall_forall. intros q Hq. apply in_map_iff in Hq.
      destruct Hq as [x [<- _]]. apply div_by_zero, Hz. }
  split; exact G.
Qed.

Lemma zero_sum_weights_give_no_finite_cost_witness :
  Forall (fun c => is_NaN c \/ is_PInf c)
         (compute_vertex_cost [[fl 1; fl 2]] [[fl 3; fl 2]] (Some [fl 1; fl (-1)]))
  /\ Forall (fun c => is_NaN c \/ is_PInf c)
            (compute_edge_cost [[fl 1; fl 2]] [[fl 3; fl 2]] (Some [fl 1; fl (-1)])).
Proof.
  apply (@zero_sum_weights_give_no_finite_cost [[fl 1; fl 2]] [[fl 3; fl 2]]
           [fl 1; fl (-1)]).
  - discriminate.
  - exists false. reflexivity.
  - repeat constructor.
  - repeat constructor.
Defined.

Lemma Rsum_times (c : R) (ws : list R) : Rsum (map (Rmult c) ws) = (c * Rsum ws)%R.
Proof.
  induction ws as [|w ws IH]; simpl; [lra|]. unfold Rsum in *. rewrite IH. lra.
Qed.

Lemma renormalize_scaled (c : R) (ws : list R) :
  c <> 0%R -> Rsum ws <> 0%R ->
  renormalize (map XFin (map (Rmult c) ws)) = renormalize (map XFin ws).
Proof.
  intros Hc Hs.
  assert (Hcs : Rsum (map (Rmult c) ws) <> 0%R).
  { rewrite Rsum_times. apply Rmult_integral_contrapositive. split; assumption. }
  rewrite !renormalize_XFin by assumption.
  f_equal. rewrite map_map. apply map_ext. intros w.
  rewrite Rsum_times. field. split; assumption.
Qed.

(** X13. In exact arithmetic the costs depend on the ratios of the
    weights only: multiplying every weight by one nonzero factor changes
    none of the three cost functions (the weights not adding up to 0). *)
Theorem cost_weights_scale_invariance (c : R) (ws : list R) (M1 M2 : list (list xreal)) :
  c <> 0%R -> Rsum ws <> 0%R ->
  let scaled := map XFin (map (Rmult c) ws) in
  compute_vertex_cost M1 M2 (Some scaled) = compute_vertex_cost M1 M2 (Some (map XFin ws))
  /\ compute_edge_cost M1 M2 (Some scaled) = compute_edge_cost M1 M2 (Some (map XFin ws))
  /\ compute_initial_vertex_cost M1 M2 (Some scaled)
     = compute_initial_vertex_cost M1 M2 (Some (map XFin ws)).
Proof.
  intros Hc Hs scaled. subst scaled.
  unfold compute_vertex_cost, compute_edge_cost, compute_initial_vertex_cost.
  rewrite (renormalize_scaled ws Hc Hs). repeat split; reflexivity.
Qed.

Lemma cost_weights_scale_invariance_witness :
  compute_vertex_cost [[XFin 1; XFin 2]] [[XFin 3; XPInf]]
                      (Some (map XFin (map (Rmult 2) [1; 7]%R)))
  = compute_vertex_cost [[XFin 1; XFin 2]] [[XFin 3; XPInf]] (Some (map XFin [1; 7]%R)).
Proof.
  apply (@cost_weights_scale_invariance 2%R [1; 7]%R [[XFin 1; XFin 2]] [[XFin 3; XPInf]]).
  - lra.
  - simpl. lra.
Defined.

Lemma weighted_square_swap (w a b : xreal) :
  xmul (xmul w (xsub a b)) (xmul w (xsub a b))
  = xmul (xmul w (xsub b a)) (xmul w (xsub b a)).
Proof.
  destruct w as [w| | |], a as [a| | |], b as [b| | |]; simpl; try reflexivity;
    unfold Reqb, xinf_of_sign; unfold Rltb;
    repeat match goal with
           | |- context [Req_dec_T ?x ?y] => destruct (Req_dec_T x y)
           | |- context [Rlt_dec ?x ?y] => destruct (Rlt_dec x y)
           end; simpl; try reflexivity; try (exfalso; lra); try (f_equal; ring).
Qed.

(** X14. In exact arithmetic the cost functions are symmetric in the two
    graphs they compare, infinite and NaN attributes included. *)
Theorem cost_symmetric (M1 M2 : list (list xreal)) (weights : list xreal) :
  length M1 = length M2 ->
  compute_vertex_cost M1 M2 (Some weights) = compute_vertex_cost M2 M1 (Some weights)
  /\ compute_edge_cost M1 M2 (Some weights) = compute_edge_cost M2 M1 (Some weights)
  /\ compute_initial_vertex_cost M1 M2 (Some weights)
     = compute_initial_vertex_cost M2 M1 (Some weights).
Proof.
  intros _.
  assert (R : forall (w a b : list xreal),
             norm_row (vmul w (vsub a b)) = norm_row (vmul w (vsub b a))).
  { intros w a b. unfold norm_row. f_equal. f_equal.
    revert a b. induction w as [|x w IH]; intros [|p a] [|q b]; try reflexivity.
    cbn [vmul vsub map2 map]. cbn [vmul vsub] in IH. rewrite IH.
    f_equal. apply weighted_square_swap. }
  assert (G : forall (w : list xreal) (A B : list (list xreal)),
             linalg_norm (mmul_row w (msub A B)) = linalg_norm (mmul_row w (msub B A))).
  { intros w A B. rewrite !linalg_norm_rows.
    revert B. induction A as [|a A IH]; intros [|b B]; try reflexivity.
    cbn [map2]. rewrite IH, R. reflexivity. }
  unfold compute_vertex_cost, compute_edge_cost, compute_initial_vertex_cost.
  repeat split; apply G.
Qed.

Lemma cost_symmetric_witness :
  compute_vertex_cost [[XFin 1; XPInf]] [[XFin 3; XFin 2]] (Some [XFin 1; XFin 7])
  = compute_vertex_cost [[XFin 3; XFin 2]] [[XFin 1; XPInf]] (Some [XFin 1; XFin 7]).
Proof.
  apply (@cost_symmetric [[XFin 1; XPInf]] [[XFin 3; XFin 2]] [XFin 1; XFin 7]).
  reflexivity.
Defined.

(* ------------------------------------------------------------------ *)
(** * The normalizer applied again, and the initial solution *)

Lemma zeros_to_one_again (v : list float) :
  zeros_to_one (zeros_to_one v) = zeros_to_one v.
Proof.
  unfold zeros_to_one. rewrite map_map. apply map_ext. intros x.
  destruct (feqb x f0) eqn:E; [reflexivity|]. rewrite E. reflexivity.
Qed.

Lemma zeros_to_one_nonzero (v : list float) :
  Forall (fun s => PrimFloat.eqb s 0 = false) (zeros_to_one v).
Proof.
  unfold zeros_to_one. apply Forall_forall. intros s Hs.
  apply in_map_iff in Hs. destruct Hs as [x [<- _]].
  destruct (feqb x f0) eqn:E; [reflexivity|exact E].
Qed.

Lemma normalize_graph_again (graph : SRG (F:=float)) :
  let fitted := normalize_graph graph None None None None in
  let again := normalize_graph graph (n_mean_vertex fitted) (n_std_vertex fitted)
                               (n_mean_edge fitted) (n_std_edge fitted) in
  n_graph again = n_graph fitted
  /\ n_mean_vertex again = n_mean_vertex fitted
  /\ n_std_vertex again = n_std_vertex fitted
  /\ n_mean_edge again = n_mean_edge fitted
  /\ n_std_edge again = n_std_edge fitted
  /\ n_return_values again = negb (0 <? length (edges graph)).
Proof.
  unfold normalize_graph.
  destruct (0 <? length (edges graph)) eqn:E; cbn [n_graph n_mean_vertex n_std_vertex
    n_mean_edge n_std_edge n_return_values or_else is_None orb negb];
    rewrite ?E, ?zeros_to_one_again; repeat split; reflexivity.
Qed.

(** X15. In float64, [normalize_graph] called without statistics returns
    them, with no zero among the standard deviations; called again on the
    same attributes with the statistics it returned, it produces the same
    normalized graph and the same statistics. The second call returns the
    graph alone only when the graph has edges: without edges the edge
    statistics stay [None], and the tuple is returned again. *)
Theorem normalize_graph_refit (graph : SRG (F:=float)) :
  let fitted := normalize_graph graph None None None None in
  let again := normalize_graph graph (n_mean_vertex fitted) (n_std_vertex fitted)
                               (n_mean_edge fitted) (n_std_edge fitted) in
  n_return_values fitted = true
  /\ Forall (fun s => PrimFloat.eqb s 0 = false) (or_else (n_std_vertex fitted) [])
  /\ Forall (fun s => PrimFloat.eqb s 0 = false) (or_else (n_std_edge fitted) [])
  /\ n_graph again = n_graph fitted
  /\ n_mean_vertex again = n_mean_vertex fitted
  /\ n_std_vertex again = n_std_vertex fitted
  /\ n_mean_edge again = n_mean_edge fitted
  /\ n_std_edge again = n_std_edge fitted
  /\ n_return_values again = negb (0 <? length (edges graph)).
Proof.
  intros fitted again.
  split; [|split; [|split]].
  - unfold fitted, normalize_graph. destruct (0 <? length (edges graph)); reflexivity.
  - unfold fitted, normalize_graph.
    destruct (0 <? length (edges graph)); cbn [n_std_vertex or_else];
      apply zeros_to_one_nonzero.
  - unfold fitted, normalize_graph.
    destruct (0 <? length (edges graph)); cbn [n_std_edge or_else];
      [apply zeros_to_one_nonzero|constructor].
  - apply normalize_graph_again.
Qed.

Section InitialSolution.
Context {F : Type} `{Num F}.

Lemma argmin_scan_index (a : list F) (mp : F) (mi i : nat) :
  fst (argmin_scan mp mi i a) = mi
  \/ i <= fst (argmin_scan mp mi i a) < i + length a.
Proof.
  revert mp mi i. induction a as [|x a IH]; intros mp mi i; cbn [argmin_scan].
  - left. reflexivity.
  - destruct (negb (fleb mp x)).
    + destruct (fis_nan x); [right; cbn [fst length]; lia|].
      destruct (IH x i (S i)) as [E|E]; right; cbn [length]; lia.
    + destruct (IH mp mi (S i)) as [E|E]; [left; exact E|right; cbn [length]; lia].
Qed.

Lemma min_scan_index (a : list F) :
  match min_scan a with
  | None => a = []
  | Some (j, _) => j < length a
  end.
Proof.
  destruct a as [|x a]; [reflexivity|]. cbn [min_scan].
  destruct (fis_nan x); [cbn [length]; lia|].
  destruct (argmin_scan x 0 1 a) as [j m] eqn:E.
  pose proof (argmin_scan_index a x 0 1) as I. rewrite E in I. cbn [fst] in I.
  cbn [length]. lia.
Qed.

Lemma initial_costs_length (model_graph : SRG (F:=F)) (initial_weights super_vertex : list F) :
  length (compute_initial_vertex_cost (repeat super_vertex (n_model model_graph))
                                      (vertices model_graph) (Some initial_weights))
  = n_model model_graph.
Proof.
  unfold compute_initial_vertex_cost, linalg_norm, mmul_row, msub, drop_last_col.
  rewrite !length_map, map2_length, !length_map, repeat_length.
  unfold n_model. apply Nat.min_id.
Qed.

Lemma initial_solution_of_shape (model_graph : SRG (F:=F)) (initial_weights : list F)
    (super_vertices : list (list F)) :
  match initial_solution_of model_graph initial_weights super_vertices with
  | None => super_vertices <> [] /\ n_model model_graph = 0
  | Some (solution, solution_costs) =>
      length solution = length super_vertices
      /\ length solution_costs = length super_vertices
      /\ Forall (fun l => (0 <= l < Z.of_nat (n_model model_graph))%Z) solution
      /\ (super_vertices = [] \/ 0 < n_model model_graph)
  end.
Proof.
  induction super_vertices as [|sv rest IH]; cbn [initial_solution_of].
  - repeat split; [constructor|left; reflexivity].
  - unfold initial_match.
    pose proof (min_scan_index
                  (compute_initial_vertex_cost (repeat sv (n_model model_graph))
                     (vertices model_graph) (Some initial_weights))) as I.
    destruct (min_scan _) as [[l c]|].
    + rewrite initial_costs_length in I.
      destruct (initial_solution_of model_graph initial_weights rest) as [[sol costs]|].
      * destruct IH as [L1 [L2 [R _]]]. cbn [length].
        split; [lia|]. split; [lia|]. split; [|right; lia].
        constructor; [lia|exact R].
      * split; [discriminate|apply IH].
    + split; [discriminate|].
      apply (f_equal (@length F)) in I. rewrite initial_costs_length in I. exact I.
Qed.

(** X16. The initial solution (step 5) raises exactly when the model graph
    has no vertex while the observation has a super-region; otherwise it
    gives every super-region of the observation one model label in
    [0 .. n_model - 1] and one cost. *)
Theorem initial_solution_shape (observation : list F) (observed_labelmap : LabelMap)
    (model_graph : SRG (F:=F))
    (mean_vertex std_vertex mean_edge std_edge initial_weights : list F) :
  let result := initial_solution observation observed_labelmap model_graph mean_vertex
                                 std_vertex mean_edge std_edge initial_weights in
  let regions := length (np_unique (lm_data observed_labelmap)) in
  (result = None <-> 0 < regions /\ n_model model_graph = 0)
  /\ forall solution solution_costs,
       result = Some (solution, solution_costs) ->
       length solution = regions
       /\ length solution_costs = regions
       /\ Forall (fun l => (0 <= l < Z.of_nat (n_model model_graph))%Z) solution.
Proof.
  intros result regions.
  assert (L : length (vertices (super_graph observation observed_labelmap mean_vertex
                                            std_vertex mean_edge std_edge)) = regions).
  { unfold super_graph. rewrite normalized_vertices_length. apply build_graph_vertices_count. }
  pose proof (initial_solution_of_shape model_graph initial_weights
                (vertices (super_graph observation observed_labelmap mean_vertex
                                       std_vertex mean_edge std_edge))) as S.
  fold (initial_solution observation observed_labelmap model_graph mean_vertex
                         std_vertex mean_edge std_edge initial_weights) in S.
  fold result in S.
  destruct result as [[sol costs]|].
  - destruct S as [L1 [L2 [R D]]]. split.
    + split; [discriminate|]. intros [Hr Hm]. exfalso.
      destruct D as [D|D]; [|lia].
      rewrite D in L. cbn [length] in L. lia.
    + intros solution solution_costs E. injection E as <- <-.
      repeat split; [lia|lia|exact R].
  - destruct S as [Hne Hm]. split.
    + split; [|reflexivity]. intros _. split; [|exact Hm].
      destruct (vertices (super_graph observation observed_labelmap mean_vertex
                                      std_vertex mean_edge std_edge));
        [congruence|cbn [length] in L; lia].
    + intros solution solution_costs E. discriminate E.
Qed.

End InitialSolution.

Lemma fle_or_flt (x y : float) :
  not_nan x -> not_nan y -> fleb x y = true \/ fltb y x = true.
Proof.
  intros Hx Hy. destruct (fleb x y) eqn:E; [left; reflexivity|right].
  apply not_fleb_fltb; assumption.
Qed.

Lemma flt_fle_trans (x y z : float) :
  not_nan z -> fltb x y = true -> fleb y z = true -> fltb x z = true.
Proof.
  intros Hz Hxy Hyz.
  assert (Hx : not_nan x) by (apply (proj1 (fltb_key x y)) in Hxy; apply Hxy).
  destruct (@fle_or_flt z x Hz Hx) as [Hzx|Hlt]; [|exact Hlt].
  exfalso. pose proof (@fleb_trans y z x Hyz Hzx) as C.
  rewrite (@fltb_irrefl_le x y Hxy) in C. discriminate C.
Qed.

Lemma argmin_scan_first (a : list float) (mp : float) (mi i : nat) :
  not_nan mp -> Forall not_nan a ->
  let r := argmin_scan mp mi i a in
  (fst r = mi /\ snd r = mp /\ Forall (fun x => fleb mp x = true) a)
  \/ exists k, k < length a /\ fst r = i + k /\ snd r = nth k a 0%float
               /\ fltb (snd r) mp = true
               /\ (forall k', k' < k -> fltb (snd r) (nth k' a 0%float) = true)
               /\ Forall (fun x => fleb (snd r) x = true) a.
Proof.
  intros Hmp Ha. revert mp mi i Hmp.
  induction Ha as [|x a Hx Ha IH]; intros mp mi i Hmp; cbn [argmin_scan].
  - left. repeat split. constructor.
  - assert (Nx : fis_nan x = false) by exact Hx.
    destruct (fleb mp x) eqn:E; cbn [negb].
    + destruct (IH mp mi (S i) Hmp) as [[E1 [E2 Hall]]|[k [Hk [E1 [E2 [Hlt [Hfirst Hall]]]]]]].
      * left. repeat split; [exact E1|exact E2|constructor; assumption].
      * right. exists (S k). cbn [length nth].
        assert (Hmx : fltb (snd (argmin_scan mp mi (S i) a)) x = true)
          by (apply (@flt_fle_trans _ mp x Hx Hlt E)).
        repeat split; [lia|lia|exact E2|exact Hlt| |].
        -- intros [|k'] Hk'; [exact Hmx|apply Hfirst; lia].
        -- constructor; [apply fltb_fleb, Hmx|exact Hall].
    + rewrite Nx.
      assert (Hxm : fltb x mp = true) by (apply not_fleb_fltb; assumption).
      destruct (IH x i (S i) Hx) as [[E1 [E2 Hall]]|[k [Hk [E1 [E2 [Hlt [Hfirst Hall]]]]]]].
      * right. exists 0. cbn [length nth]. rewrite E2.
        repeat split; [lia|lia|exact Hxm|intros k' Hk'; lia|].
        constructor; [apply fleb_refl, Hx|exact Hall].
      * right. exists (S k). cbn [length nth].
        repeat split; [lia|lia|exact E2|apply (@fltb_trans _ x mp Hlt Hxm)| |].
        -- intros [|k'] Hk'; [exact Hlt|apply Hfirst; lia].
        -- constructor; [apply fltb_fleb, Hlt|exact Hall].
Qed.

Lemma argmin_scan_first_nan (a : list float) (p : nat) (mp : float) (mi i : nat) :
  not_nan mp -> p < length a -> is_NaN (nth p a 0%float) ->
  (forall k, k < p -> not_nan (nth k a 0%float)) ->
  argmin_scan mp mi i a = (i + p, nth p a 0%float).
Proof.
  revert p mp mi i. induction a as [|x a IH]; intros p mp mi i Hmp Hp Hnan Hbefore;
    [cbn [length] in Hp; lia|].
  cbn [argmin_scan]. destruct p as [|p].
  - cbn [nth] in *. apply fis_nan_spec in Hnan.
    assert (E : fleb mp x = false).
    { destruct (fleb mp x) eqn:E; [|reflexivity].
      apply (proj1 (fleb_key mp x)) in E. destruct E as [_ [Hx _]].
      unfold not_nan in Hx. congruence. }
    rewrite E, Hnan. cbn [negb]. f_equal. lia.
  - assert (Hx : not_nan x) by (apply (Hbefore 0); lia).
    assert (Nx : fis_nan x = false) by exact Hx.
    cbn [length] in Hp. cbn [nth] in *.
    assert (T : forall k, k < p -> not_nan (nth k a 0%float))
      by (intros k Hk; apply (Hbefore (S k)); lia).
    destruct (fleb mp x); cbn [negb]; rewrite ?Nx.
    + rewrite (IH p mp mi (S i) Hmp ltac:(lia) Hnan T). f_equal. lia.
    + rewrite (IH p x i (S i) Hx ltac:(lia) Hnan T). f_equal. lia.
Qed.

Lemma min_scan_first (a : list float) (l : nat) (c : float) :
  min_scan a = Some (l, c) ->
  l < length a /\ c = nth l a 0%float
  /\ (Forall not_nan a ->
      Forall (fun x => fleb c x = true) a
      /\ forall j, j < l -> fltb c (nth j a 0%float) = true)
  /\ (forall p, p < length a -> is_NaN (nth p a 0%float) ->
        (forall k, k < p -> not_nan (nth k a 0%float)) -> l = p).
Proof.
  intros E. destruct (@min_scan_value a l c E) as [Hl Hc].
  split; [exact Hl|]. split; [exact Hc|].
  destruct a as [|x a]; [discriminate E|]. cbn [min_scan] in E. split.
  - intros Hall. pose proof (Forall_inv Hall) as Hx.
    pose proof (Forall_inv_tail Hall) as Ha.
    assert (Nx : fis_nan x = false) by exact Hx. rewrite Nx in E.
    injection E as E.
    destruct (@argmin_scan_first a x 0 1 Hx Ha) as [[E1 [E2 Hle]]|[k [Hk [E1 [E2 [Hlt [Hfirst Hle]]]]]]];
      rewrite E in E1, E2; cbn [fst snd] in E1, E2.
    + subst l. rewrite E2. split; [|intros j Hj; lia].
      constructor; [apply fleb_refl, Hx|exact Hle].
    + rewrite E in Hlt, Hfirst, Hle. cbn [snd] in Hlt, Hfirst, Hle. split.
      * constructor; [apply fltb_fleb, Hlt|exact Hle].
      * intros [|j] Hj; [exact Hlt|]. cbn [nth]. apply Hfirst. lia.
  - intros p Hp Hnan Hbefore. destruct p as [|p].
    + cbn [nth] in Hnan. apply fis_nan_spec in Hnan. rewrite Hnan in E.
      injection E as E _. symmetry. exact E.
    + assert (Hx : not_nan x) by (apply (Hbefore 0); lia).
      assert (Nx : fis_nan x = false) by exact Hx. rewrite Nx in E.
      cbn [length] in Hp. cbn [nth] in Hnan.
      rewrite (@argmin_scan_first_nan a p x 0 1 Hx ltac:(lia) Hnan) in E.
      * injection E as E _. symmetry. exact E.
      * intros k Hk. apply (Hbefore (S k)). lia.
Qed.

(** X17. In float64, the label the initial solution gives a super-vertex is
    the arg-min of its costs to the model vertices, and the cost it records
    is the cost of that label. When no cost is NaN, the label is the first
    one of least cost: no label costs less, and every earlier label costs
    strictly more. When a cost is NaN, the label is the first one whose
    cost is NaN. *)
Theorem initial_match_first_cheapest (model_graph : SRG (F:=float))
    (initial_weights super_vertex : list float) (label : nat) (cost : float) :
  initial_match model_graph initial_weights super_vertex = Some (label, cost) ->
  let costs := compute_initial_vertex_cost (repeat super_vertex (n_model model_graph))
                                           (vertices model_graph) (Some initial_weights) in
  label < n_model model_graph
  /\ cost = nth label costs 0%float
  /\ (Forall not_nan costs ->
      Forall (fun x => fleb cost x = true) costs
      /\ forall j, j < label -> fltb cost (nth j costs 0%float) = true)
  /\ (forall p, p < n_model model_graph -> is_NaN (nth p costs 0%float) ->
        (forall k, k < p -> not_nan (nth k costs 0%float)) -> label = p /\ is_NaN cost).
Proof.
  intros E costs. unfold initial_match in E. fold costs in E.
  pose proof (initial_costs_length model_graph initial_weights super_vertex) as L.
  fold costs in L.
  destruct (@min_scan_first costs label cost E) as [Hl [Hc [Hmin Hnan]]].
  rewrite L in Hl, Hnan.
  split; [exact Hl|]. split; [exact Hc|]. split; [exact Hmin|].
  intros p Hp Hp' Hbefore.
  assert (El : label = p) by (apply Hnan; assumption).
  split; [exact El|]. rewrite Hc, El. exact Hp'.
Qed.

Lemma initial_match_first_cheapest_witness :
  exists label cost,
    initial_match half_model_graph initial_weights_2d
                  [fl 1; fl 0; fl 0; fl 180; fl 1] = Some (label, cost)
    /\ label < n_model half_model_graph
    /\ cost = nth label
                (compute_initial_vertex_cost
                   (repeat [fl 1; fl 0; fl 0; fl 180; fl 1] (n_model half_model_graph))
                   (vertices half_model_graph) (Some initial_weights_2d)) 0%float.
Proof.
  eexists. eexists. split; [vm_compute; reflexivity|].
  split;
    apply (@initial_match_first_cheapest half_model_graph initial_weights_2d
             [fl 1; fl 0; fl 0; fl 180; fl 1] _ _ eq_refl).
Defined.

(* ------------------------------------------------------------------ *)
(** * The two ways of joining regions *)

Lemma held_by_label (s : list Z) (label : nat) (o : Z) :
  existsb (fun r => (Z.of_nat r =? o)%Z) (positions_of (Z.of_nat label) s)
  = ((0 <=? o)%Z && (o <? Z.of_nat (length s))%Z
     && (nth (Z.to_nat o) s 0 =? Z.of_nat label)%Z).
Proof.
  apply eq_true_iff_eq. rewrite existsb_exists, !andb_true_iff.
  rewrite Z.leb_le, Z.ltb_lt, Z.eqb_eq. split.
  - intros [r [Hr E]]. apply Z.eqb_eq in E. subst o.
    apply (proj1 (positions_of_In _ _ _)) in Hr.
    assert (Hlt : r < length s) by (apply nth_error_Some; congruence).
    rewrite Nat2Z.id. repeat split; try lia.
    apply nth_error_nth. exact Hr.
  - intros [[H0 H1] E]. exists (Z.to_nat o). split; [|apply Z.eqb_eq; lia].
    apply positions_of_In. rewrite <- E. apply nth_error_nth'. lia.
Qed.

Section Joins.
Context {F : Type} `{Num F}.
Variable observed : LabelMap.
Variable model_graph : SRG (F:=F).

(** The label the label-wise join gives a voxel of super-region [o]. *)
Let shown (K : nat) (s : list Z) (o : Z) : Z :=
  if (0 <=? o)%Z && (o <? Z.of_nat (length s))%Z
     && (0 <=? nth (Z.to_nat o) s 0)%Z && (nth (Z.to_nat o) s 0 <? Z.of_nat K)%Z
  then nth (Z.to_nat o) s 0%Z else 0%Z.

Lemma join_labels_fold (s : list Z) (K : nat) :
  fold_left (assign_label observed s) (seq 0 K) (zeros_like_observed observed)
  = map (shown K s) (lm_data observed).
Proof.
  induction K as [|K IH].
  - cbn [seq fold_left]. unfold zeros_like_observed.
    rewrite <- map_const_repeat. apply map_ext. intros o. unfold shown.
    destruct ((0 <=? o)%Z && (o <? Z.of_nat (length s))%Z
              && (0 <=? nth (Z.to_nat o) s 0)%Z) eqn:E; [|reflexivity].
    cbn [andb]. destruct (Z.ltb_spec (nth (Z.to_nat o) s 0%Z) (Z.of_nat 0)); [lia|reflexivity].
  - rewrite seq_S, fold_left_app, IH. cbn [Nat.add fold_left].
    unfold assign_label. rewrite map2_map_same. apply map_ext. intros o.
    rewrite held_by_label. unfold shown.
    destruct (Z.leb_spec 0 o), (Z.ltb_spec o (Z.of_nat (length s))); cbn [andb];
      try reflexivity.
    destruct (Z.eqb_spec (nth (Z.to_nat o) s 0%Z) (Z.of_nat K)) as [E|E].
    + rewrite E.
      destruct (Z.leb_spec 0 (Z.of_nat K)), (Z.ltb_spec (Z.of_nat K) (Z.of_nat (S K)));
        cbn [andb]; first [lia|reflexivity].
    + destruct (Z.leb_spec 0 (nth (Z.to_nat o) s 0%Z)); cbn [andb]; [|reflexivity].
      destruct (Z.ltb_spec (nth (Z.to_nat o) s 0%Z) (Z.of_nat K)),
               (Z.ltb_spec (nth (Z.to_nat o) s 0%Z) (Z.of_nat (S K)));
        first [reflexivity|lia].
Qed.

Lemma join_by_label_data (s : list Z) :
  lm_data (join_by_label observed model_graph s)
  = map (shown (n_model model_graph) s) (lm_data observed).
Proof. unfold join_by_label. cbn [lm_data]. apply join_labels_fold. Qed.

(** X18. The label-wise join of the contiguity code gives the voxels of a
    super-region the label the solution holds for it when this is one of
    the model labels [0 .. n_model - 1], and label 0 otherwise: a
    super-region left at [-1] is drawn as label 0, where the element-wise
    join of [calibration.py] writes the [-1]. *)
Theorem join_by_label_shows_unassigned_as_zero (s : list Z) :
  let joined := join_by_label observed model_graph s in
  lm_shape joined = lm_shape observed
  /\ length (lm_data joined) = length (lm_data observed)
  /\ forall p, p < length (lm_data observed) ->
       let o := nth p (lm_data observed) 0%Z in
       let l := nth (Z.to_nat o) s 0%Z in
       (0 <= o < Z.of_nat (length s))%Z ->
       nth p (lm_data joined) 0%Z
       = (if (0 <=? l)%Z && (l <? Z.of_nat (n_model model_graph))%Z then l else 0%Z)
       /\ nth p (lm_data (join_by_element observed s)) 0%Z = l.
Proof.
  intros joined. split; [reflexivity|]. unfold joined.
  rewrite join_by_label_data. split; [apply length_map|].
  intros p Hp Ho. set (o := nth p (lm_data observed) 0%Z) in *.
  set (l := nth (Z.to_nat o) s 0%Z). split.
  - rewrite (@nth_map_lt _ _ (shown (n_model model_graph) s) (lm_data observed) p 0%Z 0%Z Hp).
    fold o. unfold shown. fold l.
    destruct (Z.leb_spec 0 o), (Z.ltb_spec o (Z.of_nat (length s)));
      first [lia|reflexivity].
  - rewrite join_by_element_data.
    rewrite (@nth_map_lt _ _ _ (lm_data observed) p 0%Z 0%Z Hp). fold o.
    destruct (Z.leb_spec 0 o), (Z.ltb_spec o (Z.of_nat (length s)));
      first [lia|reflexivity].
Qed.

(** X19. On a solution whose entries are all model labels, the label-wise
    join of [2d_full_process.py] and the element-wise join of
    [calibration.py] build the same labelmap. *)
Theorem joins_agree_on_assigned_solutions (s : list Z) :
  Forall (fun l => (0 <= l < Z.of_nat (n_model model_graph))%Z) s ->
  join_by_label observed model_graph s = join_by_element observed s.
Proof.
  intros Hs. apply labelmap_ext; [reflexivity|].
  rewrite join_by_label_data, join_by_element_data. apply map_ext. intros o.
  unfold shown.
  destruct (Z.leb_spec 0 o), (Z.ltb_spec o (Z.of_nat (length s))); cbn [andb];
    try reflexivity.
  rewrite Forall_forall in Hs.
  assert (R : (0 <= nth (Z.to_nat o) s 0 < Z.of_nat (n_model model_graph))%Z)
    by (apply Hs, nth_In; lia).
  destruct (Z.leb_spec 0 (nth (Z.to_nat o) s 0%Z)),
           (Z.ltb_spec (nth (Z.to_nat o) s 0%Z) (Z.of_nat (n_model model_graph)));
    first [lia|reflexivity].
Qed.

End Joins.

Lemma join_by_label_shows_unassigned_as_zero_witness :
  nth 1 (lm_data (join_by_label half_observed_labelmap half_model_graph [0; -1; -1; 1]%Z)) 0%Z
  = 0%Z
  /\ nth 1 (lm_data (join_by_element half_observed_labelmap [0; -1; -1; 1]%Z)) 0%Z = (-1)%Z.
Proof.
  apply (proj2 (proj2 (@join_by_label_shows_unassigned_as_zero float
                         half_observed_labelmap half_model_graph [0; -1; -1; 1]%Z)) 1).
  - vm_compute. lia.
  - vm_compute. split; [discriminate|reflexivity].
Defined.

Lemma joins_agree_on_assigned_solutions_witness :
  join_by_label half_observed_labelmap half_model_graph [0; 1; 0; 1]%Z
  = join_by_element half_observed_labelmap [0; 1; 0; 1]%Z.
Proof.
  apply (@joins_agree_on_assigned_solutions float half_observed_labelmap
           half_model_graph [0; 1; 0; 1]%Z).
  repeat constructor; vm_compute; congruence.
Defined.

(* ------------------------------------------------------------------ *)
(** * The region adjacency graph *)

Lemma RAG_neighbour (observed : LabelMap) (r m : nat) :
  In m (RAG observed r) <->
  exists u w, In u (all_voxels (lm_shape observed))
              /\ region_at observed u = Z.of_nat r
              /\ In w (face_neighbours (lm_shape observed) u)
              /\ region_at observed w <> Z.of_nat r
              /\ m = Z.to_nat (region_at observed w).
Proof.
  unfold RAG. cbv zeta. rewrite nodup_In, in_flat_map. split.
  - intros [u [Hu Hm]]. fold (region_at observed u) in Hm.
    destruct (Z.eqb_spec (region_at observed u) (Z.of_nat r)) as [E|E]; [|destruct Hm].
    apply in_map_iff in Hm. destruct Hm as [w [Em Hw]].
    apply filter_In in Hw. destruct Hw as [Hw Hne].
    fold (region_at observed w) in Hne, Em.
    apply negb_true_iff, Z.eqb_neq in Hne.
    exists u, w. repeat split; auto.
  - intros [u [w [Hu [E [Hw [Hne Em]]]]]]. exists u. split; [exact Hu|].
    fold (region_at observed u). rewrite E, Z.eqb_refl.
    apply in_map_iff. exists w. fold (region_at observed w). split; [auto|].
    apply filter_In. split; [exact Hw|]. fold (region_at observed w).
    apply negb_true_iff, Z.eqb_neq. exact Hne.
Qed.

(** X20. On an over-segmentation into the super-regions [0 .. n-1], the
    region adjacency graph is an undirected graph on these ids without
    loops: the neighbours of a super-region are listed once, are ids below
    [n] other than its own, and have it among their neighbours. *)
Theorem super_adjacency_undirected (observed : LabelMap) (n : nat) :
  segmentation_ok observed n ->
  forall i,
    NoDup (super_adjacency observed i)
    /\ forall j, In j (super_adjacency observed i) ->
         i < n /\ j < n /\ j <> i /\ In i (super_adjacency observed j).
Proof.
  intros Hseg i. unfold super_adjacency. split; [apply NoDup_nodup|].
  intros j Hj. apply RAG_neighbour in Hj.
  destruct Hj as [u [w [Hu [Eu [Hw [Hne Ej]]]]]].
  destruct (@face_neighbours_grid _ u w Hu Hw) as [Hw' Huw].
  pose proof (@region_at_range observed n Hseg u Hu) as Ru.
  pose proof (@region_at_range observed n Hseg w Hw') as Rw.
  split; [lia|]. split; [lia|]. split; [lia|].
  apply RAG_neighbour. exists w, u.
  split; [exact Hw'|]. split; [lia|]. split; [exact Huw|]. split; [lia|].
  rewrite Eu, Nat2Z.id. reflexivity.
Qed.

Lemma super_adjacency_undirected_witness :
  NoDup (super_adjacency half_observed_labelmap 1)
  /\ forall j, In j (super_adjacency half_observed_labelmap 1) ->
       1 < 4 /\ j < 4 /\ j <> 1 /\ In 1 (super_adjacency half_observed_labelmap j).
Proof.
  apply (@super_adjacency_undirected half_observed_labelmap 4 half_segmentation_ok 1).
Defined.

(* ------------------------------------------------------------------ *)
(** * The detection needs every label to be held *)

Lemma positions_of_absent (x : Z) (a : list Z) : ~ In x a -> positions_of x a = [].
Proof.
  intros Hx. destruct (positions_of x a) as [|r l] eqn:E; [reflexivity|].
  exfalso. apply Hx.
  assert (Hr : In r (positions_of x a)) by (rewrite E; left; reflexivity).
  apply (proj1 (positions_of_In _ _ _)) in Hr. apply nth_error_In in Hr. exact Hr.
Qed.

Lemma assoc_voxel_const {A} (c : voxel) (l : list (voxel * A)) (d : A) :
  (forall p, In p l -> snd p = d) -> assoc_voxel c l d = d.
Proof.
  induction l as [|[c' v] l IH]; intros Hall; cbn [assoc_voxel]; [reflexivity|].
  destruct (voxel_eqb c c').
  - apply (Hall (c', v)). left. reflexivity.
  - apply IH. intros p Hp. apply Hall. right. exact Hp.
Qed.

Lemma components_of_empty_mask (sh : nat * nat * nat) (mask : voxel -> bool) :
  (forall c, mask c = false) -> components sh mask = [].
Proof.
  intros Hm. unfold components.
  assert (G : forall l, fold_left (add_component sh mask) l [] = []).
  { induction l as [|c l IH]; [reflexivity|]. cbn [fold_left].
    unfold add_component at 2. rewrite Hm. cbn [andb]. exact IH. }
  apply G.
Qed.

Lemma assign_all_entries (regions : list nat) (value : Z) (s : list Z) (x : Z) :
  In x (assign_all regions value s) -> x = value \/ In x s.
Proof.
  unfold assign_all. revert s. induction regions as [|r regions IH]; intros s Hx;
    cbn [fold_left] in Hx; [right; exact Hx|].
  destruct (IH _ Hx) as [E|Hin]; [left; exact E|].
  assert (G : forall (i : nat) (l : list Z), In x (set_nth i value l) -> x = value \/ In x l).
  { clear. intros i l. revert i. induction l as [|y l IHl]; intros [|i] Hx;
      cbn [set_nth] in Hx; try (right; exact Hx).
    - destruct Hx as [E|Hx]; [left; symmetry; exact E|right; right; exact Hx].
    - destruct Hx as [E|Hx]; [right; left; exact E|].
      destruct (IHl i Hx) as [E|Hin]; [left; exact E|right; right; exact Hin]. }
  apply G in Hin. exact Hin.
Qed.

Section Unused.
Context {F : Type} `{Num F}.
Variable observation : list F.
Variable observed : LabelMap.
Variables mean_vertex std_vertex mean_edge std_edge initial_weights : list F.

Lemma unused_label_no_component (s : list Z) (label : nat) :
  ~ In (Z.of_nat label) s -> snd (potential_regions observed s label) = 0.
Proof.
  intros Hl. unfold potential_regions, ndi_label. cbn [snd].
  rewrite components_of_empty_mask; [reflexivity|].
  intros c. unfold grid_get. apply assoc_voxel_const.
  intros [c' v] Hp. apply in_combine_r in Hp. cbn [snd].
  unfold solution_map in Hp. rewrite positions_of_absent in Hp by exact Hl.
  apply in_map_iff in Hp. destruct Hp as [o [<- _]]. reflexivity.
Qed.

Lemma detect_label_unused (s : list Z) (label : nat) (mv : list F) :
  ~ In (Z.of_nat label) s ->
  detect_label observation observed mean_vertex std_vertex mean_edge std_edge
               initial_weights s label mv = None.
Proof.
  intros Hl. pose proof (@unused_label_no_component s label Hl) as E0.
  pose proof (@component_costs_none F _ observation observed mean_vertex std_vertex
                mean_edge std_edge initial_weights s label mv E0) as Hc.
  unfold detect_label.
  destruct (potential_regions observed s label) as [prm prc] eqn:Ep.
  cbn [snd] in E0. subst prc. cbn [Nat.eqb].
  destruct (component_costs observation observed mean_vertex std_vertex mean_edge std_edge
              initial_weights s label mv) as [|c0 [|c1 rest]];
    [reflexivity|reflexivity|cbn [length] in Hc; lia].
Qed.

Lemma detect_label_entries (s : list Z) (label : nat) (mv : list F) (s' : list Z) (x : Z) :
  detect_label observation observed mean_vertex std_vertex mean_edge std_edge
               initial_weights s label mv = Some s' ->
  In x s' -> x = Z.of_nat label \/ x = (-1)%Z \/ In x s.
Proof.
  intros Hd Hx.
  destruct (@detect_label_cases F _ observation observed mean_vertex std_vertex mean_edge
              std_edge initial_weights s label mv s' Hd) as [[_ ->]|[_ [a [_ ->]]]].
  - right. right. exact Hx.
  - apply assign_all_entries in Hx. destruct Hx as [E|Hx]; [left; exact E|].
    apply assign_all_entries in Hx. destruct Hx as [E|Hx]; [right; left; exact E|].
    right. right. exact Hx.
Qed.

Lemma detect_from_unused (mvs : list (list F)) :
  forall (first : nat) (s : list Z) (label : nat),
    first <= label < first + length mvs ->
    ~ In (Z.of_nat label) s ->
    detect_from observation observed mean_vertex std_vertex mean_edge std_edge
                initial_weights first mvs s = None.
Proof.
  induction mvs as [|mv rest IH]; intros first s label Hl Hs; cbn [length] in Hl; [lia|].
  cbn [detect_from].
  destruct (detect_label observation observed mean_vertex std_vertex mean_edge std_edge
              initial_weights s first mv) as [s'|] eqn:Ed; [|reflexivity].
  destruct (Nat.eq_dec first label) as [E|E].
  - subst first. rewrite detect_label_unused in Ed by exact Hs. discriminate Ed.
  - apply (IH (S first) s' label); [lia|].
    intros Hin. destruct (@detect_label_entries s first mv s' _ Ed Hin) as [E'|[E'|Hin']];
      [lia|lia|exact (Hs Hin')].
Qed.

(** X22. The component detection of [2d_full_process.py] raises (the
    [ValueError] of [np.argmin] on an empty array) whenever the solution it
    is given leaves one of the model labels unused. *)
Theorem contiguity_detect_needs_every_label (model_graph : SRG (F:=F)) (s : list Z)
    (label : nat) :
  label < n_model model_graph ->
  ~ In (Z.of_nat label) s ->
  contiguity_detect observation observed model_graph mean_vertex std_vertex mean_edge
                    std_edge initial_weights s = None.
Proof.
  intros Hl Hs. unfold contiguity_detect.
  apply (@detect_from_unused (vertices model_graph) 0 s label); [|exact Hs].
  unfold n_model in Hl. lia.
Qed.

End Unused.

Lemma contiguity_detect_needs_every_label_witness :
  contiguity_detect alternating_volume half_observed_labelmap half_model_graph
                    half_mean_vertex half_std_vertex half_mean_edge half_std_edge
                    initial_weights_2d [0; 0; 0; 0]%Z = None.
Proof.
  apply (@contiguity_detect_needs_every_label float float_Num alternating_volume
           half_observed_labelmap half_mean_vertex half_std_vertex half_mean_edge
           half_std_edge initial_weights_2d half_model_graph [0; 0; 0; 0]%Z 1).
  - vm_compute. lia.
  - simpl. intros [E|[E|[E|[E|[]]]]]; discriminate E.
Defined.

(* ------------------------------------------------------------------ *)
(** * Improvement: labels spread from neighbour to neighbour *)

Lemma set_nth_entries {A} (i : nat) (v x : A) (l : list A) :
  In x (set_nth i v l) -> x = v \/ In x l.
Proof.
  revert i. induction l as [|y l IH]; intros [|i] Hx; cbn [set_nth] in Hx;
    try (right; exact Hx).
  - destruct Hx as [E|Hx]; [left; symmetry; exact E|right; right; exact Hx].
  - destruct Hx as [E|Hx]; [right; left; exact E|].
    destruct (IH i Hx) as [E|Hin]; [left; exact E|right; right; exact Hin].
Qed.

Section Spread.
Context {F : Type} `{Num F}.
Variable observation : list F.
Variable observed_labelmap : LabelMap.
Variable model_graph : SRG (F:=F).
Variables mean_vertex std_vertex mean_edge std_edge : list F.
Variables vertex_weights edge_weights : list F.
Variable graph_weights : F * F.

Local Abbreviation step :=
  (improve_step observation observed_labelmap model_graph mean_vertex std_vertex mean_edge
                std_edge vertex_weights edge_weights graph_weights).
Local Abbreviation held_after st i :=
  (fst (improve_vertex observation observed_labelmap model_graph mean_vertex std_vertex
                       mean_edge std_edge vertex_weights edge_weights graph_weights st i)).

Lemma improve_vertex_candidates (st : State (F:=F)) (i : nat) :
  held_after st i = nth i (solution st) 0%Z
  \/ exists m, In m (super_adjacency observed_labelmap i)
               /\ held_after st i = nth m (solution st) 0%Z.
Proof.
  unfold improve_vertex.
  assert (G : forall (l : list Z) (current : Z * F),
             fst (fold_left (try_prediction observation observed_labelmap model_graph
                               mean_vertex std_vertex mean_edge std_edge vertex_weights
                               graph_weights (joined_labelmap st) i) l current)
             = fst current
             \/ In (fst (fold_left (try_prediction observation observed_labelmap model_graph
                                      mean_vertex std_vertex mean_edge std_edge
                                      vertex_weights graph_weights (joined_labelmap st) i)
                                   l current)) l).
  { induction l as [|p l IH]; intros current; cbn [fold_left]; [left; reflexivity|].
    destruct (IH (try_prediction observation observed_labelmap model_graph mean_vertex
                    std_vertex mean_edge std_edge vertex_weights graph_weights
                    (joined_labelmap st) i current p)) as [E|Hin];
      [|right; right; exact Hin].
    rewrite E. unfold try_prediction.
    destruct (p =? fst current)%Z; [left; reflexivity|].
    destruct (fltb _ (snd current)); [right; left; reflexivity|left; reflexivity]. }
  destruct (G (potential_predictions observed_labelmap (solution st) i)
              (nth i (solution st) 0%Z,
               current_cost model_graph vertex_weights edge_weights graph_weights st))
    as [E|Hin]; [left; exact E|right].
  unfold potential_predictions in Hin. apply nodup_In in Hin.
  apply in_map_iff in Hin. destruct Hin as [m [Em Hm]].
  exists m. split; [exact Hm|symmetry; exact Em].
Qed.

(** X24. Soft contiguity: an improvement step on super-vertex [i] changes
    no other entry of the solution, and leaves at [i] the label it had or
    the label of one of its spatial neighbours; the priority of [i] is set
    to 0 and no other priority changes. *)
Theorem improve_step_soft_contiguity (st : State (F:=F)) (i : nat) :
  let st' := step st i in
  length (solution st') = length (solution st)
  /\ (forall j, j <> i -> nth j (solution st') 0%Z = nth j (solution st) 0%Z)
  /\ (i < length (solution st) ->
      nth i (solution st') 0%Z = nth i (solution st) 0%Z
      \/ exists m, In m (super_adjacency observed_labelmap i)
                   /\ nth i (solution st') 0%Z = nth m (solution st) 0%Z)
  /\ solution_costs st' = set_nth i f0 (solution_costs st).
Proof.
  intros st'. subst st'. cbn [improve_step solution solution_costs].
  split; [apply set_nth_length|]. split; [|split; [|reflexivity]].
  - intros j Hj. apply nth_set_nth_other. lia.
  - intros Hi. rewrite nth_set_nth_same by exact Hi. apply improve_vertex_candidates.
Qed.

Variable n : nat.
Hypothesis Hseg : segmentation_ok observed_labelmap n.

Lemma step_entries (st : State (F:=F)) (i : nat) (x : Z) :
  length (solution st) = n ->
  In x (solution (step st i)) -> In x (solution st).
Proof.
  intros Hn Hx. cbn [improve_step solution] in Hx.
  destruct (Nat.lt_ge_cases i (length (solution st))) as [Hi|Hi].
  - apply set_nth_entries in Hx. destruct Hx as [E|Hx]; [|exact Hx].
    destruct (improve_vertex_candidates st i) as [E'|[m [Hm E']]];
      rewrite E, E'; apply nth_In; [exact Hi|].
    unfold super_adjacency in Hm. apply RAG_neighbour in Hm.
    destruct Hm as [u [w [Hu [_ [Hw [_ ->]]]]]].
    destruct (@face_neighbours_grid _ u w Hu Hw) as [Hw' _].
    pose proof (@region_at_range observed_labelmap n Hseg w Hw'). lia.
  - assert (G : forall (A : Type) (k : nat) (v : A) (l : list A),
               length l <= k -> set_nth k v l = l).
    { clear. intros A k v l. revert k. induction l as [|y l IH]; intros [|k] Hk;
        cbn [set_nth length] in *; try reflexivity; try lia.
      rewrite IH by lia. reflexivity. }
    rewrite G in Hx by exact Hi. exact Hx.
Qed.

Lemma steps_entries (l : list nat) (st : State (F:=F)) :
  length (solution st) = n ->
  length (solution (fold_left step l st)) = n
  /\ forall x, In x (solution (fold_left step l st)) -> In x (solution st).
Proof.
  revert st. induction l as [|i l IH]; intros st Hn; cbn [fold_left]; [auto|].
  assert (Hn' : length (solution (step st i)) = n)
    by (cbn [improve_step solution]; rewrite set_nth_length; exact Hn).
  destruct (IH (step st i) Hn') as [L I]. split; [exact L|].
  intros x Hx. apply (@step_entries st i x Hn). apply I. exact Hx.
Qed.

(** X25. On an over-segmentation into the super-regions [0 .. n-1], the
    improvement never brings in a label: whatever the numbers of epochs and
    the cutoff, every label of the solution it ends with is a label of the
    solution it started from, in the loop of [calibration.py] and in the
    loop of [2d_full_process.py]. A label that no super-region holds is
    never given again. *)
Theorem improvement_never_adds_a_label (st : State (F:=F)) :
  length (solution st) = n ->
  (forall total_epochs improvement_cutoff x,
      In x (solution (improvement observation observed_labelmap model_graph mean_vertex
                                  std_vertex mean_edge std_edge vertex_weights edge_weights
                                  graph_weights total_epochs improvement_cutoff st)) ->
      In x (solution st))
  /\ (forall total_epochs st' x,
        improvement_2d observation observed_labelmap model_graph mean_vertex std_vertex
                       mean_edge std_edge vertex_weights edge_weights graph_weights
                       total_epochs st = Some st' ->
        In x (solution st') -> In x (solution st)).
Proof.
  intros Hn. split.
  - intros total_epochs improvement_cutoff. unfold improvement.
    assert (G : length (solution
                          (Nat.iter total_epochs
                             (improvement_epoch observation observed_labelmap model_graph
                                mean_vertex std_vertex mean_edge std_edge vertex_weights
                                edge_weights graph_weights improvement_cutoff) st)) = n
                /\ forall x,
                     In x (solution
                             (Nat.iter total_epochs
                                (improvement_epoch observation observed_labelmap model_graph
                                   mean_vertex std_vertex mean_edge std_edge vertex_weights
                                   edge_weights graph_weights improvement_cutoff) st)) ->
                     In x (solution st)).
    { induction total_epochs as [|k IH]; [cbn [Nat.iter]; auto|].
      rewrite Nat.iter_succ. destruct IH as [L I].
      unfold improvement_epoch at 1 3. cbn [rebuild solution].
      destruct (@steps_entries
                  (selected improvement_cutoff
                     (Nat.iter k
                        (improvement_epoch observation observed_labelmap model_graph
                           mean_vertex std_vertex mean_edge std_edge vertex_weights
                           edge_weights graph_weights improvement_cutoff) st))
                  _ L) as [L' I'].
      split; [exact L'|]. intros x Hx. apply I, I', Hx. }
    apply G.
  - intros total_epochs. revert st Hn.
    induction total_epochs as [|k IH]; intros st Hn st' x E Hx; cbn [improvement_2d] in E.
    + injection E as <-. exact Hx.
    + unfold improvement_epoch_2d in E.
      destruct (np_argmax (solution_costs st)) as [i|]; [|discriminate E].
      assert (Hn' : length (solution
                              (rebuild observation observed_labelmap model_graph mean_vertex
                                       std_vertex mean_edge std_edge (step st i))) = n)
        by (cbn [rebuild improve_step solution]; rewrite set_nth_length; exact Hn).
      apply (@step_entries st i x Hn).
      apply (IH _ Hn' st' x E Hx).
Qed.

End Spread.

Lemma improvement_never_adds_a_label_witness :
  Forall (fun x => In x (solution strip_detour))
         (solution (improvement strip_volume strip_observed_labelmap strip_model_graph
                                strip_mean_vertex strip_std_vertex strip_mean_edge
                                strip_std_edge vertex_weights_cal edge_weights_cal
                                graph_weights_cal 2 1 strip_detour)).
Proof.
  assert (Hseg : segmentation_ok strip_observed_labelmap 7).
  { split; [reflexivity|]. repeat constructor; vm_compute; congruence. }
  apply Forall_forall.
  apply (proj1 (@improvement_never_adds_a_label float float_Num strip_volume
                  strip_observed_labelmap strip_model_graph strip_mean_vertex
                  strip_std_vertex strip_mean_edge strip_std_edge vertex_weights_cal
                  edge_weights_cal graph_weights_cal 7 Hseg strip_detour eq_refl) 2 1).
Defined.

(* ------------------------------------------------------------------ *)
(** * The repair loop's premises on the four-voxel scenario *)

Lemma segmentation_connected_witness :
  connected 4 (super_adjacency half_observed_labelmap).
Proof.
  apply (@segmentation_connected half_observed_labelmap 4 half_segmentation_ok).
  intros r Hr. destruct r as [|[|[|[|r]]]]; simpl; auto. lia.
Defined.

Lemma contiguity_detect_repairable_witness :
  length alternating_detected = 4
  /\ repairable (n_model half_model_graph) alternating_detected.
Proof.
  apply (@contiguity_detect_repairable alternating_volume half_observed_labelmap
           half_model_graph half_mean_vertex half_std_vertex half_mean_edge half_std_edge
           initial_weights_2d 4 half_segmentation_ok half_regions_connected
           alternating_solution alternating_detected).
  - vm_compute. reflexivity.
  - apply Forall_forall. intros x Hx. vm_compute in Hx.
    destruct Hx as [<-|[<-|[<-|[<-|[]]]]]; vm_compute; split; congruence.
  - vm_compute. reflexivity.
Defined.

(* ------------------------------------------------------------------ *)
(** * Descent of the improvement under the default edge weights *)

Section EdgeColumns.
Context {F : Type} `{Num F}.

Lemma aligned_first_row (volume : list F) (labelmap : LabelMap) (add_edges : bool) (K : nat) :
  0 < K ->
  length (nth 0 (vertices (build_graph volume labelmap add_edges (Some K))) []) = 5.
Proof.
  intros HK. rewrite build_graph_vertices_target.
  destruct K as [|K]; [lia|]. cbn [seq target_rows].
  destruct (mem_Z (Z.of_nat 0) (np_unique (lm_data labelmap))) eqn:E; cbn [nth].
  - rewrite length_app. cbn [length].
    unfold measure_center_of_mass.
    destruct (np_unique (lm_data labelmap)) as [|l U]; [discriminate E|].
    cbn [map nth length]. reflexivity.
  - reflexivity.
Qed.

Lemma standardize_first_row (M : list (list F)) (mean std : list F) :
  M <> [] ->
  length (nth 0 (standardize M mean std) [])
  = Nat.min (Nat.min (length (nth 0 M [])) (length mean)) (length std).
Proof.
  intros HM. destruct M as [|r M]; [congruence|].
  unfold standardize, mdiv_row, msub_row. cbn [map nth].
  unfold vdiv, vsub. rewrite !map2_length. reflexivity.
Qed.

Lemma ncols_first_row (M : list (list F)) : ncols M = length (nth 0 M []).
Proof. destruct M; reflexivity. Qed.

Lemma graph_of_edge_columns (observation : list F) (model_graph : SRG (F:=F))
    (mean_vertex std_vertex mean_edge std_edge : list F) (labelmap : LabelMap) :
  0 < n_model model_graph ->
  length mean_edge = 5 -> length std_edge = 5 ->
  ncols (edges (graph_of observation model_graph mean_vertex std_vertex mean_edge std_edge
                         labelmap)) = 5.
Proof.
  intros HK Hme Hse. unfold graph_of, normalized, normalize_graph.
  set (g := build_graph observation labelmap true (Some (n_model model_graph))).
  assert (HV : length (vertices g) = n_model model_graph)
    by apply build_graph_vertices_length.
  assert (HE : length (edges g) = n_model model_graph * n_model model_graph).
  { unfold g. rewrite build_graph_edges, relational_edges_length.
    fold g. rewrite HV. reflexivity. }
  assert (Hpos : (0 <? length (edges g)) = true) by (apply Nat.ltb_lt; nia).
  rewrite Hpos. cbn [n_graph edges or_else].
  rewrite ncols_first_row, standardize_first_row
    by (intros C; rewrite C in HE; cbn [length] in HE; nia).
  rewrite zeros_to_one_length, Hme, Hse.
  assert (R0 : nth 0 (edges g) []
               = vsub (firstn 3 (nth 0 (vertices g) [])) (firstn 3 (nth 0 (vertices g) []))
                   ++ [fabs (fsub (nth 3 (nth 0 (vertices g) []) f0)
                                  (nth 3 (nth 0 (vertices g) []) f0));
                       fdiv (nth 4 (nth 0 (vertices g) []) f0)
                            (nth 4 (nth 0 (vertices g) []) f0)]).
  { unfold g at 1. rewrite build_graph_edges. fold g.
    pose proof (@relational_edges_nth F _ (vertices g) 0 0) as R.
    rewrite HV in R. cbn [Nat.mul Nat.add] in R. apply R; exact HK. }
  rewrite R0, length_app. unfold vsub. rewrite map2_length, length_firstn.
  unfold g. rewrite aligned_first_row by exact HK. reflexivity.
Qed.

Lemma argmax_scan_index (a : list F) (mp : F) (mi i : nat) :
  argmax_scan mp mi i a = mi \/ i <= argmax_scan mp mi i a < i + length a.
Proof.
  revert mp mi i. induction a as [|x a IH]; intros mp mi i; cbn [argmax_scan].
  - left. reflexivity.
  - destruct (negb (fleb x mp)).
    + destruct (fis_nan x); [right; cbn [length]; lia|].
      destruct (IH x i (S i)) as [E|E]; right; cbn [length]; lia.
    + destruct (IH mp mi (S i)) as [E|E]; [left; exact E|right; cbn [length]; lia].
Qed.

Lemma np_argmax_index (a : list F) (j : nat) : np_argmax a = Some j -> j < length a.
Proof.
  destruct a as [|x a]; [discriminate|]. cbn [np_argmax].
  destruct (fis_nan x); intros E; injection E as <-; cbn [length]; [lia|].
  destruct (argmax_scan_index a x 0 1) as [E|E]; lia.
Qed.

End EdgeColumns.

Section Descent.
Variable observation : list float.
Variable observed_labelmap : LabelMap.
Variable model_graph : SRG (F:=float).
Variables mean_vertex std_vertex mean_edge std_edge : list float.
Variables vertex_weights edge_weights : list float.
Variable graph_weights : float * float.

Hypothesis model_nonempty : 0 < n_model model_graph.
Hypothesis mean_edge_columns : length mean_edge = 5.
Hypothesis std_edge_columns : length std_edge = 5.
Hypothesis default_edge_weights : edge_weights = np_ones 5.

Local Abbreviation cost_of st :=
  (current_cost model_graph vertex_weights edge_weights graph_weights st).
Local Abbreviation step :=
  (improve_step observation observed_labelmap model_graph mean_vertex std_vertex mean_edge
                std_edge vertex_weights edge_weights graph_weights).
Local Abbreviation rebuilt :=
  (rebuild observation observed_labelmap model_graph mean_vertex std_vertex mean_edge
           std_edge).
Local Abbreviation consistent st :=
  (rebuilt_state observation observed_labelmap model_graph mean_vertex std_vertex mean_edge
                 std_edge st
   /\ length (solution st) = length (solution_costs st)).

Lemma rebuilt_consistent (st : State (F:=float)) :
  length (solution st) = length (solution_costs st) -> consistent (rebuilt st).
Proof. intros L. split; [split; reflexivity|exact L]. Qed.

Lemma rebuild_keeps_cost (st : State (F:=float)) :
  consistent st -> cost_of (rebuilt st) = cost_of st.
Proof.
  intros [[Hj Hg] _]. unfold current_cost. cbn [rebuild observation_graph].
  rewrite <- Hj, <- Hg. reflexivity.
Qed.

Lemma one_step_descends (st : State (F:=float)) (i : nat) :
  consistent st -> i < length (solution st) ->
  consistent (rebuilt (step st i))
  /\ (cost_of (rebuilt (step st i)) = cost_of st
      \/ fltb (cost_of (rebuilt (step st i))) (cost_of st) = true).
Proof.
  intros [Hst L] Hi. split.
  - apply rebuilt_consistent. cbn [improve_step solution solution_costs].
    rewrite !set_nth_length. exact L.
  - destruct (@accepted_step_lowers_cost observation observed_labelmap model_graph
                mean_vertex std_vertex mean_edge std_edge vertex_weights edge_weights
                graph_weights st i Hst Hi) as [[_ E]|Hlt].
    + cbn [rebuild observation_graph]. rewrite graph_of_edge_columns by assumption.
      exact default_edge_weights.
    + left. exact E.
    + right. exact Hlt.
Qed.

Lemma descent_trans (a b c : float) :
  (b = a \/ fltb b a = true) -> (c = b \/ fltb c b = true) -> c = a \/ fltb c a = true.
Proof.
  intros [->|Hba] [->|Hcb]; auto. right. apply (@fltb_trans c b a Hcb Hba).
Qed.

Lemma calibration_epoch_descends (st : State (F:=float)) :
  consistent st ->
  let st' := improvement_epoch observation observed_labelmap model_graph mean_vertex
                               std_vertex mean_edge std_edge vertex_weights edge_weights
                               graph_weights 1 st in
  consistent st' /\ (cost_of st' = cost_of st \/ fltb (cost_of st') (cost_of st) = true).
Proof.
  intros Hst st'. subst st'. unfold improvement_epoch.
  pose proof (@selected_in_range float _ 1 st) as Hsel.
  unfold selected in *.
  destruct (sorted_desc (enumerate (solution_costs st))) as [|[i c] rest];
    cbn [firstn map fold_left] in *.
  - split; [apply rebuilt_consistent, Hst|]. left. apply rebuild_keeps_cost, Hst.
  - apply one_step_descends; [exact Hst|].
    destruct Hst as [_ L]. rewrite L. apply Hsel. left. reflexivity.
Qed.

(** X26. With the default edge weights (as [(1,1,1,1,1)] in
    [calibration.py]) the improvement never raises the global cost: after
    any number of epochs of one super-vertex each, over the most expensive
    super-vertex of [calibration.py] or the arg-max of [2d_full_process.py],
    the global cost is the initial one or strictly lower. *)
Theorem improvement_descends_with_default_edge_weights (st : State (F:=float)) :
  rebuilt_state observation observed_labelmap model_graph mean_vertex std_vertex mean_edge
                std_edge st ->
  length (solution st) = length (solution_costs st) ->
  (forall total_epochs,
      let st' := improvement observation observed_labelmap model_graph mean_vertex
                             std_vertex mean_edge std_edge vertex_weights edge_weights
                             graph_weights total_epochs 1 st in
      cost_of st' = cost_of st \/ fltb (cost_of st') (cost_of st) = true)
  /\ (forall total_epochs st',
        improvement_2d observation observed_labelmap model_graph mean_vertex std_vertex
                       mean_edge std_edge vertex_weights edge_weights graph_weights
                       total_epochs st = Some st' ->
        cost_of st' = cost_of st \/ fltb (cost_of st') (cost_of st) = true).
Proof.
  intros Hst L. split.
  - intros total_epochs st'. subst st'. unfold improvement.
    assert (G : consistent
                  (Nat.iter total_epochs
                     (improvement_epoch observation observed_labelmap model_graph mean_vertex
                        std_vertex mean_edge std_edge vertex_weights edge_weights
                        graph_weights 1) st)
                /\ (cost_of (Nat.iter total_epochs
                               (improvement_epoch observation observed_labelmap model_graph
                                  mean_vertex std_vertex mean_edge std_edge vertex_weights
                                  edge_weights graph_weights 1) st) = cost_of st
                    \/ fltb (cost_of (Nat.iter total_epochs
                                        (improvement_epoch observation observed_labelmap
                                           model_graph mean_vertex std_vertex mean_edge
                                           std_edge vertex_weights edge_weights
                                           graph_weights 1) st))
                            (cost_of st) = true)).
    { induction total_epochs as [|k IH]; [cbn [Nat.iter]; auto|].
      rewrite Nat.iter_succ. destruct IH as [C D].
      destruct (@calibration_epoch_descends _ C) as [C' D'].
      split; [exact C'|]. apply (@descent_trans _ _ _ D D'). }
    apply G.
  - intros total_epochs. revert st Hst L.
    induction total_epochs as [|k IH]; intros st Hst L st' E; cbn [improvement_2d] in E.
    + injection E as <-. left. reflexivity.
    + unfold improvement_epoch_2d in E.
      destruct (np_argmax (solution_costs st)) as [i|] eqn:Ei; [|discriminate E].
      apply np_argmax_index in Ei. rewrite <- L in Ei.
      destruct (@one_step_descends st i (conj Hst L) Ei) as [[C1 C2] D].
      apply (@descent_trans _ _ _ D). apply (IH _ C1 C2 st' E).
Qed.

End Descent.

Lemma improvement_descends_with_default_edge_weights_witness :
  let st' := improvement strip_volume strip_observed_labelmap strip_model_graph
                         strip_mean_vertex strip_std_vertex strip_mean_edge strip_std_edge
                         vertex_weights_cal edge_weights_cal graph_weights_cal 2 1
                         strip_detour in
  current_cost strip_model_graph vertex_weights_cal edge_weights_cal graph_weights_cal st'
  = current_cost strip_model_graph vertex_weights_cal edge_weights_cal graph_weights_cal
                 strip_detour
  \/ fltb (current_cost strip_model_graph vertex_weights_cal edge_weights_cal
                        graph_weights_cal st')
          (current_cost strip_model_graph vertex_weights_cal edge_weights_cal
                        graph_weights_cal strip_detour) = true.
Proof.
  cbv zeta.
  refine (proj1 (@improvement_descends_with_default_edge_weights strip_volume
                   strip_observed_labelmap strip_model_graph strip_mean_vertex
                   strip_std_vertex strip_mean_edge strip_std_edge vertex_weights_cal
                   edge_weights_cal graph_weights_cal _ _ _ _ strip_detour _ _) 2).
  - vm_compute. lia.
  - vm_compute. reflexivity.
  - vm_compute. reflexivity.
  - vm_compute. reflexivity.
  - split; reflexivity.
  - vm_compute. reflexivity.
Defined.

(* ------------------------------------------------------------------ *)
(** * The majority vote of [hack_dice_optimal.py] *)

Lemma argmax_from_spec (a : list Z) (best : Z) (bi i : nat) :
  bi < i ->
  let k := argmax_from best bi i a in
  (k = bi /\ Forall (fun x => (x <= best)%Z) a)
  \/ exists j, j < length a /\ k = i + j /\ (best < nth j a 0)%Z
               /\ (forall j', j' < j -> (nth j' a 0 < nth j a 0)%Z)
               /\ Forall (fun x => (x <= nth j a 0)%Z) a.
Proof.
  revert best bi i. induction a as [|x a IH]; intros best bi i Hb; cbn [argmax_from].
  - left. split; [reflexivity|constructor].
  - destruct (Z.ltb_spec best x) as [Hlt|Hge].
    + destruct (IH x i (S i) ltac:(lia)) as [[E Hall]|[j [Hj [E [Hx [Hfirst Hall]]]]]].
      * right. exists 0. cbn [length nth]. rewrite E.
        repeat split; [lia|lia|exact Hlt|intros j' Hj'; lia|].
        constructor; [lia|exact Hall].
      * right. exists (S j). cbn [length nth]. rewrite E.
        repeat split; [lia|lia|lia| |].
        -- intros [|j'] Hj'; [exact Hx|apply Hfirst; lia].
        -- constructor; [lia|exact Hall].
    + destruct (IH best bi (S i) ltac:(lia)) as [[E Hall]|[j [Hj [E [Hx [Hfirst Hall]]]]]].
      * left. split; [exact E|]. constructor; [exact Hge|exact Hall].
      * right. exists (S j). cbn [length nth]. rewrite E.
        repeat split; [lia|lia|exact Hx| |].
        -- intros [|j'] Hj'; [lia|apply Hfirst; lia].
        -- constructor; [lia|exact Hall].
Qed.

Lemma argmax_Z_spec (a : list Z) :
  match argmax_Z a with
  | None => a = []
  | Some k =>
      k < length a
      /\ Forall (fun x => (x <= nth k a 0)%Z) a
      /\ forall j, j < k -> (nth j a 0 < nth k a 0)%Z
  end.
Proof.
  destruct a as [|x a]; [reflexivity|]. cbn [argmax_Z].
  destruct (@argmax_from_spec a x 0 1 ltac:(lia)) as [[E Hall]|[j [Hj [E [Hx [Hfirst Hall]]]]]];
    rewrite E.
  - cbn [length nth]. split; [lia|]. split; [|intros j Hj; lia].
    constructor; [lia|exact Hall].
  - cbn [length Nat.add nth]. split; [lia|]. split.
    + constructor; [lia|exact Hall].
    + intros [|j'] Hj'; [exact Hx|]. cbn [nth]. apply Hfirst. lia.
Qed.

Lemma sorted_nth_lt (U : list Z) (j k : nat) :
  StronglySorted Z.lt U -> j < k -> k < length U -> (nth j U 0 < nth k U 0)%Z.
Proof.
  intros HU. revert j k. induction HU as [|x U HU IH Hx]; intros j k Hjk Hk;
    cbn [length] in Hk; [lia|].
  destruct k as [|k]; [lia|]. destruct j as [|j]; cbn [nth].
  - rewrite Forall_forall in Hx. apply Hx, nth_In. lia.
  - apply IH; lia.
Qed.

Lemma filter_nonempty_In (l : Z) (a : list Z) :
  0 < length (filter (Z.eqb l) a) <-> In l a.
Proof.
  split.
  - intros Hpos. destruct (filter (Z.eqb l) a) as [|x f] eqn:E; [cbn [length] in Hpos; lia|].
    assert (Hx : In x (filter (Z.eqb l) a)) by (rewrite E; left; reflexivity).
    apply filter_In in Hx. destruct Hx as [Hx Ex]. apply Z.eqb_eq in Ex. subst. exact Hx.
  - intros Hin.
    assert (Hf : In l (filter (Z.eqb l) a))
      by (apply filter_In; split; [exact Hin|apply Z.eqb_refl]).
    destruct (filter (Z.eqb l) a); [destruct Hf|cbn [length]; lia].
Qed.

Lemma model_labels_in_empty (m o : list Z) (i : nat) :
  length m = length o ->
  model_labels_in m o i = [] <-> ~ In (Z.of_nat i) o.
Proof.
  intros L. unfold model_labels_in. split.
  - intros E Hin. destruct (In_nth _ _ 0%Z Hin) as [p [Hp Ep]].
    assert (Hx : In (nth p m 0%Z) (mask_select m (map (Z.eqb (Z.of_nat i)) o))).
    { apply mask_select_In. exists p. split; [apply nth_error_nth'; lia|].
      rewrite nth_error_map, (nth_error_nth' o 0%Z Hp), Ep. cbn [option_map].
      rewrite Z.eqb_refl. reflexivity. }
    rewrite E in Hx. destruct Hx.
  - intros Hn. destruct (mask_select m (map (Z.eqb (Z.of_nat i)) o)) as [|x f] eqn:E;
      [reflexivity|]. exfalso.
    assert (Hx : In x (mask_select m (map (Z.eqb (Z.of_nat i)) o)))
      by (rewrite E; left; reflexivity).
    apply (proj1 (mask_select_In _ _ _)) in Hx. destruct Hx as [p [_ Hp]].
    rewrite nth_error_map in Hp.
    destruct (nth_error o p) as [y|] eqn:Ey; [|discriminate Hp].
    cbn [option_map] in Hp. injection Hp as Hp. apply Z.eqb_eq in Hp. subst y.
    apply Hn. apply nth_error_In in Ey. exact Ey.
Qed.

(** X27. The solution [hack_dice_optimal.py] reads off the ground truth
    gives a super-region the model label that most of its voxels carry,
    the smallest such label on a tie; it raises (the [ValueError] of
    [np.argmax] on an empty array) exactly when the super-region has no
    voxel. *)
Theorem majority_label_most_frequent (model_data observed_data : list Z) (i : nat) :
  length model_data = length observed_data ->
  (majority_label model_data observed_data i = None <-> ~ In (Z.of_nat i) observed_data)
  /\ forall l, majority_label model_data observed_data i = Some l ->
       0 < votes model_data observed_data i l
       /\ forall l', votes model_data observed_data i l' <= votes model_data observed_data i l
                     /\ (votes model_data observed_data i l'
                         = votes model_data observed_data i l -> (l <= l')%Z).
Proof.
  intros L. unfold majority_label, votes.
  set (inside := model_labels_in model_data observed_data i).
  pose proof (argmax_Z_spec (unique_counts inside)) as A.
  pose proof (np_unique_sorted inside) as HU.
  assert (Hcount : forall j, j < length (np_unique inside) ->
            nth j (unique_counts inside) 0%Z
            = Z.of_nat (length (filter (Z.eqb (nth j (np_unique inside) 0%Z)) inside))).
  { intros j Hj. unfold unique_counts.
    apply (@nth_map_lt _ _ (fun l => Z.of_nat (length (filter (Z.eqb l) inside)))
             (np_unique inside) j 0%Z 0%Z Hj). }
  assert (Hlen : length (unique_counts inside) = length (np_unique inside))
    by (unfold unique_counts; apply length_map).
  cbv zeta. destruct (argmax_Z (unique_counts inside)) as [k|]; split.
  - split; [discriminate|]. intros Hn. exfalso.
    apply (model_labels_in_empty model_data observed_data i L) in Hn. fold inside in Hn.
    rewrite Hn in A. cbn in A. lia.
  - intros l E. injection E as <-. destruct A as [Hk [Hmax Hfirst]].
    rewrite Hlen in Hk.
    assert (Hin : In (nth k (np_unique inside) 0%Z) inside)
      by (apply (proj1 (np_unique_In _ _)), nth_In; exact Hk).
    split; [apply filter_nonempty_In; exact Hin|].
    intros l'.
    destruct (in_dec Z.eq_dec l' inside) as [Hl'|Hl'].
    + apply np_unique_In in Hl'. destruct (In_nth _ _ 0%Z Hl') as [j [Hj Ej]].
      assert (Hle : (nth j (unique_counts inside) 0 <= nth k (unique_counts inside) 0)%Z).
      { rewrite Forall_forall in Hmax. apply Hmax, nth_In. lia. }
      rewrite (Hcount j Hj), (Hcount k Hk), Ej in Hle. split; [lia|].
      intros Etie.
      destruct (Z.le_gt_cases (nth k (np_unique inside) 0%Z) l') as [Hok|Hlt]; [exact Hok|].
      exfalso.
      assert (Hjk : j < k).
      { destruct (Nat.lt_ge_cases j k) as [H1|H1]; [exact H1|].
        destruct (Nat.eq_dec j k) as [H2|H2]; [subst j; lia|].
        pose proof (@sorted_nth_lt (np_unique inside) k j HU ltac:(lia) Hj). lia. }
      specialize (Hfirst j Hjk). rewrite (Hcount j Hj), (Hcount k Hk), Ej in Hfirst. lia.
    + assert (E0 : length (filter (Z.eqb l') inside) = 0).
      { destruct (Nat.eq_dec (length (filter (Z.eqb l') inside)) 0) as [E|E]; [exact E|].
        exfalso. apply Hl', filter_nonempty_In. lia. }
      rewrite E0. split; [lia|]. intros Etie.
      apply filter_nonempty_In in Hin. lia.
  - split; [|reflexivity]. intros _.
    apply (model_labels_in_empty model_data observed_data i L). fold inside.
    unfold unique_counts in A. apply map_eq_nil in A.
    destruct inside as [|x rest]; [reflexivity|]. exfalso.
    assert (Hx : In x (np_unique (x :: rest))) by (apply np_unique_In; left; reflexivity).
    rewrite A in Hx. destruct Hx.
  - intros l E. discriminate E.
Qed.

Lemma majority_label_most_frequent_witness :
  (majority_label [5; 7; 7; 5; 9]%Z [0; 1; 1; 1; 1]%Z 1 = None
   <-> ~ In (Z.of_nat 1) [0; 1; 1; 1; 1]%Z)
  /\ forall l, majority_label [5; 7; 7; 5; 9]%Z [0; 1; 1; 1; 1]%Z 1 = Some l ->
       0 < votes [5; 7; 7; 5; 9]%Z [0; 1; 1; 1; 1]%Z 1 l
       /\ forall l', votes [5; 7; 7; 5; 9]%Z [0; 1; 1; 1; 1]%Z 1 l'
                     <= votes [5; 7; 7; 5; 9]%Z [0; 1; 1; 1; 1]%Z 1 l
                     /\ (votes [5; 7; 7; 5; 9]%Z [0; 1; 1; 1; 1]%Z 1 l'
                         = votes [5; 7; 7; 5; 9]%Z [0; 1; 1; 1; 1]%Z 1 l -> (l <= l')%Z).
Proof.
  apply (@majority_label_most_frequent [5; 7; 7; 5; 9]%Z [0; 1; 1; 1; 1]%Z 1).
  reflexivity.
Defined.

(* ------------------------------------------------------------------ *)
(** * The ground-truth solution on an over-segmentation that refines the model *)

Lemma np_unique_constant (v : Z) (a : list Z) :
  a <> [] -> Forall (fun x => x = v) a -> np_unique a = [v].
Proof.
  intros Hne Hall. unfold np_unique.
  induction Hall as [|x a Hx Hall IH]; [congruence|]. subst x. cbn [fold_right].
  destruct a as [|y a].
  - reflexivity.
  - rewrite IH by discriminate. cbn [insert_unique].
    rewrite Z.ltb_irrefl, Z.eqb_refl. reflexivity.
Qed.

Lemma optimal_labels_map (m o : list Z) (regions : list nat) :
  (forall i, In i regions -> majority_label m o i <> None) ->
  optimal_labels m o regions
  = Some (map (fun i => or_else (majority_label m o i) 0%Z) regions).
Proof.
  induction regions as [|i rest IH]; intros Hall; [reflexivity|].
  cbn [optimal_labels map]. rewrite IH by (intros j Hj; apply Hall; right; exact Hj).
  destruct (majority_label m o i) eqn:E; [reflexivity|].
  exfalso. apply (Hall i); [left; reflexivity|exact E].
Qed.

Section Truth.
Context {F : Type}.
Variables model_labelmap observed_labelmap : LabelMap.
Variable model_graph : SRG (F:=F).
Variable n : nat.

Local Abbreviation m := (lm_data model_labelmap).
Local Abbreviation o := (lm_data observed_labelmap).

Hypothesis one_shape : lm_shape model_labelmap = lm_shape observed_labelmap.
Hypothesis one_size : length m = length o.
Hypothesis ids : forall x, In x o <-> (0 <= x < Z.of_nat n)%Z.
Hypothesis model_labels : Forall (fun l => (0 <= l < Z.of_nat (n_model model_graph))%Z) m.
Hypothesis refinement : refines m o.

Lemma majority_refined (p : nat) :
  p < length o ->
  majority_label m o (Z.to_nat (nth p o 0%Z)) = Some (nth p m 0%Z).
Proof.
  intros Hp.
  assert (Hid : (0 <= nth p o 0 < Z.of_nat n)%Z) by (apply ids, nth_In; exact Hp).
  unfold majority_label.
  set (inside := model_labels_in m o (Z.to_nat (nth p o 0%Z))).
  assert (Hin : In (nth p m 0%Z) inside).
  { unfold inside, model_labels_in. apply mask_select_In. exists p.
    split; [apply nth_error_nth'; lia|].
    rewrite nth_error_map, (nth_error_nth' o 0%Z Hp). cbn [option_map].
    rewrite Z2Nat.id by lia. rewrite Z.eqb_refl. reflexivity. }
  assert (Hall : Forall (fun x => x = nth p m 0%Z) inside).
  { apply Forall_forall. intros x Hx. unfold inside, model_labels_in in Hx.
    apply (proj1 (mask_select_In _ _ _)) in Hx. destruct Hx as [q [Hq Hmask]].
    rewrite nth_error_map in Hmask.
    destruct (nth_error o q) as [y|] eqn:Ey; [|discriminate Hmask].
    cbn [option_map] in Hmask. injection Hmask as Hmask. apply Z.eqb_eq in Hmask.
    assert (Hq' : q < length o) by (apply nth_error_Some; congruence).
    apply (nth_error_nth _ _ 0%Z) in Hq. apply (nth_error_nth _ _ 0%Z) in Ey.
    rewrite <- Hq. apply refinement; [exact Hq'|exact Hp|].
    rewrite Ey, <- Hmask. lia. }
  assert (Hne : inside <> []) by (intros E; rewrite E in Hin; destruct Hin).
  cbv zeta. unfold unique_counts. rewrite (np_unique_constant Hne Hall).
  reflexivity.
Qed.

Lemma majority_total (i : nat) :
  i < n ->
  exists p, p < length o /\ nth p o 0%Z = Z.of_nat i
            /\ majority_label m o i = Some (nth p m 0%Z).
Proof.
  intros Hi.
  assert (Hin : In (Z.of_nat i) o) by (apply ids; lia).
  destruct (In_nth _ _ 0%Z Hin) as [p [Hp Ep]].
  exists p. split; [exact Hp|]. split; [exact Ep|].
  pose proof (majority_refined Hp) as M. rewrite Ep, Nat2Z.id in M. exact M.
Qed.

Lemma observed_ids : np_unique o = map Z.of_nat (seq 0 n).
Proof.
  apply sorted_same_elements; [apply np_unique_sorted|apply seq_sorted|].
  intros x. rewrite np_unique_In, ids, in_map_iff. split.
  - intros Hx. exists (Z.to_nat x). split; [lia|apply in_seq; lia].
  - intros [k [<- Hk]]. apply in_seq in Hk. lia.
Qed.

Lemma optimal_join_is_model :
  exists s, optimal_solution model_labelmap observed_labelmap = Some s
            /\ length s = n
            /\ Forall (fun l => (0 <= l < Z.of_nat (n_model model_graph))%Z) s
            /\ join_by_label observed_labelmap model_graph s = model_labelmap.
Proof.
  set (s := map (fun i => or_else (majority_label m o i) 0%Z) (seq 0 n)).
  assert (Hs : forall i, i < n ->
             exists p, p < length o /\ nth p o 0%Z = Z.of_nat i
                       /\ nth i s 0%Z = nth p m 0%Z).
  { intros i Hi. destruct (majority_total Hi) as [p [Hp [Ep M]]].
    exists p. split; [exact Hp|]. split; [exact Ep|]. unfold s.
    rewrite (@nth_map_lt _ _ (fun i => or_else (majority_label m o i) 0%Z) (seq 0 n) i 0%Z 0)
      by (rewrite length_seq; exact Hi).
    rewrite seq_nth by exact Hi. cbn [Nat.add]. rewrite M. reflexivity. }
  assert (Ls : length s = n) by (unfold s; rewrite length_map, length_seq; reflexivity).
  exists s. split; [|split; [exact Ls|split]].
  - unfold optimal_solution. rewrite observed_ids, length_map, length_seq.
    apply optimal_labels_map. intros i Hi. apply in_seq in Hi.
    destruct (@majority_total i ltac:(lia)) as [p [_ [_ M]]]. rewrite M. discriminate.
  - apply Forall_forall. intros l Hl. destruct (In_nth _ _ 0%Z Hl) as [i [Hi <-]].
    rewrite Ls in Hi. destruct (Hs i Hi) as [p [Hp [_ ->]]].
    rewrite Forall_forall in model_labels. apply model_labels, nth_In. lia.
  - apply labelmap_ext; [symmetry; exact one_shape|].
    rewrite join_by_label_data.
    apply nth_ext with (d := 0%Z) (d' := 0%Z); [rewrite length_map; lia|].
    intros p Hp. rewrite length_map in Hp.
    rewrite (@nth_map_lt _ _ _ o p 0%Z 0%Z Hp).
    assert (Hid : (0 <= nth p o 0 < Z.of_nat n)%Z) by (apply ids, nth_In; exact Hp).
    destruct (Hs (Z.to_nat (nth p o 0%Z)) ltac:(lia)) as [q [Hq [Eq Es]]].
    assert (Em : nth q m 0%Z = nth p m 0%Z).
    { apply refinement; [exact Hq|exact Hp|]. rewrite Eq. lia. }
    rewrite Es, Em, Ls.
    assert (Hl : (0 <= nth p m 0 < Z.of_nat (n_model model_graph))%Z).
    { rewrite Forall_forall in model_labels. apply model_labels, nth_In. lia. }
    destruct (Z.leb_spec 0 (nth p o 0%Z)), (Z.ltb_spec (nth p o 0%Z) (Z.of_nat n)),
             (Z.leb_spec 0 (nth p m 0%Z)),
             (Z.ltb_spec (nth p m 0%Z) (Z.of_nat (n_model model_graph)));
      first [lia|reflexivity].
Qed.

(** X28. When the over-segmentation refines the model labelmap (the voxels
    of a super-region share one model label), its ids are exactly
    [0 .. n-1] and the model labels are below the number of model vertices,
    the script [hack_dice_optimal.py] finds a label for every super-region
    and its joined labelmap is the model labelmap itself; in exact
    arithmetic its Dice score is then 1 for every label the model
    carries. *)
Theorem optimal_solution_reproduces_model :
  exists s, optimal_solution model_labelmap observed_labelmap = Some s
            /\ length s = n
            /\ join_by_label observed_labelmap model_graph s = model_labelmap
            /\ forall l, In l m ->
                 dice_coefficient (F:=xreal)
                   (map (Z.eqb l) (lm_data (join_by_label observed_labelmap model_graph s)))
                   (map (Z.eqb l) m)
                 = XFin 1.
Proof.
  destruct optimal_join_is_model as [s [E [L [_ J]]]].
  exists s. split; [exact E|]. split; [exact L|]. split; [exact J|].
  intros l Hl. rewrite J.
  assert (Hpos : (0 < bool_sum (map (Z.eqb l) m))%Z).
  { unfold bool_sum. destruct (In_nth _ _ 0%Z Hl) as [p [Hp Ep]].
    assert (Hin : In true (filter (fun b : bool => b) (map (Z.eqb l) m))).
    { apply filter_In. split; [|reflexivity]. apply in_map_iff. exists l.
      split; [apply Z.eqb_refl|exact Hl]. }
    destruct (filter (fun b : bool => b) (map (Z.eqb l) m)); [destruct Hin|].
    cbn [length]. lia. }
  rewrite dice_coefficient_value by lia.
  rewrite logical_and_diag. f_equal. rewrite plus_IZR. field.
  apply IZR_lt in Hpos. lra.
Qed.

End Truth.

Lemma optimal_solution_reproduces_model_witness :
  exists s, optimal_solution half_model_labelmap half_observed_labelmap = Some s
            /\ length s = 4
            /\ join_by_label half_observed_labelmap half_model_graph s = half_model_labelmap
            /\ forall l, In l (lm_data half_model_labelmap) ->
                 dice_coefficient (F:=xreal)
                   (map (Z.eqb l)
                        (lm_data (join_by_label half_observed_labelmap half_model_graph s)))
                   (map (Z.eqb l) (lm_data half_model_labelmap))
                 = XFin 1.
Proof.
  apply (@optimal_solution_reproduces_model float half_model_labelmap
           half_observed_labelmap half_model_graph 4).
  - reflexivity.
  - reflexivity.
  - intros x. simpl. lia.
  - repeat constructor; vm_compute; congruence.
  - intros p q Hp Hq. simpl in Hp, Hq.
    destruct p as [|[|[|[|p]]]]; destruct q as [|[|[|[|q]]]]; simpl; try lia;
      intros E; try discriminate E; reflexivity.
Defined.

(* ------------------------------------------------------------------ *)
(** * The ground-truth solution costs nothing *)

Section TruthCost.
Variable volume : list float.
Variables model_labelmap observed_labelmap : LabelMap.
Variables vertex_weights edge_weights : list float.
Variable n : nat.

Local Abbreviation raw := (build_graph volume model_labelmap true None).
Local Abbreviation fit := (fit_model volume model_labelmap).
Local Abbreviation model_graph := (n_graph fit).
Local Abbreviation mean_vertex := (or_else (n_mean_vertex fit) []).
Local Abbreviation std_vertex := (or_else (n_std_vertex fit) []).
Local Abbreviation mean_edge := (or_else (n_mean_edge fit) []).
Local Abbreviation std_edge := (or_else (n_std_edge fit) []).

Lemma fitted_vertex_count :
  n_model model_graph = length (np_unique (lm_data model_labelmap)).
Proof.
  unfold n_model, fit_model, normalize_graph.
  destruct (0 <? length (edges raw)); cbn [n_graph vertices];
    rewrite standardize_length; apply build_graph_vertices_count.
Qed.

Lemma refit_on_model :
  lm_data model_labelmap <> [] ->
  (forall x, In x (lm_data model_labelmap)
             <-> (0 <= x < Z.of_nat (n_model model_graph))%Z) ->
  graph_of volume model_graph mean_vertex std_vertex mean_edge std_edge model_labelmap
  = model_graph.
Proof.
  intros Hne Hlab. unfold graph_of, normalized.
  rewrite (@aligned_graph_is_plain float _ volume model_labelmap true _ Hlab).
  assert (Hpos : (0 <? length (edges raw)) = true).
  { rewrite build_graph_edges, relational_edges_length, build_graph_vertices_count.
    apply Nat.ltb_lt.
    assert (0 < length (np_unique (lm_data model_labelmap))); [|nia].
    destruct (lm_data model_labelmap) as [|x rest] eqn:E; [congruence|].
    assert (Hx : In x (np_unique (x :: rest))) by (apply np_unique_In; left; reflexivity).
    destruct (np_unique (x :: rest)); [destruct Hx|cbn [length]; lia]. }
  assert (S : Some mean_vertex = n_mean_vertex fit /\ Some std_vertex = n_std_vertex fit
              /\ Some mean_edge = n_mean_edge fit /\ Some std_edge = n_std_edge fit).
  { unfold fit_model, normalize_graph. rewrite Hpos. repeat split; reflexivity. }
  destruct S as [S1 [S2 [S3 S4]]]. rewrite S1, S2, S3, S4.
  apply (normalize_graph_again raw).
Qed.

(** X29. The check [hack_dice_optimal.py] performs: when the
    over-segmentation refines the model labelmap, the ids of its
    super-regions are exactly [0 .. n-1], the model labels are exactly
    those of the model vertices and the observation volume is the model
    volume, the graph of the ground-truth solution is the model graph, and
    in float64 all its vertex costs and edge costs are exactly 0 (the
    attributes of the model graph and the renormalized weights being
    finite). *)
Theorem optimal_solution_costs_nothing :
  lm_shape model_labelmap = lm_shape observed_labelmap ->
  length (lm_data model_labelmap) = length (lm_data observed_labelmap) ->
  (forall x, In x (lm_data observed_labelmap) <-> (0 <= x < Z.of_nat n)%Z) ->
  refines (lm_data model_labelmap) (lm_data observed_labelmap) ->
  lm_data model_labelmap <> [] ->
  (forall x, In x (lm_data model_labelmap)
             <-> (0 <= x < Z.of_nat (n_model model_graph))%Z) ->
  Forall (Forall is_finite) (vertices model_graph) ->
  Forall (Forall is_finite) (edges model_graph) ->
  Forall is_finite (renormalize vertex_weights) ->
  Forall is_finite (renormalize edge_weights) ->
  exists s,
    optimal_solution model_labelmap observed_labelmap = Some s
    /\ let joined := join_by_label observed_labelmap model_graph s in
       let observation_graph :=
         graph_of volume model_graph mean_vertex std_vertex mean_edge std_edge joined in
       observation_graph = model_graph
       /\ compute_vertex_cost (vertices observation_graph) (vertices model_graph)
                              (Some vertex_weights)
          = repeat 0%float (n_model model_graph)
       /\ compute_edge_cost (edges observation_graph) (edges model_graph)
                            (Some edge_weights)
          = repeat 0%float (length (edges model_graph)).
Proof.
  intros Hshape Hsize Hids Href Hne Hlab HV HE Hvw Hew.
  assert (Hrange : Forall (fun l => (0 <= l < Z.of_nat (n_model model_graph))%Z)
                          (lm_data model_labelmap))
    by (apply Forall_forall; intros l Hl; apply Hlab, Hl).
  destruct (@optimal_join_is_model float model_labelmap observed_labelmap model_graph n
              Hshape Hsize Hids Hrange Href) as [s [E [_ [_ J]]]].
  exists s. split; [exact E|]. cbv zeta. rewrite J, (@refit_on_model Hne Hlab).
  split; [reflexivity|]. split.
  - apply (@self_cost_rows (vertices model_graph) vertex_weights HV Hvw).
  - apply (@self_cost_rows (edges model_graph) edge_weights HE Hew).
Qed.

End TruthCost.

(** The list a [Forall] ranges over, evaluated. *)
Ltac evaluated_rows :=
  match goal with
  | |- Forall _ ?l =>
      let rows := fresh "rows" in
      set (rows := l); vm_compute in rows; subst rows
  end.

Lemma optimal_solution_costs_nothing_witness :
  let fit := fit_model half_model_volume half_model_labelmap in
  exists s,
    optimal_solution half_model_labelmap half_observed_labelmap = Some s
    /\ let joined := join_by_label half_observed_labelmap (n_graph fit) s in
       let observation_graph :=
         graph_of half_model_volume (n_graph fit) (or_else (n_mean_vertex fit) [])
                  (or_else (n_std_vertex fit) []) (or_else (n_mean_edge fit) [])
                  (or_else (n_std_edge fit) []) joined in
       observation_graph = n_graph fit
       /\ compute_vertex_cost (vertices observation_graph) (vertices (n_graph fit))
                              (Some vertex_weights_cal)
          = repeat 0%float (n_model (n_graph fit))
       /\ compute_edge_cost (edges observation_graph) (edges (n_graph fit))
                            (Some edge_weights_cal)
          = repeat 0%float (length (edges (n_graph fit))).
Proof.
  cbv zeta.
  refine (@optimal_solution_costs_nothing half_model_volume half_model_labelmap
            half_observed_labelmap vertex_weights_cal edge_weights_cal 4
            _ _ _ _ _ _ _ _ _ _).
  - reflexivity.
  - reflexivity.
  - intros x. simpl. lia.
  - intros p q Hp Hq. simpl in Hp, Hq.
    destruct p as [|[|[|[|p]]]]; destruct q as [|[|[|[|q]]]]; simpl; try lia;
      intros E; try discriminate E; reflexivity.
  - discriminate.
  - intros x.
    replace (n_model (n_graph (fit_model half_model_volume half_model_labelmap))) with 2
      by (vm_compute; reflexivity).
    simpl. lia.
  - evaluated_rows. repeat constructor.
  - evaluated_rows. repeat constructor.
  - evaluated_rows. repeat constructor.
  - evaluated_rows. repeat constructor.
Defined.
